(** * Internal-coordinate transform of boltzgen, embedded in Rocq

    Shallow embedding of [src/boltzgen/internal.py]:
    - the construction-time index machinery ([topological_sort],
      [_setup_indices]) over natural-number atom indices,
    - the numerical kernels ([calc_bonds], [calc_angles], [calc_dihedrals],
      [reconstruct_cart]) and the forward / inverse transforms over the
      real numbers of the Standard Library (tensors of floats are read as
      tensors of reals; a batch is a list of rows),
    - the anchor-frame wrapper [CompleteInternalCoordinateTransform].

    Python exceptions are an explicit outcome, loops that the source writes
    as [while] carry fuel, and a run that exhausts it is reported as
    [Diverges]. *)

From Stdlib Require Import Reals Lra Lia List Permutation Relations.
From stdpp Require Import base list gmap.
Import ListNotations.

(* ===================================================================== *)
(** ** Outcomes of fallible code *)
(* ===================================================================== *)

(** The exception classes the source raises, by their Python names.
    [ValueError] comes from [_validate_data], [AssertionError] from the
    anchor-count [assert], [RuntimeError] from [topological_sort],
    [IndexError] from tensor or list indexing out of range and [NameError]
    from reading a loop variable no loop has bound. *)
Inductive exn : Type :=
| ValueError
| AssertionError
| RuntimeError
| IndexError
| NameError.

Inductive outcome (A : Type) : Type :=
| Returns (a : A)
| Raises (e : exn)
| Diverges.
Arguments Returns {A} a.
Arguments Raises {A} e.
Arguments Diverges {A}.

Definition obind {A B} (m : outcome A) (k : A -> outcome B) : outcome B :=
  match m with
  | Returns a => k a
  | Raises e => Raises e
  | Diverges => Diverges
  end.

#[global] Instance outcome_ret : MRet outcome := fun A a => Returns a.
#[global] Instance outcome_bind : MBind outcome := fun A B k m => obind m k.

Definition exn_eq_dec (a b : exn) : {a = b} + {a <> b}.
Proof. decide equality. Defined.

(* ===================================================================== *)
(** ** [topological_sort] *)
(* ===================================================================== *)

(** A Python [dict] keeps insertion order, and the order of
    [graph_unsorted.items()] decides the order of the result, so the dict
    is an association list with unique keys. Atom indices are naturals
    (the data model has no negative index). *)
Definition graph := list (nat * list nat).

Definition has_key (g : graph) (k : nat) : bool :=
  existsb (fun p => Nat.eqb (fst p) k) g.

(** [d[k] = v]: an existing key keeps its position, a new one is appended. *)
Fixpoint dict_set (k : nat) (v : list nat) (g : graph) : graph :=
  match g with
  | [] => [(k, v)]
  | (k', v') :: g' =>
      if Nat.eqb k' k then (k, v) :: g' else (k', v') :: dict_set k v g'
  end.

(** [dict(pairs)] *)
Definition dict (pairs : list (nat * list nat)) : graph :=
  fold_left (fun g p => dict_set (fst p) (snd p) g) pairs [].

(** [del d[k]] *)
Definition del_key (k : nat) (g : graph) : graph :=
  List.filter (fun p => negb (Nat.eqb (fst p) k)) g.

(** The inner [for edge in edges: if edge in graph_unsorted: break]:
    true when the loop breaks. *)
Definition blocked (unsorted : graph) (edges : list nat) : bool :=
  existsb (has_key unsorted) edges.

(** One execution of the [for node, edges in list(graph_unsorted.items())]
    loop over the snapshot [items]; the state is the live dict, the sorted
    list and the [acyclic] flag. *)
Fixpoint sort_pass (items : graph) (unsorted sorted : graph) (acyclic : bool)
  : graph * graph * bool :=
  match items with
  | [] => (unsorted, sorted, acyclic)
  | (node, edges) :: rest =>
      if blocked unsorted edges
      then sort_pass rest unsorted sorted acyclic
      else sort_pass rest (del_key node unsorted) (sorted ++ [(node, edges)]) true
  end.

(** The [while graph_unsorted] loop. *)
Fixpoint sort_loop (fuel : nat) (unsorted sorted : graph) : outcome graph :=
  match unsorted with
  | [] => Returns sorted
  | _ :: _ =>
      match fuel with
      | O => Diverges
      | S fuel' =>
          let '(unsorted', sorted', acyclic) :=
            sort_pass unsorted unsorted sorted false in
          if acyclic then sort_loop fuel' unsorted' sorted'
          else Raises RuntimeError
      end
  end.

(** Every pass that does not raise deletes a key, so as many passes as
    there are keys suffice ([topological_sort_total] below). *)
Definition topological_sort (graph_unsorted : list (nat * list nat))
  : outcome graph :=
  let g := dict graph_unsorted in
  sort_loop (length g) g [].

(** The dependency relation of a specification: [a] has [b] among its
    reference atoms and [b] is itself an atom to be placed. *)
Definition depends (g : graph) (a b : nat) : Prop :=
  exists edges, In (a, edges) g /\ In b edges /\ has_key g b = true.

Definition cyclic (z : list (nat * list nat)) : Prop :=
  exists a, clos_trans nat (depends (dict z)) a a.

Definition acyclic (z : list (nat * list nat)) : Prop := ~ cyclic z.

(** Position of the first entry with key [k]. *)
Fixpoint key_index (k : nat) (g : graph) : option nat :=
  match g with
  | [] => None
  | (k', _) :: g' => if Nat.eqb k' k then Some O else option_map S (key_index k g')
  end.

(** [l] respects the references of [g]: an entry's reference atoms that are
    themselves placed atoms occur strictly before the entry. *)
Definition refs_before (g l : graph) : Prop :=
  forall i node edges e,
    nth_error l i = Some (node, edges) ->
    In e edges -> has_key g e = true ->
    exists j, key_index e l = Some j /\ j < i.


(** *** Predicates used to state and prove the properties of the sort *)

(** Every entry of the sorted prefix comes after those of its reference
    atoms that are placed atoms of [g0]. *)
Definition ordered (g0 s : graph) : Prop :=
  forall s1 node edges s2 e,
    s = s1 ++ (node, edges) :: s2 ->
    In e edges -> has_key g0 e = true -> has_key s1 e = true.

(** No atom of a dependency cycle has left the unsorted dict. *)
Definition keeps_cycles (g0 u : graph) : Prop :=
  forall a, clos_trans nat (depends g0) a a -> has_key u a = true.

(** Invariant of the [while] loop: unsorted dict [u], sorted list [s]. *)
Record sort_inv (g0 u s : graph) : Prop := {
  inv_perm : Permutation (s ++ u) g0;
  inv_ordered : ordered g0 s;
  inv_cycles : keeps_cycles g0 u
}.

(** Consecutive elements of [c] are related by [R]. *)
Fixpoint chain (R : nat -> nat -> Prop) (c : list nat) : Prop :=
  match c with
  | x :: c' =>
      match c' with
      | y :: _ => R x y /\ chain R c'
      | [] => True
      end
  | [] => True
  end.

(* ===================================================================== *)
(** ** Index tensors and [_setup_indices] *)
(* ===================================================================== *)

(** Reading and writing an integer tensor (or a list) by position: out of
    range is Python's [IndexError]. *)
Definition get_item {A} (l : list A) (i : nat) : outcome A :=
  match l !! i with
  | Some a => Returns a
  | None => Raises IndexError
  end.

Definition set_item {A} (l : list A) (i : nat) (a : A) : outcome (list A) :=
  if decide (i < length l) then Returns (<[i := a]> l) else Raises IndexError.

Fixpoint omapM {A B} (f : A -> outcome B) (l : list A) : outcome (list B) :=
  match l with
  | [] => Returns []
  | a :: l' => b ← f a; bs ← omapM f l'; mret (b :: bs)
  end.

Fixpoint ofoldl {A S} (f : S -> A -> outcome S) (l : list A) (s : S)
  : outcome S :=
  match l with
  | [] => Returns s
  | a :: l' => s' ← f s a; ofoldl f l' s'
  end.

(** [enumerate(l)] *)
Definition enumerate {A} (l : list A) : list (nat * A) :=
  combine (seq 0 (length l)) l.

(** A row [[atom1, atom2, atom3, atom4]]: the atom to place and its three
    reference atoms. In a block the last three are positions in the
    growing Cartesian buffer instead. *)
Definition zrow : Type := nat * nat * nat * nat.

Definition row_atom (r : zrow) : nat := let '(a, _, _, _) := r in a.
Definition row_ref1 (r : zrow) : nat := let '(_, b, _, _) := r in b.
Definition row_ref2 (r : zrow) : nat := let '(_, _, c, _) := r in c.
Definition row_ref3 (r : zrow) : nat := let '(_, _, _, d) := r in d.

(** [[item[0], item[1][0], item[1][1], item[1][2]]] *)
Definition z_row (item : nat * list nat) : outcome zrow :=
  match snd item with
  | r0 :: r1 :: r2 :: _ => Returns (fst item, r0, r1, r2)
  | _ => Raises IndexError
  end.

(** [l[0::3]] *)
Fixpoint every_third {A} (l : list A) : list A :=
  match l with
  | a :: rest =>
      a :: match rest with
           | _ :: _ :: rest' => every_third rest'
           | _ => []
           end
  | [] => []
  end.

Definition triple_list (t : nat * nat * nat) : list nat :=
  let '(a, b, c) := t in [a; b; c].

(** The buffers [_setup_indices] registers. *)
Record indices : Type := {
  n_atoms : nat;
  inds_for_atom : list (nat * nat * nat);
  modified_indices : list nat;
  bond_indices : list nat;
  angle_indices : list nat;
  dih_indices : list nat;
  sorted_z_indices : list zrow;
  rev_z_indices : list zrow;
  atom_to_stats : list nat;
  rev_perm : list nat;
  rev_perm_inv : list nat;
  init_cart_indices : list nat;
  rev_blocks : list (list zrow)
}.

(** State of the block loop that the source keeps in [self.rev_perm],
    [self.rev_perm_inv] and [current_cart_ind]. *)
Record perm_state : Type := {
  ps_perm : list nat;
  ps_perm_inv : list nat;
  ps_cur : nat
}.

(** One execution of [for atom1, atom2, atom3, atom4 in sorted_z_indices]
    with [all_cart] fixed; accumulates [next_z_indices], [next_cart] and
    [block]. *)
Fixpoint block_pass (all_cart : gset nat) (rows : list zrow)
    (st : perm_state) (next_z : list zrow) (next_cart : gset nat)
    (block : list zrow)
  : outcome (perm_state * list zrow * gset nat * list zrow) :=
  match rows with
  | [] => Returns (st, next_z, next_cart, block)
  | (atom1, atom2, atom3, atom4) :: rest =>
      if decide (atom2 ∈ all_cart /\ atom3 ∈ all_cart /\ atom4 ∈ all_cart)
      then
        perm' ← set_item (ps_perm st) (ps_cur st) atom1;
        inv' ← set_item (ps_perm_inv st) atom1 (ps_cur st);
        atom2_mod ← get_item inv' atom2;
        atom3_mod ← get_item inv' atom3;
        atom4_mod ← get_item inv' atom4;
        block_pass all_cart rest
          {| ps_perm := perm'; ps_perm_inv := inv'; ps_cur := S (ps_cur st) |}
          next_z ({[atom1]} ∪ next_cart)
          (block ++ [(atom1, atom2_mod, atom3_mod, atom4_mod)])
      else
        block_pass all_cart rest st
          (next_z ++ [(atom1, atom2, atom3, atom4)]) next_cart block
  end.

(** The [while sorted_z_indices] loop. A pass that places no atom leaves
    [all_cart] as it was, so the source then repeats that pass for ever:
    fuel equal to the number of rows runs out exactly in that case. *)
Fixpoint block_loop (fuel : nat) (sorted_z : list zrow) (all_cart : gset nat)
    (st : perm_state) (blocks : list (list zrow))
  : outcome (perm_state * list (list zrow)) :=
  match sorted_z with
  | [] => Returns (st, blocks)
  | _ :: _ =>
      match fuel with
      | O => Diverges
      | S fuel' =>
          '(st', next_z, next_cart, block) ←
            block_pass all_cart sorted_z st [] ∅ [];
          block_loop fuel' next_z (all_cart ∪ next_cart) st'
            (blocks ++ [block])
      end
  end.

(** The value of [i] when [current_cart_ind = i + 1] is reached: the loop
    variable of the last [for] that ran at least once ([cart_indices], else
    the [enumerate(mod)] loop, else [range(n_atoms)]); when none of them
    ran the name is unbound and Python raises [NameError]. *)
Definition leaked_i (n_atoms n_mod n_cart : nat) : option nat :=
  if decide (0 < n_cart) then Some (n_cart - 1)
  else if decide (0 < n_mod) then Some (n_mod - 1)
  else if decide (0 < n_atoms) then Some (n_atoms - 1)
  else None.

(** Body of [for i, j in enumerate(mod): atom_to_stats[j] = i]. *)
Definition stats_step (t : list nat) (ij : nat * nat) : outcome (list nat) :=
  set_item t (snd ij) (fst ij).

(** Body of [for i, j in enumerate(cart_indices)]:
    [rev_perm[i] = j; rev_perm_inv[j] = i]. *)
Definition cart_step (st : perm_state) (ij : nat * nat) : outcome perm_state :=
  p ← set_item (ps_perm st) (fst ij) (snd ij);
  q ← set_item (ps_perm_inv st) (snd ij) (fst ij);
  mret {| ps_perm := p; ps_perm_inv := q; ps_cur := ps_cur st |}.

Definition _setup_indices (dims : nat) (z_indices : list (nat * list nat))
    (cart_indices : list nat) : outcome indices :=
  let n_atoms := dims / 3 in
  let ind_for_atom :=
    map (fun i => (3 * i, 3 * i + 1, 3 * i + 2)) (seq 0 n_atoms) in
  sorted ← topological_sort z_indices;
  sorted_z_indices ← omapM z_row sorted;
  let rev_z_indices := rev sorted_z_indices in
  let mod_ := map row_atom sorted_z_indices in
  triples ← omapM (get_item ind_for_atom) mod_;
  let modified_indices := flat_map triple_list triples in
  let bond_indices := every_third modified_indices in
  let angle_indices := every_third (skipn 1 modified_indices) in
  let dih_indices := every_third (skipn 2 modified_indices) in
  atom_to_stats ←
    ofoldl stats_step (enumerate mod_) (replicate n_atoms 0);
  cart_triples ← omapM (get_item ind_for_atom) cart_indices;
  let init_cart_indices := flat_map triple_list cart_triples in
  st0 ←
    ofoldl cart_step (enumerate cart_indices)
      {| ps_perm := replicate n_atoms 0;
         ps_perm_inv := replicate n_atoms 0;
         ps_cur := 0 |};
  match leaked_i n_atoms (length mod_) (length cart_indices) with
  | None => Raises NameError
  | Some i =>
      '(st, blocks) ←
        block_loop (length sorted_z_indices) sorted_z_indices
          (list_to_set cart_indices)
          {| ps_perm := ps_perm st0; ps_perm_inv := ps_perm_inv st0;
             ps_cur := i + 1 |}
          [];
      mret {| n_atoms := n_atoms;
              inds_for_atom := ind_for_atom;
              modified_indices := modified_indices;
              bond_indices := bond_indices;
              angle_indices := angle_indices;
              dih_indices := dih_indices;
              sorted_z_indices := sorted_z_indices;
              rev_z_indices := rev_z_indices;
              atom_to_stats := atom_to_stats;
              rev_perm := ps_perm st;
              rev_perm_inv := ps_perm_inv st;
              init_cart_indices := init_cart_indices;
              rev_blocks := blocks |}
  end.

(** *** Predicates used to state and prove the properties of the blocks *)

Definition row_refs (r : zrow) : list nat := [row_ref1 r; row_ref2 r; row_ref3 r].

(** The test of the block loop for one row. *)
Definition ready (all_cart : gset nat) (r : zrow) : bool :=
  bool_decide (row_ref1 r ∈ all_cart /\ row_ref2 r ∈ all_cart
               /\ row_ref3 r ∈ all_cart).

(** [row] is the z-matrix row [orig] with its three reference atoms
    replaced by their positions in the Cartesian buffer [L]. *)
Definition remapped (L : list nat) (orig row : zrow) : Prop :=
  row_atom row = row_atom orig
  /\ L !! row_ref1 row = Some (row_ref1 orig)
  /\ L !! row_ref2 row = Some (row_ref2 orig)
  /\ L !! row_ref3 row = Some (row_ref3 orig).

(** The atoms of a list of blocks, in building order. *)
Definition block_atoms (blocks : list (list zrow)) : list nat :=
  flat_map (map row_atom) blocks.

(** [blocks] are the z-matrix rows [OB], block by block, each remapped
    against the buffer as it stands when the block is built: [L] first,
    then [L] extended by the atoms of the blocks before. *)
Fixpoint blocks_remapped (L : list nat) (OB blocks : list (list zrow)) : Prop :=
  match OB, blocks with
  | [], [] => True
  | ob :: OB', b :: blocks' =>
      Forall2 (remapped L) ob b
      /\ blocks_remapped (L ++ map row_atom b) OB' blocks'
  | _, _ => False
  end.

(** Between two passes: [L] lists the atoms placed so far. *)
Record loop_inv (L : list nat) (st : perm_state) : Prop := {
  li_cur : ps_cur st = length L;
  li_perm : forall m, m < length L -> ps_perm st !! m = L !! m;
  li_inv : forall a, In a L ->
             exists m, ps_perm_inv st !! a = Some m /\ L !! m = Some a
}.

(** Inside a pass that started from buffer [L0]: [block] holds the rows
    built so far and [origs] the z-matrix rows they come from. *)
Record pass_inv (L0 : list nat) (origs block : list zrow) (st : perm_state)
  : Prop := {
  pi_rows : Forall2 (remapped L0) origs block;
  pi_cur : ps_cur st = length L0 + length block;
  pi_perm : forall m, m < length L0 + length block ->
              ps_perm st !! m = (L0 ++ map row_atom block) !! m;
  pi_inv0 : forall a, In a L0 ->
              exists m, ps_perm_inv st !! a = Some m /\ L0 !! m = Some a;
  pi_inv : forall a, In a (map row_atom block) ->
             exists m, ps_perm_inv st !! a = Some m
                       /\ (L0 ++ map row_atom block) !! m = Some a
}.

(** The pending rows can be placed in their order: every reference atom
    is already in the buffer [L0] or is the atom of an earlier row. *)
Definition placeable (L0 : list nat) (pending : list zrow) : Prop :=
  forall l1 r l2 e,
    pending = l1 ++ r :: l2 -> In e (row_refs r) ->
    In e L0 \/ In e (map row_atom l1).

(** Number of buffer positions filled before block [k] is built. *)
Definition block_start (cart_indices : list nat) (blocks : list (list zrow))
    (k : nat) : nat :=
  length cart_indices + length (concat (take k blocks)).

(** A topology specification that meets the data model: the z-matrix
    atoms are distinct and none is an anchor, anchors are distinct, anchors
    and z-matrix atoms together are exactly the atoms [0 .. dims / 3 - 1],
    every entry has three references, each an anchor or a z-matrix atom,
    and there is no dependency cycle. *)
Record wf_topology (dims : nat) (z : list (nat * list nat)) (cart : list nat)
  : Prop := {
  wf_dims : dims = 3 * (dims / 3);
  wf_keys_nodup : List.NoDup (map fst z);
  wf_cart_nodup : List.NoDup cart;
  wf_disjoint : forall a, In a cart -> ~ In a (map fst z);
  wf_cover : forall a, a < dims / 3 <-> In a cart \/ In a (map fst z);
  wf_three : forall p, In p z -> length (snd p) = 3;
  wf_refs : forall p e, In p z -> In e (snd p) ->
              In e cart \/ In e (map fst z);
  wf_acyclic : acyclic z
}.

(** What the buffers of a successful [_setup_indices] look like, as used
    by [forward] and [inverse]. *)
Record setup_ok (dims : nat) (cart : list nat) (ix : indices) : Prop := {
  so_inds : forall a, a < dims / 3 ->
              nth a (inds_for_atom ix) (0, 0, 0) = (3 * a, 3 * a + 1, 3 * a + 2);
  so_atoms_lt : forall r, In r (sorted_z_indices ix) -> row_atom r < dims / 3;
  so_atoms_nodup : List.NoDup (map row_atom (sorted_z_indices ix));
  so_rev : rev_z_indices ix = rev (sorted_z_indices ix);
  so_bond : bond_indices ix
            = map (fun r => 3 * row_atom r) (sorted_z_indices ix);
  so_angle : angle_indices ix
             = map (fun r => 3 * row_atom r + 1) (sorted_z_indices ix);
  so_dih : dih_indices ix
           = map (fun r => 3 * row_atom r + 2) (sorted_z_indices ix);
  so_stats : forall i r, sorted_z_indices ix !! i = Some r ->
               atom_to_stats ix !! row_atom r = Some i;
  so_cart_lt : forall c, In c cart -> c < dims / 3;
  so_init : init_cart_indices ix
            = flat_map (fun c => [3 * c; 3 * c + 1; 3 * c + 2]) cart
}.

(* ===================================================================== *)
(** ** Real-number primitives of the tensor library *)
(* ===================================================================== *)

Section Primitives.
Local Open Scope R_scope.

(** [torch.sum] over a list of reals. *)
Definition Rsum (l : list R) : R := fold_right Rplus 0 l.

(** [torch.mean] and the unbiased [torch.std] along the batch. *)
Definition mean (l : list R) : R := Rsum l / INR (length l).

Definition std (l : list R) : R :=
  sqrt (Rsum (map (fun v => (v - mean l) ^ 2) l) / (INR (length l) - 1)).

(** [torch.atan2(y, x)] on reals (no signed zero). *)
Definition atan2 (y x : R) : R :=
  if Rlt_dec 0 x then atan (y / x)
  else if Rlt_dec x 0 then
         if Rle_dec 0 y then atan (y / x) + PI else atan (y / x) - PI
  else if Rlt_dec 0 y then PI / 2
  else if Rlt_dec y 0 then - (PI / 2)
  else 0.

(** Python's and torch's [a % b]: the remainder of floored division. *)
Definition py_mod (a b : R) : R := a - b * IZR (Zfloor (a / b)).

(** Points and vectors of the last tensor dimension (size 3). *)
Record vec3 : Type := V3 { vx : R; vy : R; vz : R }.

Definition vzero : vec3 := V3 0 0 0.
Definition vadd (a b : vec3) : vec3 := V3 (vx a + vx b) (vy a + vy b) (vz a + vz b).
Definition vsub (a b : vec3) : vec3 := V3 (vx a - vx b) (vy a - vy b) (vz a - vz b).
Definition vscale (a : vec3) (s : R) : vec3 := V3 (vx a * s) (vy a * s) (vz a * s).
Definition vdiv (a : vec3) (s : R) : vec3 := V3 (vx a / s) (vy a / s) (vz a / s).

(** [torch.sum(a * b, dim=2)], [torch.cross(a, b, dim=2)] and
    [torch.norm(a, dim=2)]. *)
Definition dot (a b : vec3) : R := vx a * vx b + vy a * vy b + vz a * vz b.
Definition cross (a b : vec3) : vec3 :=
  V3 (vy a * vz b - vz a * vy b)
     (vz a * vx b - vx a * vz b)
     (vx a * vy b - vy a * vx b).
Definition norm (a : vec3) : R := sqrt (vx a * vx a + vy a * vy a + vz a * vz a).

(** A row of a 2-D tensor is a list of reals; a read out of range (an
    [IndexError] in the source) yields 0 here, and every statement about
    the transforms is made for rows of the declared width, where the
    indices built by [_setup_indices] are in range. *)
Definition col (row : list R) (i : nat) : R := nth i row 0.

(** [row[idx]] for an index list, and [row[idx] = vals]. *)
Definition gather (row : list R) (idx : list nat) : list R := map (col row) idx.

Definition scatter (row : list R) (idx : list nat) (vals : list R) : list R :=
  fold_left (fun r iv => <[fst iv := snd iv]> r) (combine idx vals) row.

(** [coords[:, ind]] for one row and one index triple. *)
Definition gather3 (row : list R) (ind : nat * nat * nat) : vec3 :=
  let '(i, j, k) := ind in V3 (col row i) (col row j) (col row k).

(** [t.view(n_batch, -1, 3)] and [t.view(n_batch, -1)] on one row. *)
Fixpoint view3 (row : list R) : list vec3 :=
  match row with
  | x :: y :: z :: rest => V3 x y z :: view3 rest
  | _ => []
  end.

Definition flatten3 (l : list vec3) : list R :=
  flat_map (fun v => [vx v; vy v; vz v]) l.

(* ===================================================================== *)
(** ** The geometric kernels *)
(* ===================================================================== *)

(** Bodies of [calc_bonds], [calc_angles] and [calc_dihedrals] for one
    entry of the index tensors. *)
Definition bond_of (p1 p2 : vec3) : R := norm (vsub p2 p1).

Definition angle_of (b c d : vec3) : R :=
  let bc := vsub b c in
  let bc := vdiv bc (norm bc) in
  let cd := vsub d c in
  let cd := vdiv cd (norm cd) in
  let cos_angle := dot bc cd in
  acos cos_angle.

Definition dihedral_of (a b c d : vec3) : R :=
  let b0 := vsub a b in
  let b1 := vsub c b in
  let b1 := vdiv b1 (norm b1) in
  let b2 := vsub d c in
  let v := vsub b0 (vscale b1 (dot b0 b1)) in
  let w := vsub b2 (vscale b1 (dot b2 b1)) in
  let x := dot v w in
  let b1xv := cross b1 v in
  let y := dot b1xv w in
  let angle := atan2 y x in
  - angle.

Definition calc_bonds (ind1 ind2 : list (nat * nat * nat)) (coords : list R)
  : list R :=
  zip_with (fun i1 i2 => bond_of (gather3 coords i1) (gather3 coords i2))
    ind1 ind2.

Definition calc_angles (ind1 ind2 ind3 : list (nat * nat * nat))
    (coords : list R) : list R :=
  zip_with (fun i1 '(i2, i3) =>
              angle_of (gather3 coords i1) (gather3 coords i2)
                (gather3 coords i3))
    ind1 (zip ind2 ind3).

Definition calc_dihedrals (ind1 ind2 ind3 ind4 : list (nat * nat * nat))
    (coords : list R) : list R :=
  zip_with (fun '(i1, i2) '(i3, i4) =>
              dihedral_of (gather3 coords i1) (gather3 coords i2)
                (gather3 coords i3) (gather3 coords i4))
    (zip ind1 ind2) (zip ind3 ind4).

(** Body of [reconstruct_cart] for one atom: the position of [p4]. *)
Definition place_atom (p1 p2 p3 : vec3) (bond angle dih : R) : vec3 :=
  let v1 := vsub p1 p2 in
  let v2 := vsub p1 p3 in
  let n := cross v1 v2 in
  let n := vdiv n (norm n) in
  let nn := cross v1 n in
  let nn := vdiv nn (norm nn) in
  let n := vscale n (sin dih) in
  let nn := vscale nn (cos dih) in
  let v3 := vadd n nn in
  let v3 := vdiv v3 (norm v3) in
  let v3 := vscale (vscale v3 bond) (sin angle) in
  let v1 := vdiv v1 (norm v1) in
  let v1 := vscale (vscale v1 bond) (cos angle) in
  vsub (vadd p1 v3) v1.

Definition cart_at (cart : list vec3) (i : nat) : vec3 := nth i cart vzero.

(** [reconstruct_cart(cart, ref_atoms, bonds, angles, dihs)] on one batch
    element: the new positions and the log-Jacobian. *)
Definition reconstruct_cart (cart : list vec3) (ref_atoms : list (nat * nat * nat))
    (bonds angles dihs : list R) : list vec3 * R :=
  let jac :=
    Rsum (zip_with (fun b a => 2 * ln (Rabs b) + ln (Rabs (sin a)))
            bonds angles) in
  let new_cart :=
    zip_with (fun '(r, b) '(a, d) =>
                let '(r1, r2, r3) := r in
                place_atom (cart_at cart r1) (cart_at cart r2)
                  (cart_at cart r3) b a d)
      (zip ref_atoms bonds) (zip angles dihs) in
  (new_cart, jac).

(** [_periodic_angle_loss] on one batch element. *)
Definition _periodic_angle_loss (angles : list R) : R :=
  let positive_loss :=
    Rsum (map (fun a => (if Rlt_dec PI a then a - PI else 0) ^ 2) angles) in
  let negative_loss :=
    Rsum (map (fun a => (if Rlt_dec a (- PI) then a + PI else 0) ^ 2) angles) in
  positive_loss + negative_loss.

(** The two dihedral wraps: [_fix_dih] (forward and construction) and the
    pair of [torch.where] of [inverse]. *)
Definition wrap_fix_dih (dih : R) : R := py_mod (dih + PI) (2 * PI) - PI.

Definition wrap_inverse (dihs : R) : R :=
  let dihs := if Rlt_dec dihs PI then dihs + 2 * PI else dihs in
  let dihs := if Rlt_dec PI dihs then dihs - 2 * PI else dihs in
  dihs.

(** *** Vocabulary of the statements about wraps and the penalty *)

(** [a] and [b] differ by an integer multiple of [2 * PI]. *)
Definition congruent_2pi (a b : R) : Prop :=
  exists k : Z, a = b + IZR k * (2 * PI).

(** The penalty of one angle as the documentation words it: [(a - PI)^2]
    above [PI], [(a + PI)^2] below [- PI], nothing in between. *)
Definition penalty_spec (a : R) : R :=
  if Rlt_dec PI a then (a - PI) ^ 2
  else if Rlt_dec a (- PI) then (a + PI) ^ 2
  else 0.

End Primitives.

(* ===================================================================== *)
(** ** Row operations shared by construction, forward and inverse *)
(* ===================================================================== *)

Section RowOps.
Local Open Scope R_scope.

(** [row[idx] -= vals] and [row[idx] /= vals]: read, combine, write back. *)
Definition isub_at (idx : list nat) (vals : list R) (row : list R) : list R :=
  scatter row idx (zip_with Rminus (gather row idx) vals).

Definition idiv_at (idx : list nat) (vals : list R) (row : list R) : list R :=
  scatter row idx (zip_with Rdiv (gather row idx) vals).

(** [_fix_dih] on one row. *)
Definition _fix_dih_row (dih_indices : list nat) (row : list R) : list R :=
  let dih := gather row dih_indices in
  let dih := map wrap_fix_dih dih in
  scatter row dih_indices dih.

(** [self.inds_for_atom[atoms]] *)
Definition atom_inds (ix : indices) (a : nat) : nat * nat * nat :=
  nth a (inds_for_atom ix) (0, 0, 0)%nat.

(** [_fwd] on one row of the clone: raw bonds, angles and dihedrals are
    computed from the Cartesian row and then written over the three
    columns of every z-matrix atom. *)
Definition _fwd_row (ix : indices) (x : list R) : list R * R :=
  let inds1 := map (fun r => atom_inds ix (row_ref1 r)) (rev_z_indices ix) in
  let inds2 := map (fun r => atom_inds ix (row_ref2 r)) (rev_z_indices ix) in
  let inds3 := map (fun r => atom_inds ix (row_ref3 r)) (rev_z_indices ix) in
  let inds4 := map (fun r => atom_inds ix (row_atom r)) (rev_z_indices ix) in
  let bonds := calc_bonds inds1 inds4 x in
  let angles := calc_angles inds2 inds1 inds4 x in
  let dihedrals := calc_dihedrals inds3 inds2 inds1 inds4 x in
  let jac :=
    - Rsum (zip_with (fun b a => 2 * ln b + ln (Rabs (sin a))) bonds angles) in
  let x := scatter x (map (fun t => fst (fst t)) inds4) bonds in
  let x := scatter x (map (fun t => snd (fst t)) inds4) angles in
  let x := scatter x (map (fun t => snd t) inds4) dihedrals in
  (x, jac).

(** Column [i] of a batch, and per-column statistics over [idx]. *)
Definition column (X : list (list R)) (i : nat) : list R :=
  map (fun row => col row i) X.

Definition col_means (X : list (list R)) (idx : list nat) : list R :=
  map (fun i => mean (column X i)) idx.

Definition col_stds (X : list (list R)) (idx : list nat) : list R :=
  map (fun i => std (column X i)) idx.

(** [torch.linspace(lo, hi, steps)] *)
Definition linspace (lo hi : R) (steps : nat) : list R :=
  map (fun k => lo + INR k * ((hi - lo) / (INR steps - 1))) (seq 0 steps).

(** [torch.histc(xs, bins, min=lo, max=hi)]: equal-width bins, values
    outside [[lo, hi]] ignored, [hi] itself counted in the last bin. *)
Definition bin_of (x : R) (bins : nat) (lo hi : R) : nat :=
  Nat.min (Z.to_nat (Zfloor ((x - lo) / (hi - lo) * INR bins))) (bins - 1).

Definition histc (xs : list R) (bins : nat) (lo hi : R) : list nat :=
  map (fun k =>
         length (List.filter (fun x =>
                           if Rle_dec lo x then
                             if Rle_dec x hi then Nat.eqb (bin_of x bins lo hi) k
                             else false
                           else false) xs))
    (seq 0 bins).

(** [torch.argmin]: the first position of the least count. *)
Fixpoint argmin_from (l : list nat) (i best_i best : nat) : nat :=
  match l with
  | [] => best_i
  | h :: l' =>
      if Nat.ltb h best then argmin_from l' (S i) i h
      else argmin_from l' (S i) best_i best
  end.

Definition argmin (l : list nat) : nat :=
  match l with
  | [] => 0%nat
  | h :: l' => argmin_from l' 1 0 h
  end.

(** *** Vocabulary of the statements about forward and inverse *)

(** Position of atom [a] in a flattened Cartesian row. *)
Definition pos (x : list R) (a : nat) : vec3 :=
  gather3 x (3 * a, 3 * a + 1, 3 * a + 2)%nat.

(** The row [x] with every atom moved by the vector [t]. *)
Definition translate (t : vec3) (x : list R) : list R :=
  flatten3 (map (fun p => vadd p t) (view3 x)).

(** Three anchors in the frame that the complete transform's [inverse]
    builds: the first at the origin, the second on the non-negative x
    axis, the third in the xy plane with a non-negative y. *)
Definition canonical_frame (p0 p1 p2 : vec3) : Prop :=
  p0 = V3 0 0 0
  /\ 0 <= vx p1 /\ vy p1 = 0 /\ vz p1 = 0
  /\ 0 <= vy p2 /\ vz p2 = 0.

(** Raw internal coordinates of the z-matrix row [r] in the row [x]. *)
Definition raw_bond (x : list R) (r : zrow) : R :=
  bond_of (pos x (row_ref1 r)) (pos x (row_atom r)).

Definition raw_angle (x : list R) (r : zrow) : R :=
  angle_of (pos x (row_ref2 r)) (pos x (row_ref1 r)) (pos x (row_atom r)).

Definition raw_dihedral (x : list R) (r : zrow) : R :=
  dihedral_of (pos x (row_ref3 r)) (pos x (row_ref2 r)) (pos x (row_ref1 r))
    (pos x (row_atom r)).

(** Column [c] is one of the three channels of atom [a]. *)
Definition channel_of (a c : nat) : Prop :=
  c = (3 * a)%nat \/ c = (3 * a + 1)%nat \/ c = (3 * a + 2)%nat.

(** The geometry of the z-matrix row [r] in the Cartesian row [x] is not
    degenerate: the bond is not zero, the angle lies strictly inside
    (0, PI), and the three reference atoms are not colinear. *)
Definition noncolinear (p1 p2 p3 : vec3) : Prop :=
  cross (vsub p1 p2) (vsub p1 p3) <> vzero.

Definition nondegenerate (x : list R) (r : zrow) : Prop :=
  raw_bond x r <> 0
  /\ 0 < raw_angle x r < PI
  /\ noncolinear (pos x (row_ref1 r)) (pos x (row_ref2 r))
       (pos x (row_ref3 r)).

End RowOps.

(* ===================================================================== *)
(** ** [InternalCoordinateTransform] *)
(* ===================================================================== *)

(** Tensors are mutable and passed by reference: a store maps the identity
    of a 2-D tensor to its rows. *)
Abbreviation store := (gmap nat (list (list R))).

Module InternalCoordinateTransform.
Section Class.
Local Open Scope R_scope.

(** The [default_std] dictionary. *)
Record default_std_t : Type := {
  std_bond : R;
  std_angle : R;
  std_dihedral : R
}.

Definition default_std_default : default_std_t :=
  {| std_bond := 5 / 1000; std_angle := 15 / 100; std_dihedral := 2 / 10 |}.

(** The [data] argument: an array with its [shape]; [rows] is its content
    when it is two-dimensional. *)
Record tensor : Type := {
  shape : list nat;
  rows : list (list R)
}.

(** The object: construction arguments kept as attributes, registered
    buffers, and the [angle_loss] attribute that [inverse] assigns (absent
    until the first call). *)
Record t : Type := {
  dims : nat;
  ix : indices;
  default_std : default_std_t;
  ind_circ_dih : list nat;
  mean_bonds : list R;
  std_bonds : list R;
  mean_angles : list R;
  std_angles : list R;
  mean_dih : list R;
  std_dih : list R;
  scale_jac : R;
  angle_loss : option (list R)
}.

Definition _validate_data (dims : nat) (data : option tensor) : outcome unit :=
  match data with
  | None => Raises ValueError
  | Some d =>
      if decide (length (shape d) <> 2%nat) then Raises ValueError
      else
        let n_dim := nth 1 (shape d) 0%nat in
        if decide (n_dim <> dims) then Raises ValueError
        else Returns tt
  end.

Definition data_rows (data : option tensor) : list (list R) :=
  match data with
  | Some d => rows d
  | None => []
  end.

Definition _setup_mean_bonds (ix : indices) (x : list (list R)) : list R :=
  col_means x (bond_indices ix).

Definition _setup_std_bonds (ix : indices) (dflt : default_std_t)
    (mean_bonds : list R) (x : list (list R)) : list R :=
  if decide (1 < length x)%nat then col_stds x (bond_indices ix)
  else map (fun _ => 1 * std_bond dflt) mean_bonds.

Definition _setup_mean_angles (ix : indices) (x : list (list R)) : list R :=
  col_means x (angle_indices ix).

Definition _setup_std_angles (ix : indices) (dflt : default_std_t)
    (mean_angles : list R) (x : list (list R)) : list R :=
  if decide (1 < length x)%nat then col_stds x (angle_indices ix)
  else map (fun _ => 1 * std_angle dflt) mean_angles.

Definition _setup_mean_dih (ix : indices) (x : list (list R)) : list R :=
  let sin_ := map (fun i => mean (map sin (column x i))) (dih_indices ix) in
  let cos_ := map (fun i => mean (map cos (column x i))) (dih_indices ix) in
  zip_with atan2 sin_ cos_.

Definition _setup_std_dih (ix : indices) (dflt : default_std_t)
    (ind_circ_dih : list nat) (mean_dih : list R) (x : list (list R))
  : outcome (list R) :=
  if decide (1 < length x)%nat then Returns (col_stds x (dih_indices ix))
  else
    let std_dih := map (fun _ => 1 * std_dihedral dflt) mean_dih in
    ofoldl (fun s i => set_item s i 1) ind_circ_dih std_dih.

(** One iteration of the [shift_dih] loop, for position [i] of the
    statistics; the state is [transformed] and [mean_dih]. *)
Definition shift_step (ix : indices) (hist_bins : nat) (std_dih : list R)
    (st : list (list R) * list R) (i : nat)
  : outcome (list (list R) * list R) :=
  let '(transformed, mean_dih) := st in
  let val := linspace (- PI) PI hist_bins in
  c ← get_item (dih_indices ix) i;
  s ← get_item std_dih i;
  m ← get_item mean_dih i;
  let dih := column transformed c in
  let dih := map (fun d => d * s + m) dih in
  let dih := map (fun d => py_mod (d + PI) (2 * PI) - PI) dih in
  let hist := histc dih hist_bins (- PI) PI in
  v ← get_item val (argmin hist);
  let m' := v + PI in
  let mean_dih := <[i := m']> mean_dih in
  let dih := map (fun d => (d - m') / s) dih in
  let dih := map (fun d => py_mod (d + PI) (2 * PI) - PI) dih in
  let transformed := zip_with (fun row d => <[c := d]> row) transformed dih in
  Returns (transformed, mean_dih).

Definition __init__ (dims : nat) (z_indices : list (nat * list nat))
    (cart_indices : list nat) (data : option tensor)
    (ind_circ_dih : list nat) (shift_dih : bool) (hist_bins : nat)
    (default_std : default_std_t) : outcome t :=
  ix ← _setup_indices dims z_indices cart_indices;
  _ ← _validate_data dims data;
  let transformed := map (fun x => fst (_fwd_row ix x)) (data_rows data) in
  let mean_bonds := _setup_mean_bonds ix transformed in
  let transformed := map (isub_at (bond_indices ix) mean_bonds) transformed in
  let std_bonds := _setup_std_bonds ix default_std mean_bonds transformed in
  let transformed := map (idiv_at (bond_indices ix) std_bonds) transformed in
  let mean_angles := _setup_mean_angles ix transformed in
  let transformed := map (isub_at (angle_indices ix) mean_angles) transformed in
  let std_angles := _setup_std_angles ix default_std mean_angles transformed in
  let transformed := map (idiv_at (angle_indices ix) std_angles) transformed in
  let mean_dih := _setup_mean_dih ix transformed in
  let transformed := map (isub_at (dih_indices ix) mean_dih) transformed in
  let transformed := map (_fix_dih_row (dih_indices ix)) transformed in
  std_dih ← _setup_std_dih ix default_std ind_circ_dih mean_dih transformed;
  let transformed := map (idiv_at (dih_indices ix) std_dih) transformed in
  '(_, mean_dih) ←
    (if shift_dih
     then ofoldl (shift_step ix hist_bins std_dih) ind_circ_dih
            (transformed, mean_dih)
     else Returns (transformed, mean_dih));
  let scale_jac :=
    - (Rsum (map ln std_bonds) + Rsum (map ln std_angles)
       + Rsum (map ln std_dih)) in
  Returns {| dims := dims; ix := ix; default_std := default_std;
             ind_circ_dih := ind_circ_dih;
             mean_bonds := mean_bonds; std_bonds := std_bonds;
             mean_angles := mean_angles; std_angles := std_angles;
             mean_dih := mean_dih; std_dih := std_dih;
             scale_jac := scale_jac; angle_loss := None |}.

(** [forward] on one row; [_fwd] has cloned the input. *)
Definition forward_row (self : t) (x : list R) : list R * R :=
  let '(trans, jac) := _fwd_row (ix self) x in
  let trans := isub_at (bond_indices (ix self)) (mean_bonds self) trans in
  let trans := idiv_at (bond_indices (ix self)) (std_bonds self) trans in
  let trans := isub_at (angle_indices (ix self)) (mean_angles self) trans in
  let trans := idiv_at (angle_indices (ix self)) (std_angles self) trans in
  let trans := isub_at (dih_indices (ix self)) (mean_dih self) trans in
  let trans := _fix_dih_row (dih_indices (ix self)) trans in
  let trans := idiv_at (dih_indices (ix self)) (std_dih self) trans in
  (trans, jac + scale_jac self).

Definition forward (self : t) (x : list (list R)) : list (list R) * list R :=
  (map (fun r => fst (forward_row self r)) x,
   map (fun r => snd (forward_row self r)) x).

(** Un-normalised channel [off] (0 bond, 1 angle, 2 dihedral) of atom [a]:
    [x[:, 3 * a + off] * std[atom_to_stats[a]] + mean[atom_to_stats[a]]]. *)
Definition unnormalize (self : t) (stds means : list R) (off : nat)
    (x : list R) (a : nat) : R :=
  let s := nth a (atom_to_stats (ix self)) 0%nat in
  col x (3 * a + off) * nth s stds 0 + nth s means 0.

(** Body of the [for block in self.rev_blocks] loop for one batch element;
    the state is [cart], [jac] and the element's [angle_loss]. *)
Definition inverse_block (self : t) (x : list R)
    (st : list vec3 * R * R) (block : list zrow) : list vec3 * R * R :=
  let '(cart, jac, loss) := st in
  let atoms_to_build := map row_atom block in
  let ref_atoms := map (fun r => (row_ref1 r, row_ref2 r, row_ref3 r)) block in
  let bonds :=
    map (unnormalize self (std_bonds self) (mean_bonds self) 0 x)
      atoms_to_build in
  let angles :=
    map (unnormalize self (std_angles self) (mean_angles self) 1 x)
      atoms_to_build in
  let dihs :=
    map (unnormalize self (std_dih self) (mean_dih self) 2 x)
      atoms_to_build in
  let loss := loss + _periodic_angle_loss angles in
  let loss := loss + _periodic_angle_loss dihs in
  let dihs := map wrap_inverse dihs in
  let '(new_cart, cart_jac) :=
    reconstruct_cart cart ref_atoms bonds angles dihs in
  let jac := jac + cart_jac in
  let cart := cart ++ new_cart in
  (cart, jac, loss).

(** [inverse] on one row: Cartesian row, log-Jacobian, and the element of
    [angle_loss]. Both accumulators start from zero in every call. *)
Definition inverse_row (self : t) (x : list R) : list R * R * R :=
  let cart := view3 (gather x (init_cart_indices (ix self))) in
  let '(cart, jac, loss) :=
    fold_left (inverse_block self x) (rev_blocks (ix self)) (cart, 0, 0) in
  let cart := map (cart_at cart) (rev_perm_inv (ix self)) in
  (flatten3 cart, jac - scale_jac self, loss).

Definition set_angle_loss (self : t) (l : list R) : t :=
  {| dims := dims self; ix := ix self; default_std := default_std self;
     ind_circ_dih := ind_circ_dih self;
     mean_bonds := mean_bonds self; std_bonds := std_bonds self;
     mean_angles := mean_angles self; std_angles := std_angles self;
     mean_dih := mean_dih self; std_dih := std_dih self;
     scale_jac := scale_jac self; angle_loss := Some l |}.

(** [inverse]: the result, and the object with [self.angle_loss]
    reassigned. *)
Definition inverse (self : t) (x : list (list R))
  : list (list R) * list R * t :=
  (map (fun r => fst (fst (inverse_row self r))) x,
   map (fun r => snd (fst (inverse_row self r))) x,
   set_angle_loss self (map (fun r => snd (inverse_row self r)) x)).

(** The atoms in the order [inverse] builds them, and the un-normalised
    angles and dihedrals it reconstructs for one batch element. *)
Definition built_atoms (self : t) : list nat :=
  flat_map (map row_atom) (rev_blocks (ix self)).


(** The statistics buffers have one entry per z-matrix atom. *)
Record stats_ok (self : t) : Prop := {
  sk_mean_bonds : length (mean_bonds self) = length (sorted_z_indices (ix self));
  sk_std_bonds : length (std_bonds self) = length (sorted_z_indices (ix self));
  sk_mean_angles : length (mean_angles self) = length (sorted_z_indices (ix self));
  sk_std_angles : length (std_angles self) = length (sorted_z_indices (ix self));
  sk_mean_dih : length (mean_dih self) = length (sorted_z_indices (ix self));
  sk_std_dih : length (std_dih self) = length (sorted_z_indices (ix self))
}.

(** Every reference atom of the z-matrix rows is an atom of the system. *)
Definition refs_in_range (dims : nat) (ix : indices) : Prop :=
  forall r e, In r (sorted_z_indices ix) -> In e (row_refs r) ->
              (e < dims / 3)%nat.

(** Log-Jacobian term of one z-matrix row. *)
Definition jac_term (x : list R) (r : zrow) : R :=
  2 * ln (raw_bond x r) + ln (Rabs (sin (raw_angle x r))).


(** The raw bond lengths and angles of the z-matrix row [r] over the
    samples of a dataset. *)
Definition raw_bonds (X : list (list R)) (r : zrow) : list R :=
  map (fun x => raw_bond x r) X.

Definition raw_angles (X : list (list R)) (r : zrow) : list R :=
  map (fun x => raw_angle x r) X.




(** Log-Jacobian term that [inverse] adds for atom [a] of the row [x]. *)
Definition inverse_jac_term (self : t) (x : list R) (a : nat) : R :=
  2 * ln (Rabs (unnormalize self (std_bonds self) (mean_bonds self) 0 x a))
  + ln (Rabs (sin (unnormalize self (std_angles self) (mean_angles self) 1
                     x a))).

(** The position [inverse] gives to the atom of a block row, read from the
    buffer [cart] as it stands when the row's block is built. *)
Definition placed (self : t) (x : list R) (cart : list vec3) (row : zrow)
  : vec3 :=
  place_atom (cart_at cart (row_ref1 row)) (cart_at cart (row_ref2 row))
    (cart_at cart (row_ref3 row))
    (unnormalize self (std_bonds self) (mean_bonds self) 0 x (row_atom row))
    (unnormalize self (std_angles self) (mean_angles self) 1 x (row_atom row))
    (wrap_inverse
       (unnormalize self (std_dih self) (mean_dih self) 2 x (row_atom row))).

(** The Cartesian buffer of [inverse] when the loop over the blocks ends. *)
Definition inverse_buffer (self : t) (x : list R) : list vec3 :=
  fst (fst (fold_left (inverse_block self x) (rev_blocks (ix self))
              (view3 (gather x (init_cart_indices (ix self))), 0, 0))).

(** *** Vocabulary of the round-trip statements *)

(** All fitted standard deviations are non-zero. *)
Definition stds_nonzero (self : t) : Prop :=
  Forall (fun s => s <> 0) (std_bonds self)
  /\ Forall (fun s => s <> 0) (std_angles self)
  /\ Forall (fun s => s <> 0) (std_dih self).

(** The internal-coordinate row [z] is valid for [self]: for every
    z-matrix row, the un-normalised bond is positive, the un-normalised
    angle lies strictly inside (0, PI), the dihedral offset from the mean
    lies in the wrapped range, and the reference atoms are not colinear
    in the reconstruction. *)
Definition valid_internal (self : t) (z : list R) : Prop :=
  forall i r, sorted_z_indices (ix self) !! i = Some r ->
    0 < unnormalize self (std_bonds self) (mean_bonds self) 0 z (row_atom r)
    /\ 0 < unnormalize self (std_angles self) (mean_angles self) 1 z
             (row_atom r) < PI
    /\ - PI <= col z (3 * row_atom r + 2) * nth i (std_dih self) 0 < PI
    /\ noncolinear (pos (fst (fst (inverse_row self z))) (row_ref1 r))
         (pos (fst (fst (inverse_row self z))) (row_ref2 r))
         (pos (fst (fst (inverse_row self z))) (row_ref3 r)).

(** *** [forward] over a store of tensors

    Tensors are mutable and passed by reference: a store maps a tensor's
    identity to its rows, [x.clone()] allocates, and every indexed
    assignment of [_fwd] and [forward] updates the clone in place. *)

Definition clone (x : nat) (h : store) : option (nat * store) :=
  v ← h !! x;
  let l := fresh (dom h) in
  Some (l, <[l := v]> h).

Definition _fwd_store (self_ix : indices) (x : nat) (h : store)
  : option (nat * list R * store) :=
  '(x, h) ← clone x h;
  v ← h !! x;
  let jac := map (fun r => snd (_fwd_row self_ix r)) v in
  let h := alter (map (fun r => fst (_fwd_row self_ix r))) x h in
  Some (x, jac, h).

Definition forward_store (self : t) (x : nat) (h : store)
  : option (nat * list R * store) :=
  '(trans, jac, h) ← _fwd_store (ix self) x h;
  let h := alter (map (isub_at (bond_indices (ix self)) (mean_bonds self))) trans h in
  let h := alter (map (idiv_at (bond_indices (ix self)) (std_bonds self))) trans h in
  let h := alter (map (isub_at (angle_indices (ix self)) (mean_angles self))) trans h in
  let h := alter (map (idiv_at (angle_indices (ix self)) (std_angles self))) trans h in
  let h := alter (map (isub_at (dih_indices (ix self)) (mean_dih self))) trans h in
  let h := alter (map (_fix_dih_row (dih_indices (ix self)))) trans h in
  let h := alter (map (idiv_at (dih_indices (ix self)) (std_dih self))) trans h in
  Some (trans, map (fun j => j + scale_jac self) jac, h).

End Class.
End InternalCoordinateTransform.

(* ===================================================================== *)
(** ** [CompleteInternalCoordinateTransform] *)
(* ===================================================================== *)

Module CompleteInternalCoordinateTransform.
Module ICT := InternalCoordinateTransform.
Section Class.
Local Open Scope R_scope.

Record t : Type := {
  n_dim : nat;
  len_cart_inds : nat;
  ic_transform : ICT.t;
  permute : list nat;
  permute_inv : list nat;
  mean_b1 : R;
  mean_b2 : R;
  mean_angle : R;
  std_b1 : R;
  std_b2 : R;
  std_angle : R;
  scale_jac : R
}.

(** [_convert_last_internal] on one row; the slices [x[:, :3]], [x[:, 3:6]]
    and [x[:, 6:9]] are columns 0 to 8 (the rows it is given have at least
    nine columns once construction has filled [permute]). *)
Definition _convert_last_internal (x : list R) : R * R * R :=
  let p1 := gather3 x (0, 1, 2)%nat in
  let p2 := gather3 x (3, 4, 5)%nat in
  let p3 := gather3 x (6, 7, 8)%nat in
  let p21 := vsub p2 p1 in
  let p31 := vsub p3 p1 in
  let b1 := norm p21 in
  let b2 := norm p31 in
  let cos_angle := dot p21 p31 / b1 / b2 in
  let angle := acos cos_angle in
  (b1, b2, angle).

(** One iteration of [for i, j in enumerate(all_ind)]. *)
Definition permute_step (pq : list nat * list nat) (ij : nat * nat)
  : outcome (list nat * list nat) :=
  let '(p, q) := pq in
  let '(i, j) := ij in
  p ← set_item p (3 * i + 0) (3 * j + 0)%nat;
  p ← set_item p (3 * i + 1) (3 * j + 1)%nat;
  p ← set_item p (3 * i + 2) (3 * j + 2)%nat;
  q ← set_item q (3 * j + 0) (3 * i + 0)%nat;
  q ← set_item q (3 * j + 1) (3 * i + 1)%nat;
  q ← set_item q (3 * j + 2) (3 * i + 2)%nat;
  Returns (p, q).

Definition __init__ (n_dim : nat) (z_mat : list (nat * list nat))
    (cartesian_indices : list nat) (data : option ICT.tensor)
    (ind_circ_dih : list nat) (shift_dih : bool) (hist_bins : nat)
    (default_std : ICT.default_std_t) : outcome t :=
  let len_cart_inds := length cartesian_indices in
  if decide (len_cart_inds <> 3%nat) then Raises AssertionError
  else
    ic ← ICT.__init__ n_dim z_mat cartesian_indices data ind_circ_dih
           shift_dih hist_bins default_std;
    let all_ind := cartesian_indices ++ map fst z_mat in
    '(permute, permute_inv) ←
      ofoldl permute_step (enumerate all_ind)
        (replicate n_dim 0%nat, replicate n_dim 0%nat);
    let data := map (fun row => gather row permute) (ICT.data_rows data) in
    let last :=
      map (fun row => _convert_last_internal (firstn (3 * len_cart_inds) row))
        data in
    let b1 := map (fun t => fst (fst t)) last in
    let b2 := map (fun t => snd (fst t)) last in
    let angle := map (fun t => snd t) last in
    let mean_b1 := mean b1 in
    let mean_b2 := mean b2 in
    let mean_angle := mean angle in
    let '(std_b1, std_b2, std_angle) :=
      if decide (1 < length b1)%nat then (std b1, std b2, std angle)
      else (1 * ICT.std_bond default_std, 1 * ICT.std_bond default_std,
            1 * ICT.std_angle default_std) in
    let scale_jac := - (ln std_b1 + ln std_b2 + ln std_angle) in
    Returns {| n_dim := n_dim; len_cart_inds := len_cart_inds;
               ic_transform := ic;
               permute := permute; permute_inv := permute_inv;
               mean_b1 := mean_b1; mean_b2 := mean_b2;
               mean_angle := mean_angle;
               std_b1 := std_b1; std_b2 := std_b2; std_angle := std_angle;
               scale_jac := scale_jac |}.

Definition forward_row (self : t) (x : list R) : list R * R :=
  let jac := 0 in
  let '(x, new_jac) := ICT.forward_row (ic_transform self) x in
  let jac := jac + new_jac in
  let x := gather x (permute self) in
  let int_coords := skipn (3 * len_cart_inds self) x in
  let '(b1, b2, angle) :=
    _convert_last_internal (firstn (3 * len_cart_inds self) x) in
  let jac := jac - ln b2 in
  let b1 := b1 - mean_b1 self in
  let b1 := b1 / std_b1 self in
  let b2 := b2 - mean_b2 self in
  let b2 := b2 / std_b2 self in
  let angle := angle - mean_angle self in
  let angle := angle / std_angle self in
  let jac := jac + scale_jac self in
  let x := [b1; b2; angle] ++ int_coords in
  (x, jac).

Definition forward (self : t) (x : list (list R)) : list (list R) * list R :=
  (map (fun r => fst (forward_row self r)) x,
   map (fun r => snd (forward_row self r)) x).

(** The nine anchor columns [cart_coords] that [inverse] fills from the
    un-normalised [b1], [b2] and [angle]. *)
Definition cart_coords (self : t) (b1 b2 angle : R) : list R :=
  let c := replicate (3 * len_cart_inds self) 0 in
  let c := <[3%nat := b1]> c in
  let c := <[6%nat := b2 * cos angle]> c in
  let c := <[7%nat := b2 * sin angle]> c in
  c.

(** [inverse] on one row: the Cartesian row, the log-Jacobian and the
    element of the inner transform's [angle_loss]. *)
Definition inverse_row (self : t) (x : list R) : list R * R * R :=
  let jac := 0 in
  let b1 := col x 0 in
  let b2 := col x 1 in
  let angle := col x 2 in
  let int_coords := skipn (3 * len_cart_inds self - 6) x in
  let b1 := b1 * std_b1 self + mean_b1 self in
  let b2 := b2 * std_b2 self + mean_b2 self in
  let angle := angle * std_angle self + mean_angle self in
  let jac := jac - scale_jac self in
  let cart := cart_coords self b1 b2 angle in
  let jac := jac + ln b2 in
  let x := cart ++ int_coords in
  let x := gather x (permute_inv self) in
  let '(x, new_jac, loss) := ICT.inverse_row (ic_transform self) x in
  let jac := jac + new_jac in
  (x, jac, loss).

Definition set_ic_transform (self : t) (ic : ICT.t) : t :=
  {| n_dim := n_dim self; len_cart_inds := len_cart_inds self;
     ic_transform := ic;
     permute := permute self; permute_inv := permute_inv self;
     mean_b1 := mean_b1 self; mean_b2 := mean_b2 self;
     mean_angle := mean_angle self;
     std_b1 := std_b1 self; std_b2 := std_b2 self;
     std_angle := std_angle self; scale_jac := scale_jac self |}.

Definition inverse (self : t) (x : list (list R))
  : list (list R) * list R * t :=
  (map (fun r => fst (fst (inverse_row self r))) x,
   map (fun r => snd (fst (inverse_row self r))) x,
   set_ic_transform self
     (ICT.set_angle_loss (ic_transform self)
        (map (fun r => snd (inverse_row self r)) x))).

(** The row that [inverse] hands to the inner transform: the anchor
    columns [cart_coords], then the internal columns, permuted back into
    atom order. *)
Definition inner_row (self : t) (x : list R) : list R :=
  gather
    (cart_coords self (col x 0 * std_b1 self + mean_b1 self)
       (col x 1 * std_b2 self + mean_b2 self)
       (col x 2 * std_angle self + mean_angle self)
     ++ skipn (3 * len_cart_inds self - 6) x)
    (permute_inv self).

(** No fitted standard deviation is zero, in the inner transform and for
    the three anchor coordinates. *)
Definition stds_nonzero (self : t) : Prop :=
  ICT.stds_nonzero (ic_transform self)
  /\ std_b1 self <> 0 /\ std_b2 self <> 0 /\ std_angle self <> 0.

(** The reduced row [x] is valid for [self]: the two un-normalised anchor
    distances are positive, the un-normalised anchor angle lies in
    [0, PI], and the row handed to the inner transform is valid for it. *)
Definition valid_internal (self : t) (x : list R) : Prop :=
  0 < col x 0 * std_b1 self + mean_b1 self
  /\ 0 < col x 1 * std_b2 self + mean_b2 self
  /\ 0 <= col x 2 * std_angle self + mean_angle self <= PI
  /\ ICT.valid_internal (ic_transform self) (inner_row self x).

End Class.
End CompleteInternalCoordinateTransform.

(* ===================================================================== *)
(** ** Vocabulary of the statements about construction *)
(* ===================================================================== *)

(** The dataset is absent, is not two-dimensional, or its second dimension
    is not the declared one. *)
Definition data_invalid (dims : nat)
    (data : option InternalCoordinateTransform.tensor) : Prop :=
  match data with
  | None => True
  | Some d =>
      length (InternalCoordinateTransform.shape d) <> 2
      \/ nth 1 (InternalCoordinateTransform.shape d) 0 <> dims
  end.


(* ===================================================================== *)
(** ** A small system used in the examples *)
(* ===================================================================== *)

(** Four atoms: anchors 0, 1, 2 and atom 3 placed from [2, 1, 0]; one
    reference sample with atoms at (1,1,0), (1,0,0), (0,0,0), (0,1,0). *)
Definition example_z : list (nat * list nat) := [(3, [2; 1; 0])].
Definition example_cart : list nat := [0; 1; 2].
Definition example_row : list R :=
  [1; 1; 0; 1; 0; 0; 0; 0; 0; 0; 1; 0]%R.
(** A third sample: atom 3 at (1,1,0), with another bond and angle. *)
Definition example_row_diag : list R :=
  [1; 1; 0; 1; 0; 0; 0; 0; 0; 1; 1; 0]%R.
Definition example_data3 : InternalCoordinateTransform.tensor :=
  {| InternalCoordinateTransform.shape := [2; 12];
     InternalCoordinateTransform.rows := [example_row; example_row_diag] |}.
Definition example_data : InternalCoordinateTransform.tensor :=
  {| InternalCoordinateTransform.shape := [1; 12];
     InternalCoordinateTransform.rows := [example_row] |}.
(** The same four atoms with the anchors in the frame of the complete
    transform: (0,0,0), (1,0,0), (1,1,0), and atom 3 at (2,1,0). *)
Definition example_row_canon : list R :=
  [0; 0; 0; 1; 0; 0; 1; 1; 0; 2; 1; 0]%R.

Example topological_sort_chain :
  topological_sort [(5, [4; 1; 0]); (4, [3; 1; 0]); (3, [2; 1; 0])]
  = Returns [(3, [2; 1; 0]); (4, [3; 1; 0]); (5, [4; 1; 0])].
Proof. reflexivity. Qed.

Example topological_sort_two_cycle :
  topological_sort [(3, [4; 1; 0]); (4, [3; 1; 0])] = Raises RuntimeError.
Proof. reflexivity. Qed.

Example setup_indices_chain :
  rev_blocks <$> (match _setup_indices 18
       [(5, [4; 1; 0]); (4, [3; 1; 0]); (3, [2; 1; 0])] [0; 1; 2] with
     | Returns ix => Some ix | _ => None end)
  = Some [[(3, 2, 1, 0)]; [(4, 3, 1, 0)]; [(5, 4, 1, 0)]].
Proof. vm_compute. reflexivity. Qed.


(* ===================================================================== *)
(** * Properties of [topological_sort] *)
(* ===================================================================== *)

(** Membership of the list library and of stdpp are interchanged freely. *)
Ltac to_In := repeat rewrite list_elem_of_In in *.

Section DictFacts.

Lemma has_key_In (g : graph) (k : nat) :
  has_key g k = true <-> In k (map fst g).
Proof.
  unfold has_key. rewrite existsb_exists. split.
  - intros [p [Hp Hk]]. apply Nat.eqb_eq in Hk. subst k. now apply in_map.
  - intros H. apply in_map_iff in H. destruct H as [p [Hk Hp]].
    exists p. split; [assumption | now apply Nat.eqb_eq].
Qed.

Lemma has_key_false (g : graph) (k : nat) :
  has_key g k = false <-> ~ In k (map fst g).
Proof.
  rewrite <- has_key_In. destruct (has_key g k); split; congruence.
Qed.

Lemma dict_set_keys (k : nat) (v : list nat) (g : graph) :
  map fst (dict_set k v g) =
  if has_key g k then map fst g else map fst g ++ [k].
Proof.
  induction g as [| [k' v'] g IH]; simpl; [reflexivity |].
  destruct (Nat.eqb_spec k' k) as [-> | Hne]; simpl.
  - reflexivity.
  - rewrite IH. unfold has_key. now destruct (existsb _ g).
Qed.

Lemma dict_set_NoDup (k : nat) (v : list nat) (g : graph) :
  NoDup (map fst g) -> NoDup (map fst (dict_set k v g)).
Proof.
  intros H. rewrite dict_set_keys.
  destruct (has_key g k) eqn:E; [assumption |].
  apply has_key_false in E.
  apply NoDup_app. split; [assumption |]. split; [| apply NoDup_singleton].
  intros x Hx Hx'. apply list_elem_of_In in Hx, Hx'.
  destruct Hx' as [<- | []]. contradiction.
Qed.

Lemma dict_NoDup (z : list (nat * list nat)) : NoDup (map fst (dict z)).
Proof.
  unfold dict.
  assert (G : forall g, NoDup (map fst g) ->
     NoDup (map fst (fold_left (fun g p => dict_set (fst p) (snd p) g) z g))).
  { induction z as [| p z IH]; intros g Hg; simpl; [assumption |].
    apply IH. now apply dict_set_NoDup. }
  apply G. constructor.
Qed.

Lemma del_key_keys (k : nat) (g : graph) :
  forall x, In x (map fst (del_key k g)) <-> In x (map fst g) /\ x <> k.
Proof.
  intros x. unfold del_key. rewrite !in_map_iff. split.
  - intros [p [Hx Hp]]. apply filter_In in Hp. destruct Hp as [Hp Hk].
    apply negb_true_iff, Nat.eqb_neq in Hk. subst x. split; [eauto | assumption].
  - intros [[p [Hx Hp]] Hne]. exists p. split; [assumption |].
    apply filter_In. split; [assumption |].
    apply negb_true_iff, Nat.eqb_neq. now subst x.
Qed.

Lemma del_key_In (k : nat) (g : graph) (p : nat * list nat) :
  In p (del_key k g) <-> In p g /\ fst p <> k.
Proof.
  unfold del_key. rewrite filter_In, negb_true_iff, Nat.eqb_neq. tauto.
Qed.

Lemma del_key_absent (k : nat) (g : graph) :
  ~ In k (map fst g) -> del_key k g = g.
Proof.
  induction g as [| [k' v'] g IH]; simpl; intros H; [reflexivity |].
  destruct (Nat.eqb_spec k' k) as [-> | Hne]; simpl.
  - exfalso. apply H. now left.
  - f_equal. apply IH. tauto.
Qed.

Lemma del_key_perm (k : nat) (v : list nat) (g : graph) :
  NoDup (map fst g) -> In (k, v) g ->
  Permutation g ((k, v) :: del_key k g).
Proof.
  induction g as [| [k' v'] g IH]; simpl; intros Hnd Hin; [contradiction |].
  inversion Hnd as [| ? ? Hni Hnd']; subst; to_In.
  destruct Hin as [Heq | Hin].
  - inversion Heq; subst. rewrite Nat.eqb_refl. simpl.
    fold (del_key k g). rewrite del_key_absent by assumption. reflexivity.
  - assert (k' <> k).
    { intros ->. apply Hni. now apply (in_map fst) in Hin. }
    destruct (Nat.eqb_spec k' k) as [? | _]; [contradiction |]. simpl.
    rewrite perm_swap. apply perm_skip. now apply IH.
Qed.

Lemma del_key_NoDup (k : nat) (g : graph) :
  NoDup (map fst g) -> NoDup (map fst (del_key k g)).
Proof.
  induction g as [| [k' v'] g IH]; simpl; intros Hnd; [constructor |].
  inversion Hnd as [| ? ? Hni Hnd']; subst; to_In.
  destruct (Nat.eqb k' k); simpl; [now apply IH |].
  constructor; [| now apply IH].
  to_In. intros Hc. apply del_key_keys in Hc. tauto.
Qed.

Lemma NoDup_keys_functional (g : graph) (k : nat) (v w : list nat) :
  NoDup (map fst g) -> In (k, v) g -> In (k, w) g -> v = w.
Proof.
  induction g as [| [k' v'] g IH]; simpl; intros Hnd Hv Hw; [contradiction |].
  inversion Hnd as [| ? ? Hni Hnd']; subst; to_In.
  destruct Hv as [Hv | Hv], Hw as [Hw | Hw].
  - congruence.
  - inversion Hv; subst. exfalso. apply Hni. now apply (in_map fst) in Hw.
  - inversion Hw; subst. exfalso. apply Hni. now apply (in_map fst) in Hv.
  - now apply IH.
Qed.

Lemma blocked_spec (u : graph) (edges : list nat) :
  blocked u edges = true <-> exists e, In e edges /\ has_key u e = true.
Proof. unfold blocked. apply existsb_exists. Qed.

Lemma blocked_false (u : graph) (edges : list nat) :
  blocked u edges = false <-> forall e, In e edges -> has_key u e = false.
Proof.
  split.
  - intros H e He. destruct (has_key u e) eqn:E; [| reflexivity].
    assert (blocked u edges = true) by (apply blocked_spec; eauto). congruence.
  - intros H. destruct (blocked u edges) eqn:E; [| reflexivity].
    apply blocked_spec in E. destruct E as [e [He Hk]].
    rewrite (H e He) in Hk. discriminate.
Qed.

End DictFacts.

(** ** Invariant of the sorting loop *)

Section SortInvariant.

Variable g0 : graph.
Hypothesis g0_nodup : NoDup (map fst g0).

Lemma sort_inv_nodup_u u s : sort_inv g0 u s -> NoDup (map fst u).
Proof.
  intros [Hp _ _].
  assert (H : NoDup (map fst (s ++ u))).
  { apply (Permutation_map fst) in Hp. now rewrite Hp. }
  rewrite map_app in H. apply NoDup_app in H. tauto.
Qed.

Lemma ordered_snoc s node edges :
  ordered g0 s ->
  (forall e, In e edges -> has_key g0 e = true -> has_key s e = true) ->
  ordered g0 (s ++ [(node, edges)]).
Proof.
  intros Hs Hnew s1 n es s2 e Heq He Hk.
  destruct s2 as [| p s2] using rev_ind.
  - apply app_inj_tail in Heq. destruct Heq as [<- Heq].
    inversion Heq; subst. now apply Hnew.
  - clear IHs2. rewrite app_comm_cons, app_assoc in Heq.
    apply app_inj_tail in Heq. destruct Heq as [Heq _].
    now apply (Hs s1 n es s2 e).
Qed.

Lemma cycle_successor a :
  clos_trans nat (depends g0) a a ->
  exists b, depends g0 a b /\ clos_trans nat (depends g0) b b.
Proof.
  intros H.
  assert (G : forall x y, clos_trans nat (depends g0) x y ->
            exists b, depends g0 x b /\ (b = y \/ clos_trans nat (depends g0) b y)).
  { intros x y Hxy. apply clos_trans_t1n in Hxy.
    destruct Hxy as [y Hxy | b y Hxb Hby].
    - exists y. split; [assumption | now left].
    - exists b. split; [assumption | right]. now apply clos_t1n_trans. }
  destruct (G a a H) as [b [Hab [-> | Hba]]].
  - exists a. split; assumption.
  - exists b. split; [assumption |].
    eapply t_trans; [exact Hba |]. now apply t_step.
Qed.

(** Deleting an unblocked node moves it to the sorted list and keeps the
    invariant. *)
Lemma sort_inv_step u s node edges :
  sort_inv g0 u s -> In (node, edges) u -> blocked u edges = false ->
  sort_inv g0 (del_key node u) (s ++ [(node, edges)]).
Proof.
  intros Hinv Hin Hb. pose proof (sort_inv_nodup_u _ _ Hinv) as Hnd.
  destruct Hinv as [Hp Ho Hc].
  assert (Hg0 : forall p, In p u -> In p g0).
  { intros p Hpu. eapply Permutation_in; [exact Hp |].
    apply in_or_app. now right. }
  constructor.
  - rewrite <- Hp, <- app_assoc. apply Permutation_app_head. simpl.
    symmetry. now apply del_key_perm.
  - apply ordered_snoc; [assumption |].
    intros e He Hk. apply has_key_In in Hk. apply has_key_In.
    assert (Hk' : In e (map fst (s ++ u))).
    { eapply Permutation_in; [| exact Hk].
      apply Permutation_map. now symmetry. }
    rewrite map_app in Hk'. apply in_app_or in Hk'.
    destruct Hk' as [? | Hu]; [assumption |].
    apply has_key_In in Hu.
    rewrite (proj1 (blocked_false u edges) Hb e He) in Hu. discriminate.
  - intros a Ha. apply has_key_In, del_key_keys. split.
    + apply has_key_In. now apply Hc.
    + intros ->.
      destruct (cycle_successor _ Ha) as [b [[es [Hes [Hb1 _]]] Hbb]].
      assert (es = edges).
      { eapply NoDup_keys_functional; [exact g0_nodup | exact Hes |].
        now apply Hg0. }
      subst es. apply Hc in Hbb.
      rewrite (proj1 (blocked_false u edges) Hb b Hb1) in Hbb. discriminate.
Qed.

(** One pass over a snapshot whose items are still in the live dict. *)
Lemma sort_pass_inv items :
  forall u s f u' s' f',
    sort_pass items u s f = (u', s', f') ->
    sort_inv g0 u s -> NoDup (map fst items) -> incl items u ->
    sort_inv g0 u' s'
    /\ length u' <= length u
    /\ (f' = true -> f = true \/ length u' < length u)
    /\ (f' = false ->
         f = false /\ u' = u /\ s' = s
         /\ forall node edges, In (node, edges) items ->
              blocked u edges = true).
Proof.
  induction items as [| [node edges] items IH];
    intros u s f u' s' f' Hrun Hinv Hnd Hincl; simpl in Hrun.
  - inversion Hrun; subst.
    split; [assumption |]. split; [lia |]. split; [intros ->; now left |].
    intros ->. split; [reflexivity |]. split; [reflexivity |].
    split; [reflexivity |]. intros ? ? [].
  - inversion Hnd as [| ? ? Hni Hnd']; subst; to_In.
    destruct (blocked u edges) eqn:Hb.
    + apply IH in Hrun; [| assumption | assumption |
        intros p Hp; apply Hincl; now right].
      destruct Hrun as [H1 [H2 [H3 H4]]].
      split; [assumption |]. split; [assumption |]. split; [assumption |].
      intros Hf. destruct (H4 Hf) as [Ha [Hb' [Hc H5]]].
      split; [assumption |]. split; [assumption |]. split; [assumption |].
      intros n es [Heq | Hin]; [inversion Heq; now subst | now apply (H5 n)].
    + assert (Hin : In (node, edges) u) by (apply Hincl; now left).
      pose proof (sort_inv_nodup_u _ _ Hinv) as Hndu.
      assert (Hlen : length (del_key node u) < length u).
      { pose proof (del_key_perm node edges u Hndu Hin) as Hp.
        apply Permutation_length in Hp. simpl in Hp. lia. }
      apply IH in Hrun; [| now apply (sort_inv_step u s node edges) | assumption |].
      * destruct Hrun as [H1 [H2 [H3 H4]]].
        split; [assumption |]. split; [lia |]. split; [intros _; right; lia |].
        intros Hf. destruct (H4 Hf) as [Hc _]. discriminate.
      * intros p Hp. apply del_key_In. split; [apply Hincl; now right |].
        intros Hk. apply Hni. rewrite <- Hk. now apply in_map.
Qed.

(** The loop never runs out of fuel that covers the dict, and whatever it
    returns satisfies the invariant with an empty unsorted dict. *)
Lemma sort_loop_spec fuel :
  forall u s,
    length u <= fuel -> sort_inv g0 u s ->
    (exists l, sort_loop fuel u s = Returns l /\ sort_inv g0 [] l)
    \/ (sort_loop fuel u s = Raises RuntimeError
        /\ exists u' s', sort_inv g0 u' s' /\ u' <> [] /\
             forall node edges, In (node, edges) u' -> blocked u' edges = true).
Proof.
  induction fuel as [| fuel IH]; intros u s Hlen Hinv.
  - destruct u; [| simpl in Hlen; lia]. left. exists s. now split.
  - destruct u as [| p u]; [left; exists s; now split |].
    cbn [sort_loop].
    destruct (sort_pass (p :: u) (p :: u) s false) as [[u' s'] f'] eqn:Hrun.
    pose proof (sort_inv_nodup_u _ _ Hinv) as Hnd.
    destruct (sort_pass_inv _ _ _ _ _ _ _ Hrun Hinv Hnd (incl_refl _))
      as [H1 [H2 [H3 H4]]].
    destruct f'.
    + destruct (H3 eq_refl) as [Hc | Hlt]; [discriminate |].
      apply IH; [simpl in *; lia | assumption].
    + right. split; [reflexivity |].
      destruct (H4 eq_refl) as [_ [-> [-> H5]]].
      exists (p :: u), s. split; [assumption |]. split; [discriminate | assumption].
Qed.

End SortInvariant.

(** ** A stuck pass exhibits a cycle *)

Section FiniteCycle.

Variable R : nat -> nat -> Prop.

Lemma chain_app_l (l1 l2 : list nat) : chain R (l1 ++ l2) -> chain R l1.
Proof.
  induction l1 as [| x l1 IH]; simpl; [trivial |].
  destruct l1 as [| y l1]; simpl in *; [trivial |].
  intros [Hxy H]. split; [assumption | now apply IH].
Qed.

Lemma chain_app_r (l1 l2 : list nat) : chain R (l1 ++ l2) -> chain R l2.
Proof.
  induction l1 as [| x l1 IH]; simpl; [trivial |].
  destruct (l1 ++ l2) eqn:E.
  - destruct l1; [simpl in E; now subst | discriminate].
  - intros [_ H]. now apply IH.
Qed.

Lemma chain_clos_trans (l : list nat) :
  forall x y, chain R (x :: l ++ [y]) -> clos_trans nat R x y.
Proof.
  induction l as [| z l IH]; intros x y H.
  - simpl in H. apply t_step. tauto.
  - change (R x z /\ chain R (z :: l ++ [y])) in H. destruct H as [Hxz H].
    eapply t_trans; [apply t_step; exact Hxz | now apply IH].
Qed.

Lemma repeated_element (l : list nat) :
  ~ NoDup l -> exists x l1 l2 l3, l = l1 ++ x :: l2 ++ x :: l3.
Proof.
  induction l as [| a l IH]; intros H.
  - exfalso. apply H. constructor.
  - destruct (decide (a ∈ l)) as [Hin | Hni].
    + apply list_elem_of_In, in_split in Hin. destruct Hin as [l2 [l3 ->]].
      exists a, [], l2, l3. reflexivity.
    + destruct IH as [x [l1 [l2 [l3 ->]]]].
      { intros Hnd. apply H. now constructor. }
      exists x, (a :: l1), l2, l3. reflexivity.
Qed.

Lemma long_chain (K : list nat) :
  (forall a, In a K -> exists b, In b K /\ R a b) ->
  forall n a, In a K ->
    exists c, length c = n /\ chain R (a :: c) /\ incl (a :: c) K.
Proof.
  intros Hsucc n. induction n as [| n IH]; intros a Ha.
  - exists []. split; [reflexivity |]. split; [exact I |].
    intros x [<- | []]. assumption.
  - destruct (Hsucc a Ha) as [b [Hb Hab]].
    destruct (IH b Hb) as [c [Hlen [Hch Hincl]]].
    exists (b :: c). split; [simpl; lia |]. split.
    + split; assumption.
    + intros x [<- | Hx]; [assumption | now apply Hincl].
Qed.

Lemma finite_cycle (K : list nat) (a0 : nat) :
  In a0 K ->
  (forall a, In a K -> exists b, In b K /\ R a b) ->
  exists a, clos_trans nat R a a.
Proof.
  intros Ha0 Hsucc.
  destruct (long_chain K Hsucc (length K) a0 Ha0) as [c [Hlen [Hch Hincl]]].
  assert (Hdup : ~ NoDup (a0 :: c)).
  { intros Hnd. apply NoDup_ListNoDup in Hnd.
    pose proof (NoDup_incl_length Hnd Hincl) as Hle. simpl in Hle. lia. }
  destruct (repeated_element _ Hdup) as [x [l1 [l2 [l3 Heq]]]].
  exists x. apply (chain_clos_trans l2).
  rewrite Heq in Hch. apply chain_app_r in Hch.
  change (x :: l2 ++ x :: l3) with ((x :: l2) ++ x :: l3) in Hch.
  replace ((x :: l2) ++ x :: l3) with ((x :: l2 ++ [x]) ++ l3) in Hch.
  - now apply chain_app_l in Hch.
  - simpl. now rewrite <- app_assoc.
Qed.

End FiniteCycle.

Lemma stuck_is_cyclic (g0 u : graph) :
  NoDup (map fst g0) -> incl u g0 -> u <> [] ->
  (forall node edges, In (node, edges) u -> blocked u edges = true) ->
  exists a, clos_trans nat (depends g0) a a.
Proof.
  intros Hnd Hincl Hne Hstuck.
  destruct u as [| [n0 e0] u']; [congruence |].
  set (u := (n0, e0) :: u') in *.
  apply (finite_cycle (depends g0) (map fst u) n0); [now left |].
  intros a Ha. apply in_map_iff in Ha. destruct Ha as [[a' edges] [<- Hin]].
  destruct (proj1 (blocked_spec u edges) (Hstuck _ _ Hin)) as [e [He Hk]].
  exists e. split; [now apply has_key_In |].
  exists edges. split; [now apply Hincl |]. split; [assumption |].
  apply has_key_In. apply has_key_In in Hk.
  apply in_map_iff in Hk. destruct Hk as [p [<- Hp]].
  apply in_map. now apply Hincl.
Qed.

Lemma sort_inv_init (g0 : graph) : sort_inv g0 g0 [].
Proof.
  constructor.
  - reflexivity.
  - intros s1 node edges s2 e Heq. now destruct s1.
  - intros a Ha.
    assert (G : forall x y, clos_trans nat (depends g0) x y ->
                              has_key g0 x = true).
    { induction 1 as [x y [es [Hin _]] | x y w _ IH1 _ _]; [| assumption].
      apply has_key_In. apply (in_map fst) in Hin. exact Hin. }
    exact (G a a Ha).
Qed.

Lemma key_index_app_l (e : nat) (s1 s2 : graph) :
  has_key s1 e = true ->
  exists j, key_index e (s1 ++ s2) = Some j /\ j < length s1.
Proof.
  induction s1 as [| [k v] s1 IH]; simpl; [discriminate |].
  destruct (Nat.eqb_spec k e) as [_ | Hne]; simpl.
  - intros _. exists 0. split; [reflexivity | lia].
  - intros H. destruct (IH H) as [j [Hj Hlt]].
    exists (S j). rewrite Hj. split; [reflexivity | lia].
Qed.

Lemma ordered_refs_before (g0 l : graph) : ordered g0 l -> refs_before g0 l.
Proof.
  intros Ho i node edges e Hi He Hk.
  apply nth_error_split in Hi. destruct Hi as [s1 [s2 [-> Hlen]]].
  destruct (key_index_app_l e s1 ((node, edges) :: s2)) as [j [Hj Hlt]].
  - now apply (Ho s1 node edges s2 e).
  - exists j. split; [assumption | lia].
Qed.

(** [topological_sort] is total: it returns or raises [RuntimeError]. *)
Lemma topological_sort_total (z : list (nat * list nat)) :
  (exists l, topological_sort z = Returns l)
  \/ topological_sort z = Raises RuntimeError.
Proof.
  unfold topological_sort.
  destruct (sort_loop_spec (dict z) (dict_NoDup z) (length (dict z))
              (dict z) [] (le_n _) (sort_inv_init _))
    as [[l [H _]] | [H _]]; [left; eauto | now right].
Qed.

(** Acyclic specifications are sorted, cyclic ones are rejected. *)
Lemma topological_sort_spec (z : list (nat * list nat)) :
  (acyclic z ->
   exists l, topological_sort z = Returns l
             /\ Permutation l (dict z) /\ refs_before (dict z) l)
  /\ (cyclic z -> topological_sort z = Raises RuntimeError).
Proof.
  unfold topological_sort.
  destruct (sort_loop_spec (dict z) (dict_NoDup z) (length (dict z))
              (dict z) [] (le_n _) (sort_inv_init _))
    as [[l [Hrun Hinv]] | [Hrun [u [s [Hinv [Hne Hstuck]]]]]].
  - split.
    + intros _. exists l. split; [assumption |].
      destruct Hinv as [Hp Ho _]. rewrite app_nil_r in Hp.
      split; [assumption | now apply ordered_refs_before].
    + intros [a Ha]. destruct Hinv as [_ _ Hc].
      specialize (Hc a Ha). discriminate.
  - split; [| intros _; assumption].
    intros Hac. exfalso. apply Hac.
    apply (stuck_is_cyclic (dict z) u); auto using dict_NoDup.
    intros p Hp. destruct Hinv as [Hperm _ _].
    eapply Permutation_in; [exact Hperm |]. apply in_or_app. now right.
Qed.

(** C3. For an acyclic specification [topological_sort] returns the
    entries of the specification reordered so that each entry stands after
    every reference atom of its own that is itself an entry of the
    specification; for a cyclic specification it raises the cyclic
    dependency error ([RuntimeError]) and returns no list at all. *)
Theorem topological_sort_valid (z : list (nat * list nat)) :
  (acyclic z ->
   exists l, topological_sort z = Returns l
             /\ Permutation l (dict z) /\ refs_before (dict z) l)
  /\ (cyclic z -> topological_sort z = Raises RuntimeError).
Proof. exact (topological_sort_spec z). Qed.

Lemma topological_sort_valid_witness :
  (exists l,
     topological_sort [(5, [4; 1; 0]); (4, [3; 1; 0]); (3, [2; 1; 0])]
       = Returns l
     /\ Permutation l (dict [(5, [4; 1; 0]); (4, [3; 1; 0]); (3, [2; 1; 0])])
     /\ refs_before (dict [(5, [4; 1; 0]); (4, [3; 1; 0]); (3, [2; 1; 0])]) l)
  /\ topological_sort [(3, [4; 1; 0]); (4, [3; 1; 0])] = Raises RuntimeError.
Proof.
  split.
  - apply (proj1 (topological_sort_valid
                    [(5, [4; 1; 0]); (4, [3; 1; 0]); (3, [2; 1; 0])])).
    intros Hc.
    apply (proj2 (topological_sort_valid
                    [(5, [4; 1; 0]); (4, [3; 1; 0]); (3, [2; 1; 0])])) in Hc.
    discriminate Hc.
  - apply (proj2 (topological_sort_valid [(3, [4; 1; 0]); (4, [3; 1; 0])])).
    exists 3. apply t_trans with 4; apply t_step.
    + exists [4; 1; 0]. split; [now left |]. split; [now left | reflexivity].
    + exists [3; 1; 0]. split; [right; now left |].
      split; [now left | reflexivity].
Defined.

Lemma topological_sort_Returns (z : list (nat * list nat)) (l : graph) :
  topological_sort z = Returns l ->
  Permutation l (dict z) /\ refs_before (dict z) l /\ ordered (dict z) l.
Proof.
  unfold topological_sort. intros Hrun.
  destruct (sort_loop_spec (dict z) (dict_NoDup z) (length (dict z))
              (dict z) [] (le_n _) (sort_inv_init _))
    as [[l' [Hrun' [Hp Ho _]]] | [Hrun' _]]; [| congruence].
  rewrite Hrun in Hrun'. inversion Hrun'; subst l'.
  rewrite app_nil_r in Hp. split; [assumption |].
  split; [now apply ordered_refs_before | assumption].
Qed.

Lemma dict_keys_incl (z : list (nat * list nat)) (k : nat) :
  In k (map fst (dict z)) -> In k (map fst z).
Proof.
  unfold dict.
  assert (G : forall g, In k (map fst
              (fold_left (fun g p => dict_set (fst p) (snd p) g) z g)) ->
            In k (map fst g) \/ In k (map fst z)).
  { induction z as [| p z IH]; intros g H; simpl in *; [now left |].
    apply IH in H. destruct H as [H | H]; [| tauto].
    rewrite dict_set_keys in H. destruct (has_key g (fst p)); [now left |].
    apply in_app_or in H. destruct H as [H | [H | []]]; [now left |].
    right. now left. }
  intros H. apply G in H. destruct H as [[] | H]. assumption.
Qed.

Lemma dict_id (z : list (nat * list nat)) :
  List.NoDup (map fst z) -> dict z = z.
Proof.
  unfold dict.
  assert (G : forall g, List.NoDup (map fst (g ++ z)) ->
            fold_left (fun g p => dict_set (fst p) (snd p) g) z g = g ++ z).
  { induction z as [| [k v] z IH]; intros g H; simpl.
    - now rewrite app_nil_r.
    - assert (Hset : dict_set k v g = g ++ [(k, v)]).
      { rewrite map_app in H. simpl in H.
        apply List.NoDup_remove_2 in H.
        assert (Hk : ~ In k (map fst g)).
        { intros Hc. apply H. apply in_or_app. now left. }
        clear -Hk. induction g as [| [k' v'] g IHg]; simpl; [reflexivity |].
        destruct (Nat.eqb_spec k' k) as [-> | Hne].
        - exfalso. apply Hk. now left.
        - f_equal. apply IHg. intros Hc. apply Hk. now right. }
      rewrite Hset. rewrite IH; rewrite <- app_assoc; [reflexivity |].
      exact H. }
  intros H. apply (G []). exact H.
Qed.


(* ===================================================================== *)
(** * Dihedral wrapping *)
(* ===================================================================== *)

Section Wrap.
Local Open Scope R_scope.

Lemma two_PI_pos : 0 < 2 * PI.
Proof. pose proof PI_RGT_0. lra. Qed.

Lemma py_mod_bounds (a b : R) : 0 < b -> 0 <= py_mod a b < b.
Proof.
  intros Hb. unfold py_mod.
  destruct (Zfloor_bound (a / b)) as [Hlo Hhi].
  assert (Ha : a = b * (a / b)) by (field; lra).
  split.
  - apply Rmult_le_compat_l with (r := b) in Hlo; lra.
  - apply Rmult_lt_compat_l with (r := b) in Hhi; lra.
Qed.

Lemma wrap_fix_dih_range (d : R) : - PI <= wrap_fix_dih d < PI.
Proof.
  unfold wrap_fix_dih.
  pose proof (py_mod_bounds (d + PI) (2 * PI) two_PI_pos). lra.
Qed.

Lemma wrap_fix_dih_congruent (d : R) : congruent_2pi (wrap_fix_dih d) d.
Proof.
  exists (- Zfloor ((d + PI) / (2 * PI)))%Z.
  unfold wrap_fix_dih, py_mod. rewrite opp_IZR. ring.
Qed.

Lemma wrap_fix_dih_id (d : R) : - PI <= d < PI -> wrap_fix_dih d = d.
Proof.
  intros Hd. unfold wrap_fix_dih, py_mod.
  pose proof two_PI_pos as Hpos.
  assert (H0 : Zfloor ((d + PI) / (2 * PI)) = 0%Z).
  { apply Zfloor_eq. simpl. split.
    - apply Rmult_le_reg_r with (r := 2 * PI); [lra |].
      unfold Rdiv. rewrite Rmult_assoc, Rinv_l; lra.
    - apply Rmult_lt_reg_r with (r := 2 * PI); [lra |].
      unfold Rdiv. rewrite Rmult_assoc, Rinv_l; lra. }
  rewrite H0. simpl. lra.
Qed.

Lemma wrap_fix_dih_PI : wrap_fix_dih PI = - PI.
Proof.
  unfold wrap_fix_dih, py_mod.
  pose proof two_PI_pos as Hpos.
  assert (H1 : (PI + PI) / (2 * PI) = 1) by (field; lra).
  rewrite H1. replace 1 with (IZR 1) at 1 by reflexivity.
  rewrite ZfloorZ. simpl. lra.
Qed.

Lemma wrap_inverse_cases (d : R) :
  wrap_inverse d =
  if Rlt_dec d (- PI) then d + 2 * PI
  else if Rlt_dec PI d then d - 2 * PI
  else if Req_dec_T d (- PI) then PI
  else d.
Proof.
  unfold wrap_inverse. pose proof PI_RGT_0 as Hpi.
  destruct (Rlt_dec d PI) as [H1 | H1].
  - destruct (Rlt_dec PI (d + 2 * PI)) as [H2 | H2].
    + destruct (Rlt_dec d (- PI)); [lra |].
      destruct (Rlt_dec PI d); [lra |].
      destruct (Req_dec_T d (- PI)); lra.
    + destruct (Rlt_dec d (- PI)); [reflexivity |].
      destruct (Rlt_dec PI d); [lra |].
      destruct (Req_dec_T d (- PI)); lra.
  - destruct (Rlt_dec PI d) as [H2 | H2].
    + destruct (Rlt_dec d (- PI)); [lra | reflexivity].
    + destruct (Rlt_dec d (- PI)); [lra |].
      destruct (Req_dec_T d (- PI)); lra.
Qed.

Lemma wrap_inverse_congruent (d : R) : congruent_2pi (wrap_inverse d) d.
Proof.
  rewrite wrap_inverse_cases.
  destruct (Rlt_dec d (- PI)); [exists 1%Z; lra |].
  destruct (Rlt_dec PI d); [exists (-1)%Z; lra |].
  destruct (Req_dec_T d (- PI)); [exists 1%Z; lra | exists 0%Z; lra].
Qed.

Lemma wrap_inverse_range (d : R) :
  - (3 * PI) < d <= 3 * PI -> - PI < wrap_inverse d <= PI.
Proof.
  intros Hd. rewrite wrap_inverse_cases. pose proof PI_RGT_0.
  destruct (Rlt_dec d (- PI)); [lra |].
  destruct (Rlt_dec PI d); [lra |].
  destruct (Req_dec_T d (- PI)); lra.
Qed.

Lemma wrap_inverse_4PI : wrap_inverse (4 * PI) = 2 * PI.
Proof.
  rewrite wrap_inverse_cases. pose proof PI_RGT_0.
  destruct (Rlt_dec (4 * PI) (- PI)); [lra |].
  destruct (Rlt_dec PI (4 * PI)); lra.
Qed.

(** C5, as stated, fails: the forward wrap sends [PI] to [- PI], outside
    [(- PI, PI]], and the wrap of [inverse] sends [4 * PI] to [2 * PI]. *)
Lemma dihedral_wrap_counterexample :
  ~ (forall d : R,
       (- PI < wrap_fix_dih d <= PI /\ congruent_2pi (wrap_fix_dih d) d)
       /\ (- PI < wrap_inverse d <= PI /\ congruent_2pi (wrap_inverse d) d)).
Proof.
  intros H. destruct (H PI) as [[[Hlo _] _] _].
  rewrite wrap_fix_dih_PI in Hlo. lra.
Qed.

Lemma dihedral_wrap_inverse_counterexample :
  ~ (- PI < wrap_inverse (4 * PI) <= PI).
Proof. rewrite wrap_inverse_4PI. pose proof PI_RGT_0. lra. Qed.

(** C5 (amended). The wrap of [_fix_dih] returns a value of [[- PI, PI)]
    that differs from [d] by an integer multiple of [2 * PI]; the wrap of
    [inverse] shifts by one period at most, so its value differs from [d]
    by an integer multiple of [2 * PI] and lies in [(- PI, PI]] whenever
    [- 3 PI < d <= 3 PI]. *)
Theorem dihedral_wrap (d : R) :
  (- PI <= wrap_fix_dih d < PI /\ congruent_2pi (wrap_fix_dih d) d)
  /\ congruent_2pi (wrap_inverse d) d
  /\ (- (3 * PI) < d <= 3 * PI -> - PI < wrap_inverse d <= PI).
Proof.
  split; [split; [apply wrap_fix_dih_range | apply wrap_fix_dih_congruent] |].
  split; [apply wrap_inverse_congruent | apply wrap_inverse_range].
Qed.

Lemma dihedral_wrap_witness :
  - (3 * PI) < 0 <= 3 * PI /\ - PI < wrap_inverse 0 <= PI.
Proof.
  assert (H : - (3 * PI) < 0 <= 3 * PI) by (pose proof PI_RGT_0; lra).
  split; [exact H |].
  exact (proj2 (proj2 (dihedral_wrap 0)) H).
Defined.

End Wrap.


(* ===================================================================== *)
(** * The periodic-angle penalty *)
(* ===================================================================== *)

Section Penalty.
Local Open Scope R_scope.
Import InternalCoordinateTransform.

Lemma Rsum_app (l1 l2 : list R) : Rsum (l1 ++ l2) = Rsum l1 + Rsum l2.
Proof. induction l1 as [| a l1 IH]; simpl; [lra | rewrite IH; lra]. Qed.

Lemma Rsum_map_plus {A} (f g : A -> R) (l : list A) :
  Rsum (map (fun a => f a + g a) l) = Rsum (map f l) + Rsum (map g l).
Proof. induction l as [| a l IH]; simpl; [lra | rewrite IH; lra]. Qed.

Lemma Rsum_flat_map {A} (f : A -> list R) (l : list A) :
  Rsum (flat_map f l) = Rsum (map (fun a => Rsum (f a)) l).
Proof.
  induction l as [| a l IH]; simpl; [reflexivity |].
  now rewrite Rsum_app, IH.
Qed.

Lemma penalty_split (a : R) :
  (if Rlt_dec PI a then a - PI else 0) ^ 2
  + (if Rlt_dec a (- PI) then a + PI else 0) ^ 2 = penalty_spec a.
Proof.
  unfold penalty_spec. pose proof PI_RGT_0.
  destruct (Rlt_dec PI a), (Rlt_dec a (- PI)); try lra; ring.
Qed.

Lemma periodic_angle_loss_spec (angles : list R) :
  _periodic_angle_loss angles = Rsum (map penalty_spec angles).
Proof.
  unfold _periodic_angle_loss.
  rewrite <- (Rsum_map_plus
    (fun a => (if Rlt_dec PI a then a - PI else 0) ^ 2)
    (fun a => (if Rlt_dec a (- PI) then a + PI else 0) ^ 2)).
  f_equal. apply map_ext. intros a. apply penalty_split.
Qed.







End Penalty.


(* ===================================================================== *)
(** * The index machinery of [_setup_indices] *)
(* ===================================================================== *)

(** Inversion of a successful monadic step. *)
Ltac obind_inv H :=
  match type of H with
  | mbind _ ?m = Returns _ =>
      let E := fresh "E" in
      destruct m eqn:E; cbn [mbind outcome_bind obind] in H;
      [| discriminate H | discriminate H]
  | obind ?m _ = Returns _ =>
      let E := fresh "E" in
      destruct m eqn:E; cbn [obind] in H;
      [| discriminate H | discriminate H]
  end.

Tactic Notation "obind_inv_as" hyp(H) ident(x) ident(E) :=
  match type of H with
  | mbind _ ?m = Returns _ =>
      destruct m as [x | |] eqn:E; cbn [mbind outcome_bind obind] in H;
      [| discriminate H | discriminate H]
  | obind ?m _ = Returns _ =>
      destruct m as [x | |] eqn:E; cbn [obind] in H;
      [| discriminate H | discriminate H]
  end.

Section MonadFacts.

Lemma get_item_Returns {A} (l : list A) (i : nat) (a : A) :
  get_item l i = Returns a <-> l !! i = Some a.
Proof.
  unfold get_item. destruct (l !! i); split; intros H;
    try discriminate; now inversion H.
Qed.

Lemma set_item_Returns {A} (l l' : list A) (i : nat) (a : A) :
  set_item l i a = Returns l' <-> i < length l /\ l' = <[i := a]> l.
Proof.
  unfold set_item. destruct (decide (i < length l)); split.
  - intros H. inversion H. now split.
  - intros [_ ->]. reflexivity.
  - discriminate.
  - intros [? _]. contradiction.
Qed.

Lemma omapM_Returns {A B} (f : A -> outcome B) (l : list A) (l' : list B) :
  omapM f l = Returns l' <-> Forall2 (fun a b => f a = Returns b) l l'.
Proof.
  revert l'. induction l as [| a l IH]; intros l'; simpl.
  - split; [intros H; inversion H; constructor | intros H; now inversion H].
  - split.
    + intros H. obind_inv H. obind_inv H. inversion H; subst.
      constructor; [assumption | now apply IH].
    + intros H. inversion H as [| ? b ? bs Hab Hrest]; subst.
      cbn [mbind outcome_bind obind]. rewrite Hab. cbn [obind].
      apply IH in Hrest. rewrite Hrest. reflexivity.
Qed.

End MonadFacts.

(** ** One pass of the block loop *)

Section BlockPass.

Variable L0 : list nat.

Lemma ready_spec (r : zrow) :
  ready (list_to_set L0) r = true
  <-> In (row_ref1 r) L0 /\ In (row_ref2 r) L0 /\ In (row_ref3 r) L0.
Proof.
  unfold ready. rewrite bool_decide_eq_true, !elem_of_list_to_set.
  now rewrite !list_elem_of_In.
Qed.

Lemma pass_inv_place origs block st a1 a2 a3 a4 perm' inv' m2 m3 m4 :
  pass_inv L0 origs block st ->
  In a2 L0 -> In a3 L0 -> In a4 L0 ->
  ~ In a1 (L0 ++ map row_atom block) ->
  set_item (ps_perm st) (ps_cur st) a1 = Returns perm' ->
  set_item (ps_perm_inv st) a1 (ps_cur st) = Returns inv' ->
  get_item inv' a2 = Returns m2 ->
  get_item inv' a3 = Returns m3 ->
  get_item inv' a4 = Returns m4 ->
  pass_inv L0 (origs ++ [(a1, a2, a3, a4)]) (block ++ [(a1, m2, m3, m4)])
    {| ps_perm := perm'; ps_perm_inv := inv'; ps_cur := S (ps_cur st) |}.
Proof.
  intros [Hrows Hcur Hperm Hinv0 Hinv] H2 H3 H4 Hfresh E1 E2 G2 G3 G4.
  apply set_item_Returns in E1. destruct E1 as [Hlt1 ->].
  apply set_item_Returns in E2. destruct E2 as [Hlt2 ->].
  apply get_item_Returns in G2, G3, G4.
  assert (Hfresh0 : ~ In a1 L0).
  { intros Hc. apply Hfresh. apply in_or_app. now left. }
  assert (Hold : forall a m, In a L0 ->
            <[a1 := ps_cur st]> (ps_perm_inv st) !! a = Some m ->
            L0 !! m = Some a).
  { intros a m Ha Hm. rewrite list_lookup_insert_ne in Hm by congruence.
    destruct (Hinv0 a Ha) as [m' [Hm' HL]]. congruence. }
  assert (Hlen : length (L0 ++ map row_atom block) = ps_cur st).
  { rewrite length_app, length_map. lia. }
  constructor; cbn [ps_perm ps_perm_inv ps_cur].
  - apply Forall2_app; [assumption |]. constructor; [| constructor].
    unfold remapped. cbn. repeat split; [eapply Hold; eauto ..].
  - rewrite length_app. simpl. lia.
  - intros m Hm. rewrite length_app in Hm. simpl in Hm.
    rewrite map_app, app_assoc. simpl.
    destruct (decide (m = ps_cur st)) as [-> | Hne].
    + rewrite list_lookup_insert_eq by assumption.
      rewrite lookup_app_r by lia. rewrite Hlen, Nat.sub_diag. reflexivity.
    + rewrite list_lookup_insert_ne by congruence.
      rewrite lookup_app_l by lia. apply Hperm. lia.
  - intros a Ha. rewrite list_lookup_insert_ne by congruence. now apply Hinv0.
  - intros a Ha. rewrite map_app, app_assoc. simpl.
    rewrite map_app in Ha. apply in_app_or in Ha.
    destruct (decide (a = a1)) as [-> | Hne].
    + exists (ps_cur st). rewrite list_lookup_insert_eq by assumption.
      split; [reflexivity |].
      rewrite lookup_app_r by lia. rewrite Hlen, Nat.sub_diag. reflexivity.
    + destruct Ha as [Ha | [Ha | []]]; [| simpl in Ha; congruence].
      destruct (Hinv a Ha) as [m [Hm HL]].
      exists m. rewrite list_lookup_insert_ne by congruence.
      split; [assumption | now apply lookup_app_l_Some].
Qed.

Lemma block_pass_inv rows :
  forall st next_z next_cart block origs st' next_z' next_cart' block',
    block_pass (list_to_set L0) rows st next_z next_cart block
      = Returns (st', next_z', next_cart', block') ->
    pass_inv L0 origs block st ->
    List.NoDup (map row_atom rows) ->
    (forall r, In r rows -> ~ In (row_atom r) (L0 ++ map row_atom block)) ->
    pass_inv L0 (origs ++ List.filter (ready (list_to_set L0)) rows) block' st'
    /\ next_z'
       = next_z ++ List.filter (fun r => negb (ready (list_to_set L0) r)) rows
    /\ (forall a, a ∈ next_cart' <->
          a ∈ next_cart
          \/ In a (map row_atom (List.filter (ready (list_to_set L0)) rows))).
Proof.
  induction rows as [| [[[a1 a2] a3] a4] rows IH];
    intros st next_z next_cart block origs st' next_z' next_cart' block'
           Hrun Hinv Hnd Hfresh.
  - simpl in Hrun. inversion Hrun; subst. simpl. rewrite !app_nil_r.
    split; [assumption |]. split; [reflexivity |]. tauto.
  - inversion Hnd as [| ? ? Hni Hnd']; subst.
    cbn [block_pass] in Hrun. cbn [List.filter].
    destruct (decide (a2 ∈ list_to_set L0 /\ a3 ∈ list_to_set L0
                      /\ a4 ∈ list_to_set L0)) as [Hr | Hr].
    + assert (Hready : ready (list_to_set L0) (a1, a2, a3, a4) = true).
      { unfold ready. now apply bool_decide_eq_true. }
      rewrite Hready. cbn [negb].
      apply ready_spec in Hready. cbn in Hready.
      destruct Hready as [H2 [H3 H4]].
      obind_inv_as Hrun perm' E1. obind_inv_as Hrun inv' E2.
      obind_inv_as Hrun m2 G2. obind_inv_as Hrun m3 G3.
      obind_inv_as Hrun m4 G4.
      assert (Hfr : ~ In a1 (L0 ++ map row_atom block)).
      { apply (Hfresh (a1, a2, a3, a4)). now left. }
      pose proof (pass_inv_place origs block st a1 a2 a3 a4 perm' inv'
                    m2 m3 m4 Hinv H2 H3 H4 Hfr E1 E2 G2 G3 G4) as Hinv'.
      eapply IH in Hrun; [| exact Hinv' | assumption |].
      * destruct Hrun as [Hp [Hz Hc]].
        split; [now rewrite <- app_assoc in Hp |]. split; [assumption |].
        intros a. rewrite Hc. cbn [map In row_atom].
        rewrite elem_of_union, elem_of_singleton. intuition.
      * intros r Hr' Hc. rewrite map_app, app_assoc in Hc.
        apply in_app_or in Hc. destruct Hc as [Hc | [Hc | []]].
        -- apply (Hfresh r); [now right | assumption].
        -- apply Hni. cbn in Hc. rewrite Hc. now apply in_map.
    + assert (Hready : ready (list_to_set L0) (a1, a2, a3, a4) = false).
      { unfold ready. now apply bool_decide_eq_false. }
      rewrite Hready. cbn [negb].
      eapply IH in Hrun; [| eassumption | assumption |].
      * destruct Hrun as [Hp [Hz Hc]].
        split; [assumption |]. split; [| assumption].
        now rewrite <- app_assoc in Hz.
      * intros r Hr'. apply Hfresh. now right.
Qed.

End BlockPass.

(** ** The block loop *)

Section BlockLoop.

Lemma remapped_atoms L origs block :
  Forall2 (remapped L) origs block -> map row_atom block = map row_atom origs.
Proof.
  induction 1 as [| o b origs block [Ha _] _ IH]; simpl; [reflexivity |].
  now rewrite Ha, IH.
Qed.

Lemma block_atoms_snoc blocks b :
  block_atoms (blocks ++ [b]) = block_atoms blocks ++ map row_atom b.
Proof.
  unfold block_atoms. rewrite flat_map_app. simpl. now rewrite app_nil_r.
Qed.

Lemma blocks_remapped_length L OB blocks :
  blocks_remapped L OB blocks -> length OB = length blocks.
Proof.
  revert L blocks. induction OB as [| ob OB IH]; intros L [| b blocks] H;
    simpl in *; try contradiction; [reflexivity |].
  destruct H as [_ H]. f_equal. eauto.
Qed.

Lemma blocks_remapped_app L OB1 blocks1 OB2 blocks2 :
  blocks_remapped L OB1 blocks1 ->
  blocks_remapped (L ++ block_atoms blocks1) OB2 blocks2 ->
  blocks_remapped L (OB1 ++ OB2) (blocks1 ++ blocks2).
Proof.
  revert L blocks1.
  induction OB1 as [| ob OB1 IH]; intros L [| b blocks1] H1 H2;
    simpl in *; try contradiction.
  - now rewrite app_nil_r in H2.
  - destruct H1 as [Hb H1]. split; [assumption |].
    apply IH; [assumption |].
    unfold block_atoms in *. now rewrite <- app_assoc.
Qed.

Lemma filter_partition_perm {A} (f : A -> bool) (l : list A) :
  Permutation (List.filter f l ++ List.filter (fun a => negb (f a)) l) l.
Proof.
  induction l as [| a l IH]; simpl; [reflexivity |].
  destruct (f a); simpl.
  - now apply perm_skip.
  - rewrite <- Permutation_middle. now apply perm_skip.
Qed.

Lemma NoDup_map_filter {A B} (g : A -> B) (f : A -> bool) (l : list A) :
  List.NoDup (map g l) -> List.NoDup (map g (List.filter f l)).
Proof.
  induction l as [| a l IH]; simpl; intros H; [constructor |].
  inversion H as [| ? ? Hni Hnd]; subst.
  destruct (f a); simpl; [| now apply IH].
  constructor; [| now apply IH].
  intros Hc. apply Hni. apply in_map_iff in Hc.
  destruct Hc as [x [Hx Hin]]. apply filter_In in Hin.
  rewrite <- Hx. apply in_map. tauto.
Qed.

Lemma NoDup_map_inj_in {A B} (g : A -> B) (l : list A) (x y : A) :
  List.NoDup (map g l) -> In x l -> In y l -> g x = g y -> x = y.
Proof.
  induction l as [| a l IH]; simpl; intros H Hx Hy Heq; [contradiction |].
  inversion H as [| ? ? Hni Hnd]; subst.
  destruct Hx as [-> | Hx], Hy as [-> | Hy]; try reflexivity.
  - exfalso. apply Hni. rewrite Heq. now apply in_map.
  - exfalso. apply Hni. rewrite <- Heq. now apply in_map.
  - now apply IH.
Qed.

Lemma loop_inv_pass_inv L st : loop_inv L st -> pass_inv L [] [] st.
Proof.
  intros [Hc Hp Hi]. constructor; simpl.
  - constructor.
  - lia.
  - intros m Hm. rewrite app_nil_r. apply Hp. lia.
  - assumption.
  - intros a [].
Qed.

Lemma pass_inv_loop_inv L origs block st :
  pass_inv L origs block st -> loop_inv (L ++ map row_atom block) st.
Proof.
  intros [_ Hc Hp Hi0 Hi]. constructor.
  - rewrite length_app, length_map. assumption.
  - intros m Hm. apply Hp. rewrite length_app, length_map in Hm. assumption.
  - intros a Ha. apply in_app_or in Ha. destruct Ha as [Ha | Ha].
    + destruct (Hi0 a Ha) as [m [Hm HL]]. exists m.
      split; [assumption | now apply lookup_app_l_Some].
    + now apply Hi.
Qed.

Lemma block_loop_inv (cart : list nat) fuel :
  forall pending L0 st blocks OB st' blocks',
    block_loop fuel pending (list_to_set L0) st blocks = Returns (st', blocks') ->
    loop_inv L0 st ->
    L0 = cart ++ block_atoms blocks ->
    blocks_remapped cart OB blocks ->
    List.NoDup (map row_atom pending) ->
    (forall r, In r pending -> ~ In (row_atom r) L0) ->
    exists OB' new,
      blocks' = blocks ++ new
      /\ blocks_remapped cart (OB ++ OB') blocks'
      /\ Permutation (concat OB') pending
      /\ loop_inv (cart ++ block_atoms blocks') st'.
Proof.
  induction fuel as [| fuel IH];
    intros pending L0 st blocks OB st' blocks' Hrun Hinv HL HOB Hnd Hfresh.
  - destruct pending; [| discriminate].
    simpl in Hrun. inversion Hrun; subst.
    exists [], []. rewrite !app_nil_r. split; [reflexivity |].
    split; [assumption |]. split; [constructor | assumption].
  - destruct pending as [| r0 pending0].
    { simpl in Hrun. inversion Hrun; subst.
      exists [], []. rewrite !app_nil_r. split; [reflexivity |].
      split; [assumption |]. split; [constructor | assumption]. }
    cbn [block_loop] in Hrun.
    remember (r0 :: pending0) as pending eqn:Hpending.
    obind_inv_as Hrun res Epass.
    destruct res as [[[st1 next_z] next_cart] block].
    apply (block_pass_inv L0 pending st [] ∅ [] []) in Epass;
      [| now apply loop_inv_pass_inv | assumption
       | intros r Hr; simpl; rewrite app_nil_r; now apply Hfresh].
    simpl in Epass. destruct Epass as [Hpass [Hz Hc]].
    pose proof (remapped_atoms _ _ _ (pi_rows _ _ _ _ Hpass)) as Hatoms.
    assert (Hset : list_to_set L0 ∪ next_cart
                   = (list_to_set (L0 ++ map row_atom block) : gset nat)).
    { apply set_eq. intros a.
      rewrite elem_of_union, !elem_of_list_to_set, Hc, Hatoms.
      rewrite elem_of_app, !list_elem_of_In.
      rewrite elem_of_empty. tauto. }
    rewrite Hset in Hrun.
    apply (IH _ _ _ _ (OB ++ [List.filter (ready (list_to_set L0)) pending]))
      in Hrun.
    + destruct Hrun as [OB' [new [Hb [HOB' [Hperm Hinv']]]]].
      exists (List.filter (ready (list_to_set L0)) pending :: OB'),
             (block :: new).
      split; [rewrite Hb; now rewrite <- app_assoc |].
      split; [now rewrite <- app_assoc in HOB' |].
      split; [| assumption].
      simpl. rewrite Hperm, Hz. simpl. apply filter_partition_perm.
    + now apply pass_inv_loop_inv in Hpass.
    + rewrite block_atoms_snoc, app_assoc. now rewrite <- HL.
    + apply blocks_remapped_app; [assumption |].
      simpl. rewrite <- HL. split; [| exact I]. apply (pi_rows _ _ _ _ Hpass).
    + rewrite Hz. simpl. now apply NoDup_map_filter.
    + rewrite Hz. simpl. intros r Hr Hc'.
      apply filter_In in Hr. destruct Hr as [Hr Hnr].
      apply in_app_or in Hc'. destruct Hc' as [Hc' | Hc'].
      * now apply (Hfresh r).
      * rewrite Hatoms in Hc'. apply in_map_iff in Hc'.
        destruct Hc' as [r' [Heq Hr']]. apply filter_In in Hr'.
        destruct Hr' as [Hr' Hrd].
        assert (r' = r) by (eapply NoDup_map_inj_in; eauto). subst r'.
        rewrite Hrd in Hnr. discriminate.
Qed.

End BlockLoop.

(** ** Unfolding a successful [_setup_indices] *)

Section SetupFacts.

(** With no anchor nothing is ever ready, and the loop cannot return
    unless there was nothing to place. *)
Lemma block_pass_no_cart rows :
  forall st next_z next_cart block,
    block_pass ∅ rows st next_z next_cart block
    = Returns (st, next_z ++ rows, next_cart, block).
Proof.
  induction rows as [| [[[a1 a2] a3] a4] rows IH];
    intros st next_z next_cart block; cbn [block_pass].
  - now rewrite app_nil_r.
  - destruct (decide _) as [[Hc _] | _].
    + exfalso. now apply not_elem_of_empty in Hc.
    + rewrite IH. now rewrite <- app_assoc.
Qed.

Lemma block_loop_no_cart fuel :
  forall pending st blocks res,
    block_loop fuel pending ∅ st blocks = Returns res -> pending = [].
Proof.
  induction fuel as [| fuel IH]; intros pending st blocks res Hrun.
  - destruct pending; [reflexivity | discriminate].
  - destruct pending as [| r pending]; [reflexivity |].
    cbn [block_loop] in Hrun. rewrite block_pass_no_cart in Hrun.
    cbn [mbind outcome_bind obind] in Hrun.
    replace (∅ ∪ ∅ : gset nat) with (∅ : gset nat) in Hrun
      by (symmetry; apply union_empty_r_L).
    apply IH in Hrun. discriminate.
Qed.

(** The loop over [enumerate(cart_indices)], from any offset. *)
Lemma cart_loop_spec (l : list nat) :
  forall (pre : list nat) (st st' : perm_state),
    ofoldl cart_step (combine (seq (length pre) (length l)) l) st = Returns st' ->
    (forall m, m < length pre -> ps_perm st !! m = pre !! m) ->
    (forall a, In a pre ->
       exists m, ps_perm_inv st !! a = Some m /\ pre !! m = Some a) ->
    (forall m, m < length (pre ++ l) -> ps_perm st' !! m = (pre ++ l) !! m)
    /\ (forall a, In a (pre ++ l) ->
          exists m, ps_perm_inv st' !! a = Some m /\ (pre ++ l) !! m = Some a)
    /\ length (ps_perm st') = length (ps_perm st)
    /\ length (ps_perm_inv st') = length (ps_perm_inv st)
    /\ (forall a, a < length (ps_perm_inv st) -> ~ In a l ->
          ps_perm_inv st' !! a = ps_perm_inv st !! a)
    /\ (forall a, In a l -> a < length (ps_perm_inv st)).
Proof.
  induction l as [| j l IH]; intros pre st st' Hrun Hp Hi.
  - simpl in Hrun. inversion Hrun; subst. rewrite app_nil_r.
    split; [assumption |]. split; [assumption |].
    split; [reflexivity |]. split; [reflexivity |].
    split; [reflexivity |]. intros a [].
  - cbn [length seq combine ofoldl] in Hrun.
    obind_inv_as Hrun st1 E1. unfold cart_step in E1. cbn [fst snd] in E1.
    obind_inv_as E1 p Ep. obind_inv_as E1 q Eq.
    cbn [mret outcome_ret] in E1. inversion E1; subst st1; clear E1.
    apply set_item_Returns in Ep, Eq.
    destruct Ep as [Hlp ->]. destruct Eq as [Hlq ->].
    replace (S (length pre)) with (length (pre ++ [j])) in Hrun
      by (rewrite length_app; simpl; lia).
    apply IH in Hrun; cbn [ps_perm ps_perm_inv ps_cur] in *.
    + rewrite <- app_assoc in Hrun. simpl in Hrun.
      destruct Hrun as [H1 [H2 [H3 [H4 [H5 H6]]]]].
      rewrite length_insert in H3, H4, H5, H6.
      split; [assumption |]. split; [assumption |].
      split; [assumption |]. split; [assumption |]. split.
      * intros a Ha Hni. rewrite H5;
          [| assumption | intros Hc; apply Hni; now right].
        apply list_lookup_insert_ne. intros ->. apply Hni. now left.
      * intros a [<- | Ha]; [assumption | now apply H6].
    + intros m Hm. rewrite length_app in Hm. simpl in Hm.
      destruct (decide (m = length pre)) as [-> | Hne].
      * rewrite list_lookup_insert_eq by assumption.
        rewrite lookup_app_r by lia. now rewrite Nat.sub_diag.
      * rewrite list_lookup_insert_ne by congruence.
        rewrite lookup_app_l by lia. apply Hp. lia.
    + intros a Ha. apply in_app_or in Ha.
      destruct (decide (a = j)) as [-> | Hne].
      * exists (length pre). rewrite list_lookup_insert_eq by assumption.
        split; [reflexivity |].
        rewrite lookup_app_r by lia. now rewrite Nat.sub_diag.
      * destruct Ha as [Ha | [Ha | []]]; [| congruence].
        destruct (Hi a Ha) as [m [Hm HL]]. exists m.
        rewrite list_lookup_insert_ne by congruence.
        split; [assumption | now apply lookup_app_l_Some].
Qed.

Lemma setup_indices_inv dims z cart ix :
  _setup_indices dims z cart = Returns ix ->
  exists sorted triples cart_triples st0 i st,
    topological_sort z = Returns sorted
    /\ omapM z_row sorted = Returns (sorted_z_indices ix)
    /\ n_atoms ix = dims / 3
    /\ inds_for_atom ix
       = map (fun i => (3 * i, 3 * i + 1, 3 * i + 2)) (seq 0 (dims / 3))
    /\ rev_z_indices ix = rev (sorted_z_indices ix)
    /\ omapM (get_item (inds_for_atom ix))
         (map row_atom (sorted_z_indices ix)) = Returns triples
    /\ modified_indices ix = flat_map triple_list triples
    /\ bond_indices ix = every_third (modified_indices ix)
    /\ angle_indices ix = every_third (skipn 1 (modified_indices ix))
    /\ dih_indices ix = every_third (skipn 2 (modified_indices ix))
    /\ ofoldl stats_step (enumerate (map row_atom (sorted_z_indices ix)))
         (replicate (dims / 3) 0) = Returns (atom_to_stats ix)
    /\ omapM (get_item (inds_for_atom ix)) cart = Returns cart_triples
    /\ init_cart_indices ix = flat_map triple_list cart_triples
    /\ ofoldl cart_step (enumerate cart)
         {| ps_perm := replicate (dims / 3) 0;
            ps_perm_inv := replicate (dims / 3) 0; ps_cur := 0 |}
       = Returns st0
    /\ leaked_i (dims / 3) (length (sorted_z_indices ix)) (length cart)
       = Some i
    /\ block_loop (length (sorted_z_indices ix)) (sorted_z_indices ix)
         (list_to_set cart)
         {| ps_perm := ps_perm st0; ps_perm_inv := ps_perm_inv st0;
            ps_cur := i + 1 |} []
       = Returns (st, rev_blocks ix)
    /\ rev_perm ix = ps_perm st
    /\ rev_perm_inv ix = ps_perm_inv st.
Proof.
  unfold _setup_indices. intros H.
  obind_inv_as H sorted E1. obind_inv_as H sorted_z E2.
  obind_inv_as H triples E3. obind_inv_as H ats E4.
  obind_inv_as H cart_triples E5. obind_inv_as H st0 E6.
  rewrite length_map in H.
  destruct (leaked_i _ _ _) as [i |] eqn:E7; [| discriminate].
  obind_inv_as H res E8. destruct res as [st blocks].
  cbn [mret outcome_ret] in H. inversion H; subst ix; clear H.
  cbn [sorted_z_indices n_atoms inds_for_atom rev_z_indices modified_indices
       bond_indices angle_indices dih_indices atom_to_stats
       init_cart_indices rev_blocks rev_perm rev_perm_inv].
  exists sorted, triples, cart_triples, st0, i, st.
  repeat (split; [first [assumption | reflexivity] |]). reflexivity.
Qed.

End SetupFacts.

(** ** What a successful [_setup_indices] guarantees about the blocks *)

Section SetupBlocks.

Lemma z_row_atoms sorted sorted_z :
  omapM z_row sorted = Returns sorted_z ->
  map row_atom sorted_z = map fst sorted.
Proof.
  intros H. apply omapM_Returns in H.
  induction H as [| [k v] r sorted sorted_z Hr _ IH]; simpl; [reflexivity |].
  f_equal; [| assumption].
  unfold z_row in Hr. simpl in Hr.
  destruct v as [| r0 [| r1 [| r2 v]]]; try discriminate.
  now inversion Hr.
Qed.

Lemma leaked_i_cart n_atoms n_mod n_cart i :
  0 < n_cart -> leaked_i n_atoms n_mod n_cart = Some i -> i + 1 = n_cart.
Proof.
  unfold leaked_i. intros Hc. destruct (decide (0 < n_cart)); [| lia].
  intros H. inversion H. lia.
Qed.

(** The atoms of the sorted rows are distinct and are atoms of [z]. *)
Lemma setup_sorted_atoms dims z cart ix :
  _setup_indices dims z cart = Returns ix ->
  List.NoDup (map row_atom (sorted_z_indices ix))
  /\ forall a, In a (map row_atom (sorted_z_indices ix)) -> In a (map fst z).
Proof.
  intros H. apply setup_indices_inv in H.
  destruct H as (sorted & triples & cart_triples & st0 & i & st & Hs & Hrows & _).
  apply topological_sort_Returns in Hs. destruct Hs as [Hperm _].
  rewrite (z_row_atoms _ _ Hrows).
  apply (Permutation_map fst) in Hperm. split.
  - apply NoDup_ListNoDup. rewrite Hperm. apply dict_NoDup.
  - intros a Ha. apply dict_keys_incl.
    eapply Permutation_in; [exact Hperm | exact Ha].
Qed.

Lemma setup_blocks_spec dims z cart ix :
  (forall a, In a cart -> ~ In a (map fst z)) ->
  _setup_indices dims z cart = Returns ix ->
  exists OB,
    blocks_remapped cart OB (rev_blocks ix)
    /\ Permutation (concat OB) (sorted_z_indices ix)
    /\ (forall m, m < length (cart ++ block_atoms (rev_blocks ix)) ->
          rev_perm ix !! m = (cart ++ block_atoms (rev_blocks ix)) !! m)
    /\ (forall a, In a (cart ++ block_atoms (rev_blocks ix)) ->
          exists m, rev_perm_inv ix !! a = Some m
                    /\ (cart ++ block_atoms (rev_blocks ix)) !! m = Some a).
Proof.
  intros Hdisj Hsetup.
  destruct (setup_sorted_atoms _ _ _ _ Hsetup) as [Hnd Hkeys].
  apply setup_indices_inv in Hsetup.
  destruct Hsetup as (sorted & triples & cart_triples & st0 & i & st & _ & _
    & _ & _ & _ & _ & _ & _ & _ & _ & _ & _ & _ & Hcart & Hi & Hloop & Hp & Hq).
  destruct cart as [| c0 cart'].
  - (* no anchor: nothing can have been placed *)
    cbn [list_to_set foldr] in Hloop.
    pose proof (block_loop_no_cart _ _ _ _ _ Hloop) as Hnil.
    rewrite Hnil in Hloop. simpl in Hloop.
    assert (Hb : rev_blocks ix = []) by (inversion Hloop; reflexivity).
    rewrite Hb, Hnil. exists []. simpl.
    split; [exact I |]. split; [constructor |].
    split; [intros m Hm; lia | intros a []].
  - set (cart := c0 :: cart') in *.
    apply leaked_i_cart in Hi; [| simpl; lia].
    unfold enumerate in Hcart.
    apply (cart_loop_spec cart []) in Hcart;
      [| intros m Hm; simpl in Hm; lia | intros a []].
    simpl in Hcart. destruct Hcart as [H1 [H2 _]].
    rewrite Hi in Hloop.
    apply (block_loop_inv cart _ _ cart _ _ []) in Hloop.
    + destruct Hloop as [OB [new [Hb [HOB [Hperm [_ Hlp Hli]]]]]].
      exists OB. simpl in HOB. rewrite Hp, Hq. auto.
    + constructor; auto.
    + simpl. now rewrite app_nil_r.
    + exact I.
    + assumption.
    + intros r Hr Hc. apply (Hdisj _ Hc). apply Hkeys. now apply in_map.
Qed.

End SetupBlocks.

Section BlockPartition.

Lemma block_atoms_app bs1 bs2 :
  block_atoms (bs1 ++ bs2) = block_atoms bs1 ++ block_atoms bs2.
Proof. unfold block_atoms. apply flat_map_app. Qed.

Lemma block_atoms_length bs : length (block_atoms bs) = length (concat bs).
Proof.
  induction bs as [| b bs IH]; simpl; [reflexivity |].
  unfold block_atoms in *. now rewrite !length_app, length_map, IH.
Qed.

Lemma blocks_remapped_lookup L OB blocks k block :
  blocks_remapped L OB blocks -> blocks !! k = Some block ->
  exists ob, OB !! k = Some ob
             /\ Forall2 (remapped (L ++ block_atoms (take k blocks))) ob block.
Proof.
  revert L blocks k.
  induction OB as [| ob OB IH]; intros L [| b blocks] k H Hk;
    simpl in H; try contradiction; [discriminate |].
  destruct H as [Hb H]. destruct k as [| k]; simpl in *.
  - inversion Hk; subst. exists ob. rewrite app_nil_r. now split.
  - destruct (IH _ _ _ H Hk) as [ob' [Hob HF]].
    exists ob'. split; [assumption |].
    unfold block_atoms in *. simpl. now rewrite app_assoc.
Qed.

Lemma block_atoms_take_In blocks k a :
  In a (block_atoms (take k blocks)) ->
  exists k' block', k' < k /\ blocks !! k' = Some block'
                    /\ In a (map row_atom block').
Proof.
  unfold block_atoms. intros H. apply in_flat_map in H.
  destruct H as [block' [Hb Ha]].
  apply list_elem_of_In, list_elem_of_lookup in Hb. destruct Hb as [k' Hk'].
  pose proof (lookup_lt_Some _ _ _ Hk') as Hlt. rewrite length_take in Hlt.
  rewrite lookup_take_lt in Hk' by lia.
  exists k', block'. split; [lia |]. now split.
Qed.

(** C4. In the blocks built by [_setup_indices] for a specification
    whose anchors are not z-matrix atoms, every reference index of a row
    of block [k] is a buffer position filled before block [k] is built,
    and the atom standing there is an anchor or an atom of a strictly
    earlier block. *)
Theorem block_partition_valid dims z cart ix :
  (forall a, In a cart -> ~ In a (map fst z)) ->
  _setup_indices dims z cart = Returns ix ->
  forall k block row m,
    rev_blocks ix !! k = Some block -> In row block -> In m (row_refs row) ->
    m < block_start cart (rev_blocks ix) k
    /\ exists a, rev_perm ix !! m = Some a
         /\ (In a cart
             \/ exists k' block', k' < k /\ rev_blocks ix !! k' = Some block'
                                  /\ In a (map row_atom block')).
Proof.
  intros Hdisj Hsetup k block row m Hk Hrow Hm.
  destruct (setup_blocks_spec _ _ _ _ Hdisj Hsetup) as [OB [HOB [_ [Hperm _]]]].
  destruct (blocks_remapped_lookup _ _ _ _ _ HOB Hk) as [ob [_ HF]].
  set (Lk := cart ++ block_atoms (take k (rev_blocks ix))) in *.
  assert (Hres : exists a, Lk !! m = Some a).
  { apply list_elem_of_In, list_elem_of_lookup in Hrow. destruct Hrow as [j Hj].
    destruct (Forall2_lookup_r _ _ _ _ _ HF Hj) as [orig [_ [_ [H1 [H2 H3]]]]].
    destruct Hm as [<- | [<- | [<- | []]]]; eauto. }
  destruct Hres as [a Ha].
  pose proof (lookup_lt_Some _ _ _ Ha) as Hlt.
  assert (Hfull : cart ++ block_atoms (rev_blocks ix)
                  = Lk ++ block_atoms (drop k (rev_blocks ix))).
  { unfold Lk. rewrite <- app_assoc, <- block_atoms_app.
    now rewrite take_drop. }
  split.
  - unfold block_start. unfold Lk in Hlt.
    now rewrite length_app, block_atoms_length in Hlt.
  - exists a. split.
    + rewrite Hperm.
      * rewrite Hfull. now apply lookup_app_l_Some.
      * rewrite Hfull, length_app. lia.
    + apply list_elem_of_lookup_2, list_elem_of_In in Ha.
      unfold Lk in Ha. apply in_app_or in Ha.
      destruct Ha as [Ha | Ha]; [now left | right].
      now apply block_atoms_take_In.
Qed.

Lemma block_partition_valid_witness :
  exists ix,
    _setup_indices 18 [(5, [4; 1; 0]); (4, [3; 1; 0]); (3, [2; 1; 0])] [0; 1; 2]
      = Returns ix
    /\ 3 < block_start [0; 1; 2] (rev_blocks ix) 1
    /\ exists a, rev_perm ix !! 3 = Some a
         /\ (In a [0; 1; 2]
             \/ exists k' block', k' < 1 /\ rev_blocks ix !! k' = Some block'
                                  /\ In a (map row_atom block')).
Proof.
  destruct (_setup_indices 18 [(5, [4; 1; 0]); (4, [3; 1; 0]); (3, [2; 1; 0])]
              [0; 1; 2]) as [ix | |] eqn:E;
    [| vm_compute in E; discriminate E | vm_compute in E; discriminate E].
  exists ix. split; [reflexivity |].
  apply (block_partition_valid 18
           [(5, [4; 1; 0]); (4, [3; 1; 0]); (3, [2; 1; 0])] [0; 1; 2] ix)
    with (block := [(4, 3, 1, 0)]) (row := (4, 3, 1, 0)).
  - intros a Ha Hc. simpl in Ha, Hc. lia.
  - exact E.
  - vm_compute in E. inversion E. reflexivity.
  - now left.
  - now left.
Defined.

End BlockPartition.


(* ===================================================================== *)
(** * Reading and writing columns of a row *)
(* ===================================================================== *)

Section RowOpsFacts.
Local Open Scope R_scope.

Lemma col_lookup (row : list R) (i : nat) (v : R) :
  row !! i = Some v -> col row i = v.
Proof. intros H. unfold col. now apply nth_lookup_Some with (d := 0) in H. Qed.

Lemma col_insert_eq (row : list R) (i : nat) (v : R) :
  (i < length row)%nat -> col (<[i := v]> row) i = v.
Proof. intros H. apply col_lookup. now apply list_lookup_insert_eq. Qed.

Lemma col_insert_ne (row : list R) (i j : nat) (v : R) :
  i <> j -> col (<[i := v]> row) j = col row j.
Proof.
  intros H. unfold col. rewrite !nth_lookup.
  now rewrite list_lookup_insert_ne.
Qed.

Lemma scatter_length (idx : list nat) :
  forall (vals row : list R), length (scatter row idx vals) = length row.
Proof.
  unfold scatter. induction idx as [| i idx IH]; intros vals row; simpl.
  - reflexivity.
  - destruct vals as [| v vals]; simpl; [reflexivity |].
    rewrite IH. apply length_insert.
Qed.

(** A column that is not written keeps its value. *)
Lemma scatter_col_other (idx : list nat) :
  forall (vals row : list R) (c : nat),
    ~ In c idx -> col (scatter row idx vals) c = col row c.
Proof.
  unfold scatter. induction idx as [| i idx IH]; intros vals row c Hc; simpl.
  - reflexivity.
  - destruct vals as [| v vals]; simpl; [reflexivity |].
    rewrite IH by (intros H; apply Hc; now right).
    apply col_insert_ne. intros ->. apply Hc. now left.
Qed.

(** A column written once receives the value at the same position. *)
Lemma scatter_col_at (idx : list nat) :
  forall (vals row : list R) (i c : nat) (v : R),
    List.NoDup idx -> idx !! i = Some c -> vals !! i = Some v ->
    (c < length row)%nat ->
    col (scatter row idx vals) c = v.
Proof.
  unfold scatter. induction idx as [| j idx IH];
    intros vals row i c v Hnd Hi Hv Hlen; [discriminate |].
  inversion Hnd as [| ? ? Hni Hnd']; subst.
  destruct vals as [| w vals]; [destruct i; discriminate |].
  destruct i as [| i]; simpl in *.
  - inversion Hi; inversion Hv; subst.
    fold (scatter (<[c := v]> row) idx vals).
    rewrite scatter_col_other by assumption. now apply col_insert_eq.
  - apply (IH vals _ i); auto. now rewrite length_insert.
Qed.

Lemma gather_lookup (row : list R) (idx : list nat) (i c : nat) :
  idx !! i = Some c -> gather row idx !! i = Some (col row c).
Proof. intros H. unfold gather. now rewrite list_lookup_fmap, H. Qed.

(** The read-combine-write pattern of [row[idx] op= vals]. *)
Lemma inplace_col_at (op : R -> R -> R) (idx : list nat) (vals row : list R)
    (i c : nat) (v : R) :
  List.NoDup idx -> idx !! i = Some c -> vals !! i = Some v ->
  (c < length row)%nat ->
  col (scatter row idx (zip_with op (gather row idx) vals)) c
  = op (col row c) v.
Proof.
  intros Hnd Hi Hv Hlen. apply (scatter_col_at idx _ _ i); auto.
  rewrite lookup_zip_with. rewrite (gather_lookup _ _ _ _ Hi). simpl.
  now rewrite Hv.
Qed.

Lemma isub_at_col idx vals row i c v :
  List.NoDup idx -> idx !! i = Some c -> vals !! i = Some v ->
  (c < length row)%nat -> col (isub_at idx vals row) c = col row c - v.
Proof. apply inplace_col_at. Qed.

Lemma idiv_at_col idx vals row i c v :
  List.NoDup idx -> idx !! i = Some c -> vals !! i = Some v ->
  (c < length row)%nat -> col (idiv_at idx vals row) c = col row c / v.
Proof. apply inplace_col_at. Qed.

Lemma fix_dih_col idx row i c :
  List.NoDup idx -> idx !! i = Some c -> (c < length row)%nat ->
  col (_fix_dih_row idx row) c = wrap_fix_dih (col row c).
Proof.
  intros Hnd Hi Hlen. unfold _fix_dih_row.
  apply (scatter_col_at idx _ _ i); auto.
  rewrite list_lookup_fmap, (gather_lookup _ _ _ _ Hi). reflexivity.
Qed.

Lemma isub_at_other idx vals row c :
  ~ In c idx -> col (isub_at idx vals row) c = col row c.
Proof. apply scatter_col_other. Qed.

Lemma idiv_at_other idx vals row c :
  ~ In c idx -> col (idiv_at idx vals row) c = col row c.
Proof. apply scatter_col_other. Qed.

Lemma fix_dih_other idx row c :
  ~ In c idx -> col (_fix_dih_row idx row) c = col row c.
Proof. apply scatter_col_other. Qed.

Lemma isub_at_length idx vals row : length (isub_at idx vals row) = length row.
Proof. apply scatter_length. Qed.

Lemma idiv_at_length idx vals row : length (idiv_at idx vals row) = length row.
Proof. apply scatter_length. Qed.

Lemma fix_dih_length idx row : length (_fix_dih_row idx row) = length row.
Proof. apply scatter_length. Qed.

(** Rows that agree on every column and in length are equal. *)
Lemma row_ext (r1 r2 : list R) :
  length r1 = length r2 -> (forall c, (c < length r1)%nat -> col r1 c = col r2 c) ->
  r1 = r2.
Proof.
  intros Hlen Hcol. apply list_eq. intros i.
  destruct (decide (i < length r1)%nat) as [Hi | Hi].
  - destruct (lookup_lt_is_Some_2 r1 i Hi) as [v1 H1].
    destruct (lookup_lt_is_Some_2 r2 i ltac:(lia)) as [v2 H2].
    rewrite H1, H2. f_equal.
    rewrite <- (col_lookup _ _ _ H1), <- (col_lookup _ _ _ H2). now apply Hcol.
  - rewrite !(proj2 (lookup_ge_None _ _)) by lia. reflexivity.
Qed.

Lemma zip_with_map_same {A B C D} (f : B -> C -> D) (g : A -> B) (h : A -> C)
    (l : list A) :
  zip_with f (map g l) (map h l) = map (fun a => f (g a) (h a)) l.
Proof. induction l as [| a l IH]; simpl; [reflexivity | now rewrite IH]. Qed.

Lemma zip_map_same {A B C} (g : A -> B) (h : A -> C) (l : list A) :
  zip (map g l) (map h l) = map (fun a => (g a, h a)) l.
Proof. apply zip_with_map_same. Qed.

Lemma Rsum_perm (l1 l2 : list R) : Permutation l1 l2 -> Rsum l1 = Rsum l2.
Proof.
  induction 1 as [| a l1 l2 _ IH | a b l | l1 l2 l3 _ IH1 _ IH2]; simpl.
  - reflexivity.
  - now rewrite IH.
  - lra.
  - now rewrite IH1.
Qed.

End RowOpsFacts.


(* ===================================================================== *)
(** * Layout of the buffers built by [_setup_indices] *)
(* ===================================================================== *)

Section Layout.

Lemma inds_table_lookup (n a : nat) (t : nat * nat * nat) :
  map (fun i => (3 * i, 3 * i + 1, 3 * i + 2)) (seq 0 n) !! a = Some t ->
  a < n /\ t = (3 * a, 3 * a + 1, 3 * a + 2).
Proof.
  intros H. rewrite list_lookup_fmap in H.
  destruct (seq 0 n !! a) as [i |] eqn:E; [| discriminate].
  apply lookup_seq in E. destruct E as [-> Hlt]. simpl in H.
  inversion H. now split.
Qed.

Lemma inds_table_nth (n a : nat) :
  a < n ->
  nth a (map (fun i => (3 * i, 3 * i + 1, 3 * i + 2)) (seq 0 n)) (0, 0, 0)
  = (3 * a, 3 * a + 1, 3 * a + 2).
Proof.
  intros H. apply nth_lookup_Some with (i := a).
  rewrite list_lookup_fmap, lookup_seq_lt by assumption. reflexivity.
Qed.

Lemma omapM_get_inds (n : nat) (l : list nat) (triples : list (nat * nat * nat)) :
  omapM (get_item (map (fun i => (3 * i, 3 * i + 1, 3 * i + 2)) (seq 0 n))) l
    = Returns triples ->
  (forall a, In a l -> a < n)
  /\ triples = map (fun a => (3 * a, 3 * a + 1, 3 * a + 2)) l.
Proof.
  intros H. apply omapM_Returns in H.
  induction H as [| a t l triples Ha _ IH]; simpl.
  - split; [intros a [] | reflexivity].
  - apply get_item_Returns, inds_table_lookup in Ha. destruct Ha as [Hlt ->].
    destruct IH as [IH1 ->]. split; [| reflexivity].
    intros b [<- | Hb]; [assumption | now apply IH1].
Qed.

Lemma every_third_triples {A} (f g h : A -> nat) (l : list A) :
  every_third (flat_map (fun a => [f a; g a; h a]) l) = map f l
  /\ every_third (skipn 1 (flat_map (fun a => [f a; g a; h a]) l)) = map g l
  /\ every_third (skipn 2 (flat_map (fun a => [f a; g a; h a]) l)) = map h l.
Proof.
  induction l as [| a l [IH1 [IH2 IH3]]]; simpl; [auto |].
  split; [now rewrite IH1 |].
  split.
  - destruct l as [| b l]; simpl in *; [reflexivity |]. now rewrite <- IH2.
  - destruct l as [| b l]; simpl in *; [reflexivity |]. now rewrite <- IH3.
Qed.

(** The [enumerate(mod)] loop fills [atom_to_stats]. *)
Lemma stats_loop_spec (l : list nat) :
  forall (k : nat) (t t' : list nat),
    ofoldl stats_step (combine (seq k (length l)) l) t = Returns t' ->
    List.NoDup l ->
    length t' = length t
    /\ (forall i a, l !! i = Some a -> t' !! a = Some (k + i))
    /\ (forall a, ~ In a l -> t' !! a = t !! a).
Proof.
  induction l as [| j l IH]; intros k t t' Hrun Hnd.
  - simpl in Hrun. inversion Hrun; subst.
    split; [reflexivity |]. split; [intros i a H; discriminate | reflexivity].
  - inversion Hnd as [| ? ? Hni Hnd']; subst.
    cbn [length seq combine ofoldl] in Hrun.
    obind_inv_as Hrun t1 E1. unfold stats_step in E1. cbn [fst snd] in E1.
    apply set_item_Returns in E1. destruct E1 as [Hlt ->].
    apply IH in Hrun; [| assumption].
    destruct Hrun as [H1 [H2 H3]]. rewrite length_insert in H1.
    split; [assumption |]. split.
    + intros [| i] a Ha; simpl in Ha.
      * inversion Ha; subst a. rewrite H3 by assumption.
        rewrite list_lookup_insert_eq by assumption. f_equal. lia.
      * rewrite (H2 i a Ha). f_equal. lia.
    + intros a Ha. rewrite H3 by (intros Hc; apply Ha; now right).
      apply list_lookup_insert_ne. intros ->. apply Ha. now left.
Qed.

Lemma setup_indices_ok dims z cart ix :
  _setup_indices dims z cart = Returns ix -> setup_ok dims cart ix.
Proof.
  intros Hsetup.
  destruct (setup_sorted_atoms _ _ _ _ Hsetup) as [Hnd _].
  apply setup_indices_inv in Hsetup.
  destruct Hsetup as (sorted & triples & cart_triples & st0 & i & st & _ & _
    & Hn & Hinds & Hrev & Htr & Hmod & Hb & Ha & Hd & Hstats & Hct & Hinit & _).
  rewrite Hinds in Htr, Hct.
  apply omapM_get_inds in Htr, Hct.
  destruct Htr as [Hlt ->]. destruct Hct as [Hclt ->].
  rewrite flat_map_concat_map, map_map, <- flat_map_concat_map in Hmod, Hinit.
  cbn [triple_list] in Hmod, Hinit.
  rewrite flat_map_concat_map, map_map, <- flat_map_concat_map in Hmod.
  destruct (every_third_triples
              (fun r => 3 * row_atom r) (fun r => 3 * row_atom r + 1)
              (fun r => 3 * row_atom r + 2) (sorted_z_indices ix))
    as [T1 [T2 T3]].
  constructor.
  - intros a Ha'. rewrite Hinds. now apply inds_table_nth.
  - intros r Hr. apply Hlt. now apply in_map.
  - assumption.
  - assumption.
  - now rewrite Hb, Hmod.
  - now rewrite Ha, Hmod.
  - now rewrite Hd, Hmod.
  - intros j r Hj. unfold enumerate in Hstats.
    apply stats_loop_spec in Hstats; [| assumption].
    destruct Hstats as [_ [H2 _]].
    rewrite (H2 j (row_atom r)); [reflexivity |].
    now rewrite list_lookup_fmap, Hj.
  - assumption.
  - assumption.
Qed.

End Layout.


(* ===================================================================== *)
(** * Column-wise description of [forward] *)
(* ===================================================================== *)

Section ForwardFacts.
Local Open Scope R_scope.
Import InternalCoordinateTransform.

Variables (dims : nat) (cart : list nat) (ix0 : indices).
Hypothesis Hok : setup_ok dims cart ix0.

Let Zs := sorted_z_indices ix0.

Lemma channel_lt (a k : nat) (x : list R) :
  (a < dims / 3)%nat -> (k < 3)%nat -> length x = dims ->
  (3 * a + k < length x)%nat.
Proof.
  intros Ha Hk Hx. pose proof (Nat.Div0.mul_div_le dims 3). lia.
Qed.

Lemma idx_nodup (k : nat) (l : list zrow) :
  List.NoDup (map row_atom l) ->
  List.NoDup (map (fun r => 3 * row_atom r + k)%nat l).
Proof.
  induction l as [| r l IH]; simpl; intros H; [constructor |].
  inversion H as [| ? ? Hni Hnd]; subst.
  constructor; [| now apply IH].
  intros Hc. apply Hni. apply in_map_iff in Hc.
  destruct Hc as [r' [Heq Hr']]. apply in_map_iff. exists r'.
  split; [lia | assumption].
Qed.

Lemma idx0_nodup (l : list zrow) :
  List.NoDup (map row_atom l) ->
  List.NoDup (map (fun r => 3 * row_atom r)%nat l).
Proof.
  intros H. apply (idx_nodup 0) in H.
  erewrite map_ext; [exact H |]. intros r. simpl. lia.
Qed.

Lemma idx_In (k : nat) (l : list zrow) (c : nat) :
  In c (map (fun r => 3 * row_atom r + k)%nat l)
  <-> exists r, In r l /\ c = (3 * row_atom r + k)%nat.
Proof. rewrite in_map_iff. split; intros [r [H1 H2]]; exists r; auto. Qed.

Lemma idx0_In (l : list zrow) (c : nat) :
  In c (map (fun r => 3 * row_atom r)%nat l)
  <-> exists r, In r l /\ c = (3 * row_atom r)%nat.
Proof. rewrite in_map_iff. split; intros [r [H1 H2]]; exists r; auto. Qed.

Lemma rev_atoms_nodup : List.NoDup (map row_atom (rev Zs)).
Proof.
  rewrite map_rev. apply List.NoDup_rev.
  apply (so_atoms_nodup _ _ _ Hok).
Qed.

(** The three index lists [inds4[:, k]] of [_fwd]. *)
Lemma inds4_cols :
  map (fun t : nat * nat * nat => fst (fst t))
    (map (fun r => atom_inds ix0 (row_atom r)) (rev_z_indices ix0))
  = map (fun r => 3 * row_atom r)%nat (rev Zs)
  /\ map (fun t : nat * nat * nat => snd (fst t))
       (map (fun r => atom_inds ix0 (row_atom r)) (rev_z_indices ix0))
     = map (fun r => 3 * row_atom r + 1)%nat (rev Zs)
  /\ map (fun t : nat * nat * nat => snd t)
       (map (fun r => atom_inds ix0 (row_atom r)) (rev_z_indices ix0))
     = map (fun r => 3 * row_atom r + 2)%nat (rev Zs).
Proof.
  rewrite (so_rev _ _ _ Hok). fold Zs. rewrite !map_map.
  assert (H : forall r, In r (rev Zs) ->
            atom_inds ix0 (row_atom r)
            = (3 * row_atom r, 3 * row_atom r + 1, 3 * row_atom r + 2)%nat).
  { intros r Hr. unfold atom_inds. apply (so_inds _ _ _ Hok).
    apply (so_atoms_lt _ _ _ Hok). now apply in_rev. }
  repeat split; apply map_ext_in; intros r Hr; now rewrite (H r Hr).
Qed.

(** [_fwd] leaves alone every column that is not a channel of a z-matrix
    atom, and it keeps the width of the row. *)
Lemma fwd_row_other (x : list R) (c : nat) :
  (forall r, In r Zs -> ~ channel_of (row_atom r) c) ->
  col (fst (_fwd_row ix0 x)) c = col x c.
Proof.
  intros Hc. unfold _fwd_row. cbn [fst].
  destruct inds4_cols as [E0 [E1 E2]]. rewrite E0, E1, E2.
  rewrite !scatter_col_other; [reflexivity | | |].
  - intros H. apply idx0_In in H. destruct H as [r [Hr ->]].
    apply in_rev in Hr. apply (Hc r Hr). unfold channel_of. tauto.
  - intros H. apply idx_In in H. destruct H as [r [Hr ->]].
    apply in_rev in Hr. apply (Hc r Hr). unfold channel_of. tauto.
  - intros H. apply idx_In in H. destruct H as [r [Hr ->]].
    apply in_rev in Hr. apply (Hc r Hr). unfold channel_of. tauto.
Qed.

Lemma fwd_row_length (x : list R) :
  length (fst (_fwd_row ix0 x)) = length x.
Proof. unfold _fwd_row. cbn [fst]. now rewrite !scatter_length. Qed.

(** The raw channels computed by [_fwd]. *)
Lemma fwd_row_raw (x : list R) :
  refs_in_range dims ix0 ->
  let Z := rev_z_indices ix0 in
  let inds1 := map (fun r => atom_inds ix0 (row_ref1 r)) Z in
  let inds2 := map (fun r => atom_inds ix0 (row_ref2 r)) Z in
  let inds3 := map (fun r => atom_inds ix0 (row_ref3 r)) Z in
  let inds4 := map (fun r => atom_inds ix0 (row_atom r)) Z in
  calc_bonds inds1 inds4 x = map (raw_bond x) (rev Zs)
  /\ calc_angles inds2 inds1 inds4 x = map (raw_angle x) (rev Zs)
  /\ calc_dihedrals inds3 inds2 inds1 inds4 x = map (raw_dihedral x) (rev Zs).
Proof.
  intros Hrefs. cbv zeta. rewrite (so_rev _ _ _ Hok). fold Zs.
  assert (H : forall r, In r (rev Zs) ->
     atom_inds ix0 (row_atom r)
       = (3 * row_atom r, 3 * row_atom r + 1, 3 * row_atom r + 2)%nat
     /\ atom_inds ix0 (row_ref1 r)
       = (3 * row_ref1 r, 3 * row_ref1 r + 1, 3 * row_ref1 r + 2)%nat
     /\ atom_inds ix0 (row_ref2 r)
       = (3 * row_ref2 r, 3 * row_ref2 r + 1, 3 * row_ref2 r + 2)%nat
     /\ atom_inds ix0 (row_ref3 r)
       = (3 * row_ref3 r, 3 * row_ref3 r + 1, 3 * row_ref3 r + 2)%nat).
  { intros r Hr. apply in_rev in Hr. unfold atom_inds.
    repeat split; apply (so_inds _ _ _ Hok).
    - now apply (so_atoms_lt _ _ _ Hok).
    - apply (Hrefs r); [assumption | now left].
    - apply (Hrefs r); [assumption | right; now left].
    - apply (Hrefs r); [assumption | right; right; now left]. }
  unfold calc_bonds, calc_angles, calc_dihedrals.
  rewrite !zip_map_same, !zip_with_map_same.
  repeat split; apply map_ext_in; intros r Hr;
    destruct (H r Hr) as [H4 [H1 [H2 H3]]];
    rewrite ?H1, ?H2, ?H3, ?H4; reflexivity.
Qed.

Lemma fwd_row_spec (x : list R) :
  refs_in_range dims ix0 ->
  _fwd_row ix0 x
  = (scatter
       (scatter
          (scatter x (map (fun r => 3 * row_atom r)%nat (rev Zs))
             (map (raw_bond x) (rev Zs)))
          (map (fun r => 3 * row_atom r + 1)%nat (rev Zs))
          (map (raw_angle x) (rev Zs)))
       (map (fun r => 3 * row_atom r + 2)%nat (rev Zs))
       (map (raw_dihedral x) (rev Zs)),
     - Rsum (map (jac_term x) (rev Zs))).
Proof.
  intros Hrefs. unfold _fwd_row.
  destruct (fwd_row_raw x Hrefs) as [Eb [Ea Ed]]. cbv zeta in Eb, Ea, Ed.
  destruct inds4_cols as [E0 [E1 E2]].
  rewrite Eb, Ea, Ed, E0, E1, E2. rewrite zip_with_map_same. reflexivity.
Qed.

Lemma fwd_row_channels (x : list R) (r : zrow) :
  refs_in_range dims ix0 -> length x = dims -> In r Zs ->
  col (fst (_fwd_row ix0 x)) (3 * row_atom r) = raw_bond x r
  /\ col (fst (_fwd_row ix0 x)) (3 * row_atom r + 1) = raw_angle x r
  /\ col (fst (_fwd_row ix0 x)) (3 * row_atom r + 2) = raw_dihedral x r.
Proof.
  intros Hrefs Hx Hr. rewrite (fwd_row_spec x Hrefs). cbn [fst].
  pose proof rev_atoms_nodup as Hnd.
  pose proof (so_atoms_lt _ _ _ Hok r Hr) as Hlt.
  assert (Hr' : In r (rev Zs)) by (now apply in_rev in Hr || now apply -> in_rev).
  apply list_elem_of_In, list_elem_of_lookup in Hr'. destruct Hr' as [i Hi].
  split; [| split].
  - rewrite (scatter_col_other (map (fun r => 3 * row_atom r + 2)%nat (rev Zs)))
      by (intros H; apply idx_In in H; destruct H as [r' [_ H]]; lia).
    rewrite (scatter_col_other (map (fun r => 3 * row_atom r + 1)%nat (rev Zs)))
      by (intros H; apply idx_In in H; destruct H as [r' [_ H]]; lia).
    apply (scatter_col_at _ _ _ i); [now apply idx0_nodup | | |].
    + now rewrite list_lookup_fmap, Hi.
    + now rewrite list_lookup_fmap, Hi.
    + pose proof (channel_lt (row_atom r) 0 x Hlt ltac:(lia) Hx). lia.
  - rewrite (scatter_col_other (map (fun r => 3 * row_atom r + 2)%nat (rev Zs)))
      by (intros H; apply idx_In in H; destruct H as [r' [_ H]]; lia).
    apply (scatter_col_at _ _ _ i); [now apply idx_nodup | | |].
    + now rewrite list_lookup_fmap, Hi.
    + now rewrite list_lookup_fmap, Hi.
    + rewrite scatter_length. apply channel_lt; [assumption | lia | assumption].
  - apply (scatter_col_at _ _ _ i); [now apply idx_nodup | | |].
    + now rewrite list_lookup_fmap, Hi.
    + now rewrite list_lookup_fmap, Hi.
    + rewrite !scatter_length. apply channel_lt; [assumption | lia | assumption].
Qed.

Variable self : t.
Hypothesis Hix : ix self = ix0.

Lemma forward_row_unfold (x : list R) :
  forward_row self x
  = (idiv_at (dih_indices ix0) (std_dih self)
       (_fix_dih_row (dih_indices ix0)
          (isub_at (dih_indices ix0) (mean_dih self)
             (idiv_at (angle_indices ix0) (std_angles self)
                (isub_at (angle_indices ix0) (mean_angles self)
                   (idiv_at (bond_indices ix0) (std_bonds self)
                      (isub_at (bond_indices ix0) (mean_bonds self)
                         (fst (_fwd_row ix0 x)))))))),
     snd (_fwd_row ix0 x) + scale_jac self).
Proof.
  unfold forward_row. rewrite Hix.
  now destruct (_fwd_row ix0 x) as [trans jac].
Qed.

Lemma forward_row_length (x : list R) :
  length (fst (forward_row self x)) = length x.
Proof.
  rewrite forward_row_unfold. cbn [fst].
  repeat rewrite ?idiv_at_length, ?isub_at_length, ?fix_dih_length.
  apply fwd_row_length.
Qed.

(** [forward] leaves alone every column that is not a channel of a
    z-matrix atom. *)
Lemma forward_row_other (x : list R) (c : nat) :
  (forall r, In r Zs -> ~ channel_of (row_atom r) c) ->
  col (fst (forward_row self x)) c = col x c.
Proof.
  intros Hc. rewrite forward_row_unfold. cbn [fst].
  assert (Hb : ~ In c (bond_indices ix0)).
  { rewrite (so_bond _ _ _ Hok). intros H. apply idx0_In in H.
    destruct H as [r [Hr ->]]. apply (Hc r Hr). unfold channel_of. tauto. }
  assert (Ha : ~ In c (angle_indices ix0)).
  { rewrite (so_angle _ _ _ Hok). intros H. apply idx_In in H.
    destruct H as [r [Hr ->]]. apply (Hc r Hr). unfold channel_of. tauto. }
  assert (Hd : ~ In c (dih_indices ix0)).
  { rewrite (so_dih _ _ _ Hok). intros H. apply idx_In in H.
    destruct H as [r [Hr ->]]. apply (Hc r Hr). unfold channel_of. tauto. }
  rewrite idiv_at_other, fix_dih_other, isub_at_other, idiv_at_other,
    isub_at_other, idiv_at_other, isub_at_other by assumption.
  now apply fwd_row_other.
Qed.

Lemma forward_row_jac (x : list R) :
  refs_in_range dims ix0 ->
  snd (forward_row self x)
  = - Rsum (map (jac_term x) (rev Zs)) + scale_jac self.
Proof.
  intros Hrefs. rewrite forward_row_unfold. cbn [snd].
  now rewrite (fwd_row_spec x Hrefs).
Qed.

(** The three channels of the [i]-th z-matrix atom after [forward]. *)
Lemma forward_row_channels (x : list R) (i : nat) (r : zrow) :
  refs_in_range dims ix0 -> stats_ok self -> length x = dims ->
  Zs !! i = Some r ->
  col (fst (forward_row self x)) (3 * row_atom r)
  = (raw_bond x r - nth i (mean_bonds self) 0) / nth i (std_bonds self) 0
  /\ col (fst (forward_row self x)) (3 * row_atom r + 1)
     = (raw_angle x r - nth i (mean_angles self) 0)
       / nth i (std_angles self) 0
  /\ col (fst (forward_row self x)) (3 * row_atom r + 2)
     = wrap_fix_dih (raw_dihedral x r - nth i (mean_dih self) 0)
       / nth i (std_dih self) 0.
Proof.
  intros Hrefs Hstats Hx Hi. rewrite forward_row_unfold. cbn [fst].
  assert (Hr : In r Zs) by (apply list_elem_of_In; eapply list_elem_of_lookup_2; eauto).
  pose proof (so_atoms_lt _ _ _ Hok r Hr) as Hlt.
  pose proof (so_atoms_nodup _ _ _ Hok) as Hnd. fold Zs in Hnd.
  destruct (fwd_row_channels x r Hrefs Hx Hr) as [Cb [Ca Cd]].
  pose proof (fwd_row_length x) as Hlen0.
  assert (Hi' : (i < length Zs)%nat) by (eapply lookup_lt_Some; eauto).
  destruct Hstats as [L1 L2 L3 L4 L5 L6].
  rewrite Hix in L1, L2, L3, L4, L5, L6. fold Zs in L1, L2, L3, L4, L5, L6.
  assert (Hst : forall l : list R, length l = length Zs ->
                  l !! i = Some (nth i l 0)).
  { intros l Hl. destruct (lookup_lt_is_Some_2 l i ltac:(lia)) as [v Hv].
    rewrite Hv. f_equal. symmetry. now apply nth_lookup_Some. }
  rewrite (so_bond _ _ _ Hok), (so_angle _ _ _ Hok), (so_dih _ _ _ Hok).
  fold Zs.
  set (ib := map (fun r => 3 * row_atom r)%nat Zs).
  set (ia := map (fun r => 3 * row_atom r + 1)%nat Zs).
  set (id := map (fun r => 3 * row_atom r + 2)%nat Zs).
  assert (Nb : List.NoDup ib) by now apply idx0_nodup.
  assert (Na : List.NoDup ia) by now apply idx_nodup.
  assert (Nd : List.NoDup id) by now apply idx_nodup.
  assert (Ib : ib !! i = Some (3 * row_atom r)%nat)
    by (unfold ib; now rewrite list_lookup_fmap, Hi).
  assert (Ia : ia !! i = Some (3 * row_atom r + 1)%nat)
    by (unfold ia; now rewrite list_lookup_fmap, Hi).
  assert (Id : id !! i = Some (3 * row_atom r + 2)%nat)
    by (unfold id; now rewrite list_lookup_fmap, Hi).
  assert (Ob : forall k, (k = 1 \/ k = 2)%nat -> ~ In (3 * row_atom r + k)%nat ib).
  { intros k Hk H. apply idx0_In in H. destruct H as [r' [_ H]]. lia. }
  assert (Oa : forall k, (k = 0 \/ k = 2)%nat -> ~ In (3 * row_atom r + k)%nat ia).
  { intros k Hk H. apply idx_In in H. destruct H as [r' [_ H]]. lia. }
  assert (Od : forall k, (k = 0 \/ k = 1)%nat -> ~ In (3 * row_atom r + k)%nat id).
  { intros k Hk H. apply idx_In in H. destruct H as [r' [_ H]]. lia. }
  assert (C0 : (3 * row_atom r + 0 < length x)%nat) by (apply channel_lt; [assumption | lia | assumption]).
  assert (C1 : (3 * row_atom r + 1 < length x)%nat) by (apply channel_lt; [assumption | lia | assumption]).
  assert (C2 : (3 * row_atom r + 2 < length x)%nat) by (apply channel_lt; [assumption | lia | assumption]).
  split; [| split].
  - replace (3 * row_atom r)%nat with (3 * row_atom r + 0)%nat by lia.
    rewrite idiv_at_other, fix_dih_other, isub_at_other by (apply Od; lia).
    rewrite idiv_at_other, isub_at_other by (apply Oa; lia).
    replace (3 * row_atom r + 0)%nat with (3 * row_atom r)%nat by lia.
    rewrite (idiv_at_col ib _ _ i _ (nth i (std_bonds self) 0));
      [| assumption | assumption | now apply Hst
       | repeat rewrite ?idiv_at_length, ?isub_at_length, ?fix_dih_length; rewrite Hlen0; lia].
    rewrite (isub_at_col ib _ _ i _ (nth i (mean_bonds self) 0));
      [| assumption | assumption | now apply Hst | rewrite Hlen0; lia].
    now rewrite Cb.
  - rewrite idiv_at_other, fix_dih_other, isub_at_other by (apply Od; lia).
    rewrite (idiv_at_col ia _ _ i _ (nth i (std_angles self) 0));
      [| assumption | assumption | now apply Hst
       | repeat rewrite ?idiv_at_length, ?isub_at_length, ?fix_dih_length; rewrite Hlen0; lia].
    rewrite (isub_at_col ia _ _ i _ (nth i (mean_angles self) 0));
      [| assumption | assumption | now apply Hst
       | repeat rewrite ?idiv_at_length, ?isub_at_length, ?fix_dih_length; rewrite Hlen0; lia].
    rewrite idiv_at_other, isub_at_other by (apply Ob; lia).
    now rewrite Ca.
  - rewrite (idiv_at_col id _ _ i _ (nth i (std_dih self) 0));
      [| assumption | assumption | now apply Hst
       | repeat rewrite ?idiv_at_length, ?isub_at_length, ?fix_dih_length; rewrite Hlen0; lia].
    rewrite (fix_dih_col id _ i); [| assumption | assumption
       | repeat rewrite ?idiv_at_length, ?isub_at_length, ?fix_dih_length; rewrite Hlen0; lia].
    rewrite (isub_at_col id _ _ i _ (nth i (mean_dih self) 0));
      [| assumption | assumption | now apply Hst
       | repeat rewrite ?idiv_at_length, ?isub_at_length, ?fix_dih_length; rewrite Hlen0; lia].
    rewrite idiv_at_other, isub_at_other by (apply Oa; lia).
    rewrite idiv_at_other, isub_at_other by (apply Ob; lia).
    now rewrite Cd.
Qed.

End ForwardFacts.


(* ===================================================================== *)
(** * [forward] does not touch its input *)
(* ===================================================================== *)

Section Frame.
Local Open Scope R_scope.
Import InternalCoordinateTransform.

Lemma clone_spec (x : nat) (h h1 : store) (l : nat) :
  clone x h = Some (l, h1) ->
  exists X, h !! x = Some X /\ l <> x /\ h !! l = None /\ h1 = <[l := X]> h.
Proof.
  unfold clone. destruct (h !! x) as [X |] eqn:E; [| discriminate].
  cbn. intros H. inversion H; subst. exists X.
  pose proof (is_fresh (dom h)) as Hf.
  apply not_elem_of_dom in Hf.
  split; [reflexivity |]. split; [| split; [assumption | reflexivity]].
  intros Hc. congruence.
Qed.

(** The store after [forward]: the clone holds the result, every other
    tensor is as before. *)
Lemma forward_store_spec (self : t) (x : nat) (h h' : store) (l' : nat)
    (jac : list R) :
  forward_store self x h = Some (l', jac, h') ->
  exists X,
    h !! x = Some X /\ l' <> x /\ h !! l' = None
    /\ h' !! l' = Some (fst (forward self X))
    /\ jac = snd (forward self X)
    /\ forall l, l <> l' -> h' !! l = h !! l.
Proof.
  unfold forward_store, _fwd_store.
  destruct (clone x h) as [[l h1] |] eqn:Ec; [| discriminate]. cbn.
  destruct (clone_spec _ _ _ _ Ec) as [X [HX [Hne [Hfr ->]]]].
  rewrite lookup_insert_eq. cbn. intros H. inversion H; subst; clear H.
  exists X. split; [assumption |]. split; [assumption |].
  split; [assumption |]. split; [| split].
  - rewrite !lookup_alter_eq, lookup_insert_eq. cbn. f_equal.
    unfold forward. cbn [fst]. rewrite !map_map.
    apply map_ext. intros r. unfold forward_row.
    now destruct (_fwd_row (ix self) r).
  - unfold forward. cbn [snd]. rewrite map_map.
    apply map_ext. intros r. unfold forward_row.
    now destruct (_fwd_row (ix self) r).
  - intros l Hl. rewrite !lookup_alter_ne by congruence.
    now rewrite lookup_insert_ne by congruence.
Qed.

(** C10. [forward] allocates a clone and writes only there: the caller's
    tensor is unchanged in the store (and so is every other tensor), and
    in each row of the result every column that is not one of the three
    channels of a z-matrix atom, in particular each of the coordinates of
    an anchor that is not a z-matrix atom, equals the input column. *)
Theorem forward_frame (dims : nat) (z : list (nat * list nat))
    (cart : list nat) (self : t) (x : nat) (h h' : store) (X : list (list R))
    (l' : nat) (jac : list R) :
  _setup_indices dims z cart = Returns (ix self) ->
  h !! x = Some X ->
  forward_store self x h = Some (l', jac, h') ->
  h' !! x = Some X
  /\ (forall l, l <> l' -> h' !! l = h !! l)
  /\ l' <> x
  /\ h' !! l' = Some (fst (forward self X))
  /\ forall i row, X !! i = Some row ->
       exists row',
         fst (forward self X) !! i = Some row'
         /\ length row' = length row
         /\ (forall c, (forall a, In a (map fst z) -> ~ channel_of a c) ->
               col row' c = col row c)
         /\ (forall a k, In a cart -> ~ In a (map fst z) -> (k < 3)%nat ->
               col row' (3 * a + k) = col row (3 * a + k)).
Proof.
  intros Hsetup HX Hrun.
  destruct (forward_store_spec _ _ _ _ _ _ Hrun)
    as [X' [HX' [Hne [_ [Hout [_ Hframe]]]]]].
  assert (X' = X) by congruence. subst X'.
  pose proof (setup_indices_ok _ _ _ _ Hsetup) as Hok.
  destruct (setup_sorted_atoms _ _ _ _ Hsetup) as [_ Hkeys].
  split; [rewrite Hframe by congruence; assumption |].
  split; [assumption |]. split; [assumption |]. split; [assumption |].
  intros i row Hi. exists (fst (forward_row self row)).
  split; [unfold forward; cbn [fst]; now rewrite list_lookup_fmap, Hi |].
  split; [now apply (forward_row_length (ix self) self eq_refl) |].
  assert (Hgen : forall c, (forall a, In a (map fst z) -> ~ channel_of a c) ->
            col (fst (forward_row self row)) c = col row c).
  { intros c Hc.
    apply (forward_row_other dims cart (ix self) Hok self eq_refl).
    intros r Hr. apply Hc, Hkeys. now apply in_map. }
  split; [exact Hgen |].
  intros a k Ha Hna Hk. apply Hgen.
  intros b Hb Hch. unfold channel_of in Hch.
  assert (a = b) by lia. subst b. contradiction.
Qed.

End Frame.

Section FrameWitness.
Local Open Scope R_scope.
Import InternalCoordinateTransform.

Lemma forward_store_succeeds (self : t) (x : nat) (h : store) X :
  h !! x = Some X ->
  exists l' jac h', forward_store self x h = Some (l', jac, h').
Proof.
  intros HX. unfold forward_store, _fwd_store, clone. rewrite HX. cbn.
  rewrite lookup_insert_eq. cbn. eauto.
Qed.

End FrameWitness.


(* ===================================================================== *)
(** * [_setup_indices] succeeds on a well-formed topology *)
(* ===================================================================== *)

Section BlockProgress.

Variable n : nat.

Lemma NoDup_bounded_length (l : list nat) :
  List.NoDup l -> (forall a, In a l -> a < n) -> length l <= n.
Proof.
  intros Hnd Hlt.
  assert (Hincl : incl l (seq 0 n)).
  { intros a Ha. apply in_seq. specialize (Hlt a Ha). lia. }
  pose proof (NoDup_incl_length Hnd Hincl) as H.
  now rewrite length_seq in H.
Qed.

(** A pass neither runs out of positions nor reads outside the tensors. *)
Lemma block_pass_succeeds (L0 : list nat) rows :
  forall st next_z next_cart block origs,
    pass_inv L0 origs block st ->
    length (ps_perm st) = n -> length (ps_perm_inv st) = n ->
    List.NoDup (L0 ++ map row_atom block ++ map row_atom rows) ->
    (forall a, In a (L0 ++ map row_atom block ++ map row_atom rows) -> a < n) ->
    exists st' next_z' next_cart' block',
      block_pass (list_to_set L0) rows st next_z next_cart block
        = Returns (st', next_z', next_cart', block')
      /\ length (ps_perm st') = n /\ length (ps_perm_inv st') = n.
Proof.
  induction rows as [| [[[a1 a2] a3] a4] rows IH];
    intros st next_z next_cart block origs Hinv Hlp Hlq Hnd Hlt.
  - simpl. eauto 10.
  - cbn [block_pass].
    destruct (decide (a2 ∈ list_to_set L0 /\ a3 ∈ list_to_set L0
                      /\ a4 ∈ list_to_set L0)) as [Hr | Hr].
    + assert (Hready : In a2 L0 /\ In a3 L0 /\ In a4 L0).
      { rewrite !elem_of_list_to_set, !list_elem_of_In in Hr. exact Hr. }
      destruct Hready as [H2 [H3 H4]].
      assert (Hnd' : List.NoDup ((L0 ++ map row_atom block)
                                 ++ a1 :: map row_atom rows)).
      { simpl in Hnd. now rewrite <- app_assoc. }
      assert (Hfresh : ~ In a1 (L0 ++ map row_atom block)).
      { apply List.NoDup_remove_2 in Hnd'. intros Hc. apply Hnd'.
        apply in_or_app. now left. }
      assert (HndLB : List.NoDup (L0 ++ map row_atom block)).
      { apply NoDup_ListNoDup. apply NoDup_ListNoDup in Hnd'.
        apply NoDup_app in Hnd'. tauto. }
      assert (Ha1 : a1 < n).
      { apply Hlt. apply in_or_app. right. apply in_or_app. right. now left. }
      assert (Hcur : ps_cur st < n).
      { rewrite (pi_cur _ _ _ _ Hinv).
        assert (Hl : length (a1 :: (L0 ++ map row_atom block)) <= n).
        { apply NoDup_bounded_length.
          - now constructor.
          - intros a [<- | Ha]; [assumption |]. apply Hlt.
            apply in_app_or in Ha. apply in_or_app.
            destruct Ha as [Ha | Ha];
              [now left | right; apply in_or_app; now left]. }
        simpl in Hl. rewrite length_app, length_map in Hl. lia. }
      assert (Hlt' : forall a, In a L0 -> a < n).
      { intros a Ha. apply Hlt. apply in_or_app. now left. }
      assert (E1 : set_item (ps_perm st) (ps_cur st) a1
                   = Returns (<[ps_cur st := a1]> (ps_perm st))).
      { apply set_item_Returns. split; [lia | reflexivity]. }
      assert (E2 : set_item (ps_perm_inv st) a1 (ps_cur st)
                   = Returns (<[a1 := ps_cur st]> (ps_perm_inv st))).
      { apply set_item_Returns. split; [lia | reflexivity]. }
      rewrite E1. cbn [mbind outcome_bind obind].
      rewrite E2. cbn [mbind outcome_bind obind].
      set (inv' := <[a1 := ps_cur st]> (ps_perm_inv st)).
      assert (Hlq' : length inv' = n) by (unfold inv'; now rewrite length_insert).
      assert (Hget : forall a, In a L0 -> exists m, get_item inv' a = Returns m).
      { intros a Ha.
        destruct (lookup_lt_is_Some_2 inv' a) as [m Hm];
          [rewrite Hlq'; now apply Hlt' |].
        exists m. now apply get_item_Returns. }
      destruct (Hget a2 H2) as [m2 G2]. destruct (Hget a3 H3) as [m3 G3].
      destruct (Hget a4 H4) as [m4 G4].
      rewrite G2, G3, G4. cbn [mbind outcome_bind obind].
      eapply IH.
      * eapply (pass_inv_place L0 origs block st a1 a2 a3 a4
                  _ _ m2 m3 m4 Hinv H2 H3 H4 Hfresh E1 E2 G2 G3 G4).
      * cbn. now rewrite length_insert.
      * exact Hlq'.
      * rewrite map_app. simpl. rewrite <- (app_assoc (map row_atom block)).
        exact Hnd.
      * rewrite map_app. simpl. rewrite <- (app_assoc (map row_atom block)).
        exact Hlt.
    + eapply IH; eauto.
      * simpl in Hnd. rewrite app_assoc in Hnd.
        apply List.NoDup_remove_1 in Hnd. now rewrite <- app_assoc in Hnd.
      * intros a Ha. apply Hlt. apply in_app_or in Ha. apply in_or_app.
        destruct Ha as [Ha | Ha]; [now left | right].
        apply in_app_or in Ha. apply in_or_app.
        destruct Ha as [Ha | Ha]; [now left | right; now right].
Qed.

Lemma filter_split {A} (f : A -> bool) (l : list A) :
  forall l1' r l2',
    List.filter f l = l1' ++ r :: l2' ->
    exists l1 l2, l = l1 ++ r :: l2 /\ l1' = List.filter f l1
                  /\ l2' = List.filter f l2 /\ f r = true.
Proof.
  induction l as [| a l IH]; intros l1' r l2' H; simpl in H.
  - destruct l1'; discriminate.
  - destruct (f a) eqn:E.
    + destruct l1' as [| b l1']; simpl in H; inversion H; subst.
      * exists [], l. simpl. auto.
      * destruct (IH _ _ _ H2) as [l1 [l2 [-> [-> [-> Hr]]]]].
        exists (b :: l1), l2. simpl. rewrite E. auto.
    + destruct (IH _ _ _ H) as [l1 [l2 [-> [-> [-> Hr]]]]].
      exists (a :: l1), l2. simpl. rewrite E. auto.
Qed.

Lemma placeable_step (L0 : list nat) (pending : list zrow) :
  placeable L0 pending ->
  placeable
    (L0 ++ map row_atom (List.filter (ready (list_to_set L0)) pending))
    (List.filter (fun r => negb (ready (list_to_set L0) r)) pending).
Proof.
  intros HP l1' r l2' e Heq He.
  apply filter_split in Heq. destruct Heq as [l1 [l2 [Hp [-> [-> Hnr]]]]].
  destruct (HP l1 r l2 e Hp He) as [H | H].
  - left. apply in_or_app. now left.
  - apply in_map_iff in H. destruct H as [r' [<- Hr']].
    destruct (ready (list_to_set L0) r') eqn:Er.
    + left. apply in_or_app. right. apply in_map. apply filter_In.
      split; [| assumption]. rewrite Hp. apply in_or_app. now left.
    + right. apply in_map. apply filter_In. split; [assumption |].
      now rewrite Er.
Qed.

Lemma placeable_head_ready (L0 : list nat) r pending :
  placeable L0 (r :: pending) -> ready (list_to_set L0) r = true.
Proof.
  intros HP. apply ready_spec.
  assert (H : forall e, In e (row_refs r) -> In e L0).
  { intros e He. destruct (HP [] r pending e eq_refl He) as [H | []]. exact H. }
  unfold row_refs in H. simpl in H.
  split; [apply H; auto | split; apply H; auto].
Qed.

Lemma filter_length_le {A} (f : A -> bool) (l : list A) :
  length (List.filter f l) <= length l.
Proof.
  induction l as [| a l IH]; simpl; [lia |]. destruct (f a); simpl; lia.
Qed.

(** On placeable rows every pass places at least the first pending row,
    so the loop returns within its fuel. *)
Lemma block_loop_succeeds fuel :
  forall pending L0 st blocks,
    length pending <= fuel ->
    loop_inv L0 st ->
    length (ps_perm st) = n -> length (ps_perm_inv st) = n ->
    List.NoDup (L0 ++ map row_atom pending) ->
    (forall a, In a (L0 ++ map row_atom pending) -> a < n) ->
    placeable L0 pending ->
    exists res, block_loop fuel pending (list_to_set L0) st blocks = Returns res.
Proof.
  induction fuel as [| fuel IH];
    intros pending L0 st blocks Hfuel Hinv Hlp Hlq Hnd Hlt HP.
  - destruct pending; [| simpl in Hfuel; lia]. simpl. eauto.
  - destruct pending as [| r0 pending0]; [simpl; eauto |].
    cbn [block_loop]. remember (r0 :: pending0) as pending eqn:Hpe.
    destruct (block_pass_succeeds L0 pending st [] ∅ [] []) as
      (st1 & next_z & next_cart & block & Hrun & Hlp1 & Hlq1);
      [now apply loop_inv_pass_inv | assumption | assumption
       | exact Hnd | exact Hlt |].
    rewrite Hrun. cbn [mbind outcome_bind obind].
    assert (Hndp : List.NoDup (map row_atom pending)).
    { apply NoDup_ListNoDup in Hnd. apply NoDup_app in Hnd.
      apply NoDup_ListNoDup. tauto. }
    assert (Hfr : forall r, In r pending -> ~ In (row_atom r) L0).
    { intros r Hr Hc. apply NoDup_ListNoDup in Hnd. apply NoDup_app in Hnd.
      destruct Hnd as [_ [Hd _]].
      apply (Hd (row_atom r)); apply list_elem_of_In;
        [assumption | now apply in_map]. }
    apply (block_pass_inv L0 pending st [] ∅ [] []) in Hrun;
      [| now apply loop_inv_pass_inv | assumption
       | intros r Hr; simpl; rewrite app_nil_r; now apply Hfr].
    simpl in Hrun. destruct Hrun as [Hpass [Hz Hc]].
    pose proof (remapped_atoms _ _ _ (pi_rows _ _ _ _ Hpass)) as Hatoms.
    assert (Hset : list_to_set L0 ∪ next_cart
                   = (list_to_set (L0 ++ map row_atom block) : gset nat)).
    { apply set_eq. intros a.
      rewrite elem_of_union, !elem_of_list_to_set, Hc, Hatoms.
      rewrite elem_of_app, !list_elem_of_In.
      rewrite elem_of_empty. tauto. }
    rewrite Hset. simpl in Hz.
    assert (Hperm : Permutation
              (map row_atom block ++ map row_atom next_z)
              (map row_atom pending)).
    { rewrite Hatoms, Hz, <- map_app. apply Permutation_map.
      apply filter_partition_perm. }
    apply IH.
    + rewrite Hz. subst pending. cbn [List.filter].
      rewrite (placeable_head_ready _ _ _ HP). cbn [negb].
      pose proof (filter_length_le
        (fun r => negb (ready (list_to_set L0) r)) pending0).
      simpl in Hfuel. lia.
    + now apply pass_inv_loop_inv in Hpass.
    + assumption.
    + assumption.
    + rewrite <- app_assoc. apply NoDup_ListNoDup.
      apply NoDup_ListNoDup in Hnd. now rewrite Hperm.
    + intros a Ha. apply Hlt. rewrite <- app_assoc in Ha.
      apply in_app_or in Ha. apply in_or_app.
      destruct Ha as [Ha | Ha]; [now left | right].
      eapply Permutation_in; [exact Hperm | exact Ha].
    + rewrite Hatoms, Hz. now apply placeable_step.
Qed.

End BlockProgress.

Section SetupTotal.

Lemma omapM_succeeds {A B} (f : A -> outcome B) (l : list A) :
  (forall a, In a l -> exists b, f a = Returns b) ->
  exists l', omapM f l = Returns l'.
Proof.
  induction l as [| a l IH]; intros H; simpl; [eauto |].
  destruct (H a (or_introl eq_refl)) as [b Hb].
  destruct IH as [l' Hl']; [intros x Hx; apply H; now right |].
  exists (b :: l'). cbn [mbind outcome_bind obind].
  rewrite Hb. cbn [obind]. rewrite Hl'. reflexivity.
Qed.

Lemma stats_loop_succeeds (l : list nat) :
  forall (k : nat) (t : list nat),
    (forall j, In j l -> j < length t) ->
    exists t', ofoldl stats_step (combine (seq k (length l)) l) t = Returns t'.
Proof.
  induction l as [| j l IH]; intros k t H; [simpl; eauto |].
  cbn [length seq combine ofoldl].
  change (stats_step t (k, j)) with (set_item t j k).
  assert (E : set_item t j k = Returns (<[j := k]> t)).
  { apply set_item_Returns. split; [apply H; now left | reflexivity]. }
  rewrite E. cbn [mbind outcome_bind obind]. apply IH.
  intros j' Hj'. rewrite length_insert. apply H. now right.
Qed.

Lemma cart_loop_succeeds (l : list nat) :
  forall (k : nat) (st : perm_state),
    k + length l <= length (ps_perm st) ->
    (forall j, In j l -> j < length (ps_perm_inv st)) ->
    exists st', ofoldl cart_step (combine (seq k (length l)) l) st = Returns st'.
Proof.
  induction l as [| j l IH]; intros k st Hk H; [simpl; eauto |].
  cbn [length seq combine ofoldl].
  change (cart_step st (k, j))
    with (p ← set_item (ps_perm st) k j;
          q ← set_item (ps_perm_inv st) j k;
          mret {| ps_perm := p; ps_perm_inv := q; ps_cur := ps_cur st |}).
  assert (E1 : set_item (ps_perm st) k j = Returns (<[k := j]> (ps_perm st))).
  { apply set_item_Returns. split; [simpl in Hk; lia | reflexivity]. }
  assert (E2 : set_item (ps_perm_inv st) j k
               = Returns (<[j := k]> (ps_perm_inv st))).
  { apply set_item_Returns. split; [apply H; now left | reflexivity]. }
  rewrite E1. cbn [mbind outcome_bind obind].
  rewrite E2. cbn [mbind outcome_bind obind mret outcome_ret].
  apply IH; cbn [ps_perm ps_perm_inv].
  - rewrite length_insert. simpl in Hk. lia.
  - intros j' Hj'. rewrite length_insert. apply H. now right.
Qed.

Lemma z_row_Returns (p : nat * list nat) (r : zrow) :
  z_row p = Returns r ->
  row_atom r = fst p
  /\ forall e, In e (row_refs r) -> In e (snd p).
Proof.
  destruct p as [k es]. unfold z_row. simpl.
  destruct es as [| r0 [| r1 [| r2 es]]]; try discriminate.
  intros H. inversion H; subst. split; [reflexivity |].
  unfold row_refs. simpl. intuition.
Qed.

Variables (dims : nat) (z : list (nat * list nat)) (cart : list nat).
Hypothesis Hwf : wf_topology dims z cart.

Lemma wf_sorted :
  exists sorted,
    topological_sort z = Returns sorted
    /\ Permutation sorted z /\ ordered z sorted.
Proof.
  destruct (proj1 (topological_sort_spec z) (wf_acyclic _ _ _ Hwf))
    as [sorted [Hs _]].
  exists sorted. split; [assumption |].
  apply topological_sort_Returns in Hs.
  rewrite (dict_id z (wf_keys_nodup _ _ _ Hwf)) in Hs. tauto.
Qed.

Lemma wf_sorted_rows (sorted : graph) :
  Permutation sorted z ->
  exists sorted_z, omapM z_row sorted = Returns sorted_z.
Proof.
  intros Hp. apply omapM_succeeds. intros [k es] Hin.
  assert (Hz : In (k, es) z) by (eapply Permutation_in; eauto).
  pose proof (wf_three _ _ _ Hwf _ Hz) as Hlen. simpl in Hlen.
  destruct es as [| r0 [| r1 [| r2 [| ? ?]]]]; try discriminate.
  unfold z_row. simpl. eauto.
Qed.

Lemma wf_placeable (sorted : graph) (sorted_z : list zrow) :
  Permutation sorted z -> ordered z sorted ->
  omapM z_row sorted = Returns sorted_z ->
  placeable cart sorted_z.
Proof.
  intros Hp Ho Hrows l1 r l2 e Heq He.
  apply omapM_Returns in Hrows. rewrite Heq in Hrows.
  apply Forall2_app_inv_r in Hrows.
  destruct Hrows as [s1 [s' [H1 [H2 ->]]]].
  inversion H2 as [| p ? s2 ? Hpr H2']; subst.
  apply z_row_Returns in Hpr. destruct Hpr as [Hatom Hrefs].
  destruct p as [k es]. simpl in *.
  assert (Hz : In (k, es) z).
  { eapply Permutation_in; [exact Hp |]. apply in_or_app. right. now left. }
  destruct (wf_refs _ _ _ Hwf _ e Hz (Hrefs e He)) as [Hc | Hk];
    [now left | right].
  assert (Hs1 : has_key s1 e = true).
  { apply (Ho s1 k es s2 e eq_refl (Hrefs e He)). now apply has_key_In. }
  apply has_key_In in Hs1.
  assert (Hm : map row_atom l1 = map fst s1).
  { clear -H1. induction H1 as [| p r s1 l1 Hpr _ IH]; simpl; [reflexivity |].
    apply z_row_Returns in Hpr. destruct Hpr as [-> _]. now rewrite IH. }
  now rewrite Hm.
Qed.

(** On a well-formed topology with at least one anchor the index set-up
    returns. *)
Lemma setup_indices_succeeds :
  cart <> [] -> exists ix, _setup_indices dims z cart = Returns ix.
Proof.
  intros Hne. unfold _setup_indices. cbv zeta.
  destruct wf_sorted as [sorted [Hs [Hperm Hord]]].
  rewrite Hs. cbn [mbind outcome_bind obind].
  destruct (wf_sorted_rows sorted Hperm) as [sorted_z Hrows].
  rewrite Hrows. cbn [mbind outcome_bind obind].
  pose proof (z_row_atoms _ _ Hrows) as Hatoms.
  assert (Hkeys : Permutation (map row_atom sorted_z) (map fst z)).
  { rewrite Hatoms. now apply Permutation_map. }
  assert (Hklt : forall a, In a (map row_atom sorted_z) -> a < dims / 3).
  { intros a Ha. apply (wf_cover _ _ _ Hwf). right.
    eapply Permutation_in; eauto. }
  assert (Hclt : forall a, In a cart -> a < dims / 3).
  { intros a Ha. apply (wf_cover _ _ _ Hwf). now left. }
  set (tbl := map (fun i => (3 * i, 3 * i + 1, 3 * i + 2)) (seq 0 (dims / 3))).
  assert (Htbl : forall a, a < dims / 3 -> exists t, get_item tbl a = Returns t).
  { intros a Ha. eexists. apply get_item_Returns. unfold tbl.
    rewrite list_lookup_fmap, lookup_seq_lt by assumption. reflexivity. }
  destruct (omapM_succeeds (get_item tbl) (map row_atom sorted_z))
    as [triples Htr]; [intros a Ha; apply Htbl; now apply Hklt |].
  rewrite Htr. cbn [mbind outcome_bind obind].
  destruct (stats_loop_succeeds (map row_atom sorted_z) 0
              (replicate (dims / 3) 0)) as [ats Hats].
  { intros j Hj. rewrite length_replicate. now apply Hklt. }
  unfold enumerate. rewrite Hats. cbn [mbind outcome_bind obind].
  destruct (omapM_succeeds (get_item tbl) cart) as [ctr Hctr];
    [intros a Ha; apply Htbl; now apply Hclt |].
  rewrite Hctr. cbn [mbind outcome_bind obind].
  assert (Hcl : length cart <= dims / 3).
  { apply NoDup_bounded_length; [apply (wf_cart_nodup _ _ _ Hwf) | assumption]. }
  destruct (cart_loop_succeeds cart 0
              {| ps_perm := replicate (dims / 3) 0;
                 ps_perm_inv := replicate (dims / 3) 0; ps_cur := 0 |})
    as [st0 Hst0]; cbn [ps_perm ps_perm_inv].
  { rewrite length_replicate. lia. }
  { intros j Hj. rewrite length_replicate. now apply Hclt. }
  rewrite Hst0. cbn [mbind outcome_bind obind].
  apply (cart_loop_spec cart []) in Hst0;
    [| intros m Hm; simpl in Hm; lia | intros a []].
  simpl in Hst0. cbn [ps_perm ps_perm_inv] in Hst0.
  destruct Hst0 as [H1 [H2 [H3 [H4 _]]]].
  rewrite length_replicate in H3, H4.
  unfold leaked_i. destruct (decide (0 < length cart)) as [Hpos | Hpos];
    [| destruct cart; [congruence | simpl in Hpos; lia]].
  replace (length cart - 1 + 1) with (length cart) by lia.
  destruct (block_loop_succeeds (dims / 3) (length sorted_z) sorted_z cart
              {| ps_perm := ps_perm st0; ps_perm_inv := ps_perm_inv st0;
                 ps_cur := length cart |} [])
    as [[st blocks] Hloop]; cbn [ps_perm ps_perm_inv]; try assumption.
  - lia.
  - constructor; cbn [ps_perm ps_perm_inv ps_cur]; auto.
  - apply NoDup_ListNoDup, NoDup_app. split; [| split].
    + apply NoDup_ListNoDup, (wf_cart_nodup _ _ _ Hwf).
    + intros a Ha Hk. apply list_elem_of_In in Ha, Hk.
      apply (wf_disjoint _ _ _ Hwf a Ha).
      eapply Permutation_in; eauto.
    + rewrite Hkeys. apply NoDup_ListNoDup, (wf_keys_nodup _ _ _ Hwf).
  - intros a Ha. apply in_app_or in Ha. destruct Ha; auto.
  - eapply wf_placeable; eauto.
  - rewrite Hloop. cbn [mbind outcome_bind obind mret outcome_ret]. eauto.
Qed.

End SetupTotal.


(* ===================================================================== *)
(** * Construction of [InternalCoordinateTransform] *)
(* ===================================================================== *)

Section InitFacts.
Local Open Scope R_scope.
Import InternalCoordinateTransform.

Lemma ofoldl_set_item_length (l : list nat) (v : R) :
  forall (s s' : list R),
    ofoldl (fun s i => set_item s i v) l s = Returns s' ->
    length s' = length s.
Proof.
  induction l as [| i l IH]; intros s s' H; simpl in H.
  - now inversion H.
  - obind_inv_as H s1 E. apply set_item_Returns in E. destruct E as [_ ->].
    apply IH in H. now rewrite length_insert in H.
Qed.

Lemma ofoldl_set_item_succeeds (l : list nat) (v : R) :
  forall (s : list R),
    (forall i, In i l -> (i < length s)%nat) ->
    exists s', ofoldl (fun s i => set_item s i v) l s = Returns s'.
Proof.
  induction l as [| i l IH]; intros s H; [simpl; eauto |].
  cbn [ofoldl].
  assert (E : set_item s i v = Returns (<[i := v]> s)).
  { apply set_item_Returns. split; [apply H; now left | reflexivity]. }
  rewrite E. cbn [mbind outcome_bind obind]. apply IH.
  intros j Hj. rewrite length_insert. apply H. now right.
Qed.

Lemma setup_std_dih_length ix dflt circ (mean_dih : list R) X (std_dih : list R) :
  length mean_dih = length (dih_indices ix) ->
  _setup_std_dih ix dflt circ mean_dih X = Returns std_dih ->
  length std_dih = length (dih_indices ix).
Proof.
  intros Hm. unfold _setup_std_dih.
  destruct (decide (1 < length X)%nat).
  - intros H. inversion H. unfold col_stds. now rewrite length_map.
  - intros H. apply ofoldl_set_item_length in H.
    now rewrite H, length_map.
Qed.

Lemma shift_step_length ix bins (std_dih : list R) X (m : list R) i X' m' :
  shift_step ix bins std_dih (X, m) i = Returns (X', m') ->
  length m' = length m.
Proof.
  unfold shift_step. intros H.
  obind_inv_as H c E1. obind_inv_as H s E2. obind_inv_as H mu E3.
  obind_inv_as H v E4. inversion H; subst. apply length_insert.
Qed.

Lemma shift_loop_length ix bins (std_dih : list R) (l : list nat) :
  forall X (m : list R) X' m',
    ofoldl (shift_step ix bins std_dih) l (X, m) = Returns (X', m') ->
    length m' = length m.
Proof.
  induction l as [| i l IH]; intros X m X' m' H; simpl in H.
  - now inversion H.
  - obind_inv_as H st E. destruct st as [X1 m1].
    apply shift_step_length in E. apply IH in H. congruence.
Qed.

(** What a successful construction has fixed. *)
Lemma init_inv dims z cart data circ shift bins dflt (self : t) :
  __init__ dims z cart data circ shift bins dflt = Returns self ->
  _setup_indices dims z cart = Returns (ix self)
  /\ _validate_data dims data = Returns tt
  /\ InternalCoordinateTransform.dims self = dims
  /\ stats_ok self
  /\ scale_jac self
     = - (Rsum (map ln (std_bonds self)) + Rsum (map ln (std_angles self))
          + Rsum (map ln (std_dih self)))
  /\ angle_loss self = None.
Proof.
  unfold __init__. intros H.
  obind_inv_as H ix0 E1. obind_inv_as H u E2. destruct u.
  cbv zeta in H.
  obind_inv_as H sd E3. obind_inv_as H res E4. destruct res as [X' md].
  inversion H; subst self; clear H.
  cbn [ix InternalCoordinateTransform.dims scale_jac angle_loss
       mean_bonds std_bonds mean_angles std_angles mean_dih std_dih].
  split; [reflexivity |]. split; [reflexivity |]. split; [reflexivity |].
  split; [| split; reflexivity].
  pose proof (setup_indices_ok _ _ _ _ E1) as Hok.
  assert (Hb : length (bond_indices ix0) = length (sorted_z_indices ix0))
    by (rewrite (so_bond _ _ _ Hok); apply length_map).
  assert (Ha : length (angle_indices ix0) = length (sorted_z_indices ix0))
    by (rewrite (so_angle _ _ _ Hok); apply length_map).
  assert (Hd : length (dih_indices ix0) = length (sorted_z_indices ix0))
    by (rewrite (so_dih _ _ _ Hok); apply length_map).
  assert (Hmd0 : forall X, length (_setup_mean_dih ix0 X)
                           = length (dih_indices ix0)).
  { intros X. unfold _setup_mean_dih.
    rewrite length_zip_with, !length_map. lia. }
  constructor;
    cbn [ix mean_bonds std_bonds mean_angles std_angles mean_dih std_dih].
  - unfold _setup_mean_bonds, col_means. now rewrite length_map.
  - unfold _setup_std_bonds, _setup_mean_bonds, col_stds, col_means.
    destruct (decide _); now rewrite ?length_map.
  - unfold _setup_mean_angles, col_means. now rewrite length_map.
  - unfold _setup_std_angles, _setup_mean_angles, col_stds, col_means.
    destruct (decide _); now rewrite ?length_map.
  - destruct shift.
    + apply shift_loop_length in E4. rewrite E4, Hmd0. exact Hd.
    + inversion E4; subst. rewrite Hmd0. exact Hd.
  - apply setup_std_dih_length in E3; [congruence | apply Hmd0].
Qed.

End InitFacts.


(* ===================================================================== *)
(** * The log-Jacobian of [inverse] and its sum with that of [forward] *)
(* ===================================================================== *)

Section InverseJac.
Local Open Scope R_scope.
Import InternalCoordinateTransform.

Lemma reconstruct_cart_jac cart refs (self : t) (x : list R) (atoms : list nat)
    (dihs : list R) :
  snd (reconstruct_cart cart refs
         (map (unnormalize self (std_bonds self) (mean_bonds self) 0 x) atoms)
         (map (unnormalize self (std_angles self) (mean_angles self) 1 x) atoms)
         dihs)
  = Rsum (map (inverse_jac_term self x) atoms).
Proof.
  unfold reconstruct_cart. cbn [snd]. now rewrite zip_with_map_same.
Qed.

Lemma inverse_block_jac (self : t) (x : list R) cart jac loss block :
  snd (fst (inverse_block self x (cart, jac, loss) block))
  = jac + Rsum (map (inverse_jac_term self x) (map row_atom block)).
Proof.
  unfold inverse_block.
  pose proof (reconstruct_cart_jac cart
    (map (fun r => (row_ref1 r, row_ref2 r, row_ref3 r)) block)
    self x (map row_atom block)
    (map wrap_inverse
       (map (unnormalize self (std_dih self) (mean_dih self) 2 x)
          (map row_atom block)))) as H.
  destruct (reconstruct_cart _ _ _ _ _) as [new_cart cart_jac].
  cbn [fst snd] in *. now rewrite H.
Qed.

Lemma inverse_fold_jac (self : t) (x : list R) (blocks : list (list zrow)) :
  forall st,
    snd (fst (fold_left (inverse_block self x) blocks st))
    = snd (fst st)
      + Rsum (map (inverse_jac_term self x) (flat_map (map row_atom) blocks)).
Proof.
  induction blocks as [| b blocks IH]; intros [[cart jac] loss].
  - simpl. lra.
  - cbn [fold_left flat_map]. rewrite IH.
    destruct (inverse_block self x (cart, jac, loss) b) as [[c1 j1] l1] eqn:E.
    pose proof (inverse_block_jac self x cart jac loss b) as H.
    rewrite E in H. cbn [fst snd] in *. rewrite H.
    rewrite map_app, Rsum_app. lra.
Qed.

Lemma inverse_row_jac (self : t) (x : list R) :
  snd (fst (inverse_row self x))
  = Rsum (map (inverse_jac_term self x) (built_atoms self)) - scale_jac self.
Proof.
  unfold inverse_row.
  pose proof (inverse_fold_jac self x (rev_blocks (ix self))
                (view3 (gather x (init_cart_indices (ix self))), 0, 0)) as H.
  destruct (fold_left _ _ _) as [[cart jac] loss]. cbn [fst snd] in *.
  rewrite H. unfold built_atoms. lra.
Qed.

End InverseJac.

Section BuiltAtoms.
Import InternalCoordinateTransform.

Lemma blocks_remapped_atoms L OB blocks :
  blocks_remapped L OB blocks ->
  block_atoms blocks = map row_atom (concat OB).
Proof.
  revert L blocks. induction OB as [| ob OB IH]; intros L [| b blocks] H;
    simpl in H; try contradiction; [reflexivity |].
  destruct H as [Hb H]. unfold block_atoms in *. simpl.
  rewrite map_app, (IH _ _ H). f_equal. now apply (remapped_atoms L).
Qed.

(** The atoms built by [inverse] are the z-matrix atoms, each once. *)
Lemma built_atoms_perm dims z cart ix :
  (forall a, In a cart -> ~ In a (map fst z)) ->
  _setup_indices dims z cart = Returns ix ->
  Permutation (block_atoms (rev_blocks ix))
    (map row_atom (sorted_z_indices ix)).
Proof.
  intros Hdisj Hsetup.
  destruct (setup_blocks_spec _ _ _ _ Hdisj Hsetup) as [OB [HOB [Hperm _]]].
  rewrite (blocks_remapped_atoms _ _ _ HOB). now apply Permutation_map.
Qed.

Lemma blocks_remapped_refs L OB blocks orig e :
  blocks_remapped L OB blocks -> In orig (concat OB) ->
  In e (row_refs orig) -> In e (L ++ block_atoms blocks).
Proof.
  revert L blocks. induction OB as [| ob OB IH]; intros L [| b blocks] H Ho He;
    simpl in H, Ho; try contradiction.
  destruct H as [Hb H]. apply in_app_or in Ho. destruct Ho as [Ho | Ho].
  - apply in_or_app. left.
    apply list_elem_of_In, list_elem_of_lookup in Ho. destruct Ho as [j Hj].
    destruct (Forall2_lookup_l _ _ _ _ _ Hb Hj) as [row [_ [_ [H1 [H2 H3]]]]].
    unfold row_refs in He. simpl in He.
    destruct He as [<- | [<- | [<- | []]]];
      apply list_elem_of_In; eapply list_elem_of_lookup_2; eauto.
  - specialize (IH _ _ H Ho He). unfold block_atoms in *. simpl.
    now rewrite app_assoc.
Qed.

Lemma setup_refs_in_range dims z cart ix :
  (forall a, In a cart -> ~ In a (map fst z)) ->
  _setup_indices dims z cart = Returns ix ->
  refs_in_range dims ix.
Proof.
  intros Hdisj Hsetup r e Hr He.
  pose proof (setup_indices_ok _ _ _ _ Hsetup) as Hok.
  pose proof (built_atoms_perm _ _ _ _ Hdisj Hsetup) as Hatoms.
  destruct (setup_blocks_spec _ _ _ _ Hdisj Hsetup) as [OB [HOB [Hperm _]]].
  assert (Ho : In r (concat OB)).
  { eapply Permutation_in; [symmetry; exact Hperm | exact Hr]. }
  pose proof (blocks_remapped_refs _ _ _ _ _ HOB Ho He) as Hin.
  apply in_app_or in Hin. destruct Hin as [Hin | Hin].
  - now apply (so_cart_lt _ _ _ Hok).
  - assert (Hin' : In e (map row_atom (sorted_z_indices ix))).
    { eapply Permutation_in; eauto. }
    apply in_map_iff in Hin'. destruct Hin' as [r' [<- Hr']].
    now apply (so_atoms_lt _ _ _ Hok).
Qed.

End BuiltAtoms.

Section JacobianSum.
Local Open Scope R_scope.
Import InternalCoordinateTransform.

Variables (dims : nat) (z : list (nat * list nat)) (cart : list nat)
          (data : option tensor) (circ : list nat) (shift : bool)
          (bins : nat) (dflt : default_std_t) (self : t).
Hypothesis Hinit : __init__ dims z cart data circ shift bins dflt = Returns self.
Hypothesis Hdisj : forall a, In a cart -> ~ In a (map fst z).

Let Hsetup := proj1 (init_inv _ _ _ _ _ _ _ _ _ Hinit).
Let Hok := setup_indices_ok _ _ _ _ Hsetup.
Let Hrefs := setup_refs_in_range _ _ _ _ Hdisj Hsetup.
Let Hstats := proj1 (proj2 (proj2 (proj2 (init_inv _ _ _ _ _ _ _ _ _ Hinit)))).

Lemma norm_nonneg (v : vec3) : 0 <= norm v.
Proof. unfold norm. apply sqrt_pos. Qed.

Lemma stats_index (i : nat) (r : zrow) :
  sorted_z_indices (ix self) !! i = Some r ->
  nth (row_atom r) (atom_to_stats (ix self)) 0%nat = i.
Proof.
  intros Hi. apply nth_lookup_Some with (i := row_atom r).
  now apply (so_stats _ _ _ Hok).
Qed.

(** Un-normalising what [forward] wrote gives back the raw channels (the
    dihedral up to its wrap). *)
Lemma unnormalize_forward (x : list R) (i : nat) (r : zrow) :
  length x = dims ->
  sorted_z_indices (ix self) !! i = Some r ->
  (nth i (std_bonds self) 0 <> 0 ->
   unnormalize self (std_bonds self) (mean_bonds self) 0
     (fst (forward_row self x)) (row_atom r) = raw_bond x r)
  /\ (nth i (std_angles self) 0 <> 0 ->
      unnormalize self (std_angles self) (mean_angles self) 1
        (fst (forward_row self x)) (row_atom r) = raw_angle x r)
  /\ (nth i (std_dih self) 0 <> 0 ->
      unnormalize self (std_dih self) (mean_dih self) 2
        (fst (forward_row self x)) (row_atom r)
      = wrap_fix_dih (raw_dihedral x r - nth i (mean_dih self) 0)
        + nth i (mean_dih self) 0).
Proof.
  intros Hx Hi. unfold unnormalize. rewrite (stats_index i r Hi).
  destruct (forward_row_channels dims cart (ix self) Hok self eq_refl
              x i r Hrefs Hstats Hx Hi) as [Cb [Ca Cd]].
  replace (3 * row_atom r + 0)%nat with (3 * row_atom r)%nat by lia.
  rewrite Cb, Ca, Cd.
  repeat split; intros Hs; field; assumption.
Qed.

Lemma Forall_nth_ne0 (l : list R) (i : nat) :
  Forall (fun s => s <> 0) l -> (i < length l)%nat -> nth i l 0 <> 0.
Proof.
  intros H Hi. rewrite Forall_forall in H. apply H.
  apply list_elem_of_In. now apply nth_In.
Qed.

Lemma inverse_jac_term_forward (x : list R) (r : zrow) :
  length x = dims ->
  Forall (fun s => s <> 0) (std_bonds self) ->
  Forall (fun s => s <> 0) (std_angles self) ->
  In r (sorted_z_indices (ix self)) ->
  inverse_jac_term self (fst (forward_row self x)) (row_atom r) = jac_term x r.
Proof.
  intros Hx Hsb Hsa Hr.
  apply list_elem_of_In, list_elem_of_lookup in Hr. destruct Hr as [i Hi].
  pose proof (lookup_lt_Some _ _ _ Hi) as Hlt.
  destruct (unnormalize_forward x i r Hx Hi) as [Ub [Ua _]].
  unfold inverse_jac_term, jac_term.
  rewrite Ub, Ua.
  - rewrite (Rabs_right (raw_bond x r)); [reflexivity |].
    apply Rle_ge. unfold raw_bond, bond_of. apply norm_nonneg.
  - apply Forall_nth_ne0; [assumption |].
    now rewrite (sk_std_angles _ Hstats).
  - apply Forall_nth_ne0; [assumption |].
    now rewrite (sk_std_bonds _ Hstats).
Qed.

(** On a true round trip the two log-determinants cancel. *)
Lemma jacobian_sum_row (x : list R) :
  length x = dims ->
  Forall (fun s => s <> 0) (std_bonds self) ->
  Forall (fun s => s <> 0) (std_angles self) ->
  snd (forward_row self x)
  + snd (fst (inverse_row self (fst (forward_row self x)))) = 0.
Proof.
  intros Hx Hsb Hsa.
  rewrite (forward_row_jac dims cart (ix self) Hok self eq_refl x Hrefs).
  rewrite inverse_row_jac. unfold built_atoms.
  fold (block_atoms (rev_blocks (ix self))).
  rewrite (Rsum_perm _ _
    (Permutation_map (inverse_jac_term self (fst (forward_row self x)))
       (built_atoms_perm _ _ _ _ Hdisj Hsetup))).
  rewrite map_map.
  rewrite (Rsum_perm (map (jac_term x) (rev (sorted_z_indices (ix self))))
             (map (jac_term x) (sorted_z_indices (ix self))))
    by (apply Permutation_map; symmetry; apply Permutation_rev).
  rewrite (map_ext_in
    (fun r => inverse_jac_term self (fst (forward_row self x)) (row_atom r))
    (jac_term x));
    [lra | intros r Hr; now apply inverse_jac_term_forward].
Qed.

End JacobianSum.


(* ===================================================================== *)
(** * The example system *)
(* ===================================================================== *)

Section Example.
Local Open Scope R_scope.
Import InternalCoordinateTransform.

Lemma example_setup :
  exists ix, _setup_indices 12 example_z example_cart = Returns ix
             /\ sorted_z_indices ix = [(3, 2, 1, 0)%nat]
             /\ rev_blocks ix = [[(3, 2, 1, 0)%nat]]
             /\ dih_indices ix = [11%nat].
Proof.
  destruct (_setup_indices 12 example_z example_cart) as [ix | |] eqn:E;
    [| vm_compute in E; discriminate E | vm_compute in E; discriminate E].
  exists ix. split; [reflexivity |].
  vm_compute in E. inversion E. repeat split; reflexivity.
Qed.

Lemma example_disjoint :
  forall a, In a example_cart -> ~ In a (map fst example_z).
Proof. intros a Ha Hc. simpl in Ha, Hc. lia. Qed.

(** The single-sample construction returns, with the default standard
    deviations. *)
Lemma example_init :
  exists self,
    __init__ 12 example_z example_cart (Some example_data) [] false 100
      default_std_default = Returns self
    /\ std_bonds self = [1 * (5 / 1000)]
    /\ std_angles self = [1 * (15 / 100)]
    /\ std_dih self = [1 * (2 / 10)].
Proof.
  destruct example_setup as [ix [Hsetup [Hz [_ Hd]]]].
  pose proof (setup_indices_ok _ _ _ _ Hsetup) as Hok.
  unfold __init__. rewrite Hsetup. cbn [mbind outcome_bind obind].
  unfold _validate_data, example_data. cbn [shape length nth].
  destruct (decide (2 <> 2)%nat) as [Hc | _]; [congruence |].
  destruct (decide (12 <> 12)%nat) as [Hc | _]; [congruence |].
  cbn [mbind outcome_bind obind]. cbv zeta.
  unfold _setup_std_dih, _setup_std_bonds, _setup_std_angles.
  cbn [data_rows rows map length].
  destruct (decide (1 < 1)%nat) as [Hc | _]; [lia |].
  cbn [ofoldl mbind outcome_bind obind].
  eexists. split; [reflexivity |].
  cbn [std_bonds std_angles std_dih].
  unfold _setup_mean_bonds, _setup_mean_angles, _setup_mean_dih, col_means.
  rewrite (so_bond _ _ _ Hok), (so_angle _ _ _ Hok), (so_dih _ _ _ Hok), Hz.
  cbn [map zip_with std_bond std_angle std_dihedral default_std_default].
  repeat split; reflexivity.
Qed.



End Example.

Section ExampleFrame.
Local Open Scope R_scope.
Import InternalCoordinateTransform.

Lemma forward_frame_witness :
  exists self l' jac h',
    __init__ 12 example_z example_cart (Some example_data) [] false 100
      default_std_default = Returns self
    /\ forward_store self 0 {[0%nat := [example_row]]} = Some (l', jac, h')
    /\ h' !! 0%nat = Some [example_row]
    /\ l' <> 0%nat.
Proof.
  destruct example_init as [self [Hinit _]].
  assert (HX : ({[0%nat := [example_row]]} : store) !! 0%nat
               = Some [example_row]) by apply lookup_singleton_eq.
  destruct (forward_store_succeeds self 0 _ _ HX) as [l' [jac [h' Hrun]]].
  exists self, l', jac, h'. split; [exact Hinit |]. split; [exact Hrun |].
  destruct (forward_frame 12 example_z example_cart self 0
              {[0%nat := [example_row]]} h' [example_row] l' jac
              (proj1 (init_inv _ _ _ _ _ _ _ _ _ Hinit)) HX Hrun)
    as [H1 [_ [H3 _]]].
  split; assumption.
Defined.

End ExampleFrame.

Section ExampleGeometry.
Local Open Scope R_scope.
Import InternalCoordinateTransform.




Lemma sqrt_one_expr (a : R) : a = 1 -> sqrt a = 1.
Proof. intros ->. apply sqrt_1. Qed.



Lemma example_sorted_z (self : t) (d : option tensor) :
  __init__ 12 example_z example_cart d [] false 100 default_std_default
    = Returns self ->
  sorted_z_indices (ix self) = [(3, 2, 1, 0)%nat].
Proof.
  intros H. apply init_inv in H. destruct H as [Hs _].
  destruct example_setup as [ix0 [Hs0 [Hz _]]].
  rewrite Hs0 in Hs. inversion Hs. now subst.
Qed.

End ExampleGeometry.


(* ===================================================================== *)
(** * Jacobian consistency *)
(* ===================================================================== *)

Section Jacobian.
Local Open Scope R_scope.
Import InternalCoordinateTransform.






End Jacobian.


(* ===================================================================== *)
(** * Construction succeeds on well-formed arguments *)
(* ===================================================================== *)

Section InitTotal.
Local Open Scope R_scope.
Import InternalCoordinateTransform.

Lemma argmin_from_bound (l : list nat) :
  forall i best_i best,
    (best_i < i)%nat -> (argmin_from l i best_i best < i + length l)%nat.
Proof.
  induction l as [| h l IH]; intros i best_i best Hb; simpl; [lia |].
  destruct (Nat.ltb h best).
  - specialize (IH (S i) i h ltac:(lia)). lia.
  - specialize (IH (S i) best_i best ltac:(lia)). lia.
Qed.

Lemma argmin_lt (l : list nat) : l <> [] -> (argmin l < length l)%nat.
Proof.
  destruct l as [| h l]; [congruence |]. intros _. simpl.
  pose proof (argmin_from_bound l 1 0 h ltac:(lia)). lia.
Qed.

Lemma shift_step_succeeds ix bins (std_dih : list R) X (m : list R) i :
  (0 < bins)%nat ->
  (i < length (dih_indices ix))%nat -> (i < length std_dih)%nat ->
  (i < length m)%nat ->
  exists X' m', shift_step ix bins std_dih (X, m) i = Returns (X', m')
                /\ length m' = length m.
Proof.
  intros Hbins H1 H2 H3. unfold shift_step.
  destruct (lookup_lt_is_Some_2 _ _ H1) as [c Hc].
  destruct (lookup_lt_is_Some_2 _ _ H2) as [s Hs].
  destruct (lookup_lt_is_Some_2 _ _ H3) as [mu Hmu].
  rewrite (proj2 (get_item_Returns _ _ _) Hc). cbn [mbind outcome_bind obind].
  rewrite (proj2 (get_item_Returns _ _ _) Hs). cbn [mbind outcome_bind obind].
  rewrite (proj2 (get_item_Returns _ _ _) Hmu). cbn [mbind outcome_bind obind].
  match goal with
  | |- context [get_item ?val (argmin ?hist)] =>
      assert (Hv : exists v, get_item val (argmin hist) = Returns v)
  end.
  { match goal with
    | |- exists v, get_item ?val (argmin ?hist) = Returns v =>
        destruct (lookup_lt_is_Some_2 val (argmin hist)) as [v Hv]
    end.
    - unfold linspace. rewrite length_map, length_seq.
      match goal with |- (argmin ?h < bins)%nat =>
        assert (Hl : length h = bins)
          by (unfold histc; now rewrite length_map, length_seq);
        assert (Hne : h <> []) by (intros E; rewrite E in Hl; simpl in Hl; lia);
        pose proof (argmin_lt h Hne) end.
      lia.
    - exists v. now apply get_item_Returns. }
  destruct Hv as [v Hv]. rewrite Hv. cbn [mbind outcome_bind obind].
  eexists _, _. split; [reflexivity |]. apply length_insert.
Qed.

Lemma shift_loop_succeeds ix bins (std_dih : list R) (l : list nat) :
  (0 < bins)%nat ->
  forall X (m : list R),
    (forall i, In i l ->
       (i < length (dih_indices ix))%nat /\ (i < length std_dih)%nat
       /\ (i < length m)%nat) ->
    exists res, ofoldl (shift_step ix bins std_dih) l (X, m) = Returns res.
Proof.
  intros Hbins. induction l as [| i l IH]; intros X m H; [simpl; eauto |].
  cbn [ofoldl].
  destruct (H i (or_introl eq_refl)) as [H1 [H2 H3]].
  destruct (shift_step_succeeds ix bins std_dih X m i Hbins H1 H2 H3)
    as [X' [m' [E Hlen]]].
  rewrite E. cbn [mbind outcome_bind obind]. apply IH.
  intros j Hj. rewrite Hlen. apply H. now right.
Qed.

Lemma validate_data_spec dims data :
  (data_invalid dims data -> _validate_data dims data = Raises ValueError)
  /\ (~ data_invalid dims data -> _validate_data dims data = Returns tt).
Proof.
  unfold data_invalid, _validate_data. destruct data as [d |].
  - destruct (decide (length (shape d) <> 2%nat)).
    + split; [reflexivity | tauto].
    + destruct (decide (nth 1 (shape d) 0%nat <> dims)).
      * split; [reflexivity | tauto].
      * split; [tauto | reflexivity].
  - split; [reflexivity | tauto].
Qed.


Variables (dims : nat) (z : list (nat * list nat)) (cart : list nat)
          (data : option tensor) (circ : list nat) (shift : bool)
          (bins : nat) (dflt : default_std_t).
Hypothesis Hwf : wf_topology dims z cart.
Hypothesis Hcart : cart <> [].
Hypothesis Hcirc : forall i, In i circ -> (i < length z)%nat.
Hypothesis Hbins : shift = true -> (0 < bins)%nat.

Lemma wf_sorted_length ix :
  _setup_indices dims z cart = Returns ix ->
  length (sorted_z_indices ix) = length z.
Proof.
  intros H. apply setup_indices_inv in H.
  destruct H as (sorted & ? & ? & ? & ? & ? & Hs & Hrows & _).
  apply topological_sort_Returns in Hs. destruct Hs as [Hp _].
  rewrite (dict_id z (wf_keys_nodup _ _ _ Hwf)) in Hp.
  apply omapM_Returns, Forall2_length in Hrows.
  apply Permutation_length in Hp. lia.
Qed.

(** The inner constructor fails with [ValueError] on an invalid dataset
    and returns an object otherwise. *)
Lemma init_wf_spec :
  (data_invalid dims data ->
   __init__ dims z cart data circ shift bins dflt = Raises ValueError)
  /\ (~ data_invalid dims data ->
      exists self, __init__ dims z cart data circ shift bins dflt
                   = Returns self).
Proof.
  destruct (setup_indices_succeeds dims z cart Hwf Hcart) as [ix Hsetup].
  pose proof (setup_indices_ok _ _ _ _ Hsetup) as Hok.
  pose proof (wf_sorted_length ix Hsetup) as Hlen.
  unfold __init__. rewrite Hsetup. cbn [mbind outcome_bind obind].
  destruct (validate_data_spec dims data) as [Hbad Hgood].
  split.
  - intros H. now rewrite (Hbad H).
  - intros H. rewrite (Hgood H). cbn [mbind outcome_bind obind]. cbv zeta.
    assert (Hd : length (dih_indices ix) = length z)
      by (rewrite (so_dih _ _ _ Hok), length_map; exact Hlen).
    match goal with
    | |- context [_setup_std_dih ix dflt circ ?md ?X] =>
        assert (Hmd : length md = length z);
          [unfold _setup_mean_dih;
           rewrite length_zip_with, !length_map; lia |];
        assert (Hsd : exists sd, _setup_std_dih ix dflt circ md X = Returns sd
                                 /\ length sd = length z)
    end.
    { unfold _setup_std_dih. destruct (decide _).
      - eexists. split; [reflexivity |]. unfold col_stds.
        now rewrite length_map.
      - match goal with
        | |- exists sd, ofoldl _ circ ?s = _ /\ _ =>
            destruct (ofoldl_set_item_succeeds circ 1 s) as [sd Hsd]
        end.
        + intros i Hi. rewrite length_map, Hmd. now apply Hcirc.
        + exists sd. split; [assumption |].
          apply ofoldl_set_item_length in Hsd.
          now rewrite Hsd, length_map. }
    destruct Hsd as [sd [Hsd Hsdl]]. rewrite Hsd.
    cbn [mbind outcome_bind obind].
    destruct shift.
    + match goal with
      | |- context [ofoldl (shift_step ix bins sd) circ (?X, ?m)] =>
          destruct (shift_loop_succeeds ix bins sd circ (Hbins eq_refl) X m)
            as [[X' m'] Hsh]
      end.
      * intros i Hi. specialize (Hcirc i Hi). rewrite Hd, Hsdl, Hmd. auto.
      * rewrite Hsh. cbn [mbind outcome_bind obind]. eauto.
    + cbn [mbind outcome_bind obind]. eauto.
Qed.

End InitTotal.


(* ===================================================================== *)
(** * Construction of [CompleteInternalCoordinateTransform] *)
(* ===================================================================== *)

Section PermuteLoop.
Import CompleteInternalCoordinateTransform.

Lemma set_item_ok {A} (l : list A) (i : nat) (a : A) :
  i < length l -> set_item l i a = Returns (<[i := a]> l).
Proof. intros H. apply set_item_Returns. now split. Qed.

Lemma permute_step_Returns p q i j p' q' :
  permute_step (p, q) (i, j) = Returns (p', q') <->
  3 * i + 2 < length p /\ 3 * j + 2 < length q
  /\ p' = <[3 * i + 2 := 3 * j + 2]>
            (<[3 * i + 1 := 3 * j + 1]> (<[3 * i + 0 := 3 * j + 0]> p))
  /\ q' = <[3 * j + 2 := 3 * i + 2]>
            (<[3 * j + 1 := 3 * i + 1]> (<[3 * j + 0 := 3 * i + 0]> q)).
Proof.
  unfold permute_step. split.
  - intros H.
    obind_inv_as H p1 E1. obind_inv_as H p2 E2. obind_inv_as H p3 E3.
    obind_inv_as H q1 E4. obind_inv_as H q2 E5. obind_inv_as H q3 E6.
    apply set_item_Returns in E1, E2, E3, E4, E5, E6.
    destruct E1 as [? ->], E2 as [? ->], E3 as [L3 ->],
             E4 as [? ->], E5 as [? ->], E6 as [L6 ->].
    rewrite !length_insert in *. inversion H; subst. auto.
  - intros (Hp & Hq & -> & ->).
    rewrite (set_item_ok p) by lia. cbn [mbind outcome_bind obind].
    rewrite (set_item_ok (<[3 * i + 0 := 3 * j + 0]> p))
      by (rewrite ?length_insert; lia).
    cbn [mbind outcome_bind obind].
    rewrite (set_item_ok (<[3 * i + 1 := 3 * j + 1]>
                            (<[3 * i + 0 := 3 * j + 0]> p)))
      by (rewrite ?length_insert; lia).
    cbn [mbind outcome_bind obind].
    rewrite (set_item_ok q) by lia. cbn [mbind outcome_bind obind].
    rewrite (set_item_ok (<[3 * j + 0 := 3 * i + 0]> q))
      by (rewrite ?length_insert; lia).
    cbn [mbind outcome_bind obind].
    rewrite (set_item_ok (<[3 * j + 1 := 3 * i + 1]>
                            (<[3 * j + 0 := 3 * i + 0]> q)))
      by (rewrite ?length_insert; lia).
    reflexivity.
Qed.

Lemma permute_loop_succeeds (l : list nat) :
  forall (k : nat) (p q : list nat),
    3 * (k + length l) <= length p ->
    (forall j, In j l -> 3 * j + 2 < length q) ->
    exists p' q',
      ofoldl permute_step (combine (seq k (length l)) l) (p, q)
      = Returns (p', q').
Proof.
  induction l as [| j l IH]; intros k p q Hk Hq; [simpl; eauto |].
  cbn [length seq combine ofoldl].
  assert (E : permute_step (p, q) (k, j)
              = Returns (<[3 * k + 2 := 3 * j + 2]>
                           (<[3 * k + 1 := 3 * j + 1]>
                              (<[3 * k + 0 := 3 * j + 0]> p)),
                         <[3 * j + 2 := 3 * k + 2]>
                           (<[3 * j + 1 := 3 * k + 1]>
                              (<[3 * j + 0 := 3 * k + 0]> q)))).
  { apply permute_step_Returns. simpl in Hk.
    split; [lia |]. split; [apply Hq; now left | auto]. }
  rewrite E. cbn [mbind outcome_bind obind]. apply IH.
  - rewrite !length_insert. simpl in Hk. lia.
  - intros j' Hj'. rewrite !length_insert. apply Hq. now right.
Qed.

End PermuteLoop.

Module CICT := CompleteInternalCoordinateTransform.

Section Validation.
Local Open Scope R_scope.
Import InternalCoordinateTransform.

Lemma wf_all_atoms_length dims z cart :
  wf_topology dims z cart ->
  (length (cart ++ map fst z) = dims / 3)%nat.
Proof.
  intros Hwf.
  assert (Hnd : List.NoDup (cart ++ map fst z)).
  { apply NoDup_ListNoDup, NoDup_app. split; [| split].
    - apply NoDup_ListNoDup, (wf_cart_nodup _ _ _ Hwf).
    - intros a Ha Hk. apply list_elem_of_In in Ha, Hk.
      exact (wf_disjoint _ _ _ Hwf a Ha Hk).
    - apply NoDup_ListNoDup, (wf_keys_nodup _ _ _ Hwf). }
  assert (H' : (length (cart ++ map fst z) <= dims / 3)%nat).
  { apply (NoDup_bounded_length (dims / 3) _ Hnd).
    intros a Ha. apply (wf_cover _ _ _ Hwf).
    apply in_app_or in Ha. tauto. }
  assert (H'' : (length (seq 0 (dims / 3)) <= length (cart ++ map fst z))%nat).
  { apply NoDup_incl_length; [apply seq_NoDup |].
    intros a Ha. apply in_seq in Ha. apply in_or_app.
    apply (wf_cover _ _ _ Hwf). lia. }
  rewrite length_seq in H''. lia.
Qed.


End Validation.

Section ValidationExamples.
Local Open Scope R_scope.
Import InternalCoordinateTransform.

Lemma example_acyclic : acyclic example_z.
Proof.
  intros Hc. apply (proj2 (topological_sort_spec example_z)) in Hc.
  discriminate Hc.
Qed.

Lemma example_wf : wf_topology 12 example_z example_cart.
Proof.
  constructor.
  - reflexivity.
  - repeat constructor. intros [].
  - repeat constructor; simpl; intuition lia.
  - apply example_disjoint.
  - intros a. change (12 / 3)%nat with 4%nat. simpl. lia.
  - intros p [<- | []]. reflexivity.
  - intros p e [<- | []] He. simpl in He. simpl. lia.
  - apply example_acyclic.
Qed.

Lemma example_data_valid : ~ data_invalid 12 (Some example_data).
Proof. unfold data_invalid. simpl. lia. Qed.



End ValidationExamples.


(* ===================================================================== *)
(** * The fitted dihedral statistics *)
(* ===================================================================== *)

Section DihedralStats.
Local Open Scope R_scope.
Import InternalCoordinateTransform.





Variables (dims : nat) (z : list (nat * list nat)) (cart : list nat)
          (d : tensor) (circ : list nat) (bins : nat) (dflt : default_std_t)
          (self : t).
Hypothesis Hinit :
  __init__ dims z cart (Some d) circ false bins dflt = Returns self.
Hypothesis Hdisj : forall a, In a cart -> ~ In a (map fst z).
Hypothesis Hrows : Forall (fun r => length r = dims) (rows d).

Let Hsetup := proj1 (init_inv _ _ _ _ _ _ _ _ _ Hinit).
Let Hok := setup_indices_ok _ _ _ _ Hsetup.
Let Hrefs := setup_refs_in_range _ _ _ _ Hdisj Hsetup.




End DihedralStats.


(* ===================================================================== *)
(** * Circular-mean statistics *)
(* ===================================================================== *)

Section CircularMean.
Local Open Scope R_scope.
Import InternalCoordinateTransform.








End CircularMean.

(* ===================================================================== *)
(** * Facts about [atan2] and angles modulo a full turn *)
(* ===================================================================== *)

Section Trigonometry.
Local Open Scope R_scope.

Lemma sqrt_ratio (x y : R) :
  x <> 0 -> sqrt (1 + (y / x)²) = sqrt (x * x + y * y) / Rabs x.
Proof.
  intros Hx.
  assert (Hxx : 0 < x * x) by nra.
  replace (1 + (y / x)²) with ((x * x + y * y) / (x * x))
    by (unfold Rsqr; field; assumption).
  rewrite sqrt_div; [| nra | assumption].
  f_equal. fold (Rsqr x). apply sqrt_Rsqr_abs.
Qed.

Lemma hypot_pos (x y : R) : x <> 0 \/ y <> 0 -> 0 < sqrt (x * x + y * y).
Proof. intros H. apply sqrt_lt_R0. destruct H; nra. Qed.

(** [atan2 y x] is the polar angle of the point [(x, y)]. *)
Lemma atan2_cos_sin (x y : R) :
  x <> 0 \/ y <> 0 ->
  cos (atan2 y x) = x / sqrt (x * x + y * y)
  /\ sin (atan2 y x) = y / sqrt (x * x + y * y).
Proof.
  intros H. pose proof (hypot_pos x y H) as Hh.
  unfold atan2.
  destruct (Rlt_dec 0 x) as [Hx | Hx].
  - rewrite cos_atan, sin_atan, sqrt_ratio by lra.
    rewrite Rabs_right by lra. split; field; lra.
  - destruct (Rlt_dec x 0) as [Hx' | Hx'].
    + assert (E : sqrt (1 + (y / x)²) = sqrt (x * x + y * y) / - x).
      { rewrite sqrt_ratio by lra. now rewrite Rabs_left by lra. }
      destruct (Rle_dec 0 y).
      * rewrite neg_cos, neg_sin, cos_atan, sin_atan, E.
        split; field; lra.
      * replace (atan (y / x) - PI) with (- (- atan (y / x) + PI)) by ring.
        rewrite cos_neg, sin_neg, neg_cos, neg_sin, cos_neg, sin_neg.
        rewrite cos_atan, sin_atan, E. split; field; lra.
    + assert (x = 0) by lra. subst x.
      replace (0 * 0 + y * y) with (y * y) in * by ring.
      destruct (Rlt_dec 0 y) as [Hy | Hy].
      * rewrite cos_PI2, sin_PI2, sqrt_square by lra. split; field; lra.
      * destruct (Rlt_dec y 0) as [Hy' | Hy'].
        -- rewrite cos_neg, sin_neg, cos_PI2, sin_PI2.
           replace (y * y) with ((- y) * (- y)) by ring.
           rewrite sqrt_square by lra. split; field; lra.
        -- destruct H; lra.
Qed.

Lemma atan2_range (x y : R) : - PI < atan2 y x <= PI.
Proof.
  pose proof PI_RGT_0 as Hpi. unfold atan2.
  pose proof (atan_bound (y / x)) as Hb.
  destruct (Rlt_dec 0 x) as [Hx | Hx]; [lra |].
  destruct (Rlt_dec x 0) as [Hx' | Hx'].
  - destruct (Rle_dec 0 y) as [Hy | Hy].
    + assert (y / x <= 0).
      { unfold Rdiv. assert (/ x < 0) by now apply Rinv_lt_0_compat. nra. }
      assert (atan (y / x) <= 0).
      { rewrite <- atan_0. destruct (Req_dec (y / x) 0) as [-> | Hne];
          [lra |]. left. apply atan_increasing. lra. }
      lra.
    + assert (0 < y / x).
      { unfold Rdiv. assert (/ x < 0) by now apply Rinv_lt_0_compat. nra. }
      assert (0 < atan (y / x)).
      { rewrite <- atan_0. now apply atan_increasing. }
      lra.
  - destruct (Rlt_dec 0 y); [lra |].
    destruct (Rlt_dec y 0); lra.
Qed.

(** Two angles of one half-open turn with equal sine and cosine agree. *)
Lemma angle_unique (a b : R) :
  - PI <= a < PI -> - PI <= b < PI ->
  sin a = sin b -> cos a = cos b -> a = b.
Proof.
  intros Ha Hb Hs Hc. pose proof PI_RGT_0 as Hpi.
  assert (H1 : cos (a - b) = 1).
  { rewrite cos_minus, Hs, Hc.
    pose proof (sin2_cos2 b) as E. unfold Rsqr in E. lra. }
  assert (H2 : sin ((a - b) / 2) = 0).
  { assert (E : cos (a - b) = 1 - 2 * sin ((a - b) / 2) * sin ((a - b) / 2)).
    { replace (a - b) with (2 * ((a - b) / 2)) at 1 by field.
      rewrite cos_2a_sin. ring. }
    nra. }
  apply sin_eq_0_0 in H2. destruct H2 as [k Hk].
  assert (Hk0 : (k = 0)%Z).
  { assert (- 1 < IZR k < 1) as [Hlo Hhi].
    { split; apply Rmult_lt_reg_r with PI; try assumption; lra. }
    apply lt_IZR in Hlo. apply lt_IZR in Hhi. lia. }
  subst k. lra.
Qed.

Lemma sin_cos_period (x : R) (k : Z) :
  sin (x + IZR k * (2 * PI)) = sin x /\ cos (x + IZR k * (2 * PI)) = cos x.
Proof.
  destruct (Z_le_gt_dec 0 k) as [Hk | Hk].
  - rewrite <- (Z2Nat.id k Hk), <- INR_IZR_INZ.
    replace (x + INR (Z.to_nat k) * (2 * PI))
      with (x + 2 * INR (Z.to_nat k) * PI) by ring.
    split; [apply sin_period | apply cos_period].
  - assert (Hk' : (0 <= - k)%Z) by lia.
    set (y := x + IZR k * (2 * PI)).
    assert (E : x = y + 2 * INR (Z.to_nat (- k)) * PI).
    { rewrite INR_IZR_INZ, (Z2Nat.id _ Hk'), opp_IZR. unfold y. ring. }
    split.
    + rewrite E. now rewrite sin_period.
    + rewrite E. now rewrite cos_period.
Qed.

Lemma congruent_sin_cos (a b : R) :
  congruent_2pi a b -> sin a = sin b /\ cos a = cos b.
Proof. intros [k ->]. apply sin_cos_period. Qed.

End Trigonometry.

Section Polar.
Local Open Scope R_scope.

(** [atan2] recovers the angle of a point given in polar form. *)
Lemma atan2_polar (K t : R) :
  0 < K ->
  cos (atan2 (K * sin t) (K * cos t)) = cos t
  /\ sin (atan2 (K * sin t) (K * cos t)) = sin t.
Proof.
  intros HK.
  assert (Hne : K * cos t <> 0 \/ K * sin t <> 0).
  { destruct (cos_sin_0_var t) as [H | H]; [left | right]; nra. }
  destruct (atan2_cos_sin _ _ Hne) as [Hc Hs].
  assert (E : sqrt (K * cos t * (K * cos t) + K * sin t * (K * sin t)) = K).
  { apply sqrt_lem_1; [nra | lra |].
    pose proof (sin2_cos2 t) as H. unfold Rsqr in H. nra. }
  rewrite E in Hc, Hs. rewrite Hc, Hs. split; field; lra.
Qed.

Lemma dihedral_range (a b c d : vec3) : - PI <= dihedral_of a b c d < PI.
Proof.
  unfold dihedral_of. cbv zeta.
  match goal with |- _ <= - atan2 ?y ?x < _ =>
    pose proof (atan2_range x y) end. lra.
Qed.

End Polar.

(* ===================================================================== *)
(** * Vector algebra of the geometric kernels *)
(* ===================================================================== *)

Ltac vec_simpl :=
  unfold vadd, vsub, vscale, vdiv, dot, cross, vzero, Rdiv; cbn [vx vy vz].

Ltac vec_ring :=
  intros;
  repeat match goal with v : vec3 |- _ => destruct v end;
  vec_simpl; first [ring | f_equal; ring].

Section VectorAlgebra.
Local Open Scope R_scope.

Lemma vdiv_vscale (a : vec3) (s : R) : vdiv a s = vscale a (/ s).
Proof. reflexivity. Qed.

Lemma dot_comm (a b : vec3) : dot a b = dot b a.
Proof. vec_ring. Qed.

Lemma dot_vadd_l (a b c : vec3) : dot (vadd a b) c = dot a c + dot b c.
Proof. vec_ring. Qed.

Lemma dot_vadd_r (a b c : vec3) : dot a (vadd b c) = dot a b + dot a c.
Proof. vec_ring. Qed.

Lemma dot_vsub_l (a b c : vec3) : dot (vsub a b) c = dot a c - dot b c.
Proof. vec_ring. Qed.

Lemma dot_vsub_r (a b c : vec3) : dot a (vsub b c) = dot a b - dot a c.
Proof. vec_ring. Qed.

Lemma dot_vscale_l (a b : vec3) (s : R) : dot (vscale a s) b = s * dot a b.
Proof. vec_ring. Qed.

Lemma dot_vscale_r (a b : vec3) (s : R) : dot a (vscale b s) = s * dot a b.
Proof. vec_ring. Qed.

Lemma cross_vscale_l (a b : vec3) (s : R) :
  cross (vscale a s) b = vscale (cross a b) s.
Proof. vec_ring. Qed.

Lemma cross_vscale_r (a b : vec3) (s : R) :
  cross a (vscale b s) = vscale (cross a b) s.
Proof. vec_ring. Qed.

Lemma dot_cross_l (a b : vec3) : dot a (cross a b) = 0.
Proof. vec_ring. Qed.

Lemma dot_cross_r (a b : vec3) : dot b (cross a b) = 0.
Proof. vec_ring. Qed.

Lemma lagrange (a b : vec3) :
  dot (cross a b) (cross a b) = dot a a * dot b b - dot a b * dot a b.
Proof. vec_ring. Qed.

Lemma bac_cab (a b c : vec3) :
  cross a (cross b c) = vsub (vscale b (dot a c)) (vscale c (dot a b)).
Proof. vec_ring. Qed.

Lemma cramer (a b c w : vec3) :
  vscale w (dot a (cross b c))
  = vadd (vadd (vscale a (dot w (cross b c))) (vscale b (dot w (cross c a))))
      (vscale c (dot w (cross a b))).
Proof. vec_ring. Qed.

Lemma vscale_1 (a : vec3) : vscale a 1 = a.
Proof. vec_ring. Qed.

Lemma vscale_vscale (a : vec3) (s t : R) :
  vscale (vscale a s) t = vscale a (s * t).
Proof. vec_ring. Qed.

Lemma vsub_flip (a b : vec3) : vsub a b = vscale (vsub b a) (-1).
Proof. vec_ring. Qed.

Lemma vsub_vsub (a b c : vec3) : vsub c b = vsub (vsub a b) (vsub a c).
Proof. vec_ring. Qed.

Lemma vadd_vsub (a b : vec3) : vsub (vadd a b) a = b.
Proof. vec_ring. Qed.

Lemma vsub_vadd (a b : vec3) : vadd a (vsub b a) = b.
Proof. vec_ring. Qed.

Lemma cross_zero_l (b : vec3) : cross vzero b = vzero.
Proof. vec_ring. Qed.

Lemma coords_e (u n e : vec3) (k : R) :
  vadd (vadd (vscale u 0) (vscale n 0)) (vscale e k) = vscale e k.
Proof. vec_ring. Qed.

Lemma place_combine (p u n e : vec3) (b sa ca sd cd : R) :
  vsub (vadd p (vscale (vscale (vscale (vadd (vscale n sd) (vscale e cd)) 1)
                          b) sa))
    (vscale (vscale u b) ca)
  = vadd p (vadd (vadd (vscale u (- (b * ca))) (vscale n (b * sa * sd)))
              (vscale e (b * sa * cd))).
Proof. vec_ring. Qed.

Lemma norm_dot (v : vec3) : norm v = sqrt (dot v v).
Proof. reflexivity. Qed.

Lemma dot_self_nonneg (v : vec3) : 0 <= dot v v.
Proof. destruct v as [a b c]. vec_simpl. nra. Qed.

Lemma norm_sq (v : vec3) : norm v * norm v = dot v v.
Proof. rewrite norm_dot. apply sqrt_sqrt, dot_self_nonneg. Qed.

Lemma norm_zero (v : vec3) : norm v = 0 -> v = vzero.
Proof.
  intros H. rewrite norm_dot in H.
  apply sqrt_eq_0 in H; [| apply dot_self_nonneg].
  destruct v as [a b c]. revert H. vec_simpl. intros H.
  assert (a = 0) by nra. assert (b = 0) by nra. assert (c = 0) by nra.
  now subst.
Qed.

Lemma norm_pos (v : vec3) : v <> vzero -> 0 < norm v.
Proof.
  intros H. destruct (norm_nonneg v) as [Hlt | Heq]; [assumption |].
  exfalso. apply H. now apply norm_zero.
Qed.

Lemma norm_of_sq (v : vec3) (s : R) : 0 <= s -> dot v v = s * s -> norm v = s.
Proof.
  intros Hs H. rewrite norm_dot, H. now apply sqrt_square.
Qed.

Lemma norm_flip (a b : vec3) : norm (vsub a b) = norm (vsub b a).
Proof. rewrite !norm_dot. f_equal. vec_ring. Qed.

Lemma cauchy_schwarz (a b : vec3) : dot a b * dot a b <= dot a a * dot b b.
Proof.
  pose proof (dot_self_nonneg (cross a b)) as H.
  rewrite lagrange in H. lra.
Qed.

End VectorAlgebra.

(* ===================================================================== *)
(** ** Orthonormal frames *)
(* ===================================================================== *)

Section Frame.
Local Open Scope R_scope.

Variables u n : vec3.
Hypothesis Hu : dot u u = 1.
Hypothesis Hn : dot n n = 1.
Hypothesis Hun : dot u n = 0.

Lemma frame_nu : dot n u = 0.
Proof. now rewrite dot_comm. Qed.

Lemma frame_ee : dot (cross u n) (cross u n) = 1.
Proof. rewrite lagrange, Hu, Hn, Hun. ring. Qed.

Lemma frame_cross_ne : cross n (cross u n) = u.
Proof.
  rewrite bac_cab, Hn, frame_nu. destruct u, n. vec_simpl. f_equal; ring.
Qed.

Lemma frame_cross_eu : cross (cross u n) u = n.
Proof.
  replace (cross (cross u n) u) with (vscale (cross u (cross u n)) (-1))
    by (destruct u, n; vec_simpl; f_equal; ring).
  rewrite bac_cab, Hu, Hun. destruct u, n. vec_simpl. f_equal; ring.
Qed.

Lemma frame_cross_ue : cross u (cross u n) = vscale n (-1).
Proof.
  rewrite bac_cab, Hu, Hun. destruct u, n. vec_simpl. f_equal; ring.
Qed.

(** Every vector is the sum of its three components in the frame. *)
Lemma frame_decompose (w : vec3) :
  w = vadd (vadd (vscale u (dot w u)) (vscale n (dot w n)))
        (vscale (cross u n) (dot w (cross u n))).
Proof.
  pose proof (cramer u n (cross u n) w) as H.
  rewrite frame_cross_ne, frame_cross_eu, Hu, vscale_1 in H. exact H.
Qed.

Lemma frame_coords (w : vec3) (a b c : R) :
  dot w u = a -> dot w n = b -> dot w (cross u n) = c ->
  w = vadd (vadd (vscale u a) (vscale n b)) (vscale (cross u n) c).
Proof. intros <- <- <-. apply frame_decompose. Qed.

Lemma frame_dot (a b c a' b' c' : R) :
  dot (vadd (vadd (vscale u a) (vscale n b)) (vscale (cross u n) c))
      (vadd (vadd (vscale u a') (vscale n b')) (vscale (cross u n) c'))
  = a * a' + b * b' + c * c'.
Proof.
  rewrite !dot_vadd_l, !dot_vadd_r, !dot_vscale_l, !dot_vscale_r.
  rewrite Hu, Hn, frame_ee, Hun, frame_nu, !dot_cross_l, !dot_cross_r.
  rewrite !(dot_comm (cross u n)), !dot_cross_l, !dot_cross_r. ring.
Qed.

Lemma frame_dot_u (a b c : R) :
  dot (vadd (vadd (vscale u a) (vscale n b)) (vscale (cross u n) c)) u = a.
Proof.
  rewrite !dot_vadd_l, !dot_vscale_l, Hu, frame_nu.
  rewrite (dot_comm (cross u n)), dot_cross_l. ring.
Qed.

Lemma frame_dot_n (a b c : R) :
  dot (vadd (vadd (vscale u a) (vscale n b)) (vscale (cross u n) c)) n = b.
Proof.
  rewrite !dot_vadd_l, !dot_vscale_l, Hn, Hun.
  rewrite (dot_comm (cross u n)), dot_cross_r. ring.
Qed.

Lemma frame_dot_e (a b c : R) :
  dot (vadd (vadd (vscale u a) (vscale n b)) (vscale (cross u n) c))
    (cross u n) = c.
Proof.
  rewrite !dot_vadd_l, !dot_vscale_l, frame_ee, dot_cross_l, dot_cross_r.
  ring.
Qed.

End Frame.

(* ===================================================================== *)
(** * [reconstruct_cart] against [calc_bonds], [calc_angles] and
      [calc_dihedrals] *)
(* ===================================================================== *)

Section Placement.
Local Open Scope R_scope.

Variables p1 p2 p3 : vec3.
Hypothesis Hnc : noncolinear p1 p2 p3.

Let v1 := vsub p1 p2.
Let v2 := vsub p1 p3.
Let N1 := norm v1.
Let Nn := norm (cross v1 v2).
Let u := vscale v1 (/ N1).
Let n := vscale (cross v1 v2) (/ Nn).
Let e := cross u n.
Let k := Nn / N1.

Lemma place_Nn_pos : 0 < Nn.
Proof. apply norm_pos, Hnc. Qed.

Lemma place_N1_pos : 0 < N1.
Proof.
  apply norm_pos. intros H. apply Hnc. fold v1 v2.
  rewrite H. apply cross_zero_l.
Qed.

Lemma place_u_unit : dot u u = 1.
Proof.
  pose proof place_N1_pos.
  unfold u. rewrite dot_vscale_l, dot_vscale_r, <- norm_sq. fold N1.
  field. lra.
Qed.

Lemma place_n_unit : dot n n = 1.
Proof.
  pose proof place_Nn_pos.
  unfold n. rewrite dot_vscale_l, dot_vscale_r, <- norm_sq. fold Nn.
  field. lra.
Qed.

Lemma place_un : dot u n = 0.
Proof.
  unfold u, n. rewrite dot_vscale_l, dot_vscale_r, dot_cross_l. ring.
Qed.

Lemma place_v1 : v1 = vscale u N1.
Proof.
  pose proof place_N1_pos.
  unfold u. rewrite vscale_vscale.
  replace (/ N1 * N1) with 1 by (field; lra). now rewrite vscale_1.
Qed.

Lemma place_k_pos : 0 < k.
Proof.
  unfold k. apply Rdiv_lt_0_compat; [apply place_Nn_pos | apply place_N1_pos].
Qed.

Lemma place_v1n : dot v1 n = 0.
Proof. unfold n. rewrite dot_vscale_r, dot_cross_l. ring. Qed.

Lemma place_v2n : dot v2 n = 0.
Proof. unfold n. rewrite dot_vscale_r, dot_cross_r. ring. Qed.

Lemma place_v1e : dot v1 e = 0.
Proof.
  unfold e, u. rewrite cross_vscale_l, dot_vscale_r, dot_cross_l. ring.
Qed.

Lemma place_v2e : dot v2 e = - k.
Proof.
  pose proof place_N1_pos. pose proof place_Nn_pos.
  unfold e, u, n, k.
  rewrite cross_vscale_l, cross_vscale_r, !dot_vscale_r, bac_cab.
  rewrite dot_vsub_r, !dot_vscale_r.
  pose proof (lagrange v1 v2) as L. rewrite <- norm_sq in L. fold Nn in L.
  rewrite (dot_comm v2 v1).
  replace (dot v1 v2 * dot v1 v2 - dot v1 v1 * dot v2 v2)
    with (- (Nn * Nn)) by lra.
  field. lra.
Qed.

Lemma place_ee : dot e e = 1.
Proof.
  apply frame_ee; [apply place_u_unit | apply place_n_unit | apply place_un].
Qed.

Lemma place_ne : dot n e = 0.
Proof. apply dot_cross_r. Qed.

Lemma place_ue : dot u e = 0.
Proof. apply dot_cross_l. Qed.

(** The new atom in the frame of its three reference atoms. *)
Lemma place_atom_frame (b a d : R) :
  place_atom p1 p2 p3 b a d
  = vadd p1 (vadd (vadd (vscale u (- (b * cos a)))
                     (vscale n (b * sin a * sin d)))
               (vscale e (b * sin a * cos d))).
Proof.
  pose proof place_N1_pos as HN1.
  assert (E1 : norm (cross v1 n) = N1).
  { apply norm_of_sq; [lra |].
    rewrite lagrange, place_n_unit, place_v1n, <- norm_sq. fold N1. ring. }
  assert (E2 : vscale (cross v1 n) (/ N1) = e).
  { unfold e, u. now rewrite cross_vscale_l. }
  assert (E3 : norm (vadd (vscale n (sin d)) (vscale e (cos d))) = 1).
  { apply norm_of_sq; [lra |].
    rewrite !dot_vadd_l, !dot_vadd_r, !dot_vscale_l, !dot_vscale_r.
    rewrite place_ee, place_n_unit, (dot_comm e n), place_ne.
    pose proof (sin2_cos2 d) as S. unfold Rsqr in S. nra. }
  change (place_atom p1 p2 p3 b a d) with
    (vsub (vadd p1
             (vscale (vscale
                (vscale (vadd (vscale n (sin d))
                           (vscale (vscale (cross v1 n) (/ norm (cross v1 n)))
                              (cos d)))
                   (/ norm (vadd (vscale n (sin d))
                              (vscale (vscale (cross v1 n)
                                         (/ norm (cross v1 n))) (cos d)))))
                b) (sin a)))
       (vscale (vscale u b) (cos a))).
  rewrite E1, E2, E3, Rinv_1. apply place_combine.
Qed.

Lemma angle_frame (p4 : vec3) :
  angle_of p2 p1 p4
  = acos (- dot (vsub p4 p1) u / norm (vsub p4 p1)).
Proof.
  unfold angle_of. cbv zeta. f_equal.
  rewrite (norm_flip p2 p1). fold v1 N1.
  rewrite !vdiv_vscale, dot_vscale_l, dot_vscale_r.
  rewrite (vsub_flip p2 p1). fold v1. rewrite dot_vscale_l.
  unfold u. rewrite dot_vscale_r, (dot_comm (vsub p4 p1) v1).
  unfold Rdiv. ring.
Qed.

Lemma dihedral_frame (p4 : vec3) :
  dihedral_of p3 p2 p1 p4
  = - atan2 (k * - dot (vsub p4 p1) n) (k * dot (vsub p4 p1) e).
Proof.
  pose proof place_u_unit as Hu. pose proof place_n_unit as Hn.
  pose proof place_un as Hun.
  change (dihedral_of p3 p2 p1 p4) with
    (let q := vsub p4 p1 in
     let b0 := vsub p3 p2 in
     let v := vsub b0 (vscale u (dot b0 u)) in
     let w := vsub q (vscale u (dot q u)) in
     - atan2 (dot (cross u v) w) (dot v w)).
  cbv zeta. set (q := vsub p4 p1). set (b0 := vsub p3 p2).
  assert (Hb0 : b0 = vsub v1 v2) by apply vsub_vsub.
  assert (Hv : vsub b0 (vscale u (dot b0 u)) = vscale e k).
  { rewrite (frame_coords u n Hu Hn Hun _ 0 0 k).
    - apply coords_e.
    - rewrite dot_vsub_l, dot_vscale_l, Hu. ring.
    - rewrite dot_vsub_l, dot_vscale_l, Hun, Hb0, dot_vsub_l.
      rewrite place_v1n, place_v2n. ring.
    - fold e. rewrite dot_vsub_l, dot_vscale_l, Hb0, dot_vsub_l.
      rewrite place_v1e, place_v2e. unfold e. rewrite dot_cross_l. ring. }
  rewrite Hv. f_equal. f_equal.
  - unfold e. rewrite cross_vscale_r, (frame_cross_ue u n Hu Hn Hun).
    rewrite !dot_vscale_l, dot_vsub_r, dot_vscale_r, (dot_comm n u), Hun.
    rewrite (dot_comm n q). ring.
  - rewrite dot_vscale_l, dot_vsub_r, dot_vscale_r.
    unfold e. rewrite (dot_comm (cross u n) u), dot_cross_l.
    rewrite (dot_comm (cross u n) q). ring.
Qed.

(** The new atom lies at distance [|b|] from the first reference atom,
    whatever the angle and the dihedral. *)
Lemma place_atom_distance (b a d : R) :
  bond_of p1 (place_atom p1 p2 p3 b a d) = Rabs b.
Proof.
  pose proof place_u_unit as Hu. pose proof place_n_unit as Hn.
  pose proof place_un as Hun.
  unfold bond_of. rewrite place_atom_frame, vadd_vsub, norm_dot.
  unfold e. rewrite (frame_dot u n Hu Hn Hun).
  pose proof (sin2_cos2 a) as Sa. pose proof (sin2_cos2 d) as Sd.
  unfold Rsqr in Sa, Sd.
  replace (- (b * cos a) * - (b * cos a)
           + b * sin a * sin d * (b * sin a * sin d)
           + b * sin a * cos d * (b * sin a * cos d))
    with (b * b * (cos a * cos a
                   + sin a * sin a * (sin d * sin d + cos d * cos d)))
    by ring.
  rewrite Sd, Rmult_1_r, (Rplus_comm (cos a * cos a)), Sa, Rmult_1_r.
  fold (Rsqr b). apply sqrt_Rsqr_abs.
Qed.

(** Measuring a placed atom gives back the bond, the angle and the
    dihedral (as a direction) it was placed with. *)
Lemma internal_of_place (b a d : R) :
  0 < b -> 0 < a < PI ->
  bond_of p1 (place_atom p1 p2 p3 b a d) = b
  /\ angle_of p2 p1 (place_atom p1 p2 p3 b a d) = a
  /\ sin (dihedral_of p3 p2 p1 (place_atom p1 p2 p3 b a d)) = sin d
  /\ cos (dihedral_of p3 p2 p1 (place_atom p1 p2 p3 b a d)) = cos d.
Proof.
  intros Hb Ha.
  pose proof place_u_unit as Hu. pose proof place_n_unit as Hn.
  pose proof place_un as Hun. pose proof place_k_pos as Hk.
  assert (Hsa : 0 < sin a) by (apply sin_gt_0; lra).
  set (p4 := place_atom p1 p2 p3 b a d).
  assert (Hq : vsub p4 p1
               = vadd (vadd (vscale u (- (b * cos a)))
                         (vscale n (b * sin a * sin d)))
                   (vscale (cross u n) (b * sin a * cos d))).
  { unfold p4. rewrite place_atom_frame. apply vadd_vsub. }
  assert (Hnorm : norm (vsub p4 p1) = b).
  { apply norm_of_sq; [lra |]. rewrite Hq, (frame_dot u n Hu Hn Hun).
    pose proof (sin2_cos2 a) as Sa. pose proof (sin2_cos2 d) as Sd.
    unfold Rsqr in Sa, Sd.
    replace (- (b * cos a) * - (b * cos a)
             + b * sin a * sin d * (b * sin a * sin d)
             + b * sin a * cos d * (b * sin a * cos d))
      with (b * b * (cos a * cos a
                     + sin a * sin a * (sin d * sin d + cos d * cos d)))
      by ring.
    rewrite Sd, Rmult_1_r, (Rplus_comm (cos a * cos a)), Sa. ring. }
  split; [exact Hnorm |]. split.
  - rewrite angle_frame, Hnorm, Hq, (frame_dot_u u n Hu Hun).
    replace (- - (b * cos a) / b) with (cos a) by (field; lra).
    apply acos_cos. lra.
  - rewrite dihedral_frame. fold p4. rewrite Hq.
    rewrite (frame_dot_n u n Hn Hun), (frame_dot_e u n Hu Hn Hun).
    replace (k * - (b * sin a * sin d))
      with (k * (b * sin a) * sin (- d)) by (rewrite sin_neg; ring).
    replace (k * (b * sin a * cos d))
      with (k * (b * sin a) * cos (- d)) by (rewrite cos_neg; ring).
    destruct (atan2_polar (k * (b * sin a)) (- d)) as [Hc Hs].
    { apply Rmult_lt_0_compat;
        [exact Hk | apply Rmult_lt_0_compat; assumption]. }
    set (A := atan2 _ _) in *.
    rewrite (sin_neg A), (cos_neg A), Hc, Hs, sin_neg, cos_neg. split; ring.
Qed.

(** Placing an atom from its own bond, angle and dihedral (the latter
    up to full turns) gives back the atom. *)
Lemma place_of_internal (p4 : vec3) (d : R) :
  bond_of p1 p4 <> 0 ->
  0 < angle_of p2 p1 p4 < PI ->
  sin d = sin (dihedral_of p3 p2 p1 p4) ->
  cos d = cos (dihedral_of p3 p2 p1 p4) ->
  place_atom p1 p2 p3 (bond_of p1 p4) (angle_of p2 p1 p4) d = p4.
Proof.
  intros Hb0 Ha Hsd Hcd.
  pose proof place_u_unit as Hu. pose proof place_n_unit as Hn.
  pose proof place_un as Hun. pose proof place_k_pos as Hk.
  change (bond_of p1 p4) with (norm (vsub p4 p1)) in *.
  set (q := vsub p4 p1) in *. set (b := norm q) in *.
  assert (Hb : 0 < b).
  { destruct (norm_nonneg q) as [H | H]; [exact H | now symmetry in H]. }
  set (s0 := dot q u). set (s1 := dot q n). set (s2 := dot q (cross u n)).
  assert (Hq : q = vadd (vadd (vscale u s0) (vscale n s1))
                     (vscale (cross u n) s2))
    by apply (frame_decompose u n Hu Hn Hun).
  assert (Hqq : b * b = s0 * s0 + s1 * s1 + s2 * s2).
  { unfold b. rewrite norm_sq.
    rewrite <- (frame_dot u n Hu Hn Hun). now rewrite <- Hq. }
  set (a := angle_of p2 p1 p4) in *.
  assert (Hsa : 0 < sin a) by (apply sin_gt_0; lra).
  assert (Hca : b * cos a = - s0).
  { unfold a. rewrite angle_frame. fold q b s0.
    rewrite cos_acos; [field; lra |].
    assert (s0 * s0 <= b * b) by nra.
    assert (- b <= s0 <= b) by nra.
    split.
    - apply Rmult_le_reg_r with b; [lra |].
      unfold Rdiv. rewrite Rmult_assoc, Rinv_l by lra. lra.
    - apply Rmult_le_reg_r with b; [lra |].
      unfold Rdiv. rewrite Rmult_assoc, Rinv_l by lra. lra. }
  set (rho := b * sin a).
  assert (Hrho : 0 < rho) by (unfold rho; nra).
  assert (Hrr : rho * rho = s1 * s1 + s2 * s2).
  { pose proof (sin2_cos2 a) as Sa. unfold Rsqr in Sa. unfold rho.
    replace (b * sin a * (b * sin a))
      with (b * b * (sin a * sin a)) by ring.
    replace (sin a * sin a) with (1 - cos a * cos a) by lra.
    replace (b * b * (1 - cos a * cos a))
      with (b * b - (b * cos a) * (b * cos a)) by ring.
    rewrite Hca. lra. }
  assert (Hdih : sin d = s1 / rho /\ cos d = s2 / rho).
  { rewrite Hsd, Hcd, dihedral_frame. fold q s1. fold e in s2. fold s2.
    assert (Hne : k * s2 <> 0 \/ k * - s1 <> 0).
    { destruct (Req_dec s2 0) as [E | E]; [right | left]; [| nra].
      assert (s1 <> 0) by (intros E'; rewrite E, E' in Hrr; nra). nra. }
    destruct (atan2_cos_sin _ _ Hne) as [Hc Hs].
    assert (E : sqrt (k * s2 * (k * s2) + k * - s1 * (k * - s1)) = k * rho).
    { apply sqrt_lem_1; [nra | nra |].
      replace (k * rho * (k * rho)) with (k * k * (rho * rho)) by ring.
      rewrite Hrr. ring. }
    rewrite E in Hc, Hs. rewrite sin_neg, cos_neg, Hc, Hs.
    split; field; lra. }
  destruct Hdih as [Hs Hc].
  rewrite place_atom_frame. fold rho.
  replace (- (b * cos a)) with s0 by lra.
  replace (rho * sin d) with s1 by (rewrite Hs; field; lra).
  replace (rho * cos d) with s2 by (rewrite Hc; field; lra).
  unfold e. rewrite <- Hq. apply vsub_vadd.
Qed.

End Placement.

(* ===================================================================== *)
(** * The Cartesian buffer built by [inverse] *)
(* ===================================================================== *)

Section PermLength.

Lemma block_pass_length all_cart rows :
  forall st next_z next_cart block st' next_z' next_cart' block',
    block_pass all_cart rows st next_z next_cart block
      = Returns (st', next_z', next_cart', block') ->
    length (ps_perm_inv st') = length (ps_perm_inv st).
Proof.
  induction rows as [| [[[a1 a2] a3] a4] rows IH];
    intros st nz nc block st' nz' nc' block' H.
  - simpl in H. inversion H; subst. reflexivity.
  - cbn [block_pass] in H.
    destruct (decide (a2 ∈ all_cart /\ a3 ∈ all_cart /\ a4 ∈ all_cart)).
    + obind_inv_as H perm' E1. obind_inv_as H inv' E2.
      obind_inv_as H m2 G2. obind_inv_as H m3 G3. obind_inv_as H m4 G4.
      apply IH in H. rewrite H. cbn [ps_perm_inv].
      apply set_item_Returns in E2. destruct E2 as [_ ->].
      apply length_insert.
    + now apply IH in H.
Qed.

Lemma block_loop_length fuel :
  forall pending all_cart st blocks st' blocks',
    block_loop fuel pending all_cart st blocks = Returns (st', blocks') ->
    length (ps_perm_inv st') = length (ps_perm_inv st).
Proof.
  induction fuel as [| fuel IH]; intros pending all_cart st blocks st' blocks' H.
  - destruct pending; simpl in H; [now inversion H | discriminate].
  - destruct pending as [| r pending]; [simpl in H; now inversion H |].
    cbn [block_loop] in H.
    obind_inv_as H res E. destruct res as [[[st1 nz] nc] block].
    apply IH in H. rewrite H.
    now apply block_pass_length in E.
Qed.

Lemma setup_rev_perm_inv_length dims z cart ix :
  _setup_indices dims z cart = Returns ix ->
  length (rev_perm_inv ix) = dims / 3.
Proof.
  intros Hsetup. apply setup_indices_inv in Hsetup.
  destruct Hsetup as (sorted & triples & cart_triples & st0 & i & st & _ & _
    & _ & _ & _ & _ & _ & _ & _ & _ & _ & _ & _ & Hcart & Hi & Hloop & Hp & Hq).
  rewrite Hq. apply block_loop_length in Hloop. rewrite Hloop.
  cbn [ps_perm_inv].
  unfold enumerate in Hcart.
  apply (cart_loop_spec cart []) in Hcart;
    [| intros m Hm; simpl in Hm; lia | intros a []].
  destruct Hcart as (_ & _ & _ & Hlen & _).
  rewrite Hlen. cbn [ps_perm_inv]. apply length_replicate.
Qed.

End PermLength.

Section Buffer.
Local Open Scope R_scope.
Import InternalCoordinateTransform.

Variables (self : t) (x : list R).

Lemma reconstruct_cart_placed (cart : list vec3) (block : list zrow) :
  fst (reconstruct_cart cart
         (map (fun r => (row_ref1 r, row_ref2 r, row_ref3 r)) block)
         (map (unnormalize self (std_bonds self) (mean_bonds self) 0 x)
            (map row_atom block))
         (map (unnormalize self (std_angles self) (mean_angles self) 1 x)
            (map row_atom block))
         (map wrap_inverse
            (map (unnormalize self (std_dih self) (mean_dih self) 2 x)
               (map row_atom block))))
  = map (placed self x cart) block.
Proof.
  unfold reconstruct_cart. cbn [fst].
  induction block as [| r block IH]; [reflexivity |].
  cbn [map zip zip_with]. f_equal. exact IH.
Qed.

Lemma inverse_block_cart (cart : list vec3) (jac loss : R) (block : list zrow) :
  fst (fst (inverse_block self x (cart, jac, loss) block))
  = cart ++ map (placed self x cart) block.
Proof.
  unfold inverse_block.
  pose proof (reconstruct_cart_placed cart block) as H.
  destruct (reconstruct_cart _ _ _ _ _) as [new_cart cart_jac].
  cbn [fst snd] in *. now rewrite H.
Qed.

Lemma placed_ext (C C' : list vec3) (row : zrow) :
  cart_at C (row_ref1 row) = cart_at C' (row_ref1 row) ->
  cart_at C (row_ref2 row) = cart_at C' (row_ref2 row) ->
  cart_at C (row_ref3 row) = cart_at C' (row_ref3 row) ->
  placed self x C row = placed self x C' row.
Proof. unfold placed. now intros -> -> ->. Qed.

(** The buffer after all blocks: its first entries are the ones it
    started with, and the entry of every z-matrix row is the atom placed
    from three earlier entries. *)
Lemma inverse_fold_spec (OB : list (list zrow)) :
  forall (blocks : list (list zrow)) (L0 : list nat) (C0 : list vec3)
         (j l : R),
    blocks_remapped L0 OB blocks ->
    length C0 = length L0 ->
    let C := fst (fst (fold_left (inverse_block self x) blocks (C0, j, l))) in
    length C = (length L0 + length (concat OB))%nat
    /\ (forall m, (m < length C0)%nat -> cart_at C m = cart_at C0 m)
    /\ (forall i o, concat OB !! i = Some o ->
          exists row,
            row_atom row = row_atom o
            /\ (row_ref1 row < length L0 + i)%nat
            /\ (row_ref2 row < length L0 + i)%nat
            /\ (row_ref3 row < length L0 + i)%nat
            /\ (L0 ++ block_atoms blocks) !! row_ref1 row = Some (row_ref1 o)
            /\ (L0 ++ block_atoms blocks) !! row_ref2 row = Some (row_ref2 o)
            /\ (L0 ++ block_atoms blocks) !! row_ref3 row = Some (row_ref3 o)
            /\ cart_at C (length L0 + i) = placed self x C row).
Proof.
  induction OB as [| ob OB' IH]; intros [| b blocks] L0 C0 j l HOB Hlen;
    simpl in HOB; try contradiction.
  - cbn [fold_left fst concat length]. split; [lia |].
    split; [reflexivity |]. intros i o Hi. discriminate.
  - destruct HOB as [Hb HOB].
    pose proof (Forall2_length _ _ _ Hb) as Hlb.
    cbn [fold_left].
    pose proof (inverse_block_cart C0 j l b) as HC1.
    destruct (inverse_block self x (C0, j, l) b) as [[C1 j1] l1].
    cbn [fst] in HC1.
    assert (Hlen1 : length C1 = length (L0 ++ map row_atom b)).
    { rewrite HC1, !length_app, !length_map. lia. }
    specialize (IH blocks (L0 ++ map row_atom b) C1 j1 l1 HOB Hlen1).
    cbv zeta in IH. destruct IH as [IHlen [IHpre IHspec]].
    set (C := fst (fst (fold_left (inverse_block self x) blocks (C1, j1, l1))))
      in *.
    assert (Hpre0 : forall m, (m < length C0)%nat -> cart_at C m = cart_at C0 m).
    { intros m Hm. rewrite IHpre by (rewrite HC1, length_app; lia).
      unfold cart_at. rewrite HC1. now apply app_nth1. }
    cbv zeta. split; [| split].
    + rewrite IHlen. cbn [concat]. rewrite !length_app, length_map. lia.
    + exact Hpre0.
    + intros i o Hi. cbn [concat] in Hi.
      destruct (decide (i < length ob)%nat) as [Hlt | Hge].
      * rewrite lookup_app_l in Hi by assumption.
        destruct (Forall2_lookup_l _ _ _ _ _ Hb Hi) as [row [Hrow Hrm]].
        destruct Hrm as [Ha [H1 [H2 H3]]].
        pose proof (lookup_lt_Some _ _ _ H1) as B1.
        pose proof (lookup_lt_Some _ _ _ H2) as B2.
        pose proof (lookup_lt_Some _ _ _ H3) as B3.
        exists row. split; [exact Ha |].
        split; [lia |]. split; [lia |]. split; [lia |].
        split; [now rewrite lookup_app_l |].
        split; [now rewrite lookup_app_l |].
        split; [now rewrite lookup_app_l |].
        rewrite IHpre by (rewrite Hlen1, length_app, length_map; lia).
        rewrite (placed_ext C C0 row) by (apply Hpre0; lia).
        unfold cart_at at 1. rewrite HC1, <- Hlen.
        rewrite app_nth2_plus.
        apply list_lookup_fmap_Some_2 with (f := placed self x C0) in Hrow.
        now apply nth_lookup_Some with (d := vzero) in Hrow.
      * rewrite lookup_app_r in Hi by lia.
        destruct (IHspec _ _ Hi) as [row [Ha [B1 [B2 [B3 [H1 [H2 [H3 HC]]]]]]]].
        rewrite length_app, length_map in B1, B2, B3, HC.
        exists row. split; [exact Ha |].
        split; [lia |]. split; [lia |]. split; [lia |].
        unfold block_atoms in *. cbn [flat_map]. rewrite app_assoc.
        split; [exact H1 |]. split; [exact H2 |]. split; [exact H3 |].
        rewrite <- HC. f_equal. lia.
Qed.

End Buffer.

Section Flatten.
Local Open Scope R_scope.

Lemma pos_flatten3 (l : list vec3) (a : nat) :
  pos (flatten3 l) a = nth a l vzero.
Proof.
  revert a. induction l as [| v l IH]; intros a.
  - destruct a; reflexivity.
  - destruct a as [| a].
    + destruct v. reflexivity.
    + change (nth (S a) (v :: l) vzero) with (nth a l vzero).
      rewrite <- IH. unfold pos, gather3, col.
      replace (3 * S a)%nat with (S (S (S (3 * a)))) by lia.
      reflexivity.
Qed.

Lemma length_flatten3 (l : list vec3) : length (flatten3 l) = (3 * length l)%nat.
Proof.
  induction l as [| v l IH]; [reflexivity |].
  cbn [flatten3 flat_map length app]. fold (flatten3 l). rewrite IH. lia.
Qed.

Lemma view3_gather_init (x : list R) (cart : list nat) :
  view3 (gather x (flat_map (fun c => [3 * c; 3 * c + 1; 3 * c + 2]%nat) cart))
  = map (pos x) cart.
Proof.
  induction cart as [| c cart IH]; [reflexivity |].
  cbn [flat_map map app gather view3].
  unfold gather in IH. rewrite IH. reflexivity.
Qed.

End Flatten.

(* ===================================================================== *)
(** * What [inverse] returns, atom by atom *)
(* ===================================================================== *)

Section InverseSpec.
Local Open Scope R_scope.
Import InternalCoordinateTransform.

Variables (dims : nat) (z : list (nat * list nat)) (cart : list nat)
          (self : t).
Hypothesis Hsetup : _setup_indices dims z cart = Returns (ix self).
Hypothesis Hdisj : forall a, In a cart -> ~ In a (map fst z).
Hypothesis Hcnd : List.NoDup cart.

Local Abbreviation L := (cart ++ block_atoms (rev_blocks (ix self))).
Local Abbreviation Zs := (sorted_z_indices (ix self)).

Lemma buffer_nodup : NoDup L.
Proof.
  pose proof (built_atoms_perm _ _ _ _ Hdisj Hsetup) as Hperm.
  destruct (setup_sorted_atoms _ _ _ _ Hsetup) as [Hnd Hkeys].
  apply NoDup_app. split; [now apply NoDup_ListNoDup |]. split.
  - intros a Ha Hb. apply list_elem_of_In in Ha, Hb.
    apply (Hdisj a Ha). apply Hkeys.
    eapply Permutation_in; [exact Hperm | exact Hb].
  - rewrite Hperm. now apply NoDup_ListNoDup.
Qed.

Lemma rpi_lookup (a m : nat) :
  L !! m = Some a -> rev_perm_inv (ix self) !! a = Some m.
Proof.
  intros Hm.
  destruct (setup_blocks_spec _ _ _ _ Hdisj Hsetup) as [OB [_ [_ [_ Hinv]]]].
  destruct (Hinv a) as [m' [Hq Hm']].
  { apply list_elem_of_In. eapply list_elem_of_lookup_2; eauto. }
  rewrite Hq. f_equal.
  exact (NoDup_lookup _ _ _ _ buffer_nodup Hm' Hm).
Qed.

Lemma inverse_row_out (x : list R) :
  fst (fst (inverse_row self x))
  = flatten3 (map (cart_at (inverse_buffer self x)) (rev_perm_inv (ix self))).
Proof.
  unfold inverse_row, inverse_buffer.
  destruct (fold_left _ _ _) as [[C jac] loss]. reflexivity.
Qed.

Lemma inverse_row_pos (x : list R) (a m : nat) :
  L !! m = Some a ->
  pos (fst (fst (inverse_row self x))) a = cart_at (inverse_buffer self x) m.
Proof.
  intros Hm. apply rpi_lookup in Hm.
  rewrite inverse_row_out, pos_flatten3.
  apply nth_lookup_Some. rewrite list_lookup_fmap, Hm. reflexivity.
Qed.

Lemma inverse_row_length (x : list R) :
  length (fst (fst (inverse_row self x))) = (3 * (dims / 3))%nat.
Proof.
  rewrite inverse_row_out, length_flatten3, length_map.
  now rewrite (setup_rev_perm_inv_length _ _ _ _ Hsetup).
Qed.

(** The buffer, entry by entry. *)
Lemma buffer_spec (x : list R) :
  exists OB,
    Permutation (concat OB) Zs
    /\ block_atoms (rev_blocks (ix self)) = map row_atom (concat OB)
    /\ (forall m c, cart !! m = Some c ->
          cart_at (inverse_buffer self x) m = pos x c)
    /\ (forall i o, concat OB !! i = Some o ->
          exists row,
            row_atom row = row_atom o
            /\ (row_ref1 row < length cart + i)%nat
            /\ (row_ref2 row < length cart + i)%nat
            /\ (row_ref3 row < length cart + i)%nat
            /\ L !! row_ref1 row = Some (row_ref1 o)
            /\ L !! row_ref2 row = Some (row_ref2 o)
            /\ L !! row_ref3 row = Some (row_ref3 o)
            /\ cart_at (inverse_buffer self x) (length cart + i)
               = placed self x (inverse_buffer self x) row).
Proof.
  pose proof (setup_indices_ok _ _ _ _ Hsetup) as Hok.
  destruct (setup_blocks_spec _ _ _ _ Hdisj Hsetup) as [OB [HOB [Hperm _]]].
  exists OB. split; [exact Hperm |].
  split; [exact (blocks_remapped_atoms _ _ _ HOB) |].
  assert (HC0 : view3 (gather x (init_cart_indices (ix self)))
                = map (pos x) cart).
  { rewrite (so_init _ _ _ Hok). apply view3_gather_init. }
  assert (Hlen : length (view3 (gather x (init_cart_indices (ix self))))
                 = length cart).
  { now rewrite HC0, length_map. }
  destruct (inverse_fold_spec self x OB (rev_blocks (ix self)) cart _ 0 0
              HOB Hlen) as [_ [Hpre Hspec]].
  fold (inverse_buffer self x) in Hpre, Hspec.
  split; [| exact Hspec].
  intros m c Hm. pose proof (lookup_lt_Some _ _ _ Hm) as Hlt.
  rewrite Hpre by lia. unfold cart_at. rewrite HC0.
  apply nth_lookup_Some. rewrite list_lookup_fmap, Hm. reflexivity.
Qed.

(** The buffer is determined by the anchors and the placement rule. *)
Lemma buffer_determined (x : list R) (P : nat -> vec3) :
  (forall c, In c cart -> P c = pos x c) ->
  (forall o, In o Zs ->
     place_atom (P (row_ref1 o)) (P (row_ref2 o)) (P (row_ref3 o))
       (unnormalize self (std_bonds self) (mean_bonds self) 0 x (row_atom o))
       (unnormalize self (std_angles self) (mean_angles self) 1 x (row_atom o))
       (wrap_inverse
          (unnormalize self (std_dih self) (mean_dih self) 2 x (row_atom o)))
     = P (row_atom o)) ->
  forall m a, L !! m = Some a -> cart_at (inverse_buffer self x) m = P a.
Proof.
  intros Hanchor Hplace.
  destruct (buffer_spec x) as [OB [Hperm [Hatoms [Hpre Hspec]]]].
  induction m as [m IH] using lt_wf_ind. intros a Hm.
  destruct (decide (m < length cart)%nat) as [Hlt | Hge].
  - rewrite lookup_app_l in Hm by assumption.
    rewrite (Hpre m a Hm). symmetry. apply Hanchor.
    apply list_elem_of_In. eapply list_elem_of_lookup_2; eauto.
  - rewrite lookup_app_r in Hm by lia.
    rewrite Hatoms, list_lookup_fmap in Hm.
    destruct (concat OB !! (m - length cart)%nat) as [o |] eqn:Ho;
      [| discriminate].
    cbn in Hm. inversion Hm; subst a; clear Hm.
    destruct (Hspec _ _ Ho) as [row [Ha [B1 [B2 [B3 [H1 [H2 [H3 HC]]]]]]]].
    replace (length cart + (m - length cart))%nat with m in * by lia.
    rewrite HC. unfold placed.
    rewrite (IH _ B1 _ H1), (IH _ B2 _ H2), (IH _ B3 _ H3), Ha.
    apply Hplace.
    eapply Permutation_in; [exact Hperm |].
    apply list_elem_of_In. eapply list_elem_of_lookup_2; eauto.
Qed.

(** [inverse] copies the anchors and places every z-matrix atom from the
    positions it returns for the three reference atoms. *)
Lemma inverse_row_spec (x : list R) :
  (forall c, In c cart -> pos (fst (fst (inverse_row self x))) c = pos x c)
  /\ (forall o, In o Zs ->
        pos (fst (fst (inverse_row self x))) (row_atom o)
        = place_atom (pos (fst (fst (inverse_row self x))) (row_ref1 o))
            (pos (fst (fst (inverse_row self x))) (row_ref2 o))
            (pos (fst (fst (inverse_row self x))) (row_ref3 o))
            (unnormalize self (std_bonds self) (mean_bonds self) 0 x
               (row_atom o))
            (unnormalize self (std_angles self) (mean_angles self) 1 x
               (row_atom o))
            (wrap_inverse
               (unnormalize self (std_dih self) (mean_dih self) 2 x
                  (row_atom o)))).
Proof.
  destruct (buffer_spec x) as [OB [Hperm [Hatoms [Hpre Hspec]]]].
  split.
  - intros c Hc. apply list_elem_of_In, list_elem_of_lookup in Hc.
    destruct Hc as [m Hm].
    rewrite (inverse_row_pos x c m).
    + now apply Hpre.
    + rewrite lookup_app_l by (eapply lookup_lt_Some; eauto). exact Hm.
  - intros o Ho.
    assert (Ho' : In o (concat OB)).
    { eapply Permutation_in; [symmetry; exact Hperm | exact Ho]. }
    apply list_elem_of_In, list_elem_of_lookup in Ho'. destruct Ho' as [i Hi].
    destruct (Hspec _ _ Hi) as [row [Ha [B1 [B2 [B3 [H1 [H2 [H3 HC]]]]]]]].
    rewrite (inverse_row_pos x (row_atom o) (length cart + i)).
    + rewrite HC. unfold placed.
      rewrite (inverse_row_pos x _ _ H1), (inverse_row_pos x _ _ H2),
        (inverse_row_pos x _ _ H3), Ha.
      reflexivity.
    + rewrite lookup_app_r by lia.
      replace (length cart + i - length cart)%nat with i by lia.
      rewrite Hatoms, list_lookup_fmap, Hi. reflexivity.
Qed.

End InverseSpec.

(* ===================================================================== *)
(** * [inverse] after [forward], and [forward] after [inverse] *)
(* ===================================================================== *)

Section RowsByAtoms.
Local Open Scope R_scope.

Lemma pos_cols (r1 r2 : list R) (a : nat) :
  pos r1 a = pos r2 a <->
  col r1 (3 * a) = col r2 (3 * a)
  /\ col r1 (3 * a + 1) = col r2 (3 * a + 1)
  /\ col r1 (3 * a + 2) = col r2 (3 * a + 2).
Proof.
  unfold pos, gather3. split.
  - intros H. now inversion H.
  - intros [-> [-> ->]]. reflexivity.
Qed.

Lemma rows_eq_by_pos (dims : nat) (r1 r2 : list R) :
  dims = (3 * (dims / 3))%nat ->
  length r1 = dims -> length r2 = dims ->
  (forall a, (a < dims / 3)%nat -> pos r1 a = pos r2 a) -> r1 = r2.
Proof.
  intros Hd H1 H2 Hpos. apply row_ext; [congruence |].
  intros c Hc. rewrite H1 in Hc.
  assert (Ha : (c / 3 < dims / 3)%nat).
  { apply Nat.Div0.div_lt_upper_bound. lia. }
  apply Hpos, pos_cols in Ha. destruct Ha as [E0 [E1 E2]].
  pose proof (Nat.div_mod_eq c 3) as Hdm.
  pose proof (Nat.mod_upper_bound c 3 ltac:(lia)) as Hm.
  destruct (c mod 3) as [| [| [| ?]]] eqn:E; [| | | lia].
  - assert (Ec : c = (3 * (c / 3))%nat) by lia. rewrite Ec. exact E0.
  - assert (Ec : c = (3 * (c / 3) + 1)%nat) by lia. rewrite Ec. exact E1.
  - assert (Ec : c = (3 * (c / 3) + 2)%nat) by lia. rewrite Ec. exact E2.
Qed.

End RowsByAtoms.

Section RoundTrip.
Local Open Scope R_scope.
Import InternalCoordinateTransform.

Variables (dims : nat) (z : list (nat * list nat)) (cart : list nat)
          (data : option tensor) (circ : list nat) (shift : bool)
          (bins : nat) (dflt : default_std_t) (self : t).
Hypothesis Hinit : __init__ dims z cart data circ shift bins dflt = Returns self.
Hypothesis Hwf : wf_topology dims z cart.
Hypothesis Hnz : stds_nonzero self.

Local Abbreviation Zs := (sorted_z_indices (ix self)).

Let Hsetup := proj1 (init_inv _ _ _ _ _ _ _ _ _ Hinit).
Let Hok := setup_indices_ok _ _ _ _ Hsetup.
Let Hdisj := wf_disjoint _ _ _ Hwf.
Let Hcnd := wf_cart_nodup _ _ _ Hwf.
Let Hrefs := setup_refs_in_range _ _ _ _ Hdisj Hsetup.
Let Hstats := proj1 (proj2 (proj2 (proj2 (init_inv _ _ _ _ _ _ _ _ _ Hinit)))).

Lemma keys_are_rows (a : nat) :
  In a (map fst z) -> exists i r, Zs !! i = Some r /\ row_atom r = a.
Proof.
  intros Ha.
  pose proof Hsetup as H. apply setup_indices_inv in H.
  destruct H as (sorted & ? & ? & ? & ? & ? & Hs & Hrows & _).
  apply topological_sort_Returns in Hs. destruct Hs as [Hp _].
  rewrite (dict_id z (wf_keys_nodup _ _ _ Hwf)) in Hp.
  assert (Hin : In a (map row_atom Zs)).
  { rewrite (z_row_atoms _ _ Hrows).
    eapply Permutation_in; [apply Permutation_map; symmetry; exact Hp |].
    exact Ha. }
  apply in_map_iff in Hin. destruct Hin as [r [Hr Hin]].
  apply list_elem_of_In, list_elem_of_lookup in Hin. destruct Hin as [i Hi].
  eauto.
Qed.

Lemma atoms_cover (a : nat) :
  (a < dims / 3)%nat ->
  In a cart \/ exists i r, Zs !! i = Some r /\ row_atom r = a.
Proof.
  intros Ha. apply (wf_cover _ _ _ Hwf) in Ha.
  destruct Ha as [Ha | Ha]; [now left | right; now apply keys_are_rows].
Qed.

Lemma atoms_in_buffer (a : nat) :
  (a < dims / 3)%nat ->
  exists m, (cart ++ block_atoms (rev_blocks (ix self))) !! m = Some a.
Proof.
  intros Ha. apply list_elem_of_lookup, list_elem_of_In, in_or_app.
  destruct (atoms_cover a Ha) as [Hc | [i [r [Hi <-]]]]; [now left | right].
  eapply Permutation_in;
    [symmetry; exact (built_atoms_perm _ _ _ _ Hdisj Hsetup) |].
  apply in_map. apply list_elem_of_In. eapply list_elem_of_lookup_2; eauto.
Qed.

Lemma anchor_not_channel (c : nat) (r : zrow) (k : nat) :
  In c cart -> In r Zs -> (3 * c <= k < 3 * c + 3)%nat ->
  ~ channel_of (row_atom r) k.
Proof.
  intros Hc Hr Hk Hch.
  assert (row_atom r = c) by (unfold channel_of in Hch; lia).
  apply (Hdisj c Hc).
  apply (proj2 (setup_sorted_atoms _ _ _ _ Hsetup)).
  subst c. now apply in_map.
Qed.

Lemma forward_row_anchor (x : list R) (c : nat) :
  In c cart -> pos (fst (forward_row self x)) c = pos x c.
Proof.
  intros Hc. apply pos_cols.
  repeat split;
    apply (forward_row_other dims cart (ix self) Hok self eq_refl);
    intros r Hr; apply (anchor_not_channel c); auto; lia.
Qed.

Lemma nth_std_ne0 (l : list R) (i : nat) (r : zrow) :
  Forall (fun s => s <> 0) l -> length l = length Zs ->
  Zs !! i = Some r -> nth i l 0 <> 0.
Proof.
  intros H Hl Hi. apply Forall_nth_ne0; [assumption |].
  rewrite Hl. eapply lookup_lt_Some; eauto.
Qed.

(** [inverse] undoes [forward] on a row without degenerate geometry. *)
Lemma inverse_forward_row (x : list R) :
  length x = dims ->
  (forall r, In r Zs -> nondegenerate x r) ->
  fst (fst (inverse_row self (fst (forward_row self x)))) = x.
Proof.
  intros Hx Hgeo. destruct Hnz as [Nb [Na Nd]].
  apply (rows_eq_by_pos dims); [exact (wf_dims _ _ _ Hwf) | | exact Hx |].
  { rewrite (inverse_row_length dims z cart self Hsetup).
    symmetry. exact (wf_dims _ _ _ Hwf). }
  intros a Ha. destruct (atoms_in_buffer a Ha) as [m Hm].
  rewrite (inverse_row_pos dims z cart self Hsetup Hdisj Hcnd _ a m Hm).
  apply (buffer_determined dims z cart self Hsetup Hdisj
           (fst (forward_row self x)) (pos x)); [| | exact Hm].
  - intros c Hc. symmetry. now apply forward_row_anchor.
  - intros o Ho. destruct (Hgeo o Ho) as [G1 [G2 G3]].
    apply list_elem_of_In, list_elem_of_lookup in Ho. destruct Ho as [i Hi].
    destruct (unnormalize_forward dims z cart data circ shift bins dflt self
                Hinit Hdisj x i o Hx Hi) as [Ub [Ua Ud]].
    rewrite Ub by (eapply nth_std_ne0; eauto; apply (sk_std_bonds _ Hstats)).
    rewrite Ua by (eapply nth_std_ne0; eauto; apply (sk_std_angles _ Hstats)).
    rewrite Ud by (eapply nth_std_ne0; eauto; apply (sk_std_dih _ Hstats)).
    set (m0 := nth i (mean_dih self) 0).
    assert (Hsc : sin (wrap_inverse (wrap_fix_dih (raw_dihedral x o - m0) + m0))
                  = sin (raw_dihedral x o)
                  /\ cos (wrap_inverse (wrap_fix_dih (raw_dihedral x o - m0) + m0))
                     = cos (raw_dihedral x o)).
    { destruct (congruent_sin_cos _ _
                  (wrap_inverse_congruent
                     (wrap_fix_dih (raw_dihedral x o - m0) + m0))) as [S C].
      rewrite S, C.
      destruct (wrap_fix_dih_congruent (raw_dihedral x o - m0)) as [k Hk].
      rewrite Hk.
      replace (raw_dihedral x o - m0 + IZR k * (2 * PI) + m0)
        with (raw_dihedral x o + IZR k * (2 * PI)) by ring.
      apply sin_cos_period. }
    destruct Hsc as [S C].
    exact (place_of_internal _ _ _ G3 (pos x (row_atom o)) _ G1 G2 S C).
Qed.

(** [forward] undoes [inverse] on a valid internal-coordinate row. *)
Lemma forward_inverse_row (z0 : list R) :
  length z0 = dims ->
  valid_internal self z0 ->
  fst (forward_row self (fst (fst (inverse_row self z0)))) = z0.
Proof.
  intros Hz Hvalid. destruct Hnz as [Nb [Na Nd]].
  set (out := fst (fst (inverse_row self z0))).
  assert (Hout : length out = dims).
  { unfold out. rewrite (inverse_row_length dims z cart self Hsetup).
    symmetry. exact (wf_dims _ _ _ Hwf). }
  destruct (inverse_row_spec dims z cart self Hsetup Hdisj Hcnd z0)
    as [Hanchor Hplace]. fold out in Hanchor, Hplace.
  apply (rows_eq_by_pos dims); [exact (wf_dims _ _ _ Hwf) | | exact Hz |].
  { rewrite (forward_row_length (ix self) self eq_refl). exact Hout. }
  intros a Ha. destruct (atoms_cover a Ha) as [Hc | [i [o [Hi <-]]]].
  - rewrite forward_row_anchor by assumption. now apply Hanchor.
  - assert (Ho : In o Zs).
    { apply list_elem_of_In. eapply list_elem_of_lookup_2; eauto. }
    destruct (forward_row_channels dims cart (ix self) Hok self eq_refl
                out i o Hrefs Hstats Hout Hi) as [Cb [Ca Cd]].
    destruct (Hvalid i o Hi) as [Vb [Va [Vd Vnc]]]. fold out in Vnc.
    specialize (Hplace o Ho).
    pose proof (internal_of_place _ _ _ Vnc _ _
                  (wrap_inverse
                     (unnormalize self (std_dih self) (mean_dih self) 2 z0
                        (row_atom o))) Vb Va) as [Eb [Ea [Es Ec]]].
    rewrite <- Hplace in Eb, Ea, Es, Ec.
    change (bond_of (pos out (row_ref1 o)) (pos out (row_atom o)))
      with (raw_bond out o) in Eb.
    change (angle_of (pos out (row_ref2 o)) (pos out (row_ref1 o))
              (pos out (row_atom o))) with (raw_angle out o) in Ea.
    change (dihedral_of (pos out (row_ref3 o)) (pos out (row_ref2 o))
              (pos out (row_ref1 o)) (pos out (row_atom o)))
      with (raw_dihedral out o) in Es, Ec.
    pose proof (stats_index dims z cart data circ shift bins dflt self Hinit
                  i o Hi) as Hsi.
    unfold unnormalize in Eb, Ea, Es, Ec, Vb, Va. rewrite Hsi in *.
    replace (3 * row_atom o + 0)%nat with (3 * row_atom o)%nat in * by lia.
    assert (Sb : nth i (std_bonds self) 0 <> 0)
      by (eapply nth_std_ne0; eauto; apply (sk_std_bonds _ Hstats)).
    assert (Sa : nth i (std_angles self) 0 <> 0)
      by (eapply nth_std_ne0; eauto; apply (sk_std_angles _ Hstats)).
    assert (Sd : nth i (std_dih self) 0 <> 0)
      by (eapply nth_std_ne0; eauto; apply (sk_std_dih _ Hstats)).
    apply pos_cols. rewrite Cb, Ca, Cd, Eb, Ea.
    split; [field; assumption |]. split; [field; assumption |].
    set (m0 := nth i (mean_dih self) 0) in *.
    set (s0 := nth i (std_dih self) 0) in *.
    set (zc := col z0 (3 * row_atom o + 2)) in *.
    assert (HW : wrap_fix_dih (raw_dihedral out o - m0) = zc * s0).
    { apply angle_unique; [apply wrap_fix_dih_range | exact Vd | |].
      - destruct (congruent_sin_cos _ _
                    (wrap_fix_dih_congruent (raw_dihedral out o - m0)))
          as [S _].
        rewrite S. unfold Rminus. rewrite sin_plus, Es, Ec, <- sin_plus.
        destruct (congruent_sin_cos _ _ (wrap_inverse_congruent (zc * s0 + m0)))
          as [S' C'].
        rewrite sin_plus, S', C', <- sin_plus. f_equal. ring.
      - destruct (congruent_sin_cos _ _
                    (wrap_fix_dih_congruent (raw_dihedral out o - m0)))
          as [_ C].
        rewrite C. unfold Rminus. rewrite cos_plus, Es, Ec, <- cos_plus.
        destruct (congruent_sin_cos _ _ (wrap_inverse_congruent (zc * s0 + m0)))
          as [S' C'].
        rewrite cos_plus, S', C', <- cos_plus. f_equal. ring. }
    rewrite HW. field. exact Sd.
Qed.

End RoundTrip.

(* ===================================================================== *)
(** * The geometric kernels against each other *)
(* ===================================================================== *)

Section KernelRoundTrip.
Local Open Scope R_scope.

(** X1. [reconstruct_cart] undoes [calc_bonds], [calc_angles] and
    [calc_dihedrals]: when the three reference atoms are not colinear, the
    bond is not zero and the angle lies strictly inside (0, PI), placing
    an atom from the bond, angle and dihedral measured on a row of
    coordinates (indexed as [_fwd] indexes them) gives back the position
    of the measured atom. *)
Theorem reconstruct_cart_inverts_calc (x : list R)
    (i1 i2 i3 i4 : nat * nat * nat) :
  noncolinear (gather3 x i1) (gather3 x i2) (gather3 x i3) ->
  Forall (fun b => b <> 0) (calc_bonds [i1] [i4] x) ->
  Forall (fun a => 0 < a < PI) (calc_angles [i2] [i1] [i4] x) ->
  fst (reconstruct_cart [gather3 x i1; gather3 x i2; gather3 x i3]
         [(0, 1, 2)%nat]
         (calc_bonds [i1] [i4] x) (calc_angles [i2] [i1] [i4] x)
         (calc_dihedrals [i3] [i2] [i1] [i4] x))
  = [gather3 x i4].
Proof.
  intros Hnc Hb Ha.
  unfold calc_bonds, calc_angles, calc_dihedrals, reconstruct_cart in *.
  cbn [zip zip_with fst cart_at nth] in *.
  inversion Hb as [| ? ? Hb' _]; subst. inversion Ha as [| ? ? Ha' _]; subst.
  f_equal. now apply place_of_internal.
Qed.

(** X2. [calc_bonds], [calc_angles] and [calc_dihedrals] undo
    [reconstruct_cart]: for non-colinear reference atoms, a positive
    bond, an angle strictly inside (0, PI) and a dihedral in [-PI, PI),
    measuring the atom that [reconstruct_cart] appends to the buffer gives
    back exactly the bond, the angle and the dihedral. *)
Theorem calc_inverts_reconstruct_cart (p1 p2 p3 : vec3) (b a d : R) :
  noncolinear p1 p2 p3 ->
  0 < b -> 0 < a < PI -> - PI <= d < PI ->
  calc_bonds [(0, 1, 2)%nat] [(9, 10, 11)%nat]
    (flatten3 ([p1; p2; p3]
               ++ fst (reconstruct_cart [p1; p2; p3] [(0, 1, 2)%nat]
                         [b] [a] [d]))) = [b]
  /\ calc_angles [(3, 4, 5)%nat] [(0, 1, 2)%nat] [(9, 10, 11)%nat]
       (flatten3 ([p1; p2; p3]
                  ++ fst (reconstruct_cart [p1; p2; p3] [(0, 1, 2)%nat]
                            [b] [a] [d]))) = [a]
  /\ calc_dihedrals [(6, 7, 8)%nat] [(3, 4, 5)%nat] [(0, 1, 2)%nat]
       [(9, 10, 11)%nat]
       (flatten3 ([p1; p2; p3]
                  ++ fst (reconstruct_cart [p1; p2; p3] [(0, 1, 2)%nat]
                            [b] [a] [d]))) = [d].
Proof.
  intros Hnc Hb Ha Hd.
  destruct (internal_of_place p1 p2 p3 Hnc b a d Hb Ha) as [Eb [Ea [Es Ec]]].
  unfold calc_bonds, calc_angles, calc_dihedrals, reconstruct_cart.
  cbn [zip zip_with fst cart_at nth app].
  set (p4 := place_atom p1 p2 p3 b a d) in *.
  assert (G1 : gather3 (flatten3 [p1; p2; p3; p4]) (0, 1, 2)%nat = p1)
    by (destruct p1; reflexivity).
  assert (G2 : gather3 (flatten3 [p1; p2; p3; p4]) (3, 4, 5)%nat = p2)
    by (destruct p2; reflexivity).
  assert (G3 : gather3 (flatten3 [p1; p2; p3; p4]) (6, 7, 8)%nat = p3)
    by (destruct p3; reflexivity).
  assert (G4 : gather3 (flatten3 [p1; p2; p3; p4]) (9, 10, 11)%nat = p4)
    by (destruct p4; reflexivity).
  rewrite G1, G2, G3, G4, Eb, Ea.
  split; [reflexivity |]. split; [reflexivity |]. f_equal.
  apply angle_unique; [apply dihedral_range | assumption | assumption
                      | assumption].
Qed.

Lemma kernel_example_noncolinear :
  noncolinear (V3 0 0 0) (V3 1 0 0) (V3 1 1 0).
Proof.
  unfold noncolinear, cross, vsub, vzero. cbn [vx vy vz].
  intros H. inversion H. lra.
Qed.

Lemma kernel_example_bond : bond_of (V3 0 0 0) (V3 0 1 0) = 1.
Proof.
  unfold bond_of, norm, vsub. cbn [vx vy vz]. apply sqrt_one_expr. lra.
Qed.

Lemma kernel_example_angle :
  angle_of (V3 1 0 0) (V3 0 0 0) (V3 0 1 0) = PI / 2.
Proof.
  unfold angle_of, norm, vsub, vdiv, dot. cbn [vx vy vz].
  rewrite (sqrt_one_expr ((1 - 0) * (1 - 0) + (0 - 0) * (0 - 0)
                          + (0 - 0) * (0 - 0))) by lra.
  rewrite (sqrt_one_expr ((0 - 0) * (0 - 0) + (1 - 0) * (1 - 0)
                          + (0 - 0) * (0 - 0))) by lra.
  match goal with |- acos ?c = _ => replace c with 0 by lra end.
  apply acos_0.
Qed.

Lemma reconstruct_cart_inverts_calc_witness :
  fst (reconstruct_cart
         [gather3 example_row (6, 7, 8)%nat; gather3 example_row (3, 4, 5)%nat;
          gather3 example_row (0, 1, 2)%nat]
         [(0, 1, 2)%nat]
         (calc_bonds [(6, 7, 8)%nat] [(9, 10, 11)%nat] example_row)
         (calc_angles [(3, 4, 5)%nat] [(6, 7, 8)%nat] [(9, 10, 11)%nat]
            example_row)
         (calc_dihedrals [(0, 1, 2)%nat] [(3, 4, 5)%nat] [(6, 7, 8)%nat]
            [(9, 10, 11)%nat] example_row))
  = [gather3 example_row (9, 10, 11)%nat].
Proof.
  apply (reconstruct_cart_inverts_calc example_row (6, 7, 8)%nat
           (3, 4, 5)%nat (0, 1, 2)%nat (9, 10, 11)%nat).
  - exact kernel_example_noncolinear.
  - constructor; [| constructor].
    change (bond_of (V3 0 0 0) (V3 0 1 0) <> 0).
    rewrite kernel_example_bond. lra.
  - constructor; [| constructor].
    change (0 < angle_of (V3 1 0 0) (V3 0 0 0) (V3 0 1 0) < PI).
    rewrite kernel_example_angle. pose proof PI_RGT_0. lra.
Defined.

Lemma calc_inverts_reconstruct_cart_witness :
  calc_bonds [(0, 1, 2)%nat] [(9, 10, 11)%nat]
    (flatten3 ([V3 0 0 0; V3 1 0 0; V3 1 1 0]
               ++ fst (reconstruct_cart [V3 0 0 0; V3 1 0 0; V3 1 1 0]
                         [(0, 1, 2)%nat] [1] [1] [0]))) = [1]
  /\ calc_angles [(3, 4, 5)%nat] [(0, 1, 2)%nat] [(9, 10, 11)%nat]
       (flatten3 ([V3 0 0 0; V3 1 0 0; V3 1 1 0]
                  ++ fst (reconstruct_cart [V3 0 0 0; V3 1 0 0; V3 1 1 0]
                            [(0, 1, 2)%nat] [1] [1] [0]))) = [1]
  /\ calc_dihedrals [(6, 7, 8)%nat] [(3, 4, 5)%nat] [(0, 1, 2)%nat]
       [(9, 10, 11)%nat]
       (flatten3 ([V3 0 0 0; V3 1 0 0; V3 1 1 0]
                  ++ fst (reconstruct_cart [V3 0 0 0; V3 1 0 0; V3 1 1 0]
                            [(0, 1, 2)%nat] [1] [1] [0]))) = [0].
Proof.
  pose proof PI_RGT_0 as Hpi. pose proof PI2_1 as Hpi2.
  apply (calc_inverts_reconstruct_cart (V3 0 0 0) (V3 1 0 0) (V3 1 1 0) 1 1 0).
  - exact kernel_example_noncolinear.
  - lra.
  - lra.
  - lra.
Defined.

End KernelRoundTrip.

Section KernelFacts.
Local Open Scope R_scope.

Lemma place_atom_congruent (p1 p2 p3 : vec3) (b a d d' : R) :
  congruent_2pi d d' ->
  place_atom p1 p2 p3 b a d = place_atom p1 p2 p3 b a d'.
Proof.
  intros H. destruct (congruent_sin_cos _ _ H) as [S C].
  unfold place_atom. cbv zeta. now rewrite S, C.
Qed.

Lemma reconstruct_cart_dihs_ext (cart : list vec3) (g : R -> R)
    (bonds angles dihs : list R) :
  (forall d, congruent_2pi (g d) d) ->
  forall refs : list (nat * nat * nat),
    reconstruct_cart cart refs bonds angles (map g dihs)
    = reconstruct_cart cart refs bonds angles dihs.
Proof.
  intros Hg refs. unfold reconstruct_cart. f_equal.
  generalize (zip refs bonds). clear refs bonds. intros l.
  revert l angles.
  induction dihs as [| d dihs IH]; intros l angles.
  - destruct angles; reflexivity.
  - destruct angles as [| a angles]; [reflexivity |].
    destruct l as [| [[[r1 r2] r3] b] l]; [reflexivity |].
    cbn [map zip zip_with]. f_equal; [| apply IH].
    apply place_atom_congruent, Hg.
Qed.

(** X3. [reconstruct_cart] reads the dihedral only modulo a full turn:
    shifting every dihedral by [k] turns changes neither the positions
    nor the log-Jacobian, and neither do the two [torch.where] with
    which [inverse] wraps the dihedrals before it calls
    [reconstruct_cart]. *)
Theorem reconstruct_cart_dihedral_period (cart : list vec3)
    (refs : list (nat * nat * nat)) (bonds angles dihs : list R) (k : Z) :
  reconstruct_cart cart refs bonds angles
    (map (fun d => d + IZR k * (2 * PI)) dihs)
  = reconstruct_cart cart refs bonds angles dihs
  /\ reconstruct_cart cart refs bonds angles (map wrap_inverse dihs)
     = reconstruct_cart cart refs bonds angles dihs.
Proof.
  split.
  - apply reconstruct_cart_dihs_ext. intros d. now exists k.
  - apply reconstruct_cart_dihs_ext. apply wrap_inverse_congruent.
Qed.

(** X4. Every atom that [reconstruct_cart] places from non-colinear
    reference atoms lies at distance [|bond|] from its first reference
    atom, whatever its angle and dihedral are. *)
Theorem reconstruct_cart_distance (cart : list vec3)
    (refs : list (nat * nat * nat)) (bonds angles dihs : list R)
    (i r1 r2 r3 : nat) (b a d : R) :
  refs !! i = Some (r1, r2, r3) -> bonds !! i = Some b ->
  angles !! i = Some a -> dihs !! i = Some d ->
  noncolinear (cart_at cart r1) (cart_at cart r2) (cart_at cart r3) ->
  exists p,
    fst (reconstruct_cart cart refs bonds angles dihs) !! i = Some p
    /\ bond_of (cart_at cart r1) p = Rabs b.
Proof.
  intros Hr Hb Ha Hd Hnc.
  exists (place_atom (cart_at cart r1) (cart_at cart r2) (cart_at cart r3)
            b a d).
  split; [| now apply place_atom_distance].
  unfold reconstruct_cart. cbn [fst].
  apply lookup_zip_with_Some. exists (r1, r2, r3, b), (a, d).
  split; [reflexivity |]. split.
  - apply lookup_zip_with_Some. eauto.
  - apply lookup_zip_with_Some. eauto.
Qed.

Lemma reconstruct_cart_distance_witness :
  exists p,
    fst (reconstruct_cart [V3 0 0 0; V3 1 0 0; V3 1 1 0] [(0, 1, 2)%nat]
           [-2] [1] [3]) !! 0%nat = Some p
    /\ bond_of (cart_at [V3 0 0 0; V3 1 0 0; V3 1 1 0] 0) p = Rabs (-2).
Proof.
  apply (reconstruct_cart_distance [V3 0 0 0; V3 1 0 0; V3 1 1 0]
           [(0, 1, 2)%nat] [-2] [1] [3] 0 0 1 2 (-2) 1 3);
    try reflexivity.
  exact kernel_example_noncolinear.
Defined.

Lemma vsub_vadd_same (a b t : vec3) : vsub (vadd a t) (vadd b t) = vsub a b.
Proof. vec_ring. Qed.

(** X5. Bond lengths, angles and dihedrals do not change when all atoms
    are translated by the same vector. *)
Theorem calc_translation_invariant (t a b c d : vec3) :
  bond_of (vadd a t) (vadd b t) = bond_of a b
  /\ angle_of (vadd b t) (vadd c t) (vadd d t) = angle_of b c d
  /\ dihedral_of (vadd a t) (vadd b t) (vadd c t) (vadd d t)
     = dihedral_of a b c d.
Proof.
  unfold bond_of, angle_of, dihedral_of. cbv zeta.
  rewrite !vsub_vadd_same. auto.
Qed.

(** X6. Ranges of the kernels on distinct atoms: a bond length is not
    negative, an angle lies in [0, PI], and a dihedral lies in the
    half-open interval [-PI, PI) (the sign flip of [calc_dihedrals] turns
    the range (-PI, PI] of [atan2] around). *)
Theorem calc_ranges (a b c d : vec3) :
  b <> c -> d <> c ->
  0 <= bond_of a b
  /\ 0 <= angle_of b c d <= PI
  /\ - PI <= dihedral_of a b c d < PI.
Proof.
  intros _ _. split; [apply norm_nonneg |]. split.
  - unfold angle_of. cbv zeta. apply acos_bound.
  - apply dihedral_range.
Qed.

Lemma calc_ranges_witness :
  0 <= bond_of (V3 1 1 0) (V3 1 0 0)
  /\ 0 <= angle_of (V3 1 0 0) (V3 0 0 0) (V3 0 1 0) <= PI
  /\ - PI <= dihedral_of (V3 1 1 0) (V3 1 0 0) (V3 0 0 0) (V3 0 1 0) < PI.
Proof.
  apply (calc_ranges (V3 1 1 0) (V3 1 0 0) (V3 0 0 0) (V3 0 1 0)).
  - intros H. inversion H. lra.
  - intros H. inversion H. lra.
Defined.

End KernelFacts.

(* ===================================================================== *)
(** * [forward] and [inverse] of [InternalCoordinateTransform], row by row *)
(* ===================================================================== *)

Section TransformFacts.
Local Open Scope R_scope.
Import InternalCoordinateTransform.

(** X7. [forward] writes the normalised internal coordinates: for a
    transform whose anchors are not z-matrix atoms, in the output row of
    a sample of the declared width, the three columns of the [i]-th
    z-matrix atom hold its bond length and its angle, each
    minus the fitted mean and divided by the fitted standard deviation,
    and its dihedral minus the mean, wrapped by [_fix_dih] and divided
    by the standard deviation; so the dihedral column times a non-zero
    standard deviation lies in [-PI, PI). *)
Theorem forward_channels (dims : nat) (z : list (nat * list nat))
    (cart : list nat) (data : option tensor) (circ : list nat) (shift : bool)
    (bins : nat) (dflt : default_std_t) (self : t)
    (X : list (list R)) (k : nat) (x : list R) (i : nat) (r : zrow) :
  __init__ dims z cart data circ shift bins dflt = Returns self ->
  (forall a, In a cart -> ~ In a (map fst z)) ->
  X !! k = Some x -> length x = dims ->
  sorted_z_indices (ix self) !! i = Some r ->
  exists y,
    fst (forward self X) !! k = Some y
    /\ col y (3 * row_atom r)
       = (raw_bond x r - nth i (mean_bonds self) 0) / nth i (std_bonds self) 0
    /\ col y (3 * row_atom r + 1)
       = (raw_angle x r - nth i (mean_angles self) 0)
         / nth i (std_angles self) 0
    /\ col y (3 * row_atom r + 2)
       = wrap_fix_dih (raw_dihedral x r - nth i (mean_dih self) 0)
         / nth i (std_dih self) 0
    /\ (nth i (std_dih self) 0 <> 0 ->
        - PI <= col y (3 * row_atom r + 2) * nth i (std_dih self) 0 < PI).
Proof.
  intros Hinit Hdisj Hk Hx Hi.
  pose proof (proj1 (init_inv _ _ _ _ _ _ _ _ _ Hinit)) as Hsetup.
  pose proof (setup_indices_ok _ _ _ _ Hsetup) as Hok.
  pose proof (setup_refs_in_range _ _ _ _ Hdisj Hsetup) as Hrefs.
  pose proof (proj1 (proj2 (proj2 (proj2
                (init_inv _ _ _ _ _ _ _ _ _ Hinit))))) as Hstats.
  exists (fst (forward_row self x)). split.
  { unfold forward. cbn [fst]. now rewrite list_lookup_fmap, Hk. }
  destruct (forward_row_channels dims cart (ix self) Hok self eq_refl
              x i r Hrefs Hstats Hx Hi) as [Cb [Ca Cd]].
  split; [exact Cb |]. split; [exact Ca |]. split; [exact Cd |].
  intros Hs. rewrite Cd.
  replace (wrap_fix_dih (raw_dihedral x r - nth i (mean_dih self) 0)
           / nth i (std_dih self) 0 * nth i (std_dih self) 0)
    with (wrap_fix_dih (raw_dihedral x r - nth i (mean_dih self) 0))
    by (field; assumption).
  apply wrap_fix_dih_range.
Qed.

(** X8. For a transform whose anchors are not z-matrix atoms, the
    log-determinant that [forward] returns for a sample of the declared
    width is minus the sum over the z-matrix atoms of
    [2 ln(bond) + ln|sin(angle)|], minus the sum of the logarithms of all
    fitted standard deviations. *)
Theorem forward_log_det (dims : nat) (z : list (nat * list nat))
    (cart : list nat) (data : option tensor) (circ : list nat) (shift : bool)
    (bins : nat) (dflt : default_std_t) (self : t)
    (X : list (list R)) (k : nat) (x : list R) :
  __init__ dims z cart data circ shift bins dflt = Returns self ->
  (forall a, In a cart -> ~ In a (map fst z)) ->
  X !! k = Some x -> length x = dims ->
  snd (forward self X) !! k
  = Some (- Rsum (map (jac_term x) (sorted_z_indices (ix self)))
          - (Rsum (map ln (std_bonds self)) + Rsum (map ln (std_angles self))
             + Rsum (map ln (std_dih self)))).
Proof.
  intros Hinit Hdisj Hk _.
  destruct (init_inv _ _ _ _ _ _ _ _ _ Hinit)
    as [Hsetup [_ [_ [_ [Hscale _]]]]].
  pose proof (setup_indices_ok _ _ _ _ Hsetup) as Hok.
  pose proof (setup_refs_in_range _ _ _ _ Hdisj Hsetup) as Hrefs.
  unfold forward. cbn [snd]. rewrite list_lookup_fmap, Hk.
  cbn [fmap option_fmap option_map]. f_equal.
  rewrite (forward_row_jac dims cart (ix self) Hok self eq_refl x Hrefs).
  rewrite Hscale.
  rewrite (Rsum_perm (map (jac_term x) (rev (sorted_z_indices (ix self))))
             (map (jac_term x) (sorted_z_indices (ix self))))
    by (apply Permutation_map; symmetry; apply Permutation_rev).
  ring.
Qed.



Lemma example_cart_nodup : List.NoDup example_cart.
Proof. repeat constructor; simpl; intuition lia. Qed.

Lemma forward_channels_witness :
  exists self,
    __init__ 12 example_z example_cart (Some example_data) [] false 100
      default_std_default = Returns self
    /\ exists y,
         fst (forward self [example_row]) !! 0%nat = Some y
         /\ col y (3 * row_atom (3, 2, 1, 0)%nat)
            = (raw_bond example_row (3, 2, 1, 0)%nat
               - nth 0 (mean_bonds self) 0) / nth 0 (std_bonds self) 0
         /\ col y (3 * row_atom (3, 2, 1, 0)%nat + 1)
            = (raw_angle example_row (3, 2, 1, 0)%nat
               - nth 0 (mean_angles self) 0) / nth 0 (std_angles self) 0
         /\ col y (3 * row_atom (3, 2, 1, 0)%nat + 2)
            = wrap_fix_dih (raw_dihedral example_row (3, 2, 1, 0)%nat
                            - nth 0 (mean_dih self) 0)
              / nth 0 (std_dih self) 0
         /\ (nth 0 (std_dih self) 0 <> 0 ->
             - PI <= col y (3 * row_atom (3, 2, 1, 0)%nat + 2)
                     * nth 0 (std_dih self) 0 < PI).
Proof.
  destruct example_init as [self [Hinit _]]. exists self.
  split; [exact Hinit |].
  apply (forward_channels 12 example_z example_cart (Some example_data) []
           false 100 default_std_default self [example_row] 0 example_row
           0 (3, 2, 1, 0)%nat Hinit example_disjoint eq_refl eq_refl).
  rewrite (example_sorted_z self _ Hinit). reflexivity.
Defined.

Lemma forward_log_det_witness :
  exists self,
    __init__ 12 example_z example_cart (Some example_data) [] false 100
      default_std_default = Returns self
    /\ snd (forward self [example_row]) !! 0%nat
       = Some (- Rsum (map (jac_term example_row) (sorted_z_indices (ix self)))
               - (Rsum (map ln (std_bonds self))
                  + Rsum (map ln (std_angles self))
                  + Rsum (map ln (std_dih self)))).
Proof.
  destruct example_init as [self [Hinit _]]. exists self.
  split; [exact Hinit |].
  exact (forward_log_det 12 example_z example_cart (Some example_data) []
           false 100 default_std_default self [example_row] 0 example_row
           Hinit example_disjoint eq_refl eq_refl).
Defined.



End TransformFacts.

(* ===================================================================== *)
(** * Round trips of [InternalCoordinateTransform] on batches *)
(* ===================================================================== *)

Section RoundTripBatch.
Local Open Scope R_scope.
Import InternalCoordinateTransform.

Lemma map_fixed {A} (f : A -> A) (l : list A) :
  Forall (fun x => f x = x) l -> map f l = l.
Proof.
  induction 1 as [| x l Hx _ IH]; [reflexivity |].
  cbn [map]. now rewrite Hx, IH.
Qed.

(** X11. For a transform built over a well-formed topology with non-zero
    fitted standard deviations, [inverse] undoes [forward] on every batch
    of rows of the declared width in which no z-matrix atom has a
    degenerate geometry (zero bond, angle outside (0, PI), colinear
    reference atoms). *)
Theorem inverse_after_forward (dims : nat) (z : list (nat * list nat))
    (cart : list nat) (data : option tensor) (circ : list nat) (shift : bool)
    (bins : nat) (dflt : default_std_t) (self : t) (X : list (list R)) :
  __init__ dims z cart data circ shift bins dflt = Returns self ->
  wf_topology dims z cart ->
  stds_nonzero self ->
  Forall (fun x => length x = dims
                   /\ forall r, In r (sorted_z_indices (ix self)) ->
                                nondegenerate x r) X ->
  fst (fst (inverse self (fst (forward self X)))) = X.
Proof.
  intros Hinit Hwf Hnz HX. unfold forward, inverse. cbn [fst].
  rewrite map_map. apply map_fixed.
  eapply Forall_impl; [exact HX |]. cbv beta. intros x [Hx Hgeo].
  exact (inverse_forward_row dims z cart data circ shift bins dflt self
           Hinit Hwf Hnz x Hx Hgeo).
Qed.

(** X12. For the same transforms, [forward] undoes [inverse] on every
    batch of valid internal-coordinate rows of the declared width:
    un-normalised bonds positive, un-normalised angles strictly inside
    (0, PI), dihedral columns times their standard deviation in
    [-PI, PI), and reference atoms not colinear in the reconstruction. *)
Theorem forward_after_inverse (dims : nat) (z : list (nat * list nat))
    (cart : list nat) (data : option tensor) (circ : list nat) (shift : bool)
    (bins : nat) (dflt : default_std_t) (self : t) (Z : list (list R)) :
  __init__ dims z cart data circ shift bins dflt = Returns self ->
  wf_topology dims z cart ->
  stds_nonzero self ->
  Forall (fun z0 => length z0 = dims /\ valid_internal self z0) Z ->
  fst (forward self (fst (fst (inverse self Z)))) = Z.
Proof.
  intros Hinit Hwf Hnz HZ. unfold forward, inverse. cbn [fst].
  rewrite map_map. apply map_fixed.
  eapply Forall_impl; [exact HZ |]. cbv beta. intros z0 [Hz Hvalid].
  exact (forward_inverse_row dims z cart data circ shift bins dflt self
           Hinit Hwf Hnz z0 Hz Hvalid).
Qed.

Lemma example_stds_all_nonzero (self : t) :
  std_bonds self = [1 * (5 / 1000)] -> std_angles self = [1 * (15 / 100)] ->
  std_dih self = [1 * (2 / 10)] -> stds_nonzero self.
Proof.
  intros Hb Ha Hd. unfold stds_nonzero. rewrite Hb, Ha, Hd.
  repeat split; repeat constructor; lra.
Qed.

Lemma example_nondegenerate : nondegenerate example_row (3, 2, 1, 0)%nat.
Proof.
  unfold nondegenerate. split; [| split].
  - change (bond_of (V3 0 0 0) (V3 0 1 0) <> 0).
    rewrite kernel_example_bond. lra.
  - change (0 < angle_of (V3 1 0 0) (V3 0 0 0) (V3 0 1 0) < PI).
    rewrite kernel_example_angle. pose proof PI_RGT_0. lra.
  - exact kernel_example_noncolinear.
Qed.

Lemma example_all_nondegenerate (self : t) (d : option tensor) :
  __init__ 12 example_z example_cart d [] false 100 default_std_default
    = Returns self ->
  forall r, In r (sorted_z_indices (ix self)) -> nondegenerate example_row r.
Proof.
  intros Hinit r Hr. rewrite (example_sorted_z self d Hinit) in Hr.
  destruct Hr as [<- | []]. exact example_nondegenerate.
Qed.

Lemma inverse_after_forward_witness :
  exists self,
    __init__ 12 example_z example_cart (Some example_data) [] false 100
      default_std_default = Returns self
    /\ fst (fst (inverse self (fst (forward self [example_row]))))
       = [example_row].
Proof.
  destruct example_init as [self [Hinit [Hb [Ha Hd]]]]. exists self.
  split; [exact Hinit |].
  apply (inverse_after_forward 12 example_z example_cart (Some example_data)
           [] false 100 default_std_default self [example_row] Hinit
           example_wf (example_stds_all_nonzero self Hb Ha Hd)).
  constructor; [| constructor]. split; [reflexivity |].
  exact (example_all_nondegenerate self _ Hinit).
Defined.

(** The image of the example sample under [forward] is a valid
    internal-coordinate row. *)
Lemma example_valid_internal (self : t) :
  __init__ 12 example_z example_cart (Some example_data) [] false 100
    default_std_default = Returns self ->
  stds_nonzero self ->
  valid_internal self (fst (forward_row self example_row)).
Proof.
  intros Hinit Hnz i r Hi.
  pose proof (example_sorted_z self _ Hinit) as Hz.
  assert (Hr : In r (sorted_z_indices (ix self))).
  { apply list_elem_of_In. eapply list_elem_of_lookup_2; eauto. }
  pose proof (example_all_nondegenerate self _ Hinit r Hr) as [G1 [G2 G3]].
  pose proof (proj1 (proj2 (proj2 (proj2
                (init_inv _ _ _ _ _ _ _ _ _ Hinit))))) as Hstats.
  destruct Hnz as [Nb [Na Nd]].
  assert (Sb : nth i (std_bonds self) 0 <> 0).
  { apply Forall_nth_ne0; [assumption |].
    rewrite (sk_std_bonds _ Hstats). eapply lookup_lt_Some; eauto. }
  assert (Sa : nth i (std_angles self) 0 <> 0).
  { apply Forall_nth_ne0; [assumption |].
    rewrite (sk_std_angles _ Hstats). eapply lookup_lt_Some; eauto. }
  assert (Sd : nth i (std_dih self) 0 <> 0).
  { apply Forall_nth_ne0; [assumption |].
    rewrite (sk_std_dih _ Hstats). eapply lookup_lt_Some; eauto. }
  destruct (unnormalize_forward 12 example_z example_cart (Some example_data)
              [] false 100 default_std_default self Hinit example_disjoint
              example_row i r eq_refl Hi) as [Ub [Ua _]].
  rewrite (Ub Sb), (Ua Sa).
  split; [| split; [exact G2 | split]].
  - destruct (norm_nonneg (vsub (pos example_row (row_atom r))
                             (pos example_row (row_ref1 r)))) as [H | H].
    + exact H.
    + exfalso. apply G1. unfold raw_bond, bond_of. now rewrite <- H.
  - pose proof (proj1 (init_inv _ _ _ _ _ _ _ _ _ Hinit)) as Hsetup.
    destruct (forward_row_channels 12 example_cart (ix self)
                (setup_indices_ok _ _ _ _ Hsetup) self eq_refl example_row
                i r (setup_refs_in_range _ _ _ _ example_disjoint Hsetup)
                Hstats eq_refl Hi) as [_ [_ Cd]].
    rewrite Cd.
    replace (wrap_fix_dih (raw_dihedral example_row r
                           - nth i (mean_dih self) 0)
             / nth i (std_dih self) 0 * nth i (std_dih self) 0)
      with (wrap_fix_dih (raw_dihedral example_row r
                          - nth i (mean_dih self) 0))
      by (field; assumption).
    apply wrap_fix_dih_range.
  - rewrite (inverse_forward_row 12 example_z example_cart
               (Some example_data) [] false 100 default_std_default self
               Hinit example_wf (conj Nb (conj Na Nd)) example_row eq_refl
               (example_all_nondegenerate self _ Hinit)).
    exact G3.
Qed.

Lemma forward_after_inverse_witness :
  exists self,
    __init__ 12 example_z example_cart (Some example_data) [] false 100
      default_std_default = Returns self
    /\ fst (forward self
              (fst (fst (inverse self [fst (forward_row self example_row)]))))
       = [fst (forward_row self example_row)].
Proof.
  destruct example_init as [self [Hinit [Hb [Ha Hd]]]]. exists self.
  split; [exact Hinit |].
  apply (forward_after_inverse 12 example_z example_cart (Some example_data)
           [] false 100 default_std_default self
           [fst (forward_row self example_row)] Hinit
           example_wf (example_stds_all_nonzero self Hb Ha Hd)).
  constructor; [| constructor]. split.
  - rewrite (forward_row_length (ix self) self eq_refl). reflexivity.
  - exact (example_valid_internal self Hinit
             (example_stds_all_nonzero self Hb Ha Hd)).
Defined.

End RoundTripBatch.

(* ===================================================================== *)
(** * The index buffers built by [_setup_indices] *)
(* ===================================================================== *)

Section SetupExtras.

(** X13. Layout of the index buffers after a successful
    [_setup_indices]: [bond_indices], [angle_indices] and [dih_indices]
    hold columns [3a], [3a + 1] and [3a + 2] of the z-matrix atoms [a]
    in sorted order, [init_cart_indices] the three columns of every
    anchor, [atom_to_stats] sends the atom of the [i]-th sorted row to
    [i], the z-matrix atoms are pairwise distinct, and all atoms are
    below [dims // 3]. *)
Theorem setup_indices_layout (dims : nat) (z : list (nat * list nat))
    (cart : list nat) (ix : indices) :
  _setup_indices dims z cart = Returns ix ->
  n_atoms ix = dims / 3
  /\ rev_z_indices ix = rev (sorted_z_indices ix)
  /\ bond_indices ix = map (fun r => 3 * row_atom r) (sorted_z_indices ix)
  /\ angle_indices ix
     = map (fun r => 3 * row_atom r + 1) (sorted_z_indices ix)
  /\ dih_indices ix = map (fun r => 3 * row_atom r + 2) (sorted_z_indices ix)
  /\ init_cart_indices ix
     = flat_map (fun c => [3 * c; 3 * c + 1; 3 * c + 2]) cart
  /\ (forall i r, sorted_z_indices ix !! i = Some r ->
        atom_to_stats ix !! row_atom r = Some i)
  /\ List.NoDup (map row_atom (sorted_z_indices ix))
  /\ (forall r, In r (sorted_z_indices ix) -> row_atom r < dims / 3)
  /\ (forall c, In c cart -> c < dims / 3).
Proof.
  intros Hsetup.
  destruct (setup_indices_ok _ _ _ _ Hsetup)
    as [_ Hlt Hnd Hrev Hb Ha Hd Hst Hc Hinit].
  apply setup_indices_inv in Hsetup.
  destruct Hsetup as (? & ? & ? & ? & ? & ? & _ & _ & Hn & _).
  repeat (split; [assumption |]). assumption.
Qed.

Lemma setup_indices_layout_witness :
  exists ix,
    _setup_indices 12 example_z example_cart = Returns ix
    /\ n_atoms ix = 12 / 3
    /\ rev_z_indices ix = rev (sorted_z_indices ix)
    /\ bond_indices ix = map (fun r => 3 * row_atom r) (sorted_z_indices ix)
    /\ angle_indices ix
       = map (fun r => 3 * row_atom r + 1) (sorted_z_indices ix)
    /\ dih_indices ix
       = map (fun r => 3 * row_atom r + 2) (sorted_z_indices ix)
    /\ init_cart_indices ix
       = flat_map (fun c => [3 * c; 3 * c + 1; 3 * c + 2]) example_cart
    /\ (forall i r, sorted_z_indices ix !! i = Some r ->
          atom_to_stats ix !! row_atom r = Some i)
    /\ List.NoDup (map row_atom (sorted_z_indices ix))
    /\ (forall r, In r (sorted_z_indices ix) -> row_atom r < 12 / 3)
    /\ (forall c, In c example_cart -> c < 12 / 3).
Proof.
  destruct example_setup as [ix [Hsetup _]]. exists ix.
  split; [exact Hsetup |].
  exact (setup_indices_layout 12 example_z example_cart ix Hsetup).
Defined.

(** X14. The building order after a successful [_setup_indices] with
    distinct anchors that are not z-matrix atoms: the blocks hold every
    z-matrix atom exactly once, [rev_perm] lists the anchors and then
    the atoms in the order they are built, and [rev_perm_inv] sends each
    of these atoms back to its position. *)
Theorem setup_indices_permutation (dims : nat) (z : list (nat * list nat))
    (cart : list nat) (ix : indices) :
  (forall a, In a cart -> ~ In a (map fst z)) ->
  List.NoDup cart ->
  _setup_indices dims z cart = Returns ix ->
  Permutation (block_atoms (rev_blocks ix))
    (map row_atom (sorted_z_indices ix))
  /\ List.NoDup (cart ++ block_atoms (rev_blocks ix))
  /\ (forall m a, (cart ++ block_atoms (rev_blocks ix)) !! m = Some a ->
        rev_perm ix !! m = Some a /\ rev_perm_inv ix !! a = Some m).
Proof.
  intros Hdisj Hcnd Hsetup.
  pose proof (built_atoms_perm _ _ _ _ Hdisj Hsetup) as Hperm.
  destruct (setup_sorted_atoms _ _ _ _ Hsetup) as [Hnd Hkeys].
  assert (HL : NoDup (cart ++ block_atoms (rev_blocks ix))).
  { apply NoDup_app. split; [now apply NoDup_ListNoDup |]. split.
    - intros a Ha Hb. apply list_elem_of_In in Ha, Hb.
      apply (Hdisj a Ha). apply Hkeys.
      eapply Permutation_in; [exact Hperm | exact Hb].
    - rewrite Hperm. now apply NoDup_ListNoDup. }
  split; [exact Hperm |]. split; [now apply NoDup_ListNoDup |].
  intros m a Hm.
  destruct (setup_blocks_spec _ _ _ _ Hdisj Hsetup) as [OB [_ [_ [Hp Hq]]]].
  split.
  - rewrite Hp by (eapply lookup_lt_Some; eauto). exact Hm.
  - destruct (Hq a) as [m' [Hq' Hm']].
    { apply list_elem_of_In. eapply list_elem_of_lookup_2; eauto. }
    rewrite Hq'. f_equal. exact (NoDup_lookup _ _ _ _ HL Hm' Hm).
Qed.

Lemma setup_indices_permutation_witness :
  exists ix,
    _setup_indices 12 example_z example_cart = Returns ix
    /\ Permutation (block_atoms (rev_blocks ix))
         (map row_atom (sorted_z_indices ix))
    /\ List.NoDup (example_cart ++ block_atoms (rev_blocks ix))
    /\ (forall m a,
          (example_cart ++ block_atoms (rev_blocks ix)) !! m = Some a ->
          rev_perm ix !! m = Some a /\ rev_perm_inv ix !! a = Some m).
Proof.
  destruct example_setup as [ix [Hsetup _]]. exists ix.
  split; [exact Hsetup |].
  exact (setup_indices_permutation 12 example_z example_cart ix
           example_disjoint example_cart_nodup Hsetup).
Defined.

Lemma block_loop_no_cart_diverges fuel :
  forall pending st blocks,
    pending <> [] -> block_loop fuel pending ∅ st blocks = Diverges.
Proof.
  induction fuel as [| fuel IH]; intros pending st blocks Hne.
  - destruct pending; [congruence | reflexivity].
  - destruct pending as [| r pending]; [congruence |].
    cbn [block_loop]. rewrite block_pass_no_cart.
    cbn [mbind outcome_bind obind app].
    replace (∅ ∪ ∅ : gset nat) with (∅ : gset nat)
      by (symmetry; apply union_empty_r_L).
    now apply IH.
Qed.

Lemma setup_indices_empty_returns (dims : nat) :
  3 <= dims ->
  exists ix, _setup_indices dims [] [] = Returns ix
             /\ sorted_z_indices ix = [] /\ rev_blocks ix = [].
Proof.
  intros Hd. unfold _setup_indices. cbv zeta.
  change (topological_sort []) with (Returns ([] : graph)).
  cbn [mbind outcome_bind obind omapM map length enumerate seq combine
       ofoldl mret outcome_ret ps_perm ps_perm_inv].
  unfold leaked_i. cbn [length].
  assert (0 < dims / 3) by (apply Nat.div_str_pos; lia).
  destruct (decide (0 < 0)) as [H0 | _]; [lia |].
  destruct (decide (0 < dims / 3)) as [_ | H0]; [| lia].
  cbn [block_loop mbind outcome_bind obind mret outcome_ret].
  eexists. split; [reflexivity |]. split; reflexivity.
Qed.

Lemma dict_set_nonempty (k : nat) (v : list nat) (g : graph) :
  dict_set k v g <> [].
Proof.
  destruct g as [| [k' v'] g]; simpl; [discriminate |].
  destruct (Nat.eqb k' k); discriminate.
Qed.

Lemma dict_nonempty (p : nat * list nat) (z : list (nat * list nat)) :
  dict (p :: z) <> [].
Proof.
  unfold dict. cbn [fold_left].
  generalize (dict_set_nonempty (fst p) (snd p) []).
  generalize (dict_set (fst p) (snd p) []).
  induction z as [| q z IH]; intros g Hg; simpl; [assumption |].
  apply IH, dict_set_nonempty.
Qed.

(** X15. Without anchors no atom can ever be placed: with an empty
    anchor list [_setup_indices] returns only for an empty z-matrix, and
    for a non-empty acyclic z-matrix of distinct atoms below [dims // 3]
    with three reference atoms each, the [while] loop over the pending
    rows never ends. *)
Theorem setup_indices_no_anchor (dims : nat) (z : list (nat * list nat)) :
  (forall ix, _setup_indices dims z [] = Returns ix -> z = [])
  /\ (z <> [] -> List.NoDup (map fst z) -> acyclic z ->
      (forall p, In p z -> 3 <= length (snd p) /\ fst p < dims / 3) ->
      _setup_indices dims z [] = Diverges).
Proof.
  split.
  - intros ix Hsetup. apply setup_indices_inv in Hsetup.
    destruct Hsetup as (sorted & triples & cart_triples & st0 & i & st & Hs
      & Hrows & _ & _ & _ & _ & _ & _ & _ & _ & _ & _ & _ & _ & _ & Hloop & _).
    cbn [list_to_set foldr] in Hloop.
    apply block_loop_no_cart in Hloop.
    rewrite Hloop in Hrows. apply omapM_Returns in Hrows.
    inversion Hrows; subst.
    apply topological_sort_Returns in Hs. destruct Hs as [Hp _].
    apply Permutation_nil in Hp.
    destruct z as [| p z]; [reflexivity |].
    exfalso. exact (dict_nonempty p z Hp).
  - intros Hne Hnd Hac Hwf. unfold _setup_indices. cbv zeta.
    destruct (proj1 (topological_sort_spec z) Hac) as [sorted [Hs [Hperm _]]].
    rewrite (dict_id z Hnd) in Hperm.
    rewrite Hs. cbn [mbind outcome_bind obind].
    destruct (omapM_succeeds z_row sorted) as [sorted_z Hrows].
    { intros [k es] Hin.
      assert (Hz : In (k, es) z) by (eapply Permutation_in; eauto).
      destruct (Hwf _ Hz) as [Hlen _]. simpl in Hlen.
      destruct es as [| r0 [| r1 [| r2 es]]]; simpl in Hlen; try lia.
      unfold z_row. simpl. eauto. }
    rewrite Hrows. cbn [mbind outcome_bind obind].
    pose proof (z_row_atoms _ _ Hrows) as Hatoms.
    assert (Hklt : forall a, In a (map row_atom sorted_z) -> a < dims / 3).
    { intros a Ha. rewrite Hatoms in Ha. apply in_map_iff in Ha.
      destruct Ha as [p [<- Hp]]. apply Hwf.
      eapply Permutation_in; eauto. }
    set (tbl := map (fun i => (3 * i, 3 * i + 1, 3 * i + 2)) (seq 0 (dims / 3))).
    destruct (omapM_succeeds (get_item tbl) (map row_atom sorted_z))
      as [triples Htr].
    { intros a Ha. eexists. apply get_item_Returns. unfold tbl.
      rewrite list_lookup_fmap, lookup_seq_lt by (now apply Hklt).
      reflexivity. }
    rewrite Htr. cbn [mbind outcome_bind obind].
    destruct (stats_loop_succeeds (map row_atom sorted_z) 0
                (replicate (dims / 3) 0)) as [ats Hats].
    { intros j Hj. rewrite length_replicate. now apply Hklt. }
    unfold enumerate. rewrite Hats.
    cbn [mbind outcome_bind obind omapM length seq combine ofoldl
         ps_perm ps_perm_inv list_to_set foldr].
    assert (Hsz : sorted_z <> []).
    { intros E. subst sorted_z. apply omapM_Returns in Hrows.
      inversion Hrows; subst. apply Permutation_nil in Hperm. congruence. }
    unfold leaked_i. cbn [length]. rewrite length_map.
    destruct (decide (0 < 0)) as [H0 | _]; [lia |].
    destruct (decide (0 < length sorted_z)) as [_ | H0];
      [| destruct sorted_z; [congruence | simpl in H0; lia]].
    rewrite block_loop_no_cart_diverges by assumption. reflexivity.
Qed.

Lemma setup_indices_no_anchor_witness :
  (exists ix, _setup_indices 3 [] [] = Returns ix
              /\ ([] : list (nat * list nat)) = [])
  /\ _setup_indices 12 example_z [] = Diverges.
Proof.
  split.
  - destruct (setup_indices_empty_returns 3 ltac:(lia)) as [ix [H _]].
    exists ix. split; [exact H |].
    exact (proj1 (setup_indices_no_anchor 3 []) ix H).
  - apply (proj2 (setup_indices_no_anchor 12 example_z)).
    + discriminate.
    + repeat constructor. intros [].
    + exact example_acyclic.
    + intros p [<- | []]. simpl. change (12 / 3) with 4. lia.
Defined.

(** X16. The empty topology: with no z-matrix and no anchors
    [_setup_indices] reads the loop variable [i] that no loop has bound
    when there is no atom at all ([dims < 3]) and raises [NameError]; with
    at least one atom it returns, with no z-matrix row and no block. *)
Theorem setup_indices_empty (dims : nat) :
  (dims < 3 -> _setup_indices dims [] [] = Raises NameError)
  /\ (3 <= dims ->
      exists ix, _setup_indices dims [] [] = Returns ix
                 /\ sorted_z_indices ix = [] /\ rev_blocks ix = []).
Proof.
  split; [| apply setup_indices_empty_returns].
  intros Hd. unfold _setup_indices. cbv zeta.
  change (topological_sort []) with (Returns ([] : graph)).
  cbn [mbind outcome_bind obind omapM map length enumerate seq combine
       ofoldl mret outcome_ret ps_perm ps_perm_inv].
  unfold leaked_i. cbn [length].
  rewrite (Nat.div_small dims 3) by lia.
  destruct (decide (0 < 0)) as [H0 | _]; [lia |]. reflexivity.
Qed.

Lemma setup_indices_empty_witness :
  _setup_indices 0 [] [] = Raises NameError
  /\ exists ix, _setup_indices 3 [] [] = Returns ix
                /\ sorted_z_indices ix = [] /\ rev_blocks ix = [].
Proof.
  split.
  - apply (proj1 (setup_indices_empty 0)). lia.
  - apply (proj2 (setup_indices_empty 3)). lia.
Defined.

End SetupExtras.

(* ===================================================================== *)
(** * The fitted bond and angle statistics *)
(* ===================================================================== *)

Section SampleStatistics.
Local Open Scope R_scope.

Lemma Rsum_map_minus_const (l : list R) (c : R) :
  Rsum (map (fun v => v - c) l) = Rsum l - INR (length l) * c.
Proof.
  induction l as [| v l IH]; [simpl; ring |].
  cbn [map Rsum fold_right length]. fold (Rsum (map (fun v => v - c) l)).
  fold (Rsum l). rewrite IH, S_INR. ring.
Qed.

Lemma Rsum_map_scale (l : list R) (s : R) :
  Rsum (map (fun v => v * s) l) = Rsum l * s.
Proof.
  induction l as [| v l IH]; [simpl; ring |].
  cbn [map Rsum fold_right]. fold (Rsum (map (fun v => v * s) l)).
  fold (Rsum l). rewrite IH. ring.
Qed.

Lemma INR_length_pos {A} (l : list A) : l <> [] -> 0 < INR (length l).
Proof.
  intros H. destruct l; [congruence |]. apply lt_0_INR. simpl. lia.
Qed.

Lemma mean_shift (l : list R) (c : R) :
  l <> [] -> mean (map (fun v => v - c) l) = mean l - c.
Proof.
  intros H. pose proof (INR_length_pos l H).
  unfold mean. rewrite Rsum_map_minus_const, length_map. field. lra.
Qed.

Lemma std_shift (l : list R) (c : R) :
  l <> [] -> std (map (fun v => v - c) l) = std l.
Proof.
  intros H. unfold std. rewrite (mean_shift l c H), length_map, map_map.
  f_equal. f_equal. f_equal. apply map_ext. intros v. ring.
Qed.

Lemma sum_sq_nonneg (l : list R) (m : R) :
  0 <= Rsum (map (fun v => (v - m) ^ 2) l).
Proof.
  induction l as [| v l IH]; [simpl; lra |].
  cbn [map Rsum fold_right]. fold (Rsum (map (fun v => (v - m) ^ 2) l)).
  pose proof (pow2_ge_0 (v - m)). lra.
Qed.

Lemma std_nonneg (l : list R) : 0 <= std l.
Proof. unfold std. apply sqrt_pos. Qed.

(** A list centred on its mean and divided by its standard deviation has
    mean 0 and standard deviation 1. *)
Lemma mean_normalised (l : list R) (s : R) :
  l <> [] -> mean (map (fun v => (v - mean l) / s) l) = 0.
Proof.
  intros H. pose proof (INR_length_pos l H).
  replace (map (fun v => (v - mean l) / s) l)
    with (map (fun v => v * / s) (map (fun v => v - mean l) l))
    by (rewrite map_map; reflexivity).
  unfold mean at 1. rewrite Rsum_map_scale, Rsum_map_minus_const.
  unfold mean. rewrite !length_map.
  replace (Rsum l - INR (length l) * (Rsum l / INR (length l))) with 0
    by (field; lra).
  unfold Rdiv. ring.
Qed.

Lemma std_normalised (l : list R) :
  (1 < length l)%nat -> std l <> 0 ->
  std (map (fun v => (v - mean l) / std l) l) = 1.
Proof.
  intros Hn Hs.
  assert (Hne : l <> []) by (destruct l; [simpl in Hn; lia | discriminate]).
  assert (Hn1 : 0 < INR (length l) - 1).
  { apply lt_INR in Hn. simpl in Hn. lra. }
  pose proof (std_nonneg l) as H0.
  assert (Hsq : std l * std l
                = Rsum (map (fun v => (v - mean l) ^ 2) l)
                  / (INR (length l) - 1)).
  { unfold std. apply sqrt_sqrt.
    apply Rmult_le_pos; [apply sum_sq_nonneg |].
    left. now apply Rinv_0_lt_compat. }
  unfold std at 1. rewrite (mean_normalised l (std l) Hne), length_map, map_map.
  apply sqrt_lem_1; [| lra | ].
  - apply Rmult_le_pos; [| left; now apply Rinv_0_lt_compat].
    replace (map (fun x => ((x - mean l) / std l - 0) ^ 2) l)
      with (map (fun v => (v - 0) ^ 2)
              (map (fun x => (x - mean l) / std l) l))
      by (rewrite map_map; reflexivity).
    apply sum_sq_nonneg.
  - replace (map (fun x => ((x - mean l) / std l - 0) ^ 2) l)
      with (map (fun v => v * / (std l * std l))
              (map (fun v => (v - mean l) ^ 2) l)).
    + rewrite Rsum_map_scale.
      replace (Rsum (map (fun v => (v - mean l) ^ 2) l))
        with (std l * std l * (INR (length l) - 1))
        by (rewrite Hsq; field; lra).
      field. split; lra.
    + rewrite map_map. apply map_ext. intros v. field. exact Hs.
Qed.

Lemma column_map (f : list R -> list R) (X : list (list R)) (c : nat) :
  column (map f X) c = map (fun x => col (f x) c) X.
Proof. unfold column. now rewrite map_map. Qed.

End SampleStatistics.

Section BondAngleStats.
Local Open Scope R_scope.
Import InternalCoordinateTransform.

(** The statistics as the constructor computes them, step by step. *)
Lemma init_bond_angle_stats dims z cart (d : tensor) circ shift bins dflt
    (self : t) :
  __init__ dims z cart (Some d) circ shift bins dflt = Returns self ->
  mean_bonds self
  = _setup_mean_bonds (ix self)
      (map (fun x => fst (_fwd_row (ix self) x)) (rows d))
  /\ std_bonds self
     = _setup_std_bonds (ix self) dflt (mean_bonds self)
         (map (isub_at (bond_indices (ix self)) (mean_bonds self))
            (map (fun x => fst (_fwd_row (ix self) x)) (rows d)))
  /\ mean_angles self
     = _setup_mean_angles (ix self)
         (map (idiv_at (bond_indices (ix self)) (std_bonds self))
            (map (isub_at (bond_indices (ix self)) (mean_bonds self))
               (map (fun x => fst (_fwd_row (ix self) x)) (rows d))))
  /\ std_angles self
     = _setup_std_angles (ix self) dflt (mean_angles self)
         (map (isub_at (angle_indices (ix self)) (mean_angles self))
            (map (idiv_at (bond_indices (ix self)) (std_bonds self))
               (map (isub_at (bond_indices (ix self)) (mean_bonds self))
                  (map (fun x => fst (_fwd_row (ix self) x)) (rows d))))).
Proof.
  intros H. unfold __init__ in H.
  obind_inv_as H ix0 E1. obind_inv_as H u E2. destruct u.
  cbv zeta in H.
  obind_inv_as H sd E3. obind_inv_as H res E4. destruct res as [X' md].
  inversion H; subst self; clear H.
  cbn [ix mean_bonds std_bonds mean_angles std_angles data_rows].
  repeat split; reflexivity.
Qed.

Variables (dims : nat) (z : list (nat * list nat)) (cart : list nat)
          (d : tensor) (circ : list nat) (shift : bool) (bins : nat)
          (dflt : default_std_t) (self : t).
Hypothesis Hinit :
  __init__ dims z cart (Some d) circ shift bins dflt = Returns self.
Hypothesis Hdisj : forall a, In a cart -> ~ In a (map fst z).
Hypothesis Hrows : Forall (fun r => length r = dims) (rows d).

Let Hsetup := proj1 (init_inv _ _ _ _ _ _ _ _ _ Hinit).
Let Hok := setup_indices_ok _ _ _ _ Hsetup.
Let Hrefs := setup_refs_in_range _ _ _ _ Hdisj Hsetup.
Let Hstats := proj1 (proj2 (proj2 (proj2 (init_inv _ _ _ _ _ _ _ _ _ Hinit)))).

Local Abbreviation Zs := (sorted_z_indices (ix self)).
Local Abbreviation T0 := (map (fun x => fst (_fwd_row (ix self) x)) (rows d)).

Lemma rows_width (x : list R) : In x (rows d) -> length x = dims.
Proof.
  intros Hx. rewrite Forall_forall in Hrows. apply Hrows.
  now apply list_elem_of_In.
Qed.

Lemma angle_not_bond (r : zrow) :
  ~ In (3 * row_atom r + 1)%nat (bond_indices (ix self)).
Proof.
  rewrite (so_bond _ _ _ Hok). intros H. apply idx0_In in H.
  destruct H as [r' [_ H]]. lia.
Qed.

Lemma bond_index_lookup (i : nat) (r : zrow) :
  Zs !! i = Some r -> bond_indices (ix self) !! i = Some (3 * row_atom r)%nat.
Proof.
  intros Hi. rewrite (so_bond _ _ _ Hok), list_lookup_fmap, Hi. reflexivity.
Qed.

Lemma angle_index_lookup (i : nat) (r : zrow) :
  Zs !! i = Some r ->
  angle_indices (ix self) !! i = Some (3 * row_atom r + 1)%nat.
Proof.
  intros Hi. rewrite (so_angle _ _ _ Hok), list_lookup_fmap, Hi. reflexivity.
Qed.

Lemma stat_lookup (l : list R) (i : nat) (r : zrow) :
  length l = length Zs -> Zs !! i = Some r -> l !! i = Some (nth i l 0).
Proof.
  intros Hl Hi. pose proof (lookup_lt_Some _ _ _ Hi) as Hlt.
  destruct (lookup_lt_is_Some_2 l i ltac:(lia)) as [v Hv].
  rewrite Hv. f_equal. symmetry. now apply nth_lookup_Some.
Qed.

Lemma bond_indices_nodup : List.NoDup (bond_indices (ix self)).
Proof.
  rewrite (so_bond _ _ _ Hok). apply idx0_nodup, (so_atoms_nodup _ _ _ Hok).
Qed.

Lemma angle_indices_nodup : List.NoDup (angle_indices (ix self)).
Proof.
  rewrite (so_angle _ _ _ Hok). apply idx_nodup, (so_atoms_nodup _ _ _ Hok).
Qed.

Lemma fwd_col_bound (x : list R) (r : zrow) (k : nat) :
  In x (rows d) -> In r Zs -> (k < 3)%nat ->
  (3 * row_atom r + k < length (fst (_fwd_row (ix self) x)))%nat.
Proof.
  intros Hx Hr Hk.
  rewrite (fwd_row_length (ix self)).
  apply (channel_lt dims); [| assumption | now apply rows_width].
  now apply (so_atoms_lt _ _ _ Hok).
Qed.

Lemma bond_column_raw (r : zrow) :
  In r Zs -> column T0 (3 * row_atom r) = raw_bonds (rows d) r.
Proof.
  intros Hr. unfold column, raw_bonds. rewrite map_map.
  apply map_ext_in. intros x Hx.
  apply (fwd_row_channels dims cart (ix self) Hok x r Hrefs
           (rows_width x Hx) Hr).
Qed.

Lemma mean_bonds_spec (i : nat) (r : zrow) :
  Zs !! i = Some r -> nth i (mean_bonds self) 0 = mean (raw_bonds (rows d) r).
Proof.
  intros Hi.
  assert (Hr : In r Zs)
    by (apply list_elem_of_In; eapply list_elem_of_lookup_2; eauto).
  destruct (init_bond_angle_stats _ _ _ _ _ _ _ _ _ Hinit) as [Hm _].
  rewrite Hm. unfold _setup_mean_bonds, col_means.
  apply nth_lookup_Some with (i := i).
  rewrite list_lookup_fmap, (bond_index_lookup i r Hi). cbn [fmap option_fmap option_map].
  now rewrite bond_column_raw.
Qed.

Lemma centred_bond_column (i : nat) (r : zrow) :
  Zs !! i = Some r ->
  column (map (isub_at (bond_indices (ix self)) (mean_bonds self)) T0)
    (3 * row_atom r)
  = map (fun v => v - nth i (mean_bonds self) 0) (raw_bonds (rows d) r).
Proof.
  intros Hi.
  assert (Hr : In r Zs)
    by (apply list_elem_of_In; eapply list_elem_of_lookup_2; eauto).
  unfold column, raw_bonds. rewrite !map_map.
  apply map_ext_in. intros x Hx.
  rewrite (isub_at_col _ _ _ i (3 * row_atom r) (nth i (mean_bonds self) 0)).
  - f_equal.
    apply (fwd_row_channels dims cart (ix self) Hok x r Hrefs
             (rows_width x Hx) Hr).
  - apply bond_indices_nodup.
  - now apply bond_index_lookup.
  - eapply stat_lookup; eauto. apply (sk_mean_bonds _ Hstats).
  - replace (3 * row_atom r)%nat with (3 * row_atom r + 0)%nat by lia.
    apply fwd_col_bound; auto.
Qed.

Lemma std_bonds_spec (i : nat) (r : zrow) :
  Zs !! i = Some r ->
  nth i (std_bonds self) 0
  = if decide (1 < length (rows d))%nat then std (raw_bonds (rows d) r)
    else 1 * std_bond dflt.
Proof.
  intros Hi.
  destruct (init_bond_angle_stats _ _ _ _ _ _ _ _ _ Hinit) as [_ [Hs _]].
  rewrite Hs. unfold _setup_std_bonds. rewrite !length_map.
  apply nth_lookup_Some with (i := i).
  destruct (decide (1 < length (rows d))%nat) as [Hn | Hn].
  - unfold col_stds.
    rewrite list_lookup_fmap, (bond_index_lookup i r Hi). cbn [fmap option_fmap option_map].
    rewrite (centred_bond_column i r Hi). f_equal. apply std_shift.
    unfold raw_bonds. destruct (rows d); [simpl in Hn; lia | discriminate].
  - rewrite list_lookup_fmap.
    rewrite (stat_lookup (mean_bonds self) i r (sk_mean_bonds _ Hstats) Hi).
    reflexivity.
Qed.

Lemma angle_column_raw (r : zrow) :
  In r Zs ->
  column (map (idiv_at (bond_indices (ix self)) (std_bonds self))
            (map (isub_at (bond_indices (ix self)) (mean_bonds self)) T0))
    (3 * row_atom r + 1)
  = raw_angles (rows d) r.
Proof.
  intros Hr. unfold column, raw_angles. rewrite !map_map.
  apply map_ext_in. intros x Hx.
  rewrite idiv_at_other, isub_at_other by apply angle_not_bond.
  apply (fwd_row_channels dims cart (ix self) Hok x r Hrefs
           (rows_width x Hx) Hr).
Qed.

Lemma mean_angles_spec (i : nat) (r : zrow) :
  Zs !! i = Some r ->
  nth i (mean_angles self) 0 = mean (raw_angles (rows d) r).
Proof.
  intros Hi.
  assert (Hr : In r Zs)
    by (apply list_elem_of_In; eapply list_elem_of_lookup_2; eauto).
  destruct (init_bond_angle_stats _ _ _ _ _ _ _ _ _ Hinit) as [_ [_ [Hm _]]].
  rewrite Hm. unfold _setup_mean_angles, col_means.
  apply nth_lookup_Some with (i := i).
  rewrite list_lookup_fmap, (angle_index_lookup i r Hi). cbn [fmap option_fmap option_map].
  now rewrite angle_column_raw.
Qed.

Lemma centred_angle_column (i : nat) (r : zrow) :
  Zs !! i = Some r ->
  column (map (isub_at (angle_indices (ix self)) (mean_angles self))
            (map (idiv_at (bond_indices (ix self)) (std_bonds self))
               (map (isub_at (bond_indices (ix self)) (mean_bonds self)) T0)))
    (3 * row_atom r + 1)
  = map (fun v => v - nth i (mean_angles self) 0) (raw_angles (rows d) r).
Proof.
  intros Hi.
  assert (Hr : In r Zs)
    by (apply list_elem_of_In; eapply list_elem_of_lookup_2; eauto).
  unfold column, raw_angles. rewrite !map_map.
  apply map_ext_in. intros x Hx.
  rewrite (isub_at_col _ _ _ i (3 * row_atom r + 1)
             (nth i (mean_angles self) 0)).
  - f_equal.
    rewrite idiv_at_other, isub_at_other by apply angle_not_bond.
    apply (fwd_row_channels dims cart (ix self) Hok x r Hrefs
             (rows_width x Hx) Hr).
  - apply angle_indices_nodup.
  - now apply angle_index_lookup.
  - eapply stat_lookup; eauto. apply (sk_mean_angles _ Hstats).
  - rewrite idiv_at_length, isub_at_length. apply fwd_col_bound; auto.
Qed.

Lemma std_angles_spec (i : nat) (r : zrow) :
  Zs !! i = Some r ->
  nth i (std_angles self) 0
  = if decide (1 < length (rows d))%nat then std (raw_angles (rows d) r)
    else 1 * std_angle dflt.
Proof.
  intros Hi.
  destruct (init_bond_angle_stats _ _ _ _ _ _ _ _ _ Hinit)
    as [_ [_ [_ Hs]]].
  rewrite Hs. unfold _setup_std_angles. rewrite !length_map.
  apply nth_lookup_Some with (i := i).
  destruct (decide (1 < length (rows d))%nat) as [Hn | Hn].
  - unfold col_stds.
    rewrite list_lookup_fmap, (angle_index_lookup i r Hi). cbn [fmap option_fmap option_map].
    rewrite (centred_angle_column i r Hi). f_equal. apply std_shift.
    unfold raw_angles. destruct (rows d); [simpl in Hn; lia | discriminate].
  - rewrite list_lookup_fmap.
    rewrite (stat_lookup (mean_angles self) i r (sk_mean_angles _ Hstats) Hi).
    reflexivity.
Qed.

End BondAngleStats.

(* ===================================================================== *)
(** * The fitted statistics are the sample statistics *)
(* ===================================================================== *)

Section FittedStatistics.
Local Open Scope R_scope.
Import InternalCoordinateTransform.

(** X17. For a transform whose anchors are not z-matrix atoms and a
    dataset with at least one sample and rows of the declared width, the
    fitted bond and angle means of every z-matrix atom are
    the arithmetic means of its bond lengths and angles over the samples;
    the fitted standard deviations are their unbiased sample standard
    deviations when there are at least two samples, and the configured
    defaults when there is one. *)
Theorem fitted_bond_angle_statistics (dims : nat) (z : list (nat * list nat))
    (cart : list nat) (d : tensor) (circ : list nat) (shift : bool)
    (bins : nat) (dflt : default_std_t) (self : t) (i : nat) (r : zrow) :
  __init__ dims z cart (Some d) circ shift bins dflt = Returns self ->
  (forall a, In a cart -> ~ In a (map fst z)) ->
  Forall (fun x => length x = dims) (rows d) ->
  rows d <> [] ->
  sorted_z_indices (ix self) !! i = Some r ->
  nth i (mean_bonds self) 0 = mean (raw_bonds (rows d) r)
  /\ nth i (mean_angles self) 0 = mean (raw_angles (rows d) r)
  /\ nth i (std_bonds self) 0
     = (if decide (1 < length (rows d))%nat then std (raw_bonds (rows d) r)
        else 1 * std_bond dflt)
  /\ nth i (std_angles self) 0
     = (if decide (1 < length (rows d))%nat then std (raw_angles (rows d) r)
        else 1 * std_angle dflt).
Proof.
  intros Hinit Hdisj Hrows _ Hi.
  split; [| split; [| split]].
  - exact (mean_bonds_spec dims z cart d circ shift bins dflt self Hinit
             Hdisj Hrows i r Hi).
  - exact (mean_angles_spec dims z cart d circ shift bins dflt self Hinit
             Hdisj Hrows i r Hi).
  - exact (std_bonds_spec dims z cart d circ shift bins dflt self Hinit
             Hdisj Hrows i r Hi).
  - exact (std_angles_spec dims z cart d circ shift bins dflt self Hinit
             Hdisj Hrows i r Hi).
Qed.

Lemma example_rows_width :
  Forall (fun x => length x = 12%nat) (rows example_data).
Proof. repeat constructor. Qed.

Lemma fitted_bond_angle_statistics_witness :
  exists self,
    __init__ 12 example_z example_cart (Some example_data) [] false 100
      default_std_default = Returns self
    /\ nth 0 (mean_bonds self) 0
       = mean (raw_bonds (rows example_data) (3, 2, 1, 0)%nat)
    /\ nth 0 (mean_angles self) 0
       = mean (raw_angles (rows example_data) (3, 2, 1, 0)%nat)
    /\ nth 0 (std_bonds self) 0
       = (if decide (1 < length (rows example_data))%nat
          then std (raw_bonds (rows example_data) (3, 2, 1, 0)%nat)
          else 1 * std_bond default_std_default)
    /\ nth 0 (std_angles self) 0
       = (if decide (1 < length (rows example_data))%nat
          then std (raw_angles (rows example_data) (3, 2, 1, 0)%nat)
          else 1 * std_angle default_std_default).
Proof.
  destruct example_init as [self [Hinit _]]. exists self.
  split; [exact Hinit |].
  apply (fitted_bond_angle_statistics 12 example_z example_cart example_data
           [] false 100 default_std_default self 0 (3, 2, 1, 0)%nat Hinit
           example_disjoint example_rows_width).
  - discriminate.
  - rewrite (example_sorted_z self _ Hinit). reflexivity.
Defined.

Lemma forward_column (self : t) (X : list (list R)) (c : nat) :
  column (fst (forward self X)) c
  = map (fun x => col (fst (forward_row self x)) c) X.
Proof. unfold forward, column. cbn [fst]. now rewrite map_map. Qed.

(** The two normalised columns of a z-matrix atom over the construction
    dataset. *)
Lemma forward_training_columns (dims : nat) (z : list (nat * list nat))
    (cart : list nat) (d : tensor) (circ : list nat) (shift : bool)
    (bins : nat) (dflt : default_std_t) (self : t) (i : nat) (r : zrow) :
  __init__ dims z cart (Some d) circ shift bins dflt = Returns self ->
  (forall a, In a cart -> ~ In a (map fst z)) ->
  Forall (fun x => length x = dims) (rows d) ->
  (1 < length (rows d))%nat ->
  sorted_z_indices (ix self) !! i = Some r ->
  column (fst (forward self (rows d))) (3 * row_atom r)
  = map (fun v => (v - mean (raw_bonds (rows d) r))
                  / std (raw_bonds (rows d) r)) (raw_bonds (rows d) r)
  /\ column (fst (forward self (rows d))) (3 * row_atom r + 1)
     = map (fun v => (v - mean (raw_angles (rows d) r))
                     / std (raw_angles (rows d) r)) (raw_angles (rows d) r).
Proof.
  intros Hinit Hdisj Hrows Hn Hi.
  pose proof (proj1 (init_inv _ _ _ _ _ _ _ _ _ Hinit)) as Hsetup.
  pose proof (setup_indices_ok _ _ _ _ Hsetup) as Hok.
  pose proof (setup_refs_in_range _ _ _ _ Hdisj Hsetup) as Hrefs.
  pose proof (proj1 (proj2 (proj2 (proj2
                (init_inv _ _ _ _ _ _ _ _ _ Hinit))))) as Hstats.
  pose proof (mean_bonds_spec dims z cart d circ shift bins dflt self Hinit
                Hdisj Hrows i r Hi) as Mb.
  pose proof (mean_angles_spec dims z cart d circ shift bins dflt self Hinit
                Hdisj Hrows i r Hi) as Ma.
  pose proof (std_bonds_spec dims z cart d circ shift bins dflt self Hinit
                Hdisj Hrows i r Hi) as Sb.
  pose proof (std_angles_spec dims z cart d circ shift bins dflt self Hinit
                Hdisj Hrows i r Hi) as Sa.
  destruct (decide (1 < length (rows d))%nat); [| lia].
  rewrite !forward_column. unfold raw_bonds at 3, raw_angles at 3.
  rewrite !map_map.
  split; apply map_ext_in; intros x Hx;
    destruct (forward_row_channels dims cart (ix self) Hok self eq_refl
                x i r Hrefs Hstats
                (rows_width dims d Hrows x Hx) Hi) as [Cb [Ca _]].
  - now rewrite Cb, Mb, Sb.
  - now rewrite Ca, Ma, Sa.
Qed.

(** X18. [forward] whitens the construction dataset: for a transform
    whose anchors are not z-matrix atoms, over a dataset of at least two
    samples of the declared width, and for a z-matrix atom
    whose fitted bond and angle standard deviations are not zero, the
    bond column and the angle column of [forward]'s output have mean 0
    and unbiased standard deviation 1. *)
Theorem forward_whitens_training_data (dims : nat)
    (z : list (nat * list nat)) (cart : list nat) (d : tensor)
    (circ : list nat) (shift : bool) (bins : nat) (dflt : default_std_t)
    (self : t) (i : nat) (r : zrow) :
  __init__ dims z cart (Some d) circ shift bins dflt = Returns self ->
  (forall a, In a cart -> ~ In a (map fst z)) ->
  Forall (fun x => length x = dims) (rows d) ->
  (1 < length (rows d))%nat ->
  sorted_z_indices (ix self) !! i = Some r ->
  nth i (std_bonds self) 0 <> 0 ->
  nth i (std_angles self) 0 <> 0 ->
  mean (column (fst (forward self (rows d))) (3 * row_atom r)) = 0
  /\ std (column (fst (forward self (rows d))) (3 * row_atom r)) = 1
  /\ mean (column (fst (forward self (rows d))) (3 * row_atom r + 1)) = 0
  /\ std (column (fst (forward self (rows d))) (3 * row_atom r + 1)) = 1.
Proof.
  intros Hinit Hdisj Hrows Hn Hi Nb Na.
  destruct (forward_training_columns dims z cart d circ shift bins dflt self
              i r Hinit Hdisj Hrows Hn Hi) as [Eb Ea].
  pose proof (std_bonds_spec dims z cart d circ shift bins dflt self Hinit
                Hdisj Hrows i r Hi) as Sb.
  pose proof (std_angles_spec dims z cart d circ shift bins dflt self Hinit
                Hdisj Hrows i r Hi) as Sa.
  destruct (decide (1 < length (rows d))%nat); [| lia].
  rewrite Sb in Nb. rewrite Sa in Na. rewrite Eb, Ea.
  assert (Hlb : (1 < length (raw_bonds (rows d) r))%nat)
    by (unfold raw_bonds; now rewrite length_map).
  assert (Hla : (1 < length (raw_angles (rows d) r))%nat)
    by (unfold raw_angles; now rewrite length_map).
  assert (Hnb : raw_bonds (rows d) r <> [])
    by (destruct (raw_bonds (rows d) r); [simpl in Hlb; lia | discriminate]).
  assert (Hna : raw_angles (rows d) r <> [])
    by (destruct (raw_angles (rows d) r); [simpl in Hla; lia | discriminate]).
  split; [now apply mean_normalised |].
  split; [now apply std_normalised |].
  split; [now apply mean_normalised | now apply std_normalised].
Qed.

End FittedStatistics.

Section WhiteningExample.
Local Open Scope R_scope.
Import InternalCoordinateTransform.

Lemma std_pair_ne0 (a b : R) : a <> b -> std [a; b] <> 0.
Proof.
  intros Hab. unfold std, mean. cbn [map Rsum fold_right length INR].
  match goal with |- sqrt ?X <> 0 =>
    assert (HX : 0 < X); [| pose proof (sqrt_lt_R0 X HX); lra] end.
  assert (E : forall m,
            ((a - m) ^ 2 + ((b - m) ^ 2 + 0)) / (1 + 1 - 1)
            = (a - m) * (a - m) + (b - m) * (b - m)) by (intros; field).
  rewrite E.
  destruct (Rtotal_order a b) as [H | [H | H]]; [| contradiction |]; nra.
Qed.

Lemma example_data3_valid : ~ data_invalid 12 (Some example_data3).
Proof. unfold data_invalid. simpl. lia. Qed.

Lemma example_init3 :
  exists self,
    __init__ 12 example_z example_cart (Some example_data3) [] false 100
      default_std_default = Returns self.
Proof.
  apply (proj2 (init_wf_spec 12 example_z example_cart (Some example_data3)
                  [] false 100 default_std_default example_wf
                  ltac:(discriminate)
                  (fun i (H : In i []) => match H with end)
                  ltac:(discriminate))).
  exact example_data3_valid.
Qed.

Lemma example_diag_bond : raw_bond example_row_diag (3, 2, 1, 0)%nat = sqrt 2.
Proof.
  unfold raw_bond, pos, gather3, col, example_row_diag, bond_of, norm, vsub.
  cbn [row_atom row_ref1 nth Nat.mul Nat.add vx vy vz]. f_equal. lra.
Qed.

Lemma example_diag_angle :
  raw_angle example_row_diag (3, 2, 1, 0)%nat = PI / 4.
Proof.
  unfold raw_angle, pos, gather3, col, example_row_diag, angle_of.
  cbn [row_atom row_ref1 row_ref2 nth Nat.mul Nat.add].
  unfold norm, vsub, vdiv, dot. cbn [vx vy vz].
  rewrite (sqrt_one_expr ((1 - 0) * (1 - 0) + (0 - 0) * (0 - 0)
                          + (0 - 0) * (0 - 0))) by lra.
  replace ((1 - 0) * (1 - 0) + (1 - 0) * (1 - 0) + (0 - 0) * (0 - 0))
    with 2 by lra.
  match goal with |- acos ?c = _ => replace c with (/ sqrt 2) end.
  - apply acos_inv_sqrt2.
  - pose proof sqrt2_neq_0. field. assumption.
Qed.

Lemma example_row_bond : raw_bond example_row (3, 2, 1, 0)%nat = 1.
Proof. exact kernel_example_bond. Qed.

Lemma example_row_angle : raw_angle example_row (3, 2, 1, 0)%nat = PI / 2.
Proof. exact kernel_example_angle. Qed.

Lemma sqrt2_ne_1 : 1 <> sqrt 2.
Proof.
  intros H. pose proof (sqrt_sqrt 2 ltac:(lra)) as E. rewrite <- H in E. lra.
Qed.

Lemma forward_whitens_training_data_witness :
  exists self,
    __init__ 12 example_z example_cart (Some example_data3) [] false 100
      default_std_default = Returns self
    /\ mean (column (fst (forward self (rows example_data3)))
               (3 * row_atom (3, 2, 1, 0)%nat)) = 0
    /\ std (column (fst (forward self (rows example_data3)))
              (3 * row_atom (3, 2, 1, 0)%nat)) = 1
    /\ mean (column (fst (forward self (rows example_data3)))
               (3 * row_atom (3, 2, 1, 0)%nat + 1)) = 0
    /\ std (column (fst (forward self (rows example_data3)))
              (3 * row_atom (3, 2, 1, 0)%nat + 1)) = 1.
Proof.
  destruct example_init3 as [self Hinit]. exists self.
  split; [exact Hinit |].
  assert (Hrows : Forall (fun x => length x = 12%nat) (rows example_data3))
    by (repeat constructor).
  assert (Hi : sorted_z_indices (ix self) !! 0%nat = Some (3, 2, 1, 0)%nat)
    by (rewrite (example_sorted_z self _ Hinit); reflexivity).
  apply (forward_whitens_training_data 12 example_z example_cart
           example_data3 [] false 100 default_std_default self 0
           (3, 2, 1, 0)%nat Hinit example_disjoint Hrows);
    [simpl; lia | exact Hi | |].
  - rewrite (std_bonds_spec 12 example_z example_cart example_data3 [] false
               100 default_std_default self Hinit example_disjoint Hrows
               0 _ Hi).
    destruct (decide (1 < length (rows example_data3))%nat) as [_ | Hc];
      [| simpl in Hc; lia].
    unfold raw_bonds. cbn [rows example_data3 map].
    rewrite example_row_bond, example_diag_bond.
    apply std_pair_ne0, sqrt2_ne_1.
  - rewrite (std_angles_spec 12 example_z example_cart example_data3 [] false
               100 default_std_default self Hinit example_disjoint Hrows
               0 _ Hi).
    destruct (decide (1 < length (rows example_data3))%nat) as [_ | Hc];
      [| simpl in Hc; lia].
    unfold raw_angles. cbn [rows example_data3 map].
    rewrite example_row_angle, example_diag_angle.
    apply std_pair_ne0. pose proof PI_RGT_0. lra.
Defined.

End WhiteningExample.

(* ===================================================================== *)
(** * [CompleteInternalCoordinateTransform]: the column permutation and
      the anchor frame *)
(* ===================================================================== *)

Section PermuteSpec.
Import CompleteInternalCoordinateTransform.

Lemma insert3_lookup_same (p : list nat) (a v0 v1 v2 e : nat) :
  3 * a + 2 < length p -> e < 3 ->
  <[3 * a + 2 := v2]> (<[3 * a + 1 := v1]> (<[3 * a + 0 := v0]> p))
    !! (3 * a + e)
  = Some (match e with 0 => v0 | 1 => v1 | _ => v2 end).
Proof.
  intros Hp He.
  destruct e as [| [| [| e]]]; [| | | lia].
  - rewrite list_lookup_insert_ne by lia.
    rewrite list_lookup_insert_ne by lia.
    apply list_lookup_insert_eq. lia.
  - rewrite list_lookup_insert_ne by lia.
    apply list_lookup_insert_eq. rewrite length_insert. lia.
  - apply list_lookup_insert_eq. rewrite !length_insert. lia.
Qed.

Lemma insert3_lookup_other (p : list nat) (a v0 v1 v2 c : nat) :
  c / 3 <> a ->
  <[3 * a + 2 := v2]> (<[3 * a + 1 := v1]> (<[3 * a + 0 := v0]> p)) !! c
  = p !! c.
Proof.
  intros Hc.
  assert (forall e, e < 3 -> 3 * a + e <> c).
  { intros e He E. apply Hc. subst c.
    rewrite Nat.mul_comm, Nat.div_add_l by lia.
    rewrite (Nat.div_small e 3) by lia. lia. }
  rewrite !list_lookup_insert_ne by (apply H; lia). reflexivity.
Qed.

(** The loop [for i, j in enumerate(all_ind)] over distinct atoms. *)
Lemma permute_loop_spec (l : list nat) :
  forall (k : nat) (p q p' q' : list nat),
    ofoldl permute_step (combine (seq k (length l)) l) (p, q)
      = Returns (p', q') ->
    List.NoDup l ->
    length p' = length p /\ length q' = length q
    /\ (forall i j e, l !! i = Some j -> e < 3 ->
          p' !! (3 * (k + i) + e) = Some (3 * j + e)
          /\ q' !! (3 * j + e) = Some (3 * (k + i) + e))
    /\ (forall c, c / 3 < k -> p' !! c = p !! c)
    /\ (forall c, ~ In (c / 3) l -> q' !! c = q !! c).
Proof.
  induction l as [| j l IH]; intros k p q p' q' Hrun Hnd.
  - simpl in Hrun. inversion Hrun; subst.
    split; [reflexivity |]. split; [reflexivity |].
    split; [intros i j e Hi; discriminate |]. split; reflexivity.
  - cbn [length seq combine ofoldl] in Hrun.
    obind_inv_as Hrun pq E. destruct pq as [p1 q1].
    apply permute_step_Returns in E. destruct E as (Lp & Lq & -> & ->).
    inversion Hnd as [| ? ? Hni Hnd']; subst.
    apply IH in Hrun; [| assumption].
    destruct Hrun as (Hlp & Hlq & Hset & Hp & Hq).
    rewrite !length_insert in Hlp, Hlq.
    split; [assumption |]. split; [assumption |]. split; [| split].
    + intros i j' e Hi He. destruct i as [| i].
      * cbn in Hi. inversion Hi; subst j'.
        replace (k + 0) with k by lia. split.
        -- rewrite Hp.
           ++ rewrite (insert3_lookup_same p k _ _ _ e Lp He).
              destruct e as [| [| [| e]]]; [| | | lia]; reflexivity.
           ++ rewrite Nat.mul_comm, Nat.div_add_l by lia.
              rewrite (Nat.div_small e 3) by lia. lia.
        -- rewrite Hq.
           ++ rewrite (insert3_lookup_same q j _ _ _ e Lq He).
              destruct e as [| [| [| e]]]; [| | | lia]; reflexivity.
           ++ rewrite Nat.mul_comm, Nat.div_add_l by lia.
              rewrite (Nat.div_small e 3) by lia.
              now rewrite Nat.add_0_r.
      * cbn in Hi. destruct (Hset i j' e Hi He) as [H1 H2].
        replace (k + S i) with (S k + i) by lia. now split.
    + intros c Hc. rewrite Hp by lia.
      apply insert3_lookup_other. lia.
    + intros c Hc. rewrite Hq by (intros H; apply Hc; now right).
      apply insert3_lookup_other. intros E. apply Hc. now left.
Qed.

End PermuteSpec.

Section CompleteFacts.
Local Open Scope R_scope.
Import InternalCoordinateTransform.

Lemma cict_init_inv n_dim z cart data circ shift bins dflt (self : CICT.t) :
  CICT.__init__ n_dim z cart data circ shift bins dflt = Returns self ->
  length cart = 3%nat
  /\ CICT.len_cart_inds self = 3%nat
  /\ CICT.n_dim self = n_dim
  /\ __init__ n_dim z cart data circ shift bins dflt
     = Returns (CICT.ic_transform self)
  /\ ofoldl CICT.permute_step (enumerate (cart ++ map fst z))
       (replicate n_dim 0%nat, replicate n_dim 0%nat)
     = Returns (CICT.permute self, CICT.permute_inv self).
Proof.
  unfold CICT.__init__. intros H.
  destruct (decide (length cart <> 3%nat)) as [| Hl]; [discriminate |].
  assert (Hl3 : length cart = 3%nat) by lia.
  obind_inv_as H ic E1. obind_inv_as H pq E2. destruct pq as [p q].
  cbv zeta in H.
  destruct (decide _) in H; inversion H; subst self; clear H;
    cbn [CICT.len_cart_inds CICT.n_dim CICT.ic_transform CICT.permute
         CICT.permute_inv]; auto.
Qed.

(** The two permutation vectors of a transform built over a well-formed
    topology. *)
Lemma cict_permute_spec n_dim z cart data circ shift bins dflt
    (self : CICT.t) :
  CICT.__init__ n_dim z cart data circ shift bins dflt = Returns self ->
  wf_topology n_dim z cart ->
  length (CICT.permute self) = n_dim
  /\ length (CICT.permute_inv self) = n_dim
  /\ (forall i j e, (cart ++ map fst z) !! i = Some j -> (e < 3)%nat ->
        CICT.permute self !! (3 * i + e)%nat = Some (3 * j + e)%nat
        /\ CICT.permute_inv self !! (3 * j + e)%nat = Some (3 * i + e)%nat).
Proof.
  intros Hinit Hwf.
  destruct (cict_init_inv _ _ _ _ _ _ _ _ _ Hinit) as (_ & _ & _ & _ & Hloop).
  unfold enumerate in Hloop.
  apply permute_loop_spec in Hloop.
  - destruct Hloop as (Hlp & Hlq & Hset & _).
    rewrite length_replicate in Hlp, Hlq.
    split; [assumption |]. split; [assumption |].
    intros i j e Hi He. exact (Hset i j e Hi He).
  - apply NoDup_ListNoDup, NoDup_app. split; [| split].
    + apply NoDup_ListNoDup, (wf_cart_nodup _ _ _ Hwf).
    + intros a Ha Hk. apply list_elem_of_In in Ha, Hk.
      exact (wf_disjoint _ _ _ Hwf a Ha Hk).
    + apply NoDup_ListNoDup, (wf_keys_nodup _ _ _ Hwf).
Qed.

Lemma col_gather (y : list R) (q : list nat) (c c' : nat) :
  q !! c = Some c' -> col (gather y q) c = col y c'.
Proof.
  intros H. apply col_lookup. unfold gather.
  rewrite list_lookup_fmap, H. reflexivity.
Qed.

Lemma column_decompose (c : nat) :
  exists a e, (c = 3 * a + e /\ e < 3 /\ a = c / 3)%nat.
Proof.
  exists (c / 3)%nat, (c mod 3)%nat.
  pose proof (Nat.div_mod_eq c 3). pose proof (Nat.mod_upper_bound c 3).
  lia.
Qed.

Lemma all_atoms_lookup n_dim z cart (a : nat) :
  wf_topology n_dim z cart -> (a < n_dim / 3)%nat ->
  exists i, (cart ++ map fst z) !! i = Some a.
Proof.
  intros Hwf Ha. apply list_elem_of_lookup, list_elem_of_In, in_or_app.
  now apply (wf_cover _ _ _ Hwf).
Qed.

Lemma permute_gather (n_dim : nat) (z : list (nat * list nat))
    (cart : list nat) (data : option tensor) (circ : list nat) (shift : bool)
    (bins : nat) (dflt : default_std_t) (self : CICT.t) (x : list R) :
  CICT.__init__ n_dim z cart data circ shift bins dflt = Returns self ->
  wf_topology n_dim z cart ->
  length x = n_dim ->
  gather (gather x (CICT.permute self)) (CICT.permute_inv self) = x
  /\ gather (gather x (CICT.permute_inv self)) (CICT.permute self) = x.
Proof.
  intros Hinit Hwf Hx.
  destruct (cict_permute_spec _ _ _ _ _ _ _ _ _ Hinit Hwf)
    as (Hlp & Hlq & Hset).
  pose proof (wf_dims _ _ _ Hwf) as Hd.
  pose proof (wf_all_atoms_length _ _ _ Hwf) as Hall.
  split; apply row_ext.
  - unfold gather. rewrite length_map. congruence.
  - intros c Hc. unfold gather in Hc. rewrite length_map, Hlq in Hc.
    destruct (column_decompose c) as (a & e & -> & He & _).
    assert (Ha : (a < n_dim / 3)%nat) by lia.
    destruct (all_atoms_lookup _ _ _ a Hwf Ha) as [i Hi].
    destruct (Hset i a e Hi He) as [Hp Hq].
    rewrite (col_gather _ _ _ _ Hq). now rewrite (col_gather _ _ _ _ Hp).
  - unfold gather. rewrite length_map. congruence.
  - intros c Hc. unfold gather in Hc. rewrite length_map, Hlp in Hc.
    destruct (column_decompose c) as (i & e & -> & He & _).
    assert (Hi : (i < length (cart ++ map fst z))%nat) by (rewrite Hall; lia).
    destruct (lookup_lt_is_Some_2 _ _ Hi) as [a Ha].
    destruct (Hset i a e Ha He) as [Hp Hq].
    rewrite (col_gather _ _ _ _ Hp). now rewrite (col_gather _ _ _ _ Hq).
Qed.

(** X19. In a transform built over a well-formed topology the column
    permutations [permute] and [permute_inv] undo each other: gathering a
    row of [n_dim] columns by one and then by the other gives back the
    row. *)
Theorem permute_round_trip (n_dim : nat) (z : list (nat * list nat))
    (cart : list nat) (data : option tensor) (circ : list nat) (shift : bool)
    (bins : nat) (dflt : default_std_t) (self : CICT.t) (x : list R) :
  CICT.__init__ n_dim z cart data circ shift bins dflt = Returns self ->
  wf_topology n_dim z cart ->
  length x = n_dim ->
  gather (gather x (CICT.permute self)) (CICT.permute_inv self) = x
  /\ gather (gather x (CICT.permute_inv self)) (CICT.permute self) = x.
Proof.
  intros Hinit Hwf Hx.
  exact (permute_gather n_dim z cart data circ shift bins dflt self x Hinit
           Hwf Hx).
Qed.

Lemma example_complete_init :
  exists self,
    CICT.__init__ 12 example_z example_cart (Some example_data) [] false 100
      default_std_default = Returns self.
Proof.
  destruct example_init as [ic [Hic _]].
  unfold CICT.__init__.
  destruct (decide (length example_cart <> 3%nat)) as [Hc | _];
    [exfalso; apply Hc; reflexivity |].
  rewrite Hic. cbn [mbind outcome_bind obind].
  destruct (permute_loop_succeeds (example_cart ++ map fst example_z) 0
              (replicate 12 0%nat) (replicate 12 0%nat)) as [p [q Hpq]].
  - rewrite length_replicate. simpl. lia.
  - intros j Hj. rewrite length_replicate. simpl in Hj. lia.
  - unfold enumerate. rewrite Hpq. cbn [mbind outcome_bind obind].
    cbv zeta. destruct (decide _); eauto.
Qed.

Lemma permute_round_trip_witness :
  exists self,
    CICT.__init__ 12 example_z example_cart (Some example_data) [] false 100
      default_std_default = Returns self
    /\ gather (gather example_row (CICT.permute self)) (CICT.permute_inv self)
       = example_row
    /\ gather (gather example_row (CICT.permute_inv self)) (CICT.permute self)
       = example_row.
Proof.
  destruct example_complete_init as [self Hinit]. exists self.
  split; [exact Hinit |].
  exact (permute_round_trip 12 example_z example_cart (Some example_data) []
           false 100 default_std_default self example_row Hinit example_wf
           eq_refl).
Defined.

Lemma convert_cart_coords (self : CICT.t) (b1 b2 angle : R) :
  CICT.len_cart_inds self = 3%nat ->
  0 < b1 -> 0 < b2 -> 0 <= angle <= PI ->
  CICT._convert_last_internal (CICT.cart_coords self b1 b2 angle)
  = (b1, b2, angle).
Proof.
  intros H3 Hb1 Hb2 Ha.
  unfold CICT.cart_coords. rewrite H3.
  cbn [Nat.mul Nat.add replicate]. unfold CICT._convert_last_internal.
  cbv zeta. unfold gather3, col.
  change (<[7%nat := b2 * sin angle]>
            (<[6%nat := b2 * cos angle]>
               (<[3%nat := b1]> [0; 0; 0; 0; 0; 0; 0; 0; 0])))
    with [0; 0; 0; b1; 0; 0; b2 * cos angle; b2 * sin angle; 0].
  cbn [nth].
  assert (N1 : norm (vsub (V3 b1 0 0) (V3 0 0 0)) = b1).
  { apply norm_of_sq; [lra |]. unfold dot, vsub. cbn [vx vy vz]. ring. }
  assert (N2 : norm (vsub (V3 (b2 * cos angle) (b2 * sin angle) 0) (V3 0 0 0))
               = b2).
  { apply norm_of_sq; [lra |]. unfold dot, vsub. cbn [vx vy vz].
    pose proof (sin2_cos2 angle) as S. unfold Rsqr in S.
    replace ((b2 * cos angle - 0) * (b2 * cos angle - 0)
             + (b2 * sin angle - 0) * (b2 * sin angle - 0)
             + (0 - 0) * (0 - 0))
      with (b2 * b2 * (sin angle * sin angle + cos angle * cos angle))
      by ring.
    rewrite S. ring. }
  rewrite N1, N2. f_equal.
  replace (dot (vsub (V3 b1 0 0) (V3 0 0 0))
             (vsub (V3 (b2 * cos angle) (b2 * sin angle) 0) (V3 0 0 0))
           / b1 / b2)
    with (cos angle)
    by (unfold dot, vsub; cbn [vx vy vz]; field; lra).
  now apply acos_cos.
Qed.

(** X20. [_convert_last_internal] reads back the anchor frame that
    [inverse] writes: on the nine anchor coordinates built from a
    positive [b1], a positive [b2] and an angle in [0, PI] (first anchor
    at the origin, second at [(b1, 0, 0)], third at
    [(b2 cos(angle), b2 sin(angle), 0)]) it returns exactly [b1], [b2]
    and the angle. *)
Theorem convert_last_internal_frame (self : CICT.t) (b1 b2 angle : R) :
  CICT.len_cart_inds self = 3%nat ->
  0 < b1 -> 0 < b2 -> 0 <= angle <= PI ->
  CICT._convert_last_internal (CICT.cart_coords self b1 b2 angle)
  = (b1, b2, angle).
Proof.
  intros H3 Hb1 Hb2 Ha.
  exact (convert_cart_coords self b1 b2 angle H3 Hb1 Hb2 Ha).
Qed.

Lemma convert_last_internal_frame_witness :
  exists self,
    CICT.__init__ 12 example_z example_cart (Some example_data) [] false 100
      default_std_default = Returns self
    /\ CICT._convert_last_internal (CICT.cart_coords self 1 2 (PI / 2))
       = (1, 2, PI / 2).
Proof.
  destruct example_complete_init as [self Hinit]. exists self.
  split; [exact Hinit |].
  pose proof PI_RGT_0.
  apply (convert_last_internal_frame self 1 2 (PI / 2)); [| lra | lra | lra].
  exact (proj1 (proj2 (cict_init_inv _ _ _ _ _ _ _ _ _ Hinit))).
Defined.

Lemma complete_inverse_row_out (self : CICT.t) (x : list R) :
  fst (fst (CICT.inverse_row self x))
  = fst (fst (inverse_row (CICT.ic_transform self)
                (gather
                   (CICT.cart_coords self
                      (col x 0 * CICT.std_b1 self + CICT.mean_b1 self)
                      (col x 1 * CICT.std_b2 self + CICT.mean_b2 self)
                      (col x 2 * CICT.std_angle self + CICT.mean_angle self)
                    ++ skipn (3 * CICT.len_cart_inds self - 6) x)
                   (CICT.permute_inv self)))).
Proof.
  unfold CICT.inverse_row. cbv zeta.
  destruct (inverse_row _ _) as [[y j] l]. reflexivity.
Qed.

Lemma complete_inverse_row_anchors (n_dim : nat)
    (z : list (nat * list nat)) (c0 c1 c2 : nat) (data : option tensor)
    (circ : list nat) (shift : bool) (bins : nat) (dflt : default_std_t)
    (self : CICT.t) (x : list R) :
  CICT.__init__ n_dim z [c0; c1; c2] data circ shift bins dflt
    = Returns self ->
  wf_topology n_dim z [c0; c1; c2] ->
  pos (fst (fst (CICT.inverse_row self x))) c0 = V3 0 0 0
  /\ pos (fst (fst (CICT.inverse_row self x))) c1
     = V3 (col x 0 * CICT.std_b1 self + CICT.mean_b1 self) 0 0
  /\ pos (fst (fst (CICT.inverse_row self x))) c2
     = V3 ((col x 1 * CICT.std_b2 self + CICT.mean_b2 self)
           * cos (col x 2 * CICT.std_angle self + CICT.mean_angle self))
          ((col x 1 * CICT.std_b2 self + CICT.mean_b2 self)
           * sin (col x 2 * CICT.std_angle self + CICT.mean_angle self))
          0.
Proof.
  intros Hinit Hwf.
  destruct (cict_init_inv _ _ _ _ _ _ _ _ _ Hinit)
    as (_ & H3 & _ & Hic & _).
  destruct (cict_permute_spec _ _ _ _ _ _ _ _ _ Hinit Hwf)
    as (_ & _ & Hset).
  pose proof (proj1 (init_inv _ _ _ _ _ _ _ _ _ Hic)) as Hsetup.
  rewrite complete_inverse_row_out.
  set (B1 := col x 0 * CICT.std_b1 self + CICT.mean_b1 self).
  set (B2 := col x 1 * CICT.std_b2 self + CICT.mean_b2 self).
  set (A := col x 2 * CICT.std_angle self + CICT.mean_angle self).
  set (y := CICT.cart_coords self B1 B2 A
            ++ skipn (3 * CICT.len_cart_inds self - 6) x).
  destruct (inverse_row_spec n_dim z [c0; c1; c2] (CICT.ic_transform self)
              Hsetup (wf_disjoint _ _ _ Hwf) (wf_cart_nodup _ _ _ Hwf)
              (gather y (CICT.permute_inv self))) as [Hanchor _].
  assert (Hcc : CICT.cart_coords self B1 B2 A
                = [0; 0; 0; B1; 0; 0; B2 * cos A; B2 * sin A; 0]).
  { unfold CICT.cart_coords. rewrite H3. reflexivity. }
  assert (Hcol : forall i c e, [c0; c1; c2] !! i = Some c -> (e < 3)%nat ->
            col (gather y (CICT.permute_inv self)) (3 * c + e)
            = nth (3 * i + e) [0; 0; 0; B1; 0; 0; B2 * cos A; B2 * sin A; 0] 0).
  { intros i c e Hi He.
    assert (Hi' : ([c0; c1; c2] ++ map fst z) !! i = Some c).
    { rewrite lookup_app_l; [exact Hi |]. eapply lookup_lt_Some; eauto. }
    destruct (Hset i c e Hi' He) as [_ Hq].
    rewrite (col_gather _ _ _ _ Hq). unfold y, col. rewrite Hcc.
    apply app_nth1. apply lookup_lt_Some in Hi. simpl in *. lia. }
  assert (Hpos : forall i c, [c0; c1; c2] !! i = Some c ->
            pos (gather y (CICT.permute_inv self)) c
            = V3 (nth (3 * i) [0; 0; 0; B1; 0; 0; B2 * cos A; B2 * sin A; 0] 0)
                 (nth (3 * i + 1)
                    [0; 0; 0; B1; 0; 0; B2 * cos A; B2 * sin A; 0] 0)
                 (nth (3 * i + 2)
                    [0; 0; 0; B1; 0; 0; B2 * cos A; B2 * sin A; 0] 0)).
  { intros i c Hi. unfold pos, gather3.
    rewrite <- (Hcol i c 1%nat Hi ltac:(lia)),
      <- (Hcol i c 2%nat Hi ltac:(lia)).
    pose proof (Hcol i c 0%nat Hi ltac:(lia)) as E0.
    rewrite !Nat.add_0_r in E0. now rewrite <- E0. }
  split; [| split].
  - rewrite Hanchor by (simpl; auto). exact (Hpos 0%nat c0 eq_refl).
  - rewrite Hanchor by (simpl; auto). exact (Hpos 1%nat c1 eq_refl).
  - rewrite Hanchor by (simpl; auto). exact (Hpos 2%nat c2 eq_refl).
Qed.

(** X21. The anchor frame of [inverse]: for a transform built over a
    well-formed topology with anchors [c0], [c1], [c2] and a row of
    [n_dim - 6] columns, the returned row has atom [c0] at the origin,
    atom [c1] at [(b1, 0, 0)] and atom [c2] at
    [(b2 cos(angle), b2 sin(angle), 0)], where [b1], [b2] and [angle] are
    the first three columns un-normalised. *)
Theorem complete_inverse_anchor_frame (n_dim : nat)
    (z : list (nat * list nat)) (c0 c1 c2 : nat) (data : option tensor)
    (circ : list nat) (shift : bool) (bins : nat) (dflt : default_std_t)
    (self : CICT.t) (X : list (list R)) (k : nat) (x : list R) :
  CICT.__init__ n_dim z [c0; c1; c2] data circ shift bins dflt
    = Returns self ->
  wf_topology n_dim z [c0; c1; c2] ->
  X !! k = Some x -> length x = (n_dim - 6)%nat ->
  exists y,
    fst (fst (CICT.inverse self X)) !! k = Some y
    /\ pos y c0 = V3 0 0 0
    /\ pos y c1 = V3 (col x 0 * CICT.std_b1 self + CICT.mean_b1 self) 0 0
    /\ pos y c2
       = V3 ((col x 1 * CICT.std_b2 self + CICT.mean_b2 self)
             * cos (col x 2 * CICT.std_angle self + CICT.mean_angle self))
            ((col x 1 * CICT.std_b2 self + CICT.mean_b2 self)
             * sin (col x 2 * CICT.std_angle self + CICT.mean_angle self))
            0.
Proof.
  intros Hinit Hwf Hk _.
  exists (fst (fst (CICT.inverse_row self x))). split.
  { unfold CICT.inverse. cbn [fst]. now rewrite list_lookup_fmap, Hk. }
  exact (complete_inverse_row_anchors n_dim z c0 c1 c2 data circ shift bins
           dflt self x Hinit Hwf).
Qed.

Lemma complete_inverse_anchor_frame_witness :
  exists self,
    CICT.__init__ 12 example_z [0; 1; 2]%nat (Some example_data) [] false 100
      default_std_default = Returns self
    /\ exists y,
         fst (fst (CICT.inverse self [[0; 0; 0; 0; 0; 0]])) !! 0%nat = Some y
         /\ pos y 0 = V3 0 0 0
         /\ pos y 1
            = V3 (col [0; 0; 0; 0; 0; 0] 0 * CICT.std_b1 self
                  + CICT.mean_b1 self) 0 0
         /\ pos y 2
            = V3 ((col [0; 0; 0; 0; 0; 0] 1 * CICT.std_b2 self
                   + CICT.mean_b2 self)
                  * cos (col [0; 0; 0; 0; 0; 0] 2 * CICT.std_angle self
                         + CICT.mean_angle self))
                 ((col [0; 0; 0; 0; 0; 0] 1 * CICT.std_b2 self
                   + CICT.mean_b2 self)
                  * sin (col [0; 0; 0; 0; 0; 0] 2 * CICT.std_angle self
                         + CICT.mean_angle self))
                 0.
Proof.
  destruct example_complete_init as [self Hinit]. exists self.
  split; [exact Hinit |].
  exact (complete_inverse_anchor_frame 12 example_z 0 1 2 (Some example_data)
           [] false 100 default_std_default self [[0; 0; 0; 0; 0; 0]] 0
           [0; 0; 0; 0; 0; 0] Hinit example_wf eq_refl eq_refl).
Defined.

End CompleteFacts.

(* ===================================================================== *)
(** * The penalty and the two wraps, composed *)
(* ===================================================================== *)

Section LossFacts.
Local Open Scope R_scope.

Lemma penalty_spec_nonneg (a : R) : 0 <= penalty_spec a.
Proof.
  unfold penalty_spec.
  destruct (Rlt_dec PI a); [apply pow2_ge_0 |].
  destruct (Rlt_dec a (- PI)); [apply pow2_ge_0 | lra].
Qed.

Lemma penalty_spec_zero (a : R) : penalty_spec a = 0 <-> - PI <= a <= PI.
Proof.
  unfold penalty_spec. pose proof PI_RGT_0.
  destruct (Rlt_dec PI a) as [H1 | H1].
  - split; [| lra]. intros E. exfalso.
    assert (0 < (a - PI) ^ 2) by (simpl; nra). lra.
  - destruct (Rlt_dec a (- PI)) as [H2 | H2].
    + split; [| lra]. intros E. exfalso.
      assert (0 < (a + PI) ^ 2) by (simpl; nra). lra.
    + split; [lra | reflexivity].
Qed.

Lemma Rsum_nonneg_zero (l : list R) :
  Forall (fun v => 0 <= v) l ->
  0 <= Rsum l /\ (Rsum l = 0 <-> Forall (fun v => v = 0) l).
Proof.
  induction 1 as [| v l Hv _ [IH0 IH]]; [simpl; split; [lra |] |].
  - split; [constructor | reflexivity].
  - cbn [Rsum fold_right]. fold (Rsum l). split; [lra |]. split.
    + intros E. constructor; [lra |]. apply IH. lra.
    + intros E. inversion E as [| ? ? E1 E2]; subst.
      apply IH in E2. lra.
Qed.

(** X22. [_periodic_angle_loss] is never negative, and it vanishes
    exactly when every angle of the batch element lies in [-PI, PI]. *)
Theorem periodic_angle_loss_zero (angles : list R) :
  0 <= _periodic_angle_loss angles
  /\ (_periodic_angle_loss angles = 0
      <-> Forall (fun a => - PI <= a <= PI) angles).
Proof.
  rewrite periodic_angle_loss_spec.
  destruct (Rsum_nonneg_zero (map penalty_spec angles)) as [H0 Hz].
  { apply Forall_fmap. apply Forall_true. intros a. apply penalty_spec_nonneg. }
  split; [exact H0 |]. rewrite Hz, Forall_fmap.
  apply Forall_iff. intros a. apply penalty_spec_zero.
Qed.

End LossFacts.

Section WrapFacts.
Local Open Scope R_scope.

Lemma wrap_fix_dih_class (d d' : R) :
  congruent_2pi d d' -> wrap_fix_dih d = wrap_fix_dih d'.
Proof.
  intros H.
  destruct (congruent_sin_cos _ _ H) as [S C].
  destruct (congruent_sin_cos _ _ (wrap_fix_dih_congruent d)) as [S1 C1].
  destruct (congruent_sin_cos _ _ (wrap_fix_dih_congruent d')) as [S2 C2].
  apply angle_unique; try apply wrap_fix_dih_range; congruence.
Qed.

(** X23. How the two wraps compose: [_fix_dih] is idempotent and depends
    only on the dihedral modulo a full turn, so it gives the same value
    after the wrap of [inverse] as before it; the wrap of [inverse]
    leaves a value produced by [_fix_dih] as it is, except [- PI], which
    it turns into [PI]. *)
Theorem wrap_composition (d : R) :
  wrap_fix_dih (wrap_fix_dih d) = wrap_fix_dih d
  /\ (forall k : Z, wrap_fix_dih (d + IZR k * (2 * PI)) = wrap_fix_dih d)
  /\ wrap_fix_dih (wrap_inverse d) = wrap_fix_dih d
  /\ wrap_inverse (wrap_fix_dih d)
     = (if Req_dec_T (wrap_fix_dih d) (- PI) then PI else wrap_fix_dih d).
Proof.
  pose proof (wrap_fix_dih_range d) as Hr.
  split; [apply wrap_fix_dih_id, Hr |].
  split; [intros k; apply wrap_fix_dih_class; now exists k |].
  split; [apply wrap_fix_dih_class, wrap_inverse_congruent |].
  rewrite wrap_inverse_cases.
  destruct (Rlt_dec (wrap_fix_dih d) (- PI)); [lra |].
  destruct (Rlt_dec PI (wrap_fix_dih d)); [lra |]. reflexivity.
Qed.

End WrapFacts.

(* ===================================================================== *)
(** * [CompleteInternalCoordinateTransform.forward], column by column *)
(* ===================================================================== *)

Section CompleteForward.
Local Open Scope R_scope.
Import InternalCoordinateTransform.

Lemma complete_forward_row_out (self : CICT.t) (x : list R) :
  fst (CICT.forward_row self x)
  = [(fst (fst (CICT._convert_last_internal
                  (firstn (3 * CICT.len_cart_inds self)
                     (gather (fst (forward_row (CICT.ic_transform self) x))
                        (CICT.permute self)))))
      - CICT.mean_b1 self) / CICT.std_b1 self;
     (snd (fst (CICT._convert_last_internal
                  (firstn (3 * CICT.len_cart_inds self)
                     (gather (fst (forward_row (CICT.ic_transform self) x))
                        (CICT.permute self)))))
      - CICT.mean_b2 self) / CICT.std_b2 self;
     (snd (CICT._convert_last_internal
             (firstn (3 * CICT.len_cart_inds self)
                (gather (fst (forward_row (CICT.ic_transform self) x))
                   (CICT.permute self))))
      - CICT.mean_angle self) / CICT.std_angle self]
    ++ skipn (3 * CICT.len_cart_inds self)
         (gather (fst (forward_row (CICT.ic_transform self) x))
            (CICT.permute self)).
Proof.
  unfold CICT.forward_row. cbv zeta.
  destruct (forward_row (CICT.ic_transform self) x) as [y j]. cbn [fst].
  destruct (CICT._convert_last_internal _) as [[b1 b2] a]. reflexivity.
Qed.

Lemma col_firstn (l : list R) (n c : nat) :
  (c < n)%nat -> col (firstn n l) c = col l c.
Proof.
  intros H. unfold col. rewrite nth_firstn.
  destruct (c <? n)%nat eqn:E; [reflexivity |].
  apply Nat.ltb_ge in E. lia.
Qed.

Lemma col_skipn (l : list R) (n c : nat) :
  col (skipn n l) c = col l (n + c).
Proof. unfold col. apply nth_skipn. Qed.

(** X24. What [forward] of the complete transform returns for a row of
    [n_dim] columns, with anchors [c0], [c1], [c2] over a well-formed
    topology: a row of [n_dim - 6] columns whose first three are the
    distance from [c0] to [c1], the distance from [c0] to [c2] and the
    angle at [c0] between them, each normalised with its own mean and
    standard deviation, followed by the three columns that the inner
    transform returns for every z-matrix atom, in the order of the
    z-matrix. *)
Theorem complete_forward_reduces_anchors (n_dim : nat)
    (z : list (nat * list nat)) (c0 c1 c2 : nat) (data : option tensor)
    (circ : list nat) (shift : bool) (bins : nat) (dflt : default_std_t)
    (self : CICT.t) (X : list (list R)) (k : nat) (x : list R) :
  CICT.__init__ n_dim z [c0; c1; c2] data circ shift bins dflt
    = Returns self ->
  wf_topology n_dim z [c0; c1; c2] ->
  X !! k = Some x -> length x = n_dim ->
  exists y,
    fst (CICT.forward self X) !! k = Some y
    /\ length y = (n_dim - 6)%nat
    /\ col y 0
       = (bond_of (pos x c0) (pos x c1) - CICT.mean_b1 self)
         / CICT.std_b1 self
    /\ col y 1
       = (bond_of (pos x c0) (pos x c2) - CICT.mean_b2 self)
         / CICT.std_b2 self
    /\ col y 2
       = (acos (dot (vsub (pos x c1) (pos x c0)) (vsub (pos x c2) (pos x c0))
                / bond_of (pos x c0) (pos x c1)
                / bond_of (pos x c0) (pos x c2))
          - CICT.mean_angle self) / CICT.std_angle self
    /\ (forall i a e,
          ([c0; c1; c2] ++ map fst z) !! i = Some a ->
          (3 <= i)%nat -> (e < 3)%nat ->
          col y (3 * i + e - 6)
          = col (fst (forward_row (CICT.ic_transform self) x)) (3 * a + e)).
Proof.
  intros Hinit Hwf Hk Hx.
  destruct (cict_init_inv _ _ _ _ _ _ _ _ _ Hinit)
    as (_ & H3 & _ & Hic & _).
  destruct (cict_permute_spec _ _ _ _ _ _ _ _ _ Hinit Hwf)
    as (Hlp & _ & Hset).
  exists (fst (CICT.forward_row self x)). split.
  { unfold CICT.forward. cbn [fst]. now rewrite list_lookup_fmap, Hk. }
  rewrite complete_forward_row_out, H3.
  set (yf := fst (forward_row (CICT.ic_transform self) x)).
  set (y' := gather yf (CICT.permute self)).
  assert (Hly : length y' = n_dim).
  { unfold y', gather. now rewrite length_map. }
  assert (Hcol : forall i a e,
            ([c0; c1; c2] ++ map fst z) !! i = Some a -> (e < 3)%nat ->
            col y' (3 * i + e) = col yf (3 * a + e)).
  { intros i a e Hi He. destruct (Hset i a e Hi He) as [Hp _].
    unfold y'. now rewrite (col_gather _ _ _ _ Hp). }
  assert (Hanchor : forall i c, [c0; c1; c2] !! i = Some c ->
            gather3 (firstn (3 * 3) y')
              (3 * i, 3 * i + 1, 3 * i + 2)%nat = pos x c).
  { intros i c Hi.
    assert (Hi' : ([c0; c1; c2] ++ map fst z) !! i = Some c).
    { rewrite lookup_app_l; [exact Hi |]. eapply lookup_lt_Some; eauto. }
    pose proof (lookup_lt_Some _ _ _ Hi) as Hlt. simpl in Hlt.
    assert (Hc : In c [c0; c1; c2]).
    { apply list_elem_of_In. eapply list_elem_of_lookup_2; eauto. }
    pose proof (forward_row_anchor n_dim z [c0; c1; c2] data circ shift bins
                  dflt (CICT.ic_transform self) Hic Hwf x c Hc) as Hpos.
    fold yf in Hpos. rewrite <- Hpos. unfold pos, gather3.
    rewrite !col_firstn by lia.
    rewrite <- (Hcol i c 1%nat Hi' ltac:(lia)),
      <- (Hcol i c 2%nat Hi' ltac:(lia)).
    pose proof (Hcol i c 0%nat Hi' ltac:(lia)) as E0.
    rewrite !Nat.add_0_r in E0. now rewrite <- E0. }
  pose proof (Hanchor 0%nat c0 eq_refl) as P0.
  pose proof (Hanchor 1%nat c1 eq_refl) as P1.
  pose proof (Hanchor 2%nat c2 eq_refl) as P2.
  cbn [Nat.mul Nat.add] in P0, P1, P2.
  unfold CICT._convert_last_internal. cbv zeta.
  change (3 * 3)%nat with 9%nat in *. rewrite P0, P1, P2.
  cbn [fst snd].
  assert (H9 : (9 <= n_dim)%nat).
  { pose proof (wf_all_atoms_length _ _ _ Hwf) as Hall.
    rewrite length_app in Hall. cbn [length] in Hall.
    pose proof (Nat.Div0.mul_div_le n_dim 3). lia. }
  split; [| split; [| split; [| split]]].
  - cbn [length app]. rewrite length_skipn, Hly. lia.
  - reflexivity.
  - reflexivity.
  - reflexivity.
  - intros i a e Hi Hi3 He.
    replace (3 * i + e - 6)%nat with (3 + (3 * i + e - 9))%nat by lia.
    unfold col at 1. cbn [app nth Nat.add].
    fold (col (skipn 9 y') (3 * i + e - 9)).
    rewrite col_skipn.
    replace (9 + (3 * i + e - 9))%nat with (3 * i + e)%nat by lia.
    now apply Hcol.
Qed.

Lemma complete_forward_reduces_anchors_witness :
  exists self,
    CICT.__init__ 12 example_z [0; 1; 2]%nat (Some example_data) [] false 100
      default_std_default = Returns self
    /\ exists y,
         fst (CICT.forward self [example_row]) !! 0%nat = Some y
         /\ length y = (12 - 6)%nat
         /\ col y 0
            = (bond_of (pos example_row 0) (pos example_row 1)
               - CICT.mean_b1 self) / CICT.std_b1 self
         /\ col y 1
            = (bond_of (pos example_row 0) (pos example_row 2)
               - CICT.mean_b2 self) / CICT.std_b2 self
         /\ col y 2
            = (acos (dot (vsub (pos example_row 1) (pos example_row 0))
                       (vsub (pos example_row 2) (pos example_row 0))
                     / bond_of (pos example_row 0) (pos example_row 1)
                     / bond_of (pos example_row 0) (pos example_row 2))
               - CICT.mean_angle self) / CICT.std_angle self
         /\ (forall i a e,
               ([0; 1; 2]%nat ++ map fst example_z) !! i = Some a ->
               (3 <= i)%nat -> (e < 3)%nat ->
               col y (3 * i + e - 6)
               = col (fst (forward_row (CICT.ic_transform self) example_row))
                   (3 * a + e)).
Proof.
  destruct example_complete_init as [self Hinit]. exists self.
  split; [exact Hinit |].
  exact (complete_forward_reduces_anchors 12 example_z 0 1 2
           (Some example_data) [] false 100 default_std_default self
           [example_row] 0 example_row Hinit example_wf eq_refl eq_refl).
Defined.

End CompleteForward.

(* ===================================================================== *)
(** * [CompleteInternalCoordinateTransform]: statistics and round trips *)
(* ===================================================================== *)

Section CanonicalFrame.
Local Open Scope R_scope.

(** In the canonical frame the nine columns that [inverse] writes from
    the two distances and the angle are the three anchors themselves. *)
Lemma canonical_cart_coords (p0 p1 p2 : vec3) :
  canonical_frame p0 p1 p2 -> p1 <> p0 -> p2 <> p0 ->
  [0; 0; 0; bond_of p0 p1; 0; 0;
   bond_of p0 p2
   * cos (acos (dot (vsub p1 p0) (vsub p2 p0) / bond_of p0 p1
                / bond_of p0 p2));
   bond_of p0 p2
   * sin (acos (dot (vsub p1 p0) (vsub p2 p0) / bond_of p0 p1
                / bond_of p0 p2));
   0]
  = flatten3 [p0; p1; p2].
Proof.
  intros (E0 & Hx1 & Hy1 & Hz1 & Hy2 & Hz2) N1 N2.
  destruct p1 as [bx b_y bz], p2 as [px py pz]. cbn [vx vy vz] in *.
  subst p0 b_y bz pz.
  assert (Hbx : 0 < bx).
  { destruct (Req_dec bx 0) as [E | E]; [| lra].
    subst bx. exfalso. apply N1. reflexivity. }
  unfold bond_of.
  assert (E1 : norm (vsub (V3 bx 0 0) (V3 0 0 0)) = bx).
  { apply norm_of_sq; [lra |]. unfold dot, vsub. cbn [vx vy vz]. ring. }
  set (b2 := norm (vsub (V3 px py 0) (V3 0 0 0))).
  assert (Hb2 : 0 < b2).
  { apply norm_pos. unfold vsub, vzero. cbn [vx vy vz]. intros H.
    inversion H as [[Hpx Hpy]]. apply N2. f_equal; lra. }
  assert (Hsq : b2 * b2 = px * px + py * py).
  { unfold b2. rewrite norm_sq. unfold dot, vsub. cbn [vx vy vz]. ring. }
  rewrite E1.
  replace (dot (vsub (V3 bx 0 0) (V3 0 0 0)) (vsub (V3 px py 0) (V3 0 0 0))
           / bx / b2)
    with (px / b2)
    by (unfold dot, vsub; cbn [vx vy vz]; field; lra).
  set (c := px / b2).
  assert (Hc : c * b2 = px) by (unfold c; field; lra).
  assert (Hcc : c * c <= 1).
  { apply Rmult_le_reg_r with (b2 * b2); [nra |].
    replace (c * c * (b2 * b2)) with (px * px) by (rewrite <- Hc; ring).
    nra. }
  assert (Hc1 : -1 <= c <= 1) by (split; nra).
  rewrite (cos_acos c Hc1).
  assert (Hs : b2 * sin (acos c) = py).
  { destruct (acos_bound c) as [A0 A1].
    pose proof (sin_ge_0 _ A0 A1) as Sg.
    pose proof (sin2_cos2 (acos c)) as S2. unfold Rsqr in S2.
    rewrite (cos_acos c Hc1) in S2.
    apply Rsqr_inj; [nra | lra |]. unfold Rsqr.
    replace (b2 * sin (acos c) * (b2 * sin (acos c)))
      with (b2 * b2 * (sin (acos c) * sin (acos c))) by ring.
    replace (sin (acos c) * sin (acos c)) with (1 - c * c) by lra.
    rewrite <- Hc in Hsq. nra. }
  rewrite Hs. cbn [flatten3 flat_map app vx vy vz].
  repeat f_equal. lra.
Qed.

Lemma unnormalise_normalised (v m s : R) :
  s <> 0 -> (v - m) / s * s + m = v.
Proof. intros H. field. exact H. Qed.

End CanonicalFrame.

Section ForwardRange.
Local Open Scope R_scope.
Import InternalCoordinateTransform.

(** [forward] maps a row without degenerate geometry to a valid
    internal-coordinate row. *)
Lemma forward_row_valid (dims : nat) (z : list (nat * list nat))
    (cart : list nat) (data : option tensor) (circ : list nat) (shift : bool)
    (bins : nat) (dflt : default_std_t) (self : t) (x : list R) :
  __init__ dims z cart data circ shift bins dflt = Returns self ->
  wf_topology dims z cart ->
  stds_nonzero self ->
  length x = dims ->
  (forall r, In r (sorted_z_indices (ix self)) -> nondegenerate x r) ->
  valid_internal self (fst (forward_row self x)).
Proof.
  intros Hinit Hwf Hnz Hx Hnd i r Hi.
  assert (Hr : In r (sorted_z_indices (ix self))).
  { apply list_elem_of_In. eapply list_elem_of_lookup_2; eauto. }
  pose proof (Hnd r Hr) as [G1 [G2 G3]].
  pose proof (proj1 (proj2 (proj2 (proj2
                (init_inv _ _ _ _ _ _ _ _ _ Hinit))))) as Hstats.
  pose proof (wf_disjoint _ _ _ Hwf) as Hdisj.
  destruct Hnz as [Nb [Na Nd]].
  assert (Sb : nth i (std_bonds self) 0 <> 0).
  { apply Forall_nth_ne0; [assumption |].
    rewrite (sk_std_bonds _ Hstats). eapply lookup_lt_Some; eauto. }
  assert (Sa : nth i (std_angles self) 0 <> 0).
  { apply Forall_nth_ne0; [assumption |].
    rewrite (sk_std_angles _ Hstats). eapply lookup_lt_Some; eauto. }
  assert (Sd : nth i (std_dih self) 0 <> 0).
  { apply Forall_nth_ne0; [assumption |].
    rewrite (sk_std_dih _ Hstats). eapply lookup_lt_Some; eauto. }
  destruct (unnormalize_forward dims z cart data circ shift bins dflt self
              Hinit Hdisj x i r Hx Hi) as [Ub [Ua _]].
  rewrite (Ub Sb), (Ua Sa).
  split; [| split; [exact G2 | split]].
  - destruct (norm_nonneg (vsub (pos x (row_atom r)) (pos x (row_ref1 r))))
      as [H | H].
    + exact H.
    + exfalso. apply G1. unfold raw_bond, bond_of. now rewrite <- H.
  - pose proof (proj1 (init_inv _ _ _ _ _ _ _ _ _ Hinit)) as Hsetup.
    destruct (forward_row_channels dims cart (ix self)
                (setup_indices_ok _ _ _ _ Hsetup) self eq_refl x
                i r (setup_refs_in_range _ _ _ _ Hdisj Hsetup)
                Hstats Hx Hi) as [_ [_ Cd]].
    rewrite Cd.
    replace (wrap_fix_dih (raw_dihedral x r - nth i (mean_dih self) 0)
             / nth i (std_dih self) 0 * nth i (std_dih self) 0)
      with (wrap_fix_dih (raw_dihedral x r - nth i (mean_dih self) 0))
      by (field; assumption).
    apply wrap_fix_dih_range.
  - rewrite (inverse_forward_row dims z cart data circ shift bins dflt self
               Hinit Hwf (conj Nb (conj Na Nd)) x Hx Hnd).
    exact G3.
Qed.

End ForwardRange.

Section CompleteRoundTrip.
Local Open Scope R_scope.
Import InternalCoordinateTransform.

Variables (n_dim : nat) (z : list (nat * list nat)) (c0 c1 c2 : nat)
  (data : option tensor) (circ : list nat) (shift : bool) (bins : nat)
  (dflt : default_std_t) (self : CICT.t).
Hypothesis Hinit :
  CICT.__init__ n_dim z [c0; c1; c2] data circ shift bins dflt = Returns self.
Hypothesis Hwf : wf_topology n_dim z [c0; c1; c2].

Lemma complete_len3 : CICT.len_cart_inds self = 3%nat.
Proof. exact (proj1 (proj2 (cict_init_inv _ _ _ _ _ _ _ _ _ Hinit))). Qed.

Lemma complete_inner_init :
  __init__ n_dim z [c0; c1; c2] data circ shift bins dflt
  = Returns (CICT.ic_transform self).
Proof.
  exact (proj1 (proj2 (proj2 (proj2 (cict_init_inv _ _ _ _ _ _ _ _ _ Hinit))))).
Qed.

Lemma nine_le_n_dim : (9 <= n_dim)%nat.
Proof.
  pose proof (wf_all_atoms_length _ _ _ Hwf) as Hall.
  rewrite length_app in Hall. cbn [length] in Hall.
  pose proof (Nat.Div0.mul_div_le n_dim 3). lia.
Qed.

Lemma anchor_columns (y : list R) (i c e : nat) :
  [c0; c1; c2] !! i = Some c -> (e < 3)%nat ->
  col (gather y (CICT.permute self)) (3 * i + e) = col y (3 * c + e).
Proof.
  intros Hi He.
  destruct (cict_permute_spec _ _ _ _ _ _ _ _ _ Hinit Hwf) as (_ & _ & Hset).
  assert (Hi' : ([c0; c1; c2] ++ map fst z) !! i = Some c).
  { rewrite lookup_app_l; [exact Hi |]. eapply lookup_lt_Some; eauto. }
  destruct (Hset i c e Hi' He) as [Hp _].
  now rewrite (col_gather _ _ _ _ Hp).
Qed.

(** The first nine permuted columns are the three anchors. *)
Lemma anchors_of_gather (y : list R) :
  firstn 9 (gather y (CICT.permute self))
  = flatten3 [pos y c0; pos y c1; pos y c2].
Proof.
  destruct (cict_permute_spec _ _ _ _ _ _ _ _ _ Hinit Hwf) as (Hlp & _ & _).
  pose proof nine_le_n_dim as H9.
  apply row_ext.
  - rewrite length_firstn. unfold gather. rewrite length_map, Hlp.
    rewrite length_flatten3. cbn [length]. lia.
  - intros c Hc. rewrite length_firstn in Hc.
    assert (Hc9 : (c < 9)%nat) by lia.
    rewrite col_firstn by exact Hc9.
    destruct (column_decompose c) as (i & e & -> & He & _).
    assert (Hi : (i < 3)%nat) by lia.
    destruct i as [| [| [| i]]]; [| | | lia].
    + rewrite (anchor_columns y 0 c0 e eq_refl He).
      destruct e as [| [| [| e]]]; [| | | lia]; unfold pos, gather3;
        cbn [flatten3 flat_map app vx vy vz col nth Nat.mul Nat.add];
        rewrite ?Nat.add_0_r; reflexivity.
    + rewrite (anchor_columns y 1 c1 e eq_refl He).
      destruct e as [| [| [| e]]]; [| | | lia]; unfold pos, gather3;
        cbn [flatten3 flat_map app vx vy vz col nth Nat.mul Nat.add];
        rewrite ?Nat.add_0_r; reflexivity.
    + rewrite (anchor_columns y 2 c2 e eq_refl He).
      destruct e as [| [| [| e]]]; [| | | lia]; unfold pos, gather3;
        cbn [flatten3 flat_map app vx vy vz col nth Nat.mul Nat.add];
        rewrite ?Nat.add_0_r; reflexivity.
Qed.

(** What [_convert_last_internal] reads from the permuted row. *)
Lemma convert_last_gather (y : list R) :
  CICT._convert_last_internal
    (firstn (3 * CICT.len_cart_inds self) (gather y (CICT.permute self)))
  = (bond_of (pos y c0) (pos y c1), bond_of (pos y c0) (pos y c2),
     acos (dot (vsub (pos y c1) (pos y c0)) (vsub (pos y c2) (pos y c0))
           / bond_of (pos y c0) (pos y c1) / bond_of (pos y c0) (pos y c2))).
Proof.
  rewrite complete_len3. change (3 * 3)%nat with 9%nat.
  rewrite anchors_of_gather.
  destruct (pos y c0) as [a0 a1 a2], (pos y c1) as [b0 b1 b2],
    (pos y c2) as [d0 d1 d2].
  reflexivity.
Qed.

(** The anchor statistics as [__init__] computes them. *)
Lemma cict_init_stats :
  let last :=
    map (fun row => CICT._convert_last_internal
                      (firstn (3 * CICT.len_cart_inds self) row))
      (map (fun row => gather row (CICT.permute self)) (data_rows data)) in
  CICT.mean_b1 self = mean (map (fun t => fst (fst t)) last)
  /\ CICT.mean_b2 self = mean (map (fun t => snd (fst t)) last)
  /\ CICT.mean_angle self = mean (map (fun t => snd t) last)
  /\ CICT.std_b1 self
     = (if decide (1 < length (data_rows data))%nat
        then std (map (fun t => fst (fst t)) last)
        else 1 * std_bond dflt)
  /\ CICT.std_b2 self
     = (if decide (1 < length (data_rows data))%nat
        then std (map (fun t => snd (fst t)) last)
        else 1 * std_bond dflt)
  /\ CICT.std_angle self
     = (if decide (1 < length (data_rows data))%nat
        then std (map (fun t => snd t) last)
        else 1 * std_angle dflt)
  /\ CICT.scale_jac self
     = - (ln (CICT.std_b1 self) + ln (CICT.std_b2 self)
          + ln (CICT.std_angle self)).
Proof.
  pose proof Hinit as H. unfold CICT.__init__ in H.
  destruct (decide (length [c0; c1; c2] <> 3%nat)) as [| Hl]; [discriminate |].
  obind_inv_as H ic E1. obind_inv_as H pq E2. destruct pq as [p q].
  cbv zeta in H. rewrite !length_map in H.
  destruct (decide (1 < length (data_rows data))%nat) as [Hn | Hn];
    inversion H; subst self; clear H;
    cbn [CICT.len_cart_inds CICT.permute CICT.mean_b1 CICT.mean_b2
         CICT.mean_angle CICT.std_b1 CICT.std_b2 CICT.std_angle
         CICT.scale_jac];
    repeat split; reflexivity.
Qed.

Lemma cart_coords_list (b1 b2 a : R) :
  CICT.cart_coords self b1 b2 a
  = [0; 0; 0; b1; 0; 0; b2 * cos a; b2 * sin a; 0].
Proof. unfold CICT.cart_coords. rewrite complete_len3. reflexivity. Qed.

Lemma inner_row_length (x : list R) :
  length (CICT.inner_row self x) = n_dim.
Proof.
  destruct (cict_permute_spec _ _ _ _ _ _ _ _ _ Hinit Hwf) as (_ & Hlq & _).
  unfold CICT.inner_row, gather. now rewrite length_map.
Qed.

Lemma complete_inverse_row_inner (x : list R) :
  fst (fst (CICT.inverse_row self x))
  = fst (fst (inverse_row (CICT.ic_transform self) (CICT.inner_row self x))).
Proof. apply complete_inverse_row_out. Qed.

(** [forward] undoes [inverse] on one valid reduced row. *)
Lemma complete_forward_inverse_row (x : list R) :
  length x = (n_dim - 6)%nat ->
  CICT.stds_nonzero self ->
  CICT.valid_internal self x ->
  fst (CICT.forward_row self (fst (fst (CICT.inverse_row self x)))) = x.
Proof.
  intros Hx (Hnz & Nb1 & Nb2 & Na) (Pb1 & Pb2 & Pa & Hv).
  pose proof nine_le_n_dim as H9.
  rewrite complete_inverse_row_inner, complete_forward_row_out.
  rewrite (forward_inverse_row n_dim z [c0; c1; c2] data circ shift bins dflt
             (CICT.ic_transform self) complete_inner_init Hwf Hnz
             (CICT.inner_row self x) (inner_row_length x) Hv).
  unfold CICT.inner_row. rewrite complete_len3.
  change (3 * 3 - 6)%nat with 3%nat. change (3 * 3)%nat with 9%nat.
  set (B1 := col x 0 * CICT.std_b1 self + CICT.mean_b1 self) in *.
  set (B2 := col x 1 * CICT.std_b2 self + CICT.mean_b2 self) in *.
  set (A := col x 2 * CICT.std_angle self + CICT.mean_angle self) in *.
  set (v := CICT.cart_coords self B1 B2 A ++ skipn 3 x).
  assert (Hlc : length (CICT.cart_coords self B1 B2 A) = 9%nat)
    by (rewrite cart_coords_list; reflexivity).
  assert (Hlv : length v = n_dim).
  { unfold v. rewrite length_app, Hlc, length_skipn. lia. }
  rewrite (proj2 (permute_gather n_dim z [c0; c1; c2] data circ shift bins
                    dflt self v Hinit Hwf Hlv)).
  assert (Hf : firstn 9 v = CICT.cart_coords self B1 B2 A).
  { unfold v. rewrite <- Hlc at 1. apply take_app_length. }
  assert (Hs : skipn 9 v = skipn 3 x).
  { unfold v. rewrite <- Hlc at 1. apply drop_app_length. }
  rewrite Hf, Hs.
  rewrite (convert_cart_coords self B1 B2 A complete_len3 Pb1 Pb2 Pa).
  cbn [fst snd].
  destruct x as [| x0 [| x1 [| x2 r]]];
    [simpl in Hx; lia | simpl in Hx; lia | simpl in Hx; lia |].
  unfold B1, B2, A, col. cbn [nth skipn app].
  f_equal; [field; assumption |].
  f_equal; [field; assumption |].
  f_equal. field; assumption.
Qed.

Lemma complete_anchor_pos (x : list R) (c : nat) :
  In c [c0; c1; c2] ->
  pos (fst (forward_row (CICT.ic_transform self) x)) c = pos x c.
Proof.
  apply (forward_row_anchor n_dim z [c0; c1; c2] data circ shift bins dflt
           (CICT.ic_transform self) complete_inner_init Hwf).
Qed.

(** The row [forward] returns: the three normalised anchor coordinates,
    then the permuted inner row without its nine anchor columns. *)
Lemma complete_forward_row_cols (x : list R) :
  fst (CICT.forward_row self x)
  = [(bond_of (pos x c0) (pos x c1) - CICT.mean_b1 self) / CICT.std_b1 self;
     (bond_of (pos x c0) (pos x c2) - CICT.mean_b2 self) / CICT.std_b2 self;
     (acos (dot (vsub (pos x c1) (pos x c0)) (vsub (pos x c2) (pos x c0))
            / bond_of (pos x c0) (pos x c1) / bond_of (pos x c0) (pos x c2))
      - CICT.mean_angle self) / CICT.std_angle self]
    ++ skipn 9 (gather (fst (forward_row (CICT.ic_transform self) x))
                  (CICT.permute self)).
Proof.
  rewrite complete_forward_row_out, convert_last_gather, complete_len3.
  cbn [fst snd]. change (3 * 3)%nat with 9%nat.
  rewrite !complete_anchor_pos by (simpl; auto). reflexivity.
Qed.

Lemma complete_forward_row_length (x : list R) :
  length x = n_dim ->
  length (fst (CICT.forward_row self x)) = (n_dim - 6)%nat.
Proof.
  intros Hx.
  destruct (cict_permute_spec _ _ _ _ _ _ _ _ _ Hinit Hwf) as (Hlp & _ & _).
  pose proof nine_le_n_dim as H9.
  rewrite complete_forward_row_cols. cbn [length app].
  rewrite length_skipn. unfold gather. rewrite length_map, Hlp. lia.
Qed.

(** The row handed to the inner [inverse] after a [forward]. *)
Lemma inner_row_forward (x : list R) :
  CICT.std_b1 self <> 0 -> CICT.std_b2 self <> 0 ->
  CICT.std_angle self <> 0 ->
  CICT.inner_row self (fst (CICT.forward_row self x))
  = gather
      ([0; 0; 0; bond_of (pos x c0) (pos x c1); 0; 0;
        bond_of (pos x c0) (pos x c2)
        * cos (acos (dot (vsub (pos x c1) (pos x c0))
                       (vsub (pos x c2) (pos x c0))
                     / bond_of (pos x c0) (pos x c1)
                     / bond_of (pos x c0) (pos x c2)));
        bond_of (pos x c0) (pos x c2)
        * sin (acos (dot (vsub (pos x c1) (pos x c0))
                       (vsub (pos x c2) (pos x c0))
                     / bond_of (pos x c0) (pos x c1)
                     / bond_of (pos x c0) (pos x c2)));
        0]
       ++ skipn 9 (gather (fst (forward_row (CICT.ic_transform self) x))
                     (CICT.permute self)))
      (CICT.permute_inv self).
Proof.
  intros Nb1 Nb2 Na.
  unfold CICT.inner_row. rewrite complete_forward_row_cols, complete_len3.
  change (3 * 3 - 6)%nat with 3%nat. unfold col. cbn [app nth skipn].
  rewrite cart_coords_list.
  rewrite !unnormalise_normalised by assumption. reflexivity.
Qed.

(** On a row whose anchors stand in the canonical frame, the inner
    [inverse] is handed the very row the inner [forward] returned. *)
Lemma inner_row_forward_canonical (x : list R) :
  length x = n_dim ->
  CICT.std_b1 self <> 0 -> CICT.std_b2 self <> 0 ->
  CICT.std_angle self <> 0 ->
  pos x c1 <> pos x c0 -> pos x c2 <> pos x c0 ->
  canonical_frame (pos x c0) (pos x c1) (pos x c2) ->
  CICT.inner_row self (fst (CICT.forward_row self x))
  = fst (forward_row (CICT.ic_transform self) x).
Proof.
  intros Hx Nb1 Nb2 Na N1 N2 Hcan.
  set (yf := fst (forward_row (CICT.ic_transform self) x)).
  assert (Hly : length yf = n_dim).
  { unfold yf.
    now rewrite (forward_row_length (ix (CICT.ic_transform self))
                   (CICT.ic_transform self) eq_refl). }
  rewrite (inner_row_forward x Nb1 Nb2 Na).
  rewrite (canonical_cart_coords _ _ _ Hcan N1 N2).
  rewrite <- (complete_anchor_pos x c0), <- (complete_anchor_pos x c1),
    <- (complete_anchor_pos x c2) by (simpl; auto).
  fold yf. rewrite <- (anchors_of_gather yf), take_drop.
  exact (proj1 (permute_gather n_dim z [c0; c1; c2] data circ shift bins
                  dflt self yf Hinit Hwf Hly)).
Qed.

(** [forward] maps a row in the canonical frame, without degenerate
    geometry, to a valid reduced row. *)
Lemma complete_forward_valid (x : list R) :
  length x = n_dim ->
  CICT.stds_nonzero self ->
  (forall r, In r (sorted_z_indices (ix (CICT.ic_transform self))) ->
             nondegenerate x r) ->
  pos x c1 <> pos x c0 -> pos x c2 <> pos x c0 ->
  canonical_frame (pos x c0) (pos x c1) (pos x c2) ->
  CICT.valid_internal self (fst (CICT.forward_row self x)).
Proof.
  intros Hx (Hnz & Nb1 & Nb2 & Na) Hnd N1 N2 Hcan.
  unfold CICT.valid_internal.
  rewrite (inner_row_forward_canonical x Hx Nb1 Nb2 Na N1 N2 Hcan).
  rewrite complete_forward_row_cols. unfold col. cbn [app nth].
  rewrite !unnormalise_normalised by assumption.
  split; [| split; [| split; [apply acos_bound |]]].
  - apply norm_pos. intros E. apply N1.
    destruct (pos x c0) as [a0 a1 a2], (pos x c1) as [b0 b1 b2].
    unfold vsub, vzero in E.
    cbn [vx vy vz] in E. inversion E. f_equal; lra.
  - apply norm_pos. intros E. apply N2.
    destruct (pos x c0) as [a0 a1 a2], (pos x c2) as [b0 b1 b2].
    unfold vsub, vzero in E.
    cbn [vx vy vz] in E. inversion E. f_equal; lra.
  - apply (forward_row_valid n_dim z [c0; c1; c2] data circ shift bins dflt
             (CICT.ic_transform self) x complete_inner_init Hwf Hnz Hx Hnd).
Qed.

(** [inverse] undoes [forward] exactly on the rows whose anchors stand in
    the canonical frame. *)
Lemma complete_inverse_forward_row (x : list R) :
  length x = n_dim ->
  CICT.stds_nonzero self ->
  (forall r, In r (sorted_z_indices (ix (CICT.ic_transform self))) ->
             nondegenerate x r) ->
  pos x c1 <> pos x c0 -> pos x c2 <> pos x c0 ->
  fst (fst (CICT.inverse_row self (fst (CICT.forward_row self x)))) = x
  <-> canonical_frame (pos x c0) (pos x c1) (pos x c2).
Proof.
  intros Hx (Hnz & Nb1 & Nb2 & Na) Hnd N1 N2.
  set (yf := fst (forward_row (CICT.ic_transform self) x)).
  assert (Hly : length yf = n_dim).
  { unfold yf.
    now rewrite (forward_row_length (ix (CICT.ic_transform self))
                   (CICT.ic_transform self) eq_refl). }
  split.
  - intros E.
    destruct (complete_inverse_row_anchors n_dim z c0 c1 c2 data circ shift
                bins dflt self (fst (CICT.forward_row self x)) Hinit Hwf)
      as (P0 & P1 & P2).
    rewrite E in P0, P1, P2.
    rewrite complete_forward_row_cols in P1, P2.
    unfold col in P1, P2. cbn [app nth] in P1, P2.
    unfold canonical_frame. rewrite P0, P1, P2. cbn [vx vy vz].
    split; [reflexivity |].
    split.
    { replace ((bond_of (pos x c0) (pos x c1) - CICT.mean_b1 self)
               / CICT.std_b1 self * CICT.std_b1 self + CICT.mean_b1 self)
        with (bond_of (pos x c0) (pos x c1)) by (field; assumption).
      apply norm_nonneg. }
    split; [reflexivity |]. split; [reflexivity |].
    split; [| reflexivity].
    replace ((bond_of (pos x c0) (pos x c2) - CICT.mean_b2 self)
             / CICT.std_b2 self * CICT.std_b2 self + CICT.mean_b2 self)
      with (bond_of (pos x c0) (pos x c2)) by (field; assumption).
    apply Rmult_le_pos; [apply norm_nonneg |].
    match goal with
    | |- 0 <= sin (?q / ?s * ?s + ?m) =>
        replace (q / s * s + m) with (q + m) by (field; assumption)
    end.
    match goal with
    | |- 0 <= sin (acos ?c - ?m + ?m) =>
        replace (acos c - m + m) with (acos c) by ring;
        destruct (acos_bound c) as [A0 A1]; now apply sin_ge_0
    end.
  - intros Hcan.
    rewrite complete_inverse_row_inner.
    rewrite (inner_row_forward_canonical x Hx Nb1 Nb2 Na N1 N2 Hcan).
    apply (inverse_forward_row n_dim z [c0; c1; c2] data circ shift bins dflt
             (CICT.ic_transform self) complete_inner_init Hwf Hnz x Hx Hnd).
Qed.

(** The two log-determinants, from those of the inner transform. *)
Lemma complete_forward_row_jac (x : list R) :
  snd (CICT.forward_row self x)
  = 0 + snd (forward_row (CICT.ic_transform self) x)
    - ln (bond_of (pos x c0) (pos x c2)) + CICT.scale_jac self.
Proof.
  pose proof (convert_last_gather
                (fst (forward_row (CICT.ic_transform self) x))) as E.
  rewrite !complete_anchor_pos in E by (simpl; auto).
  unfold CICT.forward_row. cbv zeta.
  destruct (forward_row (CICT.ic_transform self) x) as [y j].
  cbn [fst snd] in *. rewrite E. reflexivity.
Qed.

Lemma complete_inverse_row_jac (y : list R) :
  snd (fst (CICT.inverse_row self y))
  = 0 - CICT.scale_jac self
    + ln (col y 1 * CICT.std_b2 self + CICT.mean_b2 self)
    + snd (fst (inverse_row (CICT.ic_transform self)
                  (CICT.inner_row self y))).
Proof.
  unfold CICT.inverse_row, CICT.inner_row. cbv zeta.
  destruct (inverse_row _ _) as [[a b] c]. reflexivity.
Qed.

(** A z-matrix atom stands behind the anchors in [all_ind]. *)
Lemma z_atom_index (a : nat) :
  In a (map fst z) ->
  exists i, ([c0; c1; c2] ++ map fst z) !! i = Some a /\ (3 <= i)%nat.
Proof.
  intros Ha. apply list_elem_of_In, list_elem_of_lookup in Ha.
  destruct Ha as [j Hj]. exists (3 + j)%nat. split; [| lia].
  rewrite lookup_app_r by (cbn [length]; lia).
  cbn [length]. now replace (3 + j - 3)%nat with j by lia.
Qed.

(** After a [forward], the inner [inverse] reads the columns of a
    z-matrix atom as the inner [forward] wrote them. *)
Lemma inner_row_forward_channel (x : list R) (a e : nat) :
  CICT.std_b1 self <> 0 -> CICT.std_b2 self <> 0 ->
  CICT.std_angle self <> 0 ->
  In a (map fst z) -> (e < 3)%nat ->
  col (CICT.inner_row self (fst (CICT.forward_row self x))) (3 * a + e)
  = col (fst (forward_row (CICT.ic_transform self) x)) (3 * a + e).
Proof.
  intros Nb1 Nb2 Na Ha He.
  destruct (cict_permute_spec _ _ _ _ _ _ _ _ _ Hinit Hwf) as (_ & _ & Hset).
  destruct (z_atom_index a Ha) as (i & Hi & Hi3).
  destruct (Hset i a e Hi He) as [Hp Hq].
  rewrite (inner_row_forward x Nb1 Nb2 Na).
  rewrite (col_gather _ _ _ _ Hq).
  unfold col at 1. rewrite app_nth2 by (cbn [length]; lia).
  cbn [length]. fold (col (skipn 9 (gather (fst (forward_row
                              (CICT.ic_transform self) x))
                              (CICT.permute self))) (3 * i + e - 9)).
  rewrite col_skipn.
  replace (9 + (3 * i + e - 9))%nat with (3 * i + e)%nat by lia.
  now rewrite (col_gather _ _ _ _ Hp).
Qed.

(** Along a round trip the two log-determinants cancel. *)
Lemma complete_jacobian_sum_row (x : list R) :
  length x = n_dim ->
  CICT.stds_nonzero self ->
  snd (CICT.forward_row self x)
  + snd (fst (CICT.inverse_row self (fst (CICT.forward_row self x)))) = 0.
Proof.
  intros Hx ((Hsb & Hsa & Hsd) & Nb1 & Nb2 & Na).
  pose proof complete_inner_init as Hic.
  pose proof (proj1 (init_inv _ _ _ _ _ _ _ _ _ Hic)) as Hsetup.
  rewrite complete_forward_row_jac, complete_inverse_row_jac.
  rewrite complete_forward_row_cols at 1. unfold col at 1. cbn [app nth].
  rewrite unnormalise_normalised by assumption.
  pose proof (jacobian_sum_row n_dim z [c0; c1; c2] data circ shift bins dflt
                (CICT.ic_transform self) Hic (wf_disjoint _ _ _ Hwf) x Hx
                Hsb Hsa) as Hsum.
  assert (Hjac : snd (fst (inverse_row (CICT.ic_transform self)
                             (CICT.inner_row self
                                (fst (CICT.forward_row self x)))))
                 = snd (fst (inverse_row (CICT.ic_transform self)
                               (fst (forward_row (CICT.ic_transform self)
                                       x))))).
  { rewrite !inverse_row_jac. f_equal. f_equal.
    apply map_ext_in. intros a Ha.
    assert (Hz : In a (map fst z)).
    { apply (proj2 (setup_sorted_atoms _ _ _ _ Hsetup)).
      eapply Permutation_in; [| exact Ha].
      exact (built_atoms_perm _ _ _ _ (wf_disjoint _ _ _ Hwf) Hsetup). }
    unfold inverse_jac_term, unnormalize.
    rewrite (inner_row_forward_channel x a 0 Nb1 Nb2 Na Hz ltac:(lia)).
    rewrite (inner_row_forward_channel x a 1 Nb1 Nb2 Na Hz ltac:(lia)).
    reflexivity. }
  rewrite Hjac. lra.
Qed.

End CompleteRoundTrip.

(* ===================================================================== *)
(** * Translating all atoms *)
(* ===================================================================== *)

Section Translate.
Local Open Scope R_scope.

Lemma list3_ind (P : list R -> Prop) :
  (forall l, (length l < 3)%nat -> P l) ->
  (forall a b c l, P l -> P (a :: b :: c :: l)) ->
  forall l, P l.
Proof.
  intros H0 H3. fix IH 1.
  intros [| a [| b [| c l]]]; try (apply H0; simpl; lia).
  apply H3, IH.
Qed.

Lemma view3_length (x : list R) : length (view3 x) = (length x / 3)%nat.
Proof.
  induction x as [l Hl | a b c l IH] using list3_ind.
  - rewrite Nat.div_small by exact Hl.
    destruct l as [| a [| b [| c l]]]; try reflexivity. simpl in Hl. lia.
  - cbn [view3 length]. rewrite IH.
    replace (S (S (S (length l)))) with (1 * 3 + length l)%nat by lia.
    rewrite Nat.div_add_l by lia. lia.
Qed.

Lemma view3_nth (x : list R) (a : nat) :
  (a < length x / 3)%nat -> nth a (view3 x) vzero = pos x a.
Proof.
  revert a. induction x as [l Hl | p q r l IH] using list3_ind; intros a Ha.
  - rewrite Nat.div_small in Ha by exact Hl. lia.
  - cbn [length] in Ha.
    replace (S (S (S (length l)))) with (1 * 3 + length l)%nat in Ha by lia.
    rewrite Nat.div_add_l in Ha by lia.
    destruct a as [| a].
    + reflexivity.
    + cbn [view3 nth]. rewrite IH by lia.
      unfold pos, gather3, col.
      replace (3 * S a)%nat with (S (S (S (3 * a)))) by lia.
      reflexivity.
Qed.

Lemma translate_length (t : vec3) (x : list R) :
  length (translate t x) = (3 * (length x / 3))%nat.
Proof.
  unfold translate. now rewrite length_flatten3, length_map, view3_length.
Qed.

Lemma translate_pos (t : vec3) (x : list R) (a : nat) :
  (a < length x / 3)%nat -> pos (translate t x) a = vadd (pos x a) t.
Proof.
  intros Ha. unfold translate. rewrite pos_flatten3.
  rewrite <- (view3_nth x a Ha).
  rewrite (nth_indep _ vzero (vadd vzero t))
    by (rewrite length_map, view3_length; exact Ha).
  apply (map_nth (fun p => vadd p t)).
Qed.

Lemma bond_of_translate (t a b : vec3) :
  bond_of (vadd a t) (vadd b t) = bond_of a b.
Proof. unfold bond_of. now rewrite vsub_vadd_same. Qed.

Lemma angle_of_translate (t b c d : vec3) :
  angle_of (vadd b t) (vadd c t) (vadd d t) = angle_of b c d.
Proof. unfold angle_of. cbv zeta. now rewrite !vsub_vadd_same. Qed.

Lemma dihedral_of_translate (t a b c d : vec3) :
  dihedral_of (vadd a t) (vadd b t) (vadd c t) (vadd d t)
  = dihedral_of a b c d.
Proof. unfold dihedral_of. cbv zeta. now rewrite !vsub_vadd_same. Qed.

End Translate.

Section TranslateForward.
Local Open Scope R_scope.
Import InternalCoordinateTransform.

Variables (n_dim : nat) (z : list (nat * list nat)) (c0 c1 c2 : nat)
  (data : option tensor) (circ : list nat) (shift : bool) (bins : nat)
  (dflt : default_std_t) (self : CICT.t).
Hypothesis Hinit :
  CICT.__init__ n_dim z [c0; c1; c2] data circ shift bins dflt = Returns self.
Hypothesis Hwf : wf_topology n_dim z [c0; c1; c2].

Local Abbreviation ic := (CICT.ic_transform self).
Local Abbreviation Zs := (sorted_z_indices (ix (CICT.ic_transform self))).

Lemma translate_width (t : vec3) (x : list R) :
  length x = n_dim -> length (translate t x) = n_dim.
Proof.
  intros Hx. rewrite translate_length, Hx.
  symmetry. exact (wf_dims _ _ _ Hwf).
Qed.

(** The raw internal coordinates of a z-matrix row do not see the
    translation. *)
Lemma translate_raw (t : vec3) (x : list R) (r : zrow) :
  length x = n_dim -> In r Zs ->
  raw_bond (translate t x) r = raw_bond x r
  /\ raw_angle (translate t x) r = raw_angle x r
  /\ raw_dihedral (translate t x) r = raw_dihedral x r.
Proof.
  intros Hx Hr.
  pose proof (complete_inner_init n_dim z c0 c1 c2 data circ shift bins dflt
                self Hinit) as Hic.
  pose proof (proj1 (init_inv _ _ _ _ _ _ _ _ _ Hic)) as Hsetup.
  pose proof (setup_indices_ok _ _ _ _ Hsetup) as Hok.
  pose proof (setup_refs_in_range _ _ _ _ (wf_disjoint _ _ _ Hwf) Hsetup)
    as Hrefs.
  assert (Ha : (row_atom r < length x / 3)%nat)
    by (rewrite Hx; exact (so_atoms_lt _ _ _ Hok r Hr)).
  assert (H1 : (row_ref1 r < length x / 3)%nat)
    by (rewrite Hx; apply (Hrefs r); [exact Hr | simpl; auto]).
  assert (H2 : (row_ref2 r < length x / 3)%nat)
    by (rewrite Hx; apply (Hrefs r); [exact Hr | simpl; auto]).
  assert (H3 : (row_ref3 r < length x / 3)%nat)
    by (rewrite Hx; apply (Hrefs r); [exact Hr | simpl; auto]).
  unfold raw_bond, raw_angle, raw_dihedral.
  rewrite !translate_pos by assumption.
  rewrite bond_of_translate, angle_of_translate, dihedral_of_translate.
  auto.
Qed.

(** The inner [forward] writes the same three columns for a z-matrix
    atom. *)
Lemma translate_channel (t : vec3) (x : list R) (a e : nat) :
  length x = n_dim -> In a (map fst z) -> (e < 3)%nat ->
  col (fst (forward_row ic (translate t x))) (3 * a + e)
  = col (fst (forward_row ic x)) (3 * a + e).
Proof.
  intros Hx Ha He.
  pose proof (complete_inner_init n_dim z c0 c1 c2 data circ shift bins dflt
                self Hinit) as Hic.
  destruct (init_inv _ _ _ _ _ _ _ _ _ Hic) as (Hsetup & _ & _ & Hstats & _).
  pose proof (setup_indices_ok _ _ _ _ Hsetup) as Hok.
  pose proof (setup_refs_in_range _ _ _ _ (wf_disjoint _ _ _ Hwf) Hsetup)
    as Hrefs.
  destruct (keys_are_rows n_dim z [c0; c1; c2] data circ shift bins dflt ic
              Hic Hwf a Ha) as (i & r & Hi & <-).
  assert (Hr : In r Zs).
  { apply list_elem_of_In. eapply list_elem_of_lookup_2; eauto. }
  destruct (translate_raw t x r Hx Hr) as (Eb & Ea & Ed).
  destruct (forward_row_channels n_dim [c0; c1; c2] (ix ic) Hok ic eq_refl
              (translate t x) i r Hrefs Hstats (translate_width t x Hx) Hi)
    as (F0 & F1 & F2).
  destruct (forward_row_channels n_dim [c0; c1; c2] (ix ic) Hok ic eq_refl
              x i r Hrefs Hstats Hx Hi) as (G0 & G1 & G2).
  destruct e as [| [| [| e]]]; [| | | lia].
  - rewrite Nat.add_0_r, F0, G0, Eb. reflexivity.
  - rewrite F1, G1, Ea. reflexivity.
  - rewrite F2, G2, Ed. reflexivity.
Qed.

Lemma translate_anchor (t : vec3) (x : list R) (c : nat) :
  length x = n_dim -> In c [c0; c1; c2] ->
  pos (translate t x) c = vadd (pos x c) t.
Proof.
  intros Hx Hc. apply translate_pos. rewrite Hx.
  apply (proj2 (wf_cover _ _ _ Hwf c)). now left.
Qed.

(** [forward] of the complete transform does not see the translation. *)
Lemma complete_forward_translate_row (t : vec3) (x : list R) :
  length x = n_dim ->
  CICT.forward_row self (translate t x) = CICT.forward_row self x.
Proof.
  intros Hx.
  pose proof (complete_inner_init n_dim z c0 c1 c2 data circ shift bins dflt
                self Hinit) as Hic.
  pose proof (proj1 (init_inv _ _ _ _ _ _ _ _ _ Hic)) as Hsetup.
  pose proof (setup_indices_ok _ _ _ _ Hsetup) as Hok.
  pose proof (setup_refs_in_range _ _ _ _ (wf_disjoint _ _ _ Hwf) Hsetup)
    as Hrefs.
  destruct (cict_permute_spec _ _ _ _ _ _ _ _ _ Hinit Hwf)
    as (Hlp & _ & Hset).
  pose proof (nine_le_n_dim n_dim z c0 c1 c2 Hwf) as H9.
  pose proof (wf_all_atoms_length _ _ _ Hwf) as Hall.
  pose proof (wf_dims _ _ _ Hwf) as Hd.
  apply injective_projections.
  - rewrite !(complete_forward_row_cols n_dim z c0 c1 c2 data circ shift bins
                dflt self Hinit Hwf).
    rewrite !(translate_anchor t x) by (simpl; auto).
    rewrite !bond_of_translate, !vsub_vadd_same.
    f_equal. apply row_ext.
    + rewrite !length_skipn. unfold gather. now rewrite !length_map.
    + intros c Hc. rewrite length_skipn in Hc. unfold gather in Hc.
      rewrite length_map, Hlp in Hc.
      rewrite !col_skipn.
      destruct (column_decompose (9 + c)) as (i & e & E & He & _).
      rewrite E.
      assert (Hi : (i < length ([c0; c1; c2] ++ map fst z))%nat)
        by (rewrite Hall; lia).
      destruct (lookup_lt_is_Some_2 _ _ Hi) as [a Ha].
      destruct (Hset i a e Ha He) as [Hp _].
      rewrite !(col_gather _ _ _ _ Hp).
      apply translate_channel; [exact Hx | | exact He].
      rewrite lookup_app_r in Ha by (cbn [length]; lia).
      apply list_elem_of_In. eapply list_elem_of_lookup_2; eauto.
  - rewrite !(complete_forward_row_jac n_dim z c0 c1 c2 data circ shift bins
                dflt self Hinit Hwf).
    rewrite !(translate_anchor t x) by (simpl; auto).
    rewrite bond_of_translate.
    rewrite !(forward_row_jac n_dim [c0; c1; c2] (ix ic) Hok ic eq_refl _
                Hrefs).
    do 3 f_equal. f_equal. f_equal. f_equal.
    apply map_ext_in. intros r Hr. apply in_rev in Hr.
    destruct (translate_raw t x r Hx Hr) as (Eb & Ea & _).
    unfold jac_term. now rewrite Eb, Ea.
Qed.

End TranslateForward.

(* ===================================================================== *)
(** * [CompleteInternalCoordinateTransform]: fitted statistics, round
      trips, log-determinants and translations *)
(* ===================================================================== *)

Section CompleteTheorems.
Local Open Scope R_scope.
Import InternalCoordinateTransform.

Lemma complete_stats_spec (n_dim : nat) (z : list (nat * list nat))
    (c0 c1 c2 : nat) (d : tensor) (circ : list nat) (shift : bool)
    (bins : nat) (dflt : default_std_t) (self : CICT.t) :
  CICT.__init__ n_dim z [c0; c1; c2] (Some d) circ shift bins dflt
    = Returns self ->
  wf_topology n_dim z [c0; c1; c2] ->
  CICT.mean_b1 self
  = mean (map (fun x => bond_of (pos x c0) (pos x c1)) (rows d))
  /\ CICT.mean_b2 self
     = mean (map (fun x => bond_of (pos x c0) (pos x c2)) (rows d))
  /\ CICT.mean_angle self
     = mean (map (fun x =>
                    acos (dot (vsub (pos x c1) (pos x c0))
                            (vsub (pos x c2) (pos x c0))
                          / bond_of (pos x c0) (pos x c1)
                          / bond_of (pos x c0) (pos x c2))) (rows d))
  /\ CICT.std_b1 self
     = (if decide (1 < length (rows d))%nat
        then std (map (fun x => bond_of (pos x c0) (pos x c1)) (rows d))
        else 1 * std_bond dflt)
  /\ CICT.std_b2 self
     = (if decide (1 < length (rows d))%nat
        then std (map (fun x => bond_of (pos x c0) (pos x c2)) (rows d))
        else 1 * std_bond dflt)
  /\ CICT.std_angle self
     = (if decide (1 < length (rows d))%nat
        then std (map (fun x =>
                         acos (dot (vsub (pos x c1) (pos x c0))
                                 (vsub (pos x c2) (pos x c0))
                               / bond_of (pos x c0) (pos x c1)
                               / bond_of (pos x c0) (pos x c2))) (rows d))
        else 1 * std_angle dflt)
  /\ CICT.scale_jac self
     = - (ln (CICT.std_b1 self) + ln (CICT.std_b2 self)
          + ln (CICT.std_angle self)).
Proof.
  intros Hinit Hwf.
  pose proof (cict_init_stats n_dim z c0 c1 c2 (Some d) circ shift bins dflt
                self Hinit) as H.
  cbv zeta in H. cbn [data_rows] in H.
  rewrite !map_map in H.
  assert (E : forall (f : R * R * R -> R),
            map (fun x => f (CICT._convert_last_internal
                               (firstn (3 * CICT.len_cart_inds self)
                                  (gather x (CICT.permute self))))) (rows d)
            = map (fun x =>
                     f (bond_of (pos x c0) (pos x c1),
                        bond_of (pos x c0) (pos x c2),
                        acos (dot (vsub (pos x c1) (pos x c0))
                                (vsub (pos x c2) (pos x c0))
                              / bond_of (pos x c0) (pos x c1)
                              / bond_of (pos x c0) (pos x c2)))) (rows d)).
  { intros f. apply map_ext. intros x.
    now rewrite (convert_last_gather n_dim z c0 c1 c2 (Some d) circ shift
                   bins dflt self Hinit Hwf x). }
  rewrite (E (fun t => fst (fst t))), (E (fun t => snd (fst t))),
    (E (fun t => snd t)) in H.
  exact H.
Qed.

(** X25. The anchor statistics of the complete transform: for a dataset
    with at least one sample and rows of the declared width, [mean_b1],
    [mean_b2] and [mean_angle] are the means over the samples of the
    distance from the first anchor to the second, of the distance from
    the first to the third, and of the angle at the first anchor; the
    standard deviations are the unbiased sample ones when there are at
    least two samples and the configured defaults when there is one; and
    [scale_jac] is minus the sum of their logarithms. *)
Theorem complete_anchor_statistics (n_dim : nat) (z : list (nat * list nat))
    (c0 c1 c2 : nat) (d : tensor) (circ : list nat) (shift : bool)
    (bins : nat) (dflt : default_std_t) (self : CICT.t) :
  CICT.__init__ n_dim z [c0; c1; c2] (Some d) circ shift bins dflt
    = Returns self ->
  wf_topology n_dim z [c0; c1; c2] ->
  Forall (fun x => length x = n_dim) (rows d) ->
  rows d <> [] ->
  CICT.mean_b1 self
  = mean (map (fun x => bond_of (pos x c0) (pos x c1)) (rows d))
  /\ CICT.mean_b2 self
     = mean (map (fun x => bond_of (pos x c0) (pos x c2)) (rows d))
  /\ CICT.mean_angle self
     = mean (map (fun x =>
                    acos (dot (vsub (pos x c1) (pos x c0))
                            (vsub (pos x c2) (pos x c0))
                          / bond_of (pos x c0) (pos x c1)
                          / bond_of (pos x c0) (pos x c2))) (rows d))
  /\ CICT.std_b1 self
     = (if decide (1 < length (rows d))%nat
        then std (map (fun x => bond_of (pos x c0) (pos x c1)) (rows d))
        else 1 * std_bond dflt)
  /\ CICT.std_b2 self
     = (if decide (1 < length (rows d))%nat
        then std (map (fun x => bond_of (pos x c0) (pos x c2)) (rows d))
        else 1 * std_bond dflt)
  /\ CICT.std_angle self
     = (if decide (1 < length (rows d))%nat
        then std (map (fun x =>
                         acos (dot (vsub (pos x c1) (pos x c0))
                                 (vsub (pos x c2) (pos x c0))
                               / bond_of (pos x c0) (pos x c1)
                               / bond_of (pos x c0) (pos x c2))) (rows d))
        else 1 * std_angle dflt)
  /\ CICT.scale_jac self
     = - (ln (CICT.std_b1 self) + ln (CICT.std_b2 self)
          + ln (CICT.std_angle self)).
Proof.
  intros Hinit Hwf _ _.
  exact (complete_stats_spec n_dim z c0 c1 c2 d circ shift bins dflt self
           Hinit Hwf).
Qed.

Lemma complete_anchor_statistics_witness :
  exists self,
    CICT.__init__ 12 example_z [0; 1; 2]%nat (Some example_data) [] false 100
      default_std_default = Returns self
    /\ CICT.mean_b1 self
       = mean (map (fun x => bond_of (pos x 0) (pos x 1))
                 (rows example_data))
    /\ CICT.mean_b2 self
       = mean (map (fun x => bond_of (pos x 0) (pos x 2))
                 (rows example_data))
    /\ CICT.mean_angle self
       = mean (map (fun x =>
                      acos (dot (vsub (pos x 1) (pos x 0))
                              (vsub (pos x 2) (pos x 0))
                            / bond_of (pos x 0) (pos x 1)
                            / bond_of (pos x 0) (pos x 2)))
                 (rows example_data))
    /\ CICT.std_b1 self
       = (if decide (1 < length (rows example_data))%nat
          then std (map (fun x => bond_of (pos x 0) (pos x 1))
                      (rows example_data))
          else 1 * std_bond default_std_default)
    /\ CICT.std_b2 self
       = (if decide (1 < length (rows example_data))%nat
          then std (map (fun x => bond_of (pos x 0) (pos x 2))
                      (rows example_data))
          else 1 * std_bond default_std_default)
    /\ CICT.std_angle self
       = (if decide (1 < length (rows example_data))%nat
          then std (map (fun x =>
                           acos (dot (vsub (pos x 1) (pos x 0))
                                   (vsub (pos x 2) (pos x 0))
                                 / bond_of (pos x 0) (pos x 1)
                                 / bond_of (pos x 0) (pos x 2)))
                      (rows example_data))
          else 1 * std_angle default_std_default)
    /\ CICT.scale_jac self
       = - (ln (CICT.std_b1 self) + ln (CICT.std_b2 self)
            + ln (CICT.std_angle self)).
Proof.
  destruct example_complete_init as [self Hinit]. exists self.
  split; [exact Hinit |].
  exact (complete_anchor_statistics 12 example_z 0 1 2 example_data [] false
           100 default_std_default self Hinit example_wf example_rows_width
           ltac:(discriminate)).
Defined.

(** The example transform has no zero standard deviation. *)
Lemma example_complete_stds (self : CICT.t) :
  CICT.__init__ 12 example_z [0; 1; 2]%nat (Some example_data) [] false 100
    default_std_default = Returns self ->
  CICT.stds_nonzero self.
Proof.
  intros Hinit.
  destruct (cict_init_inv _ _ _ _ _ _ _ _ _ Hinit) as (_ & _ & _ & Hic & _).
  destruct example_init as [ic [Hic' [Hb [Ha Hd]]]].
  change example_cart with [0; 1; 2]%nat in Hic'.
  rewrite Hic in Hic'. inversion Hic' as [E]. clear Hic'.
  destruct (complete_stats_spec 12 example_z 0 1 2 example_data [] false 100
              default_std_default self Hinit example_wf)
    as (_ & _ & _ & S1 & S2 & S3 & _).
  destruct (decide (1 < length (rows example_data))%nat) as [Hc | _];
    [simpl in Hc; lia |].
  split; [| split; [| split]].
  - rewrite E. exact (example_stds_all_nonzero ic Hb Ha Hd).
  - rewrite S1. cbn [std_bond default_std_default]. lra.
  - rewrite S2. cbn [std_bond default_std_default]. lra.
  - rewrite S3. cbn [std_angle default_std_default]. lra.
Qed.

Lemma example_canon_nondegenerate :
  nondegenerate example_row_canon (3, 2, 1, 0)%nat.
Proof.
  unfold nondegenerate, raw_bond, raw_angle, pos, gather3, col,
    example_row_canon.
  cbn [row_atom row_ref1 row_ref2 row_ref3 nth Nat.mul Nat.add].
  split; [| split].
  - unfold bond_of, norm, vsub. cbn [vx vy vz].
    rewrite (sqrt_one_expr ((2 - 1) * (2 - 1) + (1 - 1) * (1 - 1)
                            + (0 - 0) * (0 - 0))) by lra.
    lra.
  - unfold angle_of, norm, vsub, vdiv, dot. cbn [vx vy vz].
    rewrite (sqrt_one_expr ((1 - 1) * (1 - 1) + (0 - 1) * (0 - 1)
                            + (0 - 0) * (0 - 0))) by lra.
    rewrite (sqrt_one_expr ((2 - 1) * (2 - 1) + (1 - 1) * (1 - 1)
                            + (0 - 0) * (0 - 0))) by lra.
    match goal with |- 0 < acos ?c < PI => replace c with 0 by lra end.
    rewrite acos_0. pose proof PI_RGT_0. lra.
  - unfold noncolinear, cross, vsub, vzero. cbn [vx vy vz].
    intros H. inversion H. lra.
Qed.

Lemma example_canon_all_nondegenerate (self : CICT.t) :
  CICT.__init__ 12 example_z [0; 1; 2]%nat (Some example_data) [] false 100
    default_std_default = Returns self ->
  forall r, In r (sorted_z_indices (ix (CICT.ic_transform self))) ->
            nondegenerate example_row_canon r.
Proof.
  intros Hinit r Hr.
  destruct (cict_init_inv _ _ _ _ _ _ _ _ _ Hinit) as (_ & _ & _ & Hic & _).
  rewrite (example_sorted_z _ _ Hic) in Hr.
  destruct Hr as [<- | []]. exact example_canon_nondegenerate.
Qed.

Lemma example_canon_frame :
  canonical_frame (pos example_row_canon 0) (pos example_row_canon 1)
    (pos example_row_canon 2).
Proof.
  unfold canonical_frame, pos, gather3, col, example_row_canon.
  cbn [nth Nat.mul Nat.add vx vy vz]. repeat split; lra.
Qed.

Lemma example_canon_anchors :
  pos example_row_canon 1 <> pos example_row_canon 0
  /\ pos example_row_canon 2 <> pos example_row_canon 0.
Proof.
  unfold pos, gather3, col, example_row_canon.
  cbn [nth Nat.mul Nat.add].
  split; intros H; inversion H; lra.
Qed.

Lemma example_anchors :
  pos example_row 1 <> pos example_row 0
  /\ pos example_row 2 <> pos example_row 0.
Proof.
  unfold pos, gather3, col, example_row.
  cbn [nth Nat.mul Nat.add].
  split; intros H; inversion H; lra.
Qed.

(** X26. For a complete transform built over a well-formed topology with
    non-zero fitted standard deviations, [forward] undoes [inverse] on
    every batch of valid reduced rows of [n_dim - 6] columns: the two
    un-normalised anchor distances positive, the un-normalised anchor
    angle in [0, PI], and the row handed to the inner transform valid
    for it. *)
Theorem complete_forward_after_inverse (n_dim : nat)
    (z : list (nat * list nat)) (c0 c1 c2 : nat) (data : option tensor)
    (circ : list nat) (shift : bool) (bins : nat) (dflt : default_std_t)
    (self : CICT.t) (Z : list (list R)) :
  CICT.__init__ n_dim z [c0; c1; c2] data circ shift bins dflt
    = Returns self ->
  wf_topology n_dim z [c0; c1; c2] ->
  CICT.stds_nonzero self ->
  Forall (fun x => length x = (n_dim - 6)%nat /\ CICT.valid_internal self x)
    Z ->
  fst (CICT.forward self (fst (fst (CICT.inverse self Z)))) = Z.
Proof.
  intros Hinit Hwf Hnz HZ. unfold CICT.forward, CICT.inverse. cbn [fst].
  rewrite map_map. apply map_fixed.
  eapply Forall_impl; [exact HZ |].
  intros x [Hx Hv]. cbv beta.
  exact (complete_forward_inverse_row n_dim z c0 c1 c2 data circ shift bins
           dflt self Hinit Hwf x Hx Hnz Hv).
Qed.

Lemma complete_forward_after_inverse_witness :
  exists self,
    CICT.__init__ 12 example_z [0; 1; 2]%nat (Some example_data) [] false 100
      default_std_default = Returns self
    /\ fst (CICT.forward self
              (fst (fst (CICT.inverse self
                           [fst (CICT.forward_row self example_row_canon)]))))
       = [fst (CICT.forward_row self example_row_canon)].
Proof.
  destruct example_complete_init as [self Hinit]. exists self.
  split; [exact Hinit |].
  apply (complete_forward_after_inverse 12 example_z 0 1 2
           (Some example_data) [] false 100 default_std_default self
           [fst (CICT.forward_row self example_row_canon)] Hinit example_wf
           (example_complete_stds self Hinit)).
  constructor; [| constructor]. split.
  - exact (complete_forward_row_length 12 example_z 0 1 2 (Some example_data)
             [] false 100 default_std_default self Hinit example_wf
             example_row_canon eq_refl).
  - exact (complete_forward_valid 12 example_z 0 1 2 (Some example_data) []
             false 100 default_std_default self Hinit example_wf
             example_row_canon eq_refl (example_complete_stds self Hinit)
             (example_canon_all_nondegenerate self Hinit)
             (proj1 example_canon_anchors) (proj2 example_canon_anchors)
             example_canon_frame).
Defined.

(** X27. [inverse] undoes [forward] exactly on the canonical frame: for a
    sample of the declared width without degenerate geometry and with
    the second and third anchors away from the first, the row that
    [inverse] returns for [forward]'s output is the sample itself if and
    only if its first anchor is at the origin, its second on the
    non-negative x axis, and its third in the xy plane with a
    non-negative y. *)
Theorem complete_inverse_after_forward (n_dim : nat)
    (z : list (nat * list nat)) (c0 c1 c2 : nat) (data : option tensor)
    (circ : list nat) (shift : bool) (bins : nat) (dflt : default_std_t)
    (self : CICT.t) (X : list (list R)) (k : nat) (x : list R) :
  CICT.__init__ n_dim z [c0; c1; c2] data circ shift bins dflt
    = Returns self ->
  wf_topology n_dim z [c0; c1; c2] ->
  CICT.stds_nonzero self ->
  X !! k = Some x -> length x = n_dim ->
  (forall r, In r (sorted_z_indices (ix (CICT.ic_transform self))) ->
             nondegenerate x r) ->
  pos x c1 <> pos x c0 -> pos x c2 <> pos x c0 ->
  fst (fst (CICT.inverse self (fst (CICT.forward self X)))) !! k = Some x
  <-> canonical_frame (pos x c0) (pos x c1) (pos x c2).
Proof.
  intros Hinit Hwf Hnz Hk Hx Hnd N1 N2.
  unfold CICT.forward, CICT.inverse. cbn [fst].
  rewrite map_map, list_lookup_fmap, Hk. cbn [fmap option_fmap option_map].
  rewrite <- (complete_inverse_forward_row n_dim z c0 c1 c2 data circ shift
                bins dflt self Hinit Hwf x Hx Hnz Hnd N1 N2).
  split; [intros [= E]; exact E | intros E; now rewrite E].
Qed.

Lemma complete_inverse_after_forward_witness :
  exists self,
    CICT.__init__ 12 example_z [0; 1; 2]%nat (Some example_data) [] false 100
      default_std_default = Returns self
    /\ (fst (fst (CICT.inverse self
                    (fst (CICT.forward self [example_row_canon])))) !! 0%nat
        = Some example_row_canon
        <-> canonical_frame (pos example_row_canon 0)
              (pos example_row_canon 1) (pos example_row_canon 2)).
Proof.
  destruct example_complete_init as [self Hinit]. exists self.
  split; [exact Hinit |].
  exact (complete_inverse_after_forward 12 example_z 0 1 2
           (Some example_data) [] false 100 default_std_default self
           [example_row_canon] 0 example_row_canon Hinit example_wf
           (example_complete_stds self Hinit) eq_refl eq_refl
           (example_canon_all_nondegenerate self Hinit)
           (proj1 example_canon_anchors) (proj2 example_canon_anchors)).
Defined.

(** X28. Along a round trip of the complete transform the two
    log-determinants cancel: for every batch of samples of the declared
    width without degenerate geometry and with the third anchor away
    from the first, the log-determinant of [forward] plus the
    log-determinant of [inverse] at [forward]'s output is zero for every
    batch element. *)
Theorem complete_jacobian_round_trip (n_dim : nat)
    (z : list (nat * list nat)) (c0 c1 c2 : nat) (data : option tensor)
    (circ : list nat) (shift : bool) (bins : nat) (dflt : default_std_t)
    (self : CICT.t) (X : list (list R)) :
  CICT.__init__ n_dim z [c0; c1; c2] data circ shift bins dflt
    = Returns self ->
  wf_topology n_dim z [c0; c1; c2] ->
  CICT.stds_nonzero self ->
  Forall (fun x => length x = n_dim
                   /\ pos x c2 <> pos x c0
                   /\ forall r,
                        In r (sorted_z_indices (ix (CICT.ic_transform self)))
                        -> nondegenerate x r) X ->
  zip_with Rplus (snd (CICT.forward self X))
    (snd (fst (CICT.inverse self (fst (CICT.forward self X)))))
  = map (fun _ => 0) X.
Proof.
  intros Hinit Hwf Hnz HX. unfold CICT.forward, CICT.inverse. cbn [fst snd].
  rewrite !map_map. rewrite zip_with_map_same.
  apply map_ext_in. intros x Hin.
  rewrite Forall_forall in HX.
  destruct (HX x ltac:(now apply list_elem_of_In)) as (Hx & _ & _).
  exact (complete_jacobian_sum_row n_dim z c0 c1 c2 data circ shift bins dflt
           self Hinit Hwf x Hx Hnz).
Qed.

Lemma complete_jacobian_round_trip_witness :
  exists self,
    CICT.__init__ 12 example_z [0; 1; 2]%nat (Some example_data) [] false 100
      default_std_default = Returns self
    /\ zip_with Rplus (snd (CICT.forward self [example_row]))
         (snd (fst (CICT.inverse self
                      (fst (CICT.forward self [example_row])))))
       = map (fun _ => 0) [example_row].
Proof.
  destruct example_complete_init as [self Hinit]. exists self.
  split; [exact Hinit |].
  apply (complete_jacobian_round_trip 12 example_z 0 1 2 (Some example_data)
           [] false 100 default_std_default self [example_row] Hinit
           example_wf (example_complete_stds self Hinit)).
  constructor; [| constructor]. split; [reflexivity |].
  split; [exact (proj2 example_anchors) |].
  destruct (cict_init_inv _ _ _ _ _ _ _ _ _ Hinit) as (_ & _ & _ & Hic & _).
  exact (example_all_nondegenerate _ _ Hic).
Defined.

(** X29. [forward] of the complete transform does not see a translation:
    moving all atoms of every sample of the declared width by the same
    vector changes neither the returned rows nor the returned
    log-determinants. *)
Theorem complete_forward_translation (n_dim : nat)
    (z : list (nat * list nat)) (c0 c1 c2 : nat) (data : option tensor)
    (circ : list nat) (shift : bool) (bins : nat) (dflt : default_std_t)
    (self : CICT.t) (t : vec3) (X : list (list R)) :
  CICT.__init__ n_dim z [c0; c1; c2] data circ shift bins dflt
    = Returns self ->
  wf_topology n_dim z [c0; c1; c2] ->
  Forall (fun x => length x = n_dim) X ->
  CICT.forward self (map (translate t) X) = CICT.forward self X.
Proof.
  intros Hinit Hwf HX. unfold CICT.forward. rewrite !map_map.
  rewrite Forall_forall in HX.
  f_equal; apply map_ext_in; intros x Hin;
    now rewrite (complete_forward_translate_row n_dim z c0 c1 c2 data circ
                   shift bins dflt self Hinit Hwf t x
                   (HX x ltac:(now apply list_elem_of_In))).
Qed.

Lemma complete_forward_translation_witness :
  exists self,
    CICT.__init__ 12 example_z [0; 1; 2]%nat (Some example_data) [] false 100
      default_std_default = Returns self
    /\ CICT.forward self (map (translate (V3 1 2 3)) [example_row])
       = CICT.forward self [example_row].
Proof.
  destruct example_complete_init as [self Hinit]. exists self.
  split; [exact Hinit |].
  apply (complete_forward_translation 12 example_z 0 1 2 (Some example_data)
           [] false 100 default_std_default self (V3 1 2 3) [example_row]
           Hinit example_wf).
  repeat constructor.
Defined.

End CompleteTheorems.

(* ===================================================================== *)
(** * The [shift_dih] loop of the constructor *)
(* ===================================================================== *)

Section ShiftDih.
Local Open Scope R_scope.
Import InternalCoordinateTransform.

Lemma linspace_lookup (lo hi : R) (n k : nat) (v : R) :
  linspace lo hi n !! k = Some v ->
  (k < n)%nat /\ nth k (linspace lo hi n) 0 = v
  /\ v = lo + INR k * ((hi - lo) / (INR n - 1)).
Proof.
  intros H. pose proof (lookup_lt_Some _ _ _ H) as Hk.
  unfold linspace in Hk. rewrite length_map, length_seq in Hk.
  split; [exact Hk |]. split.
  - now apply nth_lookup_Some with (d := 0) in H.
  - unfold linspace in H. rewrite list_lookup_fmap in H.
    rewrite lookup_seq_lt in H by exact Hk.
    cbn [fmap option_fmap option_map Nat.add] in H. now inversion H.
Qed.

(** One iteration writes a grid point plus [PI] at position [i] and
    leaves the other means alone. *)
Lemma shift_step_mean ix bins (std_dih : list R) X (m : list R) i X' m' :
  shift_step ix bins std_dih (X, m) i = Returns (X', m') ->
  (exists k, (k < bins)%nat
             /\ m' !! i = Some (nth k (linspace (- PI) PI bins) 0 + PI))
  /\ (forall j, j <> i -> m' !! j = m !! j).
Proof.
  unfold shift_step. intros H.
  obind_inv_as H c E1. obind_inv_as H s E2. obind_inv_as H mu E3.
  obind_inv_as H v E4. inversion H; subst; clear H.
  apply get_item_Returns in E3, E4.
  destruct (linspace_lookup _ _ _ _ _ E4) as (Hk & Hn & _).
  split.
  - eexists. split; [exact Hk |]. rewrite Hn.
    apply list_lookup_insert_eq. eapply lookup_lt_Some; eauto.
  - intros j Hj. apply list_lookup_insert_ne. congruence.
Qed.

Lemma shift_loop_other ix bins (std_dih : list R) (l : list nat) :
  forall X (m : list R) X' m',
    ofoldl (shift_step ix bins std_dih) l (X, m) = Returns (X', m') ->
    forall j, ~ In j l -> m' !! j = m !! j.
Proof.
  induction l as [| i l IH]; intros X m X' m' H j Hj; simpl in H.
  - now inversion H.
  - obind_inv_as H st E. destruct st as [X1 m1].
    rewrite (IH _ _ _ _ H j) by (intros Hc; apply Hj; now right).
    apply (proj2 (shift_step_mean _ _ _ _ _ _ _ _ E)).
    intros ->. apply Hj. now left.
Qed.

Lemma shift_loop_mean ix bins (std_dih : list R) (l : list nat) :
  forall X (m : list R) X' m',
    ofoldl (shift_step ix bins std_dih) l (X, m) = Returns (X', m') ->
    forall i, In i l ->
      exists k, (k < bins)%nat
                /\ m' !! i = Some (nth k (linspace (- PI) PI bins) 0 + PI).
Proof.
  induction l as [| a l IH]; intros X m X' m' H i Hi; [destruct Hi |].
  simpl in H. obind_inv_as H st E. destruct st as [X1 m1].
  destruct (in_dec Nat.eq_dec i l) as [Hl | Hl].
  - exact (IH _ _ _ _ H i Hl).
  - destruct Hi as [-> | Hi]; [| contradiction].
    rewrite (shift_loop_other _ _ _ _ _ _ _ _ H i Hl).
    exact (proj1 (shift_step_mean _ _ _ _ _ _ _ _ E)).
Qed.

(** With [shift_dih] set, the fitted dihedral means are those the loop
    leaves. *)
Lemma init_shift_inv dims z cart data circ bins dflt (self : t) :
  __init__ dims z cart data circ true bins dflt = Returns self ->
  exists X0 m0 X',
    ofoldl (shift_step (ix self) bins (std_dih self)) circ (X0, m0)
    = Returns (X', mean_dih self).
Proof.
  unfold __init__. intros H.
  obind_inv_as H ix0 E1. obind_inv_as H u E2. destruct u.
  cbv zeta in H.
  obind_inv_as H sd E3. obind_inv_as H res E4. destruct res as [X' md].
  inversion H; subst self; clear H. cbn [ix std_dih mean_dih].
  eauto.
Qed.

Lemma grid_point_range (bins k : nat) :
  (2 <= bins)%nat -> (k < bins)%nat ->
  0 <= nth k (linspace (- PI) PI bins) 0 + PI <= 2 * PI.
Proof.
  intros Hb Hk.
  destruct (lookup_lt_is_Some_2 (linspace (- PI) PI bins) k) as [v Hv].
  { unfold linspace. now rewrite length_map, length_seq. }
  destruct (linspace_lookup _ _ _ _ _ Hv) as (_ & -> & ->).
  pose proof PI_RGT_0 as Hpi.
  assert (Hn : 1 <= INR bins - 1).
  { apply le_INR in Hb. simpl in Hb. lra. }
  assert (Hk0 : 0 <= INR k) by apply pos_INR.
  assert (Hk1 : INR k <= INR bins - 1).
  { assert (Hle : (S k <= bins)%nat) by lia.
    apply le_INR in Hle. rewrite S_INR in Hle. lra. }
  set (q := INR k / (INR bins - 1)).
  assert (Hq : 0 <= q <= 1).
  { unfold q. split.
    - apply Rmult_le_pos; [exact Hk0 |].
      apply Rlt_le, Rinv_0_lt_compat. lra.
    - apply Rmult_le_reg_r with (INR bins - 1); [lra |].
      unfold Rdiv. rewrite Rmult_assoc, Rinv_l by lra. lra. }
  replace (- PI + INR k * ((PI - - PI) / (INR bins - 1)) + PI)
    with (q * (2 * PI)) by (unfold q; field; lra).
  split; nra.
Qed.

(** X30. With [shift_dih] set, a successful construction leaves at every
    position [i] listed in [ind_circ_dih] a dihedral mean of the form
    [val[k] + PI], where [val[k]] is one of the [hist_bins] points of
    [linspace(-PI, PI, hist_bins)]; with at least two bins this mean
    lies in [0, 2 PI]. *)
Theorem shift_dih_mean (dims : nat) (z : list (nat * list nat))
    (cart : list nat) (data : option tensor) (circ : list nat) (bins : nat)
    (dflt : default_std_t) (self : t) (i : nat) :
  __init__ dims z cart data circ true bins dflt = Returns self ->
  In i circ ->
  exists k,
    (k < bins)%nat
    /\ nth i (mean_dih self) 0 = nth k (linspace (- PI) PI bins) 0 + PI
    /\ ((2 <= bins)%nat -> 0 <= nth i (mean_dih self) 0 <= 2 * PI).
Proof.
  intros Hinit Hi.
  destruct (init_shift_inv _ _ _ _ _ _ _ _ Hinit) as (X0 & m0 & X' & Hloop).
  destruct (shift_loop_mean _ _ _ _ _ _ _ _ Hloop i Hi) as (k & Hk & Hm).
  apply nth_lookup_Some with (d := 0) in Hm.
  exists k. split; [exact Hk |]. split; [exact Hm |].
  intros Hb. rewrite Hm. now apply grid_point_range.
Qed.

Lemma example_init_shift :
  exists self,
    __init__ 12 example_z example_cart (Some example_data) [0%nat] true 100
      default_std_default = Returns self.
Proof.
  apply (proj2 (init_wf_spec 12 example_z example_cart (Some example_data)
                  [0%nat] true 100 default_std_default example_wf
                  ltac:(discriminate)
                  ltac:(intros i [<- | []]; simpl; lia)
                  ltac:(intros _; lia))).
  exact example_data_valid.
Qed.

Lemma shift_dih_mean_witness :
  exists self,
    __init__ 12 example_z example_cart (Some example_data) [0%nat] true 100
      default_std_default = Returns self
    /\ exists k,
         (k < 100)%nat
         /\ nth 0 (mean_dih self) 0 = nth k (linspace (- PI) PI 100) 0 + PI
         /\ ((2 <= 100)%nat -> 0 <= nth 0 (mean_dih self) 0 <= 2 * PI).
Proof.
  destruct example_init_shift as [self Hinit]. exists self.
  split; [exact Hinit |].
  exact (shift_dih_mean 12 example_z example_cart (Some example_data)
           [0%nat] 100 default_std_default self 0 Hinit
           (or_introl eq_refl)).
Defined.

End ShiftDih.
